(** * AI_RAG: retrieval, generation and address resolution services

    A shallow embedding of the CAP services of the repository:

    - [AddressService] (the two [AddressService] files): application-side
      ranking with [normalizeL2], [parseEmbedding], [cosineSim] and the scan
      of [onFindClosest];
    - [AIService] (the routing service with geocoding): [geocodeAddress],
      [getRouteGeometry], [populateCoordinates] and [queryLLM];
    - the variant of [queryLLM] of [srv/service.js], which builds the maps
      link without geocoding;
    - the start-up of the services: the API keys that [init] reads from
      [VCAP_SERVICES];
    - [readAddress], and [getEmbedding] with the [onFindClosest] of the
      services that let the database rank.

    JavaScript numbers are IEEE 754 binary64 values, modelled by Rocq's
    primitive floats; external services (database, embedding and chat models,
    Nominatim, OSRM, timers) are answers of a [world] to logged calls. *)

From Stdlib Require Import List String Ascii Bool ZArith NArith Lia DecimalString.
From Stdlib Require Import Floats Reals Lra Permutation.
Import ListNotations.

Set Implicit Arguments.
Set Warnings "-inexact-float,-register-all".

(** ** Numbers

    The numeric functions of the services use [+], [*], [/], [Math.sqrt],
    [===] and [>] only.  They are written once over an interface and read at
    two arithmetics: [F64], what the JavaScript engine computes, and [Exact],
    the same operations on extended real numbers without rounding. *)

Record Arith : Type := {
  num :> Type;
  zero : num;
  nan : num;                       (* what [undefined] becomes in arithmetic *)
  neg_infinity : num;              (* [-Infinity] *)
  add : num -> num -> num;
  mul : num -> num -> num;
  div : num -> num -> num;
  sqrt : num -> num;               (* [Math.sqrt] *)
  eqb : num -> num -> bool;        (* [===] on numbers *)
  gtb : num -> num -> bool         (* [>] on numbers *)
}.

Definition F64 : Arith := {|
  num := float;
  zero := 0%float;
  nan := PrimFloat.nan;
  neg_infinity := PrimFloat.neg_infinity;
  add := PrimFloat.add;
  mul := PrimFloat.mul;
  div := PrimFloat.div;
  sqrt := PrimFloat.sqrt;
  eqb := PrimFloat.eqb;
  gtb := fun x y => PrimFloat.ltb y x
|}.

(** Extended reals: the values of binary64 without rounding and without a
    signed zero. *)
Inductive xreal : Type :=
| XNaN
| XInf (negative : bool)
| XFin (r : R).

Definition Rltb (a b : R) : bool := if Rlt_dec a b then true else false.
Definition Reqb (a b : R) : bool := if Req_dec_T a b then true else false.

Definition xadd (x y : xreal) : xreal :=
  match x, y with
  | XNaN, _ | _, XNaN => XNaN
  | XInf s, XInf t => if Bool.eqb s t then XInf s else XNaN
  | XInf s, XFin _ | XFin _, XInf s => XInf s
  | XFin a, XFin b => XFin (a + b)
  end.

Definition xmul (x y : xreal) : xreal :=
  match x, y with
  | XNaN, _ | _, XNaN => XNaN
  | XInf s, XInf t => XInf (xorb s t)
  | XInf s, XFin r | XFin r, XInf s =>
      if Reqb r 0 then XNaN else XInf (xorb s (Rltb r 0))
  | XFin a, XFin b => XFin (a * b)
  end.

Definition xdiv (x y : xreal) : xreal :=
  match x, y with
  | XNaN, _ | _, XNaN => XNaN
  | XInf _, XInf _ => XNaN
  | XInf s, XFin r => XInf (xorb s (Rltb r 0))
  | XFin _, XInf _ => XFin 0
  | XFin a, XFin b =>
      if Reqb b 0
      then (if Reqb a 0 then XNaN else XInf (Rltb a 0))
      else XFin (a / b)
  end.

Definition xsqrt (x : xreal) : xreal :=
  match x with
  | XNaN => XNaN
  | XInf s => if s then XNaN else XInf false
  | XFin r => if Rltb r 0 then XNaN else XFin (R_sqrt.sqrt r)
  end.

Definition xeqb (x y : xreal) : bool :=
  match x, y with
  | XFin a, XFin b => Reqb a b
  | XInf s, XInf t => Bool.eqb s t
  | _, _ => false
  end.

Definition xgtb (x y : xreal) : bool :=
  match x, y with
  | XNaN, _ | _, XNaN => false
  | XInf s, XInf t => negb s && t
  | XInf s, XFin _ => negb s
  | XFin _, XInf t => t
  | XFin a, XFin b => Rltb b a
  end.

Definition Exact : Arith := {|
  num := xreal;
  zero := XFin 0;
  nan := XNaN;
  neg_infinity := XInf true;
  add := xadd;
  mul := xmul;
  div := xdiv;
  sqrt := xsqrt;
  eqb := xeqb;
  gtb := xgtb
|}.

Section Vectors.

Variable A : Arith.

(** [vec.reduce((acc, val) => acc + val * val, 0)] *)
Definition sumSquares (vec : list A) : A :=
  fold_left (fun acc val => add A acc (mul A val val)) vec (zero A).

(** The Euclidean norm as [normalizeL2] computes it. *)
Definition l2norm (vec : list A) : A := sqrt A (sumSquares vec).

(** [normalizeL2(vec)]:
    [const norm = Math.sqrt(vec.reduce(...)); return norm === 0 ? vec : vec.map(v => v / norm)] *)
Definition normalizeL2 (vec : list A) : list A :=
  let norm := sqrt A (fold_left (fun acc val => add A acc (mul A val val)) vec (zero A)) in
  if eqb A norm (zero A) then vec else map (fun v => div A v norm) vec.

(** [a[i]]: an index past the end reads [undefined], which arithmetic turns
    into NaN. *)
Definition at_index (a : list A) (i : nat) : A := nth i a (nan A).

(** One round of the loop of [cosineSim] on the accumulators
    [(dot, na, nb)]. *)
Definition cosineStep (a b : list A) (acc : A * A * A) (i : nat) : A * A * A :=
  let '(dot, na, nb) := acc in
  (add A dot (mul A (at_index a i) (at_index b i)),
   add A na (mul A (at_index a i) (at_index a i)),
   add A nb (mul A (at_index b i) (at_index b i))).

(** [cosineSim(a, b)]: the loop runs over [i < a.length]. *)
Definition cosineSim (a b : list A) : A :=
  let '(dot, na, nb) :=
    fold_left (cosineStep a b) (seq 0 (List.length a)) (zero A, zero A, zero A) in
  div A dot (mul A (sqrt A na) (sqrt A nb)).

End Vectors.

(** ** JavaScript values used by the services

    A text is a JavaScript string, held as the bytes of its UTF-8 form.  An
    unpaired surrogate, for which UTF-8 has no form, is held as the three
    bytes that the scheme of UTF-8 gives its code unit: the byte 237, a byte
    from 160 to 191 and a continuation byte. *)

Local Open Scope string_scope.

(** Truthiness of a number: [0], [-0] and [NaN] are falsy. *)
Definition truthy_number (x : float) : bool :=
  negb (PrimFloat.eqb x 0%float) && negb (PrimFloat.is_nan x).

(** Truthiness of a nullable number ([null] and [undefined] are falsy). *)
Definition truthy_coordinate (x : option float) : bool :=
  match x with
  | Some v => truthy_number v
  | None => false
  end.

(** Truthiness of a string: only the empty string is falsy. *)
Definition truthy_string (s : string) : bool := negb (String.eqb s "").

(** A nullable text column inside a template literal: [null] prints as the
    word null. *)
Definition template (field : option string) : string :=
  match field with
  | Some s => s
  | None => "null"
  end.

(** [n.toString()] for an integer. *)
Definition Z_toString (n : Z) : string := NilEmpty.string_of_int (Z.to_int n).

Definition nat_toString (n : nat) : string := NilEmpty.string_of_uint (Nat.to_uint n).

(** [parts.join(sep)] *)
Fixpoint join (sep : string) (parts : list string) : string :=
  match parts with
  | [] => ""
  | [p] => p
  | p :: rest => p ++ sep ++ join sep rest
  end.

(** [xs.slice(1, -1)]: all but the first and the last element. *)
Definition slice_1_m1 {T : Type} (xs : list T) : list T := removelast (tl xs).

(** White space and line terminators of one byte: the tab, the line feed,
    the vertical tab, the form feed, the carriage return and the space. *)
Definition is_space (c : ascii) : bool :=
  let n := nat_of_ascii c in
  Nat.eqb n 32 || (Nat.leb 9 n && Nat.leb n 13).

(** Of two bytes: the no-break space U+00A0. *)
Definition is_space2 (c1 c2 : ascii) : bool :=
  Nat.eqb (nat_of_ascii c1) 194 && Nat.eqb (nat_of_ascii c2) 160.

(** Of three bytes: U+1680, U+2000 to U+200A, the line and paragraph
    separators U+2028 and U+2029, U+202F, U+205F, U+3000 and the byte order
    mark U+FEFF. *)
Definition is_space3 (c1 c2 c3 : ascii) : bool :=
  let n1 := nat_of_ascii c1 in
  let n2 := nat_of_ascii c2 in
  let n3 := nat_of_ascii c3 in
  (Nat.eqb n1 225 && Nat.eqb n2 154 && Nat.eqb n3 128)
  || (Nat.eqb n1 226 && Nat.eqb n2 128
      && ((Nat.leb 128 n3 && Nat.leb n3 138) || existsb (Nat.eqb n3) [168; 169; 175]%nat))
  || (Nat.eqb n1 226 && Nat.eqb n2 129 && Nat.eqb n3 159)
  || (Nat.eqb n1 227 && Nat.eqb n2 128 && Nat.eqb n3 128)
  || (Nat.eqb n1 239 && Nat.eqb n2 187 && Nat.eqb n3 191).

(** [str.trimStart()] on the bytes of [str]: the white space and the line
    terminators that [trim] removes are those of ECMAScript. *)
Fixpoint trimStart_chars (cs : list ascii) : list ascii :=
  match cs with
  | c1 :: rest1 =>
      if is_space c1 then trimStart_chars rest1
      else
        match rest1 with
        | c2 :: rest2 =>
            if is_space2 c1 c2 then trimStart_chars rest2
            else
              match rest2 with
              | c3 :: rest3 => if is_space3 c1 c2 c3 then trimStart_chars rest3 else cs
              | [] => cs
              end
        | [] => cs
        end
  | [] => []
  end.

(** [str.trimEnd()] on the bytes of [str] in reverse: the last byte comes
    first. *)
Fixpoint trimEnd_reversed (rs : list ascii) : list ascii :=
  match rs with
  | r1 :: rest1 =>
      if is_space r1 then trimEnd_reversed rest1
      else
        match rest1 with
        | r2 :: rest2 =>
            if is_space2 r2 r1 then trimEnd_reversed rest2
            else
              match rest2 with
              | r3 :: rest3 => if is_space3 r3 r2 r1 then trimEnd_reversed rest3 else rs
              | [] => rs
              end
        | [] => rs
        end
  | [] => []
  end.

(** [str.trim()] *)
Definition trim (str : string) : string :=
  string_of_list_ascii
    (rev (trimEnd_reversed (rev (trimStart_chars (list_ascii_of_string str))))).

Definition dquote : ascii := ascii_of_nat 34.

(** [str.startsWith('"') && str.endsWith('"')] *)
Definition quoted (str : string) : bool :=
  match list_ascii_of_string str with
  | [] => false
  | c :: rest => Ascii.eqb c dquote && Ascii.eqb (last (c :: rest) c) dquote
  end.

(** [str.slice(1, -1)] *)
Definition unquote (str : string) : string :=
  string_of_list_ascii (slice_1_m1 (list_ascii_of_string str)).

(** Characters [encodeURIComponent] leaves as they are: letters, digits and
    [- _ . ! ~ * ' ( )]. *)
Definition unreserved (c : ascii) : bool :=
  let n := nat_of_ascii c in
  (Nat.leb 65 n && Nat.leb n 90) || (Nat.leb 97 n && Nat.leb n 122)
  || (Nat.leb 48 n && Nat.leb n 57)
  || existsb (Nat.eqb n) [45; 95; 46; 33; 126; 42; 39; 40; 41]%nat.

Definition hex_digit (n : nat) : ascii :=
  if Nat.ltb n 10 then ascii_of_nat (48 + n) else ascii_of_nat (55 + n).

Definition percent_encode (c : ascii) : list ascii :=
  let n := nat_of_ascii c in
  [ascii_of_nat 37; hex_digit (Nat.div n 16); hex_digit (Nat.modulo n 16)].

(** What [encodeURIComponent(s)] returns, on the UTF-8 bytes of [s]; the
    call throws instead when [s] is not well formed, see
    [encodeURIComponent_call]. *)
Definition encodeURIComponent (s : string) : string :=
  string_of_list_ascii
    (flat_map (fun c => if unreserved c then [c] else percent_encode c)
       (list_ascii_of_string s)).

(** The bytes hold an unpaired surrogate. *)
Fixpoint lone_surrogate (cs : list ascii) : bool :=
  match cs with
  | c1 :: rest =>
      match rest with
      | c2 :: _ =>
          (Nat.eqb (nat_of_ascii c1) 237 && Nat.leb 160 (nat_of_ascii c2))
          || lone_surrogate rest
      | [] => false
      end
  | [] => false
  end.

(** [s.isWellFormed()]: [s] holds no unpaired surrogate. *)
Definition isWellFormed (s : string) : bool :=
  negb (lone_surrogate (list_ascii_of_string s)).

(** Parsed JSON. *)
Inductive json : Type :=
| JNull
| JBool (b : bool)
| JNum (x : float)
| JStr (s : string)
| JArr (items : list json)
| JObj (fields : list (string * json)).

(** The built-ins of the JavaScript runtime and of the libraries that the
    model takes as given. *)
Record Runtime : Type := {
  (** [JSON.parse(text)]; [None] when it throws a SyntaxError *)
  JSON_parse : string -> option json;
  (** [Number(text)] *)
  Number : string -> float;
  (** the number an array or an object turns into under [*] *)
  ToNumber_object : json -> float;
  (** [str.match(/-?\d+(\.\d+)?(e-?\d+)?/g)]; [None] for [null] *)
  match_numbers : string -> option (list string);
  (** the JSON value [StructuredOutputParser] reads out of a completion;
      [None] when the text holds none *)
  completion_json : string -> option json
}.

(** The number a JSON value contributes to a product. *)
Definition ToNumber (rt : Runtime) (v : json) : float :=
  match v with
  | JNum x => x
  | JNull => 0%float
  | JBool b => if b then 1%float else 0%float
  | JStr s => Number rt s
  | JArr _ | JObj _ => ToNumber_object rt v
  end.

(** ** Requests and rows *)

(** What a handler receives: a CAP request, whose [data] may lack the
    [prompt], or a bare string when the handler is called directly. *)
Inductive request : Type :=
| ReqObject (data : option (option string))
| ReqString (s : string).

(** [req.data?.prompt] (a string has no [data]). *)
Definition data_prompt (req : request) : option string :=
  match req with
  | ReqObject (Some prompt) => prompt
  | ReqObject None => None
  | ReqString _ => None
  end.

(** The value bound to [query] in [queryLLM]: a string, or the request
    object itself. *)
Inductive query_value : Type :=
| QString (s : string)
| QObject (data : option (option string)).

(** [!query]: an object is truthy, a string is truthy unless empty. *)
Definition falsy_query (q : query_value) : bool :=
  match q with
  | QString s => negb (truthy_string s)
  | QObject _ => false
  end.

(** How a query prints inside the prompt. *)
Definition query_text (q : query_value) : string :=
  match q with
  | QString s => s
  | QObject _ => "[object Object]"
  end.

(** A row of a vector search: its columns in order, [None] for [null]. *)
Definition record : Type := list (string * option string).

(** A row of the table of addresses that [onFindClosest] scans. *)
Record address_row : Type := {
  AddressID : Z;
  AddresseeFullName : option string;
  EMBEDDING : option string
}.

(** A row of CLIENTS. *)
Record client : Type := {
  ID : Z;
  CompanyName : option string;
  Address : option string;
  PostalCode : option string;
  City : option string;
  Country : option string;
  Latitude : option float;
  Longitude : option float
}.

(** [{ lat, lon }] *)
Record coords : Type := { lat : float; lon : float }.

(** A route of an OSRM answer; its geometry may be missing. *)
Record route : Type := { geometry : option json }.

(** The body of an OSRM answer: [data.routes] may be missing. *)
Record osrm_data : Type := { routes : option (list route) }.

(** ** External calls

    Every call to the outside is logged with the time of the logical clock
    (milliseconds) at which it is issued.  The [world] decides the answer of
    a call and how long it takes from the history up to and including that
    call. *)

Inductive event : Type :=
| EmbeddingsCreate (input : string)
| SelectAddresses
| RunVectorSearch (query : query_value)
| ChatInvoke (context : string) (query : query_value)
| ChatRepair (completion : string) (error : string)
| SelectClientsById (ids : list string)
| SelectClientsWithoutCoordinates
| UpdateCoordinates (lat lon : float) (id : Z)
| FetchNominatim (url : string)
| FetchOsrm (coordinates : list coords)
| SetTimeout (ms : N).

Definition history : Type := list (N * event).

Inductive reply (T : Type) : Type :=
| Answer (a : T)
| Failure (message : string).

Arguments Answer {T} a.
Arguments Failure {T} message.

Record world : Type := {
  embeddings_create : history -> string -> reply (list float);
  select_addresses : history -> reply (list address_row);
  run_vector_search : history -> query_value -> reply (list record);
  chat_invoke : history -> string -> query_value -> reply string;
  chat_repair : history -> string -> string -> reply string;
  select_clients_by_id : history -> list string -> reply (list client);
  select_clients_without_coordinates : history -> reply (list client);
  update_coordinates : history -> float -> float -> Z -> reply unit;
  (** the body of the answer, with [parseFloat] applied to [lat] and [lon];
      a failure is an exception of [fetch] or of [response.json()] *)
  fetch_nominatim : history -> string -> reply (list coords);
  fetch_osrm : history -> list coords -> reply osrm_data;
  (** the time the call at the end of the history takes; for a timer, the
      time by which it fires late *)
  latency : history -> N
}.

Record state : Type := { now : N; log : history }.

(** The result of a computation: a value or a thrown exception with its
    [message]. *)
Inductive result (T : Type) : Type :=
| Ok (a : T)
| Throw (message : string).

Arguments Ok {T} a.
Arguments Throw {T} message.

Definition M (T : Type) : Type := state -> result T * state.

Definition ret {T : Type} (a : T) : M T := fun s => (Ok a, s).

Definition throw {T : Type} (message : string) : M T := fun s => (Throw message, s).

Definition bind {T U : Type} (m : M T) (k : T -> M U) : M U :=
  fun s =>
    match m s with
    | (Ok a, s') => k a s'
    | (Throw e, s') => (Throw e, s')
    end.

(** [try { body } catch (err) { handler(err.message) }] *)
Definition try_catch {T : Type} (body : M T) (handler : string -> M T) : M T :=
  fun s =>
    match body s with
    | (Ok a, s') => (Ok a, s')
    | (Throw e, s') => handler e s'
    end.

Declare Scope js_scope.
Delimit Scope js_scope with js.
Notation "x <- m ;; k" := (bind m (fun x => k))
  (at level 100, m at next level, right associativity) : js_scope.
Notation "m ;;; k" := (bind m (fun _ => k))
  (at level 100, right associativity) : js_scope.

(** The call [encodeURIComponent(s)]: a text with an unpaired surrogate
    makes it throw a URIError, whose message is [URI malformed]. *)
Definition encodeURIComponent_call (s : string) : M string :=
  if isWellFormed s then ret (encodeURIComponent s) else throw "URI malformed".

(** A promise in flight: the answer it will settle with and when. *)
Record promise (T : Type) : Type := {
  settles_with : reply T;
  settles_at : N
}.

(** ** The output schema

    Modelled from the spec: the combinators are those of the zod library,
    which is not part of the repository; the schemas built from them are the
    services'.  A number schema accepts numbers only, and not NaN; [min] and
    [max] are inclusive bounds; an array schema checks every element; an
    object schema requires each key of its shape and, as zod does unless told
    otherwise, drops the keys it does not know; [describe] does not change
    what is accepted. *)

Inductive check : Type :=
| check_min (value : float)
| check_max (value : float).

Inductive zod : Type :=
| ZodString
| ZodNumber (checks : list check)
| ZodArray (element : zod)
| ZodObject (shape : list (string * zod)).

Module z.
Definition number : zod := ZodNumber [].
Definition min (value : float) (schema : zod) : zod :=
  match schema with
  | ZodNumber checks => ZodNumber (checks ++ [check_min value])
  | _ => schema
  end.
Definition max (value : float) (schema : zod) : zod :=
  match schema with
  | ZodNumber checks => ZodNumber (checks ++ [check_max value])
  | _ => schema
  end.
Definition array (element : zod) : zod := ZodArray element.
Definition object (shape : list (String.string * zod)) : zod := ZodObject shape.
Definition string : zod := ZodString.
End z.

(** The issue a check raises: [tooSmall = input < value],
    [tooBig = input > value]. *)
Definition violates (x : float) (c : check) : bool :=
  match c with
  | check_min value => PrimFloat.ltb x value
  | check_max value => PrimFloat.ltb value x
  end.

(** [object[key]] of a parsed JSON object: the last occurrence of a repeated
    key wins. *)
Fixpoint property (key : string) (fields : list (string * json)) : option json :=
  match fields with
  | [] => None
  | (k, v) :: rest =>
      match property key rest with
      | Some later => Some later
      | None => if String.eqb k key then Some v else None
      end
  end.

Fixpoint all_some {T : Type} (xs : list (option T)) : option (list T) :=
  match xs with
  | [] => Some []
  | Some x :: rest => option_map (cons x) (all_some rest)
  | None :: _ => None
  end.

(** [schema.safeParse(input)]: the accepted data, or [None] on any issue. *)
Fixpoint safeParse (schema : zod) (input : json) {struct schema} : option json :=
  match schema with
  | ZodString =>
      match input with
      | JStr _ => Some input
      | _ => None
      end
  | ZodNumber checks =>
      match input with
      | JNum x =>
          if PrimFloat.is_nan x || existsb (violates x) checks then None
          else Some input
      | _ => None
      end
  | ZodArray element =>
      match input with
      | JArr items => option_map JArr (all_some (map (safeParse element) items))
      | _ => None
      end
  | ZodObject shape =>
      match input with
      | JObj fields =>
          option_map JObj
            ((fix parse_shape (keys : list (string * zod))
                : option (list (string * json)) :=
                match keys with
                | [] => Some []
                | (key, s) :: rest =>
                    match property key fields with
                    | None => None
                    | Some v =>
                        match safeParse s v, parse_shape rest with
                        | Some v', Some parsed => Some ((key, v') :: parsed)
                        | _, _ => None
                        end
                    end
                end) shape)
      | _ => None
      end
  end.

(** [outputSchema] of the routing services. *)
Definition outputSchema : zod :=
  z.object
    [("answer", z.string);
     ("confidence", z.max 1 (z.min 0 z.number));
     ("relevantAddresses",
      z.array
        (z.object
           [("addressId", z.string);
            ("relevance", z.max 1 (z.min 0 z.number))]))].

(** An entry of [relevantAddresses]. *)
Record relevant : Type := { addressId : string; relevance : float }.

(** The object the chain resolves to. *)
Record generated : Type := {
  answer : string;
  confidence : float;
  relevantAddresses : list relevant
}.

Definition get_string (key : string) (v : json) : string :=
  match v with
  | JObj fields => match property key fields with Some (JStr s) => s | _ => "" end
  | _ => ""
  end.

Definition get_number (key : string) (v : json) : float :=
  match v with
  | JObj fields =>
      match property key fields with Some (JNum x) => x | _ => PrimFloat.nan end
  | _ => PrimFloat.nan
  end.

Definition get_array (key : string) (v : json) : list json :=
  match v with
  | JObj fields => match property key fields with Some (JArr items) => items | _ => [] end
  | _ => []
  end.

(** The fields of data that [outputSchema] accepted. *)
Definition generated_of (data : json) : generated :=
  {| answer := get_string "answer" data;
     confidence := get_number "confidence" data;
     relevantAddresses :=
       map (fun item => {| addressId := get_string "addressId" item;
                           relevance := get_number "relevance" item |})
         (get_array "relevantAddresses" data) |}.

(** What a handler hands back: the value it returns, or the rejection
    [req.reject(code, message)]. *)
Inductive outcome (T : Type) : Type :=
| Returned (a : T)
| Rejected (code : N) (message : string).

Arguments Returned {T} a.
Arguments Rejected {T} code message.

Local Open Scope js_scope.

Section Services.

Variable rt : Runtime.
Variable w : world.

(** Start an external call: it is logged now, and settles later. *)
Definition issue {T : Type} (e : event) (oracle : history -> reply T) : M (promise T) :=
  fun s =>
    let h := (log s ++ [(now s, e)])%list in
    (Ok {| settles_with := oracle h; settles_at := now s + latency w h |},
     {| now := now s; log := h |}).

(** [await promise] *)
Definition await {T : Type} (p : promise T) : M T :=
  fun s =>
    (match settles_with p with
     | Answer a => Ok a
     | Failure e => Throw e
     end,
     {| now := N.max (now s) (settles_at p); log := log s |}).

(** [await] of a call made on the spot. *)
Definition call {T : Type} (e : event) (oracle : history -> reply T) : M T :=
  p <- issue e oracle ;; await p.

(** [await new Promise(resolve => setTimeout(resolve, ms))]: a timer never
    fires early. *)
Definition sleep (ms : N) : M unit :=
  fun s =>
    let h := (log s ++ [(now s, SetTimeout ms)])%list in
    (Ok tt, {| now := now s + ms + latency w h; log := h |}).

(** [req.reject(code, message)]; a bare string has no [reject]. *)
Definition reject {T : Type} (req : request) (code : N) (message : string)
  : M (outcome T) :=
  match req with
  | ReqObject _ => ret (Rejected code message)
  | ReqString _ => throw "req.reject is not a function"
  end.

(** *** AddressService *)

(** [parseEmbedding(raw)] *)
Definition parseEmbedding (raw : option string) : option (list float) :=
  match raw with
  | None => None
  | Some text =>
      if negb (truthy_string text) then None
      else
        let str := trim text in
        let str := if quoted str then unquote str else str in
        match JSON_parse rt str with
        | Some (JArr arr) => Some (map (ToNumber rt) arr)
        | Some _ => None
        | None =>
            match match_numbers rt str with
            | Some matches => Some (map (Number rt) matches)
            | None => None
            end
        end
  end.

(** One round of the loop [for (const a of addrs)] of [onFindClosest] on
    [(best, bestScore)]. *)
Definition scanStep (userEmbedding : list float) (acc : option address_row * float)
    (a : address_row) : option address_row * float :=
  match parseEmbedding (EMBEDDING a) with
  | None => acc
  | Some dbEmb =>
      if negb (Nat.eqb (List.length dbEmb) (List.length userEmbedding)) then acc
      else
        let similarity := cosineSim F64 userEmbedding dbEmb in
        if gtb F64 similarity (snd acc) then (Some a, similarity) else acc
  end.

(** The loop, from [best = null] and [bestScore = -Infinity]. *)
Definition scan (userEmbedding : list float) (addrs : list address_row)
  : option address_row * float :=
  fold_left (scanStep userEmbedding) addrs (None, neg_infinity F64).

(** [onFindClosest(req)] of the address service that ranks in the
    application. *)
Definition onFindClosest (req : request) : M (outcome (option address_row)) :=
  match req with
  | ReqObject (Some prompt) =>
      match prompt with
      | Some p =>
          if negb (truthy_string p) then reject req 400 "prompt is required"
          else
            try_catch
              (embedding <- call (EmbeddingsCreate p) (fun h => embeddings_create w h p) ;;
               let userEmbedding := firstn 768 embedding in
               let userEmbedding := normalizeL2 F64 userEmbedding in
               addrs <- call SelectAddresses (select_addresses w) ;;
               ret (Returned (fst (scan userEmbedding addrs))))
              (fun message =>
                 reject req 500 ("Failed to find closest address: " ++ message))
      | None => reject req 400 "prompt is required"
      end
  | _ => throw "Cannot destructure property 'prompt'"
  end.

(** *** The routing service: geocoding and route geometry *)

(** The URL that [geocodeAddress] asks for a well-formed address. *)
Definition nominatim_url (address : string) : string :=
  "https://nominatim.openstreetmap.org/search?q=" ++ encodeURIComponent address
  ++ "&format=json&limit=1".

(** [geocodeAddress(address)] up to its first [await]: the address is
    encoded, which happens before the [try] and may throw, and the request is
    sent. *)
Definition geocodeAddress_fetch (address : string) : M (promise (list coords)) :=
  query <- encodeURIComponent_call address ;;
  let url := "https://nominatim.openstreetmap.org/search?q=" ++ query
             ++ "&format=json&limit=1" in
  issue (FetchNominatim url) (fun h => fetch_nominatim w h url).

(** The rest of [geocodeAddress]: the first match, or [null] when there is
    none or anything threw. *)
Definition geocodeAddress_settle (p : promise (list coords)) : M (option coords) :=
  try_catch
    (data <- await p ;;
     match data with
     | first :: _ => ret (Some first)
     | [] => ret None
     end)
    (fun _ => ret None).

(** [geocodeAddress(address)] *)
Definition geocodeAddress (address : string) : M (option coords) :=
  p <- geocodeAddress_fetch address ;; geocodeAddress_settle p.

(** [getRouteGeometry(coordinates)] *)
Definition getRouteGeometry (coordinates : list coords) : M (option json) :=
  if Nat.ltb (List.length coordinates) 2 then ret None
  else
    try_catch
      (data <- call (FetchOsrm coordinates) (fun h => fetch_osrm w h coordinates) ;;
       match routes data with
       | Some (first :: _) => ret (geometry first)
       | _ => ret None
       end)
      (fun _ => ret None).

(** [`${client.Address}, ${client.PostalCode} ${client.City}, ${client.Country}`] *)
Definition fullAddress (c : client) : string :=
  template (Address c) ++ ", " ++ template (PostalCode c) ++ " "
  ++ template (City c) ++ ", " ++ template (Country c).

Record updated_entry : Type := {
  updated_id : Z;
  updated_address : string;
  updated_lat : float;
  updated_lon : float
}.

Record failed_entry : Type := { failed_id : Z; failed_address : string }.

(** [results = { updated: [], failed: [] }] *)
Record results : Type := {
  updated : list updated_entry;
  failed : list failed_entry
}.

(** The body of the loop [for (const client of clients)] of
    [populateCoordinates], delay included. *)
Definition processClient (res : results) (c : client) : M results :=
  coords <- geocodeAddress (fullAddress c) ;;
  res' <- match coords with
          | Some found =>
              call (UpdateCoordinates (lat found) (lon found) (ID c))
                (fun h => update_coordinates w h (lat found) (lon found) (ID c)) ;;;
              ret {| updated := (updated res ++
                       [{| updated_id := ID c; updated_address := fullAddress c;
                           updated_lat := lat found; updated_lon := lon found |}])%list;
                     failed := failed res |}
          | None =>
              ret {| updated := updated res;
                     failed := (failed res ++
                       [{| failed_id := ID c; failed_address := fullAddress c |}])%list |}
          end ;;
  sleep 1000 ;;;
  ret res'.

Fixpoint processClients (res : results) (clients : list client) : M results :=
  match clients with
  | [] => ret res
  | c :: rest => res' <- processClient res c ;; processClients res' rest
  end.

(** What [populateCoordinates] returns: the lists are absent when there was
    nothing to do. *)
Record populated : Type := {
  message : string;
  updated_list : option (list updated_entry);
  failed_list : option (list failed_entry)
}.

(** [populateCoordinates(req)] *)
Definition populateCoordinates (req : request) : M (outcome populated) :=
  try_catch
    (clients <- call SelectClientsWithoutCoordinates
                  (select_clients_without_coordinates w) ;;
     if Nat.eqb (List.length clients) 0 then
       ret (Returned
              {| message := "All clients already have coordinates or no clients found.";
                 updated_list := None; failed_list := None |})
     else
       res <- processClients {| updated := []; failed := [] |} clients ;;
       ret (Returned
              {| message := "Processed " ++ nat_toString (List.length clients) ++ " clients.";
                 updated_list := Some (updated res);
                 failed_list := Some (failed res) |}))
    (fun e => reject req 500 ("Failed to populate coordinates: " ++ e)).

(** *** The chain of [queryLLM] *)

Definition newline : string := String (ascii_of_nat 10) "".

(** [`Address Record: {${formattedFields}}`] *)
Definition formatRecord (r : record) : string :=
  "Address Record: {"
  ++ join ", "
       (map (fun column =>
               fst column ++ ": "
               ++ match snd column with Some value => value | None => "N/A" end) r)
  ++ "}".

Definition contextOf (contextRecords : list record) : string :=
  join newline (map formatRecord contextRecords).

(** [runVectorSearch(query)] *)
Definition runVectorSearch (query : query_value) : M (list record) :=
  call (RunVectorSearch query) (fun h => run_vector_search w h query).

(** [parser.parse(text)] for
    [parser = StructuredOutputParser.fromZodSchema(outputSchema)]. *)
Definition parser_parse (text : string) : M generated :=
  match completion_json rt text with
  | None => throw "Failed to parse"
  | Some value =>
      match safeParse outputSchema value with
      | Some data => ret (generated_of data)
      | None => throw "Failed to parse"
      end
  end.

(** Modelled from the spec: [OutputFixingParser.parse] of the langchain
    library, which is not part of the repository.  When the output fails
    validation, the invalid output and the validation error are fed back to
    the model once, and the repaired output is parsed again; a second failure
    is final. *)
Definition parserWithFix_parse (completion : string) : M generated :=
  try_catch (parser_parse completion)
    (fun e =>
       repaired <- call (ChatRepair completion e)
                     (fun h => chat_repair w h completion e) ;;
       parser_parse repaired).

(** [llmChain.invoke({ context, query, formatInstructions })] for
    [llmChain = promptTemplate.pipe(getChatModel()).pipe(parserWithFix)]. *)
Definition llmChain_invoke (context : string) (query : query_value) : M generated :=
  completion <- call (ChatInvoke context query)
                  (fun h => chat_invoke w h context query) ;;
  parserWithFix_parse completion.

(** [req.data?.prompt || req] *)
Definition query_of (req : request) : query_value :=
  let self := match req with
              | ReqString s => QString s
              | ReqObject data => QObject data
              end in
  match data_prompt req with
  | Some prompt => if truthy_string prompt then QString prompt else self
  | None => self
  end.

(** What the block [// Generate Google Maps URL] and the fallback text of the
    response leave in [mapsUrl] for the address strings of the waypoints,
    when each of them can be encoded; see [mapsUrl_block]. *)
Definition mapsUrl_of (addresses : list string) : string :=
  let mapsUrl :=
    match addresses with
    | [] => ""
    | first :: _ =>
        let origin := encodeURIComponent first in
        let destination := encodeURIComponent (last addresses first) in
        let waypoints := join "|" (map encodeURIComponent (slice_1_m1 addresses)) in
        let mapsUrl :=
          "https://www.google.com/maps/dir/?api=1&origin=" ++ origin
          ++ "&destination=" ++ destination in
        let mapsUrl :=
          if truthy_string waypoints then mapsUrl ++ "&waypoints=" ++ waypoints
          else mapsUrl in
        mapsUrl ++ "&travelmode=driving"
    end in
  if truthy_string mapsUrl then mapsUrl else "No valid addresses found for mapping".

(** [addresses.find(a => a.ID.toString() === relAddr.addressId)] *)
Definition find_address (addresses : list client) (relAddr : relevant) : option client :=
  find (fun a => String.eqb (Z_toString (ID a)) (addressId relAddr)) addresses.

Fixpoint mapM {X Y : Type} (f : X -> M Y) (xs : list X) : M (list Y) :=
  match xs with
  | [] => ret []
  | x :: rest => y <- f x ;; ys <- mapM f rest ;; ret (y :: ys)
  end.

(** The block [// Generate Google Maps URL], on the address strings of the
    waypoints: every address is encoded, which may throw. *)
Definition mapsUrl_block (addresses : list string) : M string :=
  match addresses with
  | [] => ret ""
  | first :: _ =>
      origin <- encodeURIComponent_call first ;;
      destination <- encodeURIComponent_call (last addresses first) ;;
      stops <- mapM encodeURIComponent_call (slice_1_m1 addresses) ;;
      let waypoints := join "|" stops in
      let mapsUrl :=
        "https://www.google.com/maps/dir/?api=1&origin=" ++ origin
        ++ "&destination=" ++ destination in
      let mapsUrl :=
        if truthy_string waypoints then mapsUrl ++ "&waypoints=" ++ waypoints
        else mapsUrl in
      ret (mapsUrl ++ "&travelmode=driving")
  end.

(** [mapsUrl || 'No valid addresses found for mapping'] *)
Definition mapsUrl_or_text (mapsUrl : string) : string :=
  if truthy_string mapsUrl then mapsUrl else "No valid addresses found for mapping".

(** *** Callbacks that run side by side

    [Promise.all(xs.map(async x => ...))]: [map] runs every callback up to
    its first [await] before anything settles.  Then the callbacks go on, one
    stretch at a time, each when the promise it waits for settles: the one
    whose promise settles earliest goes first, and of those of one instant
    the first in the array.  What a callback throws rejects its promise.
    [Promise.all] fulfils with the values in the order of the array once
    every callback has returned, and rejects with the first rejection in
    time; nothing stops the callbacks still in flight then, and the calls
    they go on to make are logged as they are made. *)

(** An async callback on its way: it has returned, it has thrown, or it
    waits for a promise. *)
Inductive callback (W Y : Type) : Type :=
| Returns (value : Y)
| Throws (message : string) (at_time : N)
| Waits (promised : W).

Arguments Returns {W Y} value.
Arguments Throws {W Y} message at_time.
Arguments Waits {W Y} promised.

Section PromiseAll.

Variables X W Y : Type.

(** The callback up to its first [await]: its value if it has none, or
    what it waits for. *)
Variable start : X -> M (Y + W).

(** The time at which what a callback waits for settles. *)
Variable settles : W -> N.

(** The callback from there to its next [await] or to its end. *)
Variable resume : W -> M (Y + W).

(** One stretch of a callback. *)
Definition stretch (m : M (Y + W)) : M (callback W Y) :=
  fun s =>
    match m s with
    | (Ok (inl value), s') => (Ok (Returns value), s')
    | (Ok (inr promised), s') => (Ok (Waits promised), s')
    | (Throw e, s') => (Ok (Throws e (now s')), s')
    end.

(** The callback that goes on next, with its place in the array. *)
Fixpoint earliest (cbs : list (callback W Y)) : option (nat * W) :=
  match cbs with
  | [] => None
  | cb :: rest =>
      let later := option_map (fun found => (S (fst found), snd found)) (earliest rest) in
      match cb with
      | Waits promised =>
          match later with
          | Some (_, other) =>
              if N.ltb (settles other) (settles promised) then later
              else Some (0%nat, promised)
          | None => Some (0%nat, promised)
          end
      | _ => later
      end
  end.

Fixpoint replace_nth {T : Type} (i : nat) (x : T) (xs : list T) : list T :=
  match xs with
  | [] => []
  | y :: rest =>
      match i with
      | O => x :: rest
      | S i' => y :: replace_nth i' x rest
      end
  end.

(** The callbacks go on until none waits; [fuel] bounds the number of
    stretches. *)
Fixpoint event_loop (fuel : nat) (cbs : list (callback W Y)) : M (list (callback W Y)) :=
  match fuel with
  | O => ret cbs
  | S fuel' =>
      match earliest cbs with
      | None => ret cbs
      | Some (i, promised) =>
          cb <- stretch (resume promised) ;;
          event_loop fuel' (replace_nth i cb cbs)
      end
  end.

(** The first rejection in time, and in the order of the array among those
    of one instant. *)
Fixpoint first_rejection (cbs : list (callback W Y)) : option (string * N) :=
  match cbs with
  | [] => None
  | cb :: rest =>
      match cb with
      | Throws e t =>
          match first_rejection rest with
          | Some (e', t') => if N.ltb t' t then Some (e', t') else Some (e, t)
          | None => Some (e, t)
          end
      | _ => first_rejection rest
      end
  end.

(** The values of the callbacks that have returned. *)
Fixpoint fulfilled (cbs : list (callback W Y)) : list Y :=
  match cbs with
  | [] => []
  | Returns value :: rest => value :: fulfilled rest
  | _ :: rest => fulfilled rest
  end.

(** [await Promise.all(xs.map(callback))] for a callback that awaits at most
    [awaits] times: the caller goes on when the last callback has returned,
    or at the time of the first rejection. *)
Definition Promise_all_map (awaits : nat) (xs : list X) : M (list Y) :=
  started <- mapM (fun x => stretch (start x)) xs ;;
  settled <- event_loop (awaits * List.length xs) started ;;
  match first_rejection settled with
  | Some (e, t) => fun s => (Throw e, {| now := t; log := log s |})
  | None => ret (fulfilled settled)
  end.

End PromiseAll.

(** An entry of [orderedAddresses]; [latitude] and [longitude] are its
    [lat] and [lon]. *)
Record waypoint : Type := {
  id : Z;
  companyName : option string;
  address : string;
  latitude : option float;
  longitude : option float
}.

(** What a callback of [orderedAddresses] waits for: [geocodeAddress], or
    the UPDATE of the row. *)
Inductive located : Type :=
| Geocoding (addr : client) (p : promise (list coords))
| Writing (addr : client) (found : coords) (p : promise unit).

(** The callback up to its first [await]. *)
Definition locate_start (addresses : list client) (relAddr : relevant)
  : M (option waypoint + located) :=
  match find_address addresses relAddr with
  | None => ret (inl None)
  | Some addr =>
      if negb (truthy_coordinate (Latitude addr)) || negb (truthy_coordinate (Longitude addr))
      then p <- geocodeAddress_fetch (fullAddress addr) ;; ret (inr (Geocoding addr p))
      else ret (inl (Some {| id := ID addr; companyName := CompanyName addr;
                             address := fullAddress addr;
                             latitude := Latitude addr;
                             longitude := Longitude addr |}))
  end.

Definition locate_settles (l : located) : N :=
  match l with
  | Geocoding _ p => settles_at p
  | Writing _ _ p => settles_at p
  end.

(** The callback from the promise it has waited for to its next [await] or
    to its end. *)
Definition locate_resume (l : located) : M (option waypoint + located) :=
  match l with
  | Geocoding addr p =>
      coords <- geocodeAddress_settle p ;;
      match coords with
      | Some found =>
          p' <- issue (UpdateCoordinates (lat found) (lon found) (ID addr))
                  (fun h => update_coordinates w h (lat found) (lon found) (ID addr)) ;;
          ret (inr (Writing addr found p'))
      | None =>
          ret (inl (Some {| id := ID addr; companyName := CompanyName addr;
                            address := fullAddress addr;
                            latitude := Latitude addr;
                            longitude := Longitude addr |}))
      end
  | Writing addr found p =>
      await p ;;;
      ret (inl (Some {| id := ID addr; companyName := CompanyName addr;
                        address := fullAddress addr;
                        latitude := Some (lat found);
                        longitude := Some (lon found) |}))
  end.

(** [orderedAddresses.filter(addr => addr !== null && addr.lat && addr.lon)] *)
Fixpoint validOnly (orderedAddresses : list (option waypoint)) : list waypoint :=
  match orderedAddresses with
  | [] => []
  | Some addr :: rest =>
      if truthy_coordinate (latitude addr) && truthy_coordinate (longitude addr)
      then addr :: validOnly rest
      else validOnly rest
  | None :: rest => validOnly rest
  end.

(** [{ lat: addr.lat, lon: addr.lon }] of a valid address; NaN stands for a
    coordinate that is not there (a valid address has both). *)
Definition coords_of (addr : waypoint) : coords :=
  {| lat := match latitude addr with Some x => x | None => PrimFloat.nan end;
     lon := match longitude addr with Some x => x | None => PrimFloat.nan end |}.

Record leaflet : Type := {
  waypoints : list waypoint;
  routeGeometry : option json
}.

(** The response of the routing service: the generated object with
    [mapsUrl] and [leafletMapData] added. *)
Record routed : Type := {
  response : generated;
  mapsUrl : string;
  leafletMapData : leaflet
}.

(** [queryLLM(req)] of the routing service with geocoding. *)
Definition queryLLM (req : request) : M (outcome routed) :=
  let query := query_of req in
  if falsy_query query then reject req 400 "query is required"
  else
    try_catch
      (contextRecords <- runVectorSearch query ;;
       let context := contextOf contextRecords in
       response <- llmChain_invoke context query ;;
       let addressIds := map addressId (relevantAddresses response) in
       addresses <- call (SelectClientsById addressIds)
                      (fun h => select_clients_by_id w h addressIds) ;;
       orderedAddresses <- Promise_all_map (locate_start addresses) locate_settles
                             locate_resume 2 (relevantAddresses response) ;;
       let validAddresses := validOnly orderedAddresses in
       let coordinates := map coords_of validAddresses in
       routeGeometry <- getRouteGeometry coordinates ;;
       mapsUrl <- mapsUrl_block (map address validAddresses) ;;
       ret (Returned
              {| response := response;
                 mapsUrl := mapsUrl_or_text mapsUrl;
                 leafletMapData :=
                   {| waypoints := validAddresses; routeGeometry := routeGeometry |} |}))
      (fun e => reject req 500 ("Failed to process query: " ++ e)).

End Services.

Arguments Returns {W Y} value.
Arguments Throws {W Y} message at_time.
Arguments Waits {W Y} promised.

(** *** The routing service without geocoding ([srv/service.js]) *)

Module MapsLink.

Section Service.

Variable rt : Runtime.
Variable w : world.

(** [`${addr.Address}, ${addr.City}, ${addr.Country}`] *)
Definition shortAddress (addr : client) : string :=
  template (Address addr) ++ ", " ++ template (City addr) ++ ", "
  ++ template (Country addr).

(** [xs.filter(addr => addr !== null)] *)
Fixpoint notNull {T : Type} (xs : list (option T)) : list T :=
  match xs with
  | [] => []
  | Some x :: rest => x :: notNull rest
  | None :: rest => notNull rest
  end.

(** The response: the generated object with [mapsUrl] added. *)
Record linked : Type := {
  response : generated;
  mapsUrl : string
}.

(** [queryLLM(req)] *)
Definition queryLLM (req : request) : M (outcome linked) :=
  let query := query_of req in
  if falsy_query query then reject req 400 "query is required"
  else
    try_catch
      (contextRecords <- runVectorSearch w query ;;
       let context := contextOf contextRecords in
       response <- llmChain_invoke rt w context query ;;
       let addressIds := map addressId (relevantAddresses response) in
       addresses <- call w (SelectClientsById addressIds)
                      (fun h => select_clients_by_id w h addressIds) ;;
       let orderedAddresses :=
         notNull (map (fun relAddr =>
                         option_map shortAddress (find_address addresses relAddr))
                    (relevantAddresses response)) in
       mapsUrl <- mapsUrl_block orderedAddresses ;;
       ret (Returned
              {| response := response;
                 mapsUrl := mapsUrl_or_text mapsUrl |}))
      (fun e => reject req 500 ("Failed to process query: " ++ e)).

End Service.

End MapsLink.

(** ** Vocabulary of the properties *)

(** The stored embedding of a candidate as the scan uses it: [None] when the
    candidate is skipped, because the embedding is missing, cannot be parsed,
    or has another length than the query vector. *)
Definition usable (rt : Runtime) (userEmbedding : list float) (a : address_row)
  : option (list float) :=
  match parseEmbedding rt (EMBEDDING a) with
  | Some dbEmb =>
      if Nat.eqb (List.length dbEmb) (List.length userEmbedding) then Some dbEmb
      else None
  | None => None
  end.

Definition skipped (rt : Runtime) (userEmbedding : list float) (a : address_row) : bool :=
  match usable rt userEmbedding a with
  | Some _ => false
  | None => true
  end.

(** The score of a candidate that is not skipped. *)
Definition similarity (rt : Runtime) (userEmbedding : list float) (a : address_row)
  : float :=
  match parseEmbedding rt (EMBEDDING a) with
  | Some dbEmb => cosineSim F64 userEmbedding dbEmb
  | None => PrimFloat.nan
  end.

(** The text [parseEmbedding] hands to [JSON.parse]. *)
Definition stored_text (text : string) : string :=
  let str := trim text in
  if quoted str then unquote str else str.

(** The three reasons for which the scan skips a candidate. *)
Definition missing (a : address_row) : Prop :=
  EMBEDDING a = None \/ EMBEDDING a = Some "".

Definition unparseable (rt : Runtime) (a : address_row) : Prop :=
  exists text,
    EMBEDDING a = Some text /\ text <> "" /\
    ((JSON_parse rt (stored_text text) = None /\
      match_numbers rt (stored_text text) = None) \/
     (exists v, JSON_parse rt (stored_text text) = Some v /\
                forall items, v <> JArr items)).

Definition mismatched (rt : Runtime) (userEmbedding : list float) (a : address_row) : Prop :=
  exists dbEmb,
    parseEmbedding rt (EMBEDDING a) = Some dbEmb /\
    List.length dbEmb <> List.length userEmbedding.

(** [x === x]: [x] is not NaN. *)
Definition is_number (x : float) : bool := PrimFloat.eqb x x.

Definition is_geocoding (e : event) : bool :=
  match e with
  | FetchNominatim _ => true
  | _ => false
  end.

(** The times at which a history sends requests to Nominatim. *)
Definition geocode_times (h : history) : list N :=
  map fst (filter (fun entry => is_geocoding (snd entry)) h).

(** Successive times lie at least [gap] apart. *)
Fixpoint spaced (gap : N) (times : list N) : Prop :=
  match times with
  | [] => True
  | t1 :: rest =>
      match rest with
      | [] => True
      | t2 :: _ => (t1 + gap <= t2)%N
      end /\ spaced gap rest
  end.

(** [x] lies in the closed interval from 0 to 1. *)
Definition in_unit_interval (x : float) : bool :=
  PrimFloat.leb 0%float x && PrimFloat.leb x 1%float.

(** The numbers of a generated object are in range. *)
Definition valid_numbers (g : generated) : Prop :=
  in_unit_interval (confidence g) = true /\
  Forall (fun entry => in_unit_interval (relevance entry) = true) (relevantAddresses g).

(** The object [parser.parse] reads out of a completion, if it accepts it. *)
Definition parsed (rt : Runtime) (text : string) : option generated :=
  match completion_json rt text with
  | Some value => option_map generated_of (safeParse outputSchema value)
  | None => None
  end.



(** [s.split(sep)] for a separator of one character. *)
Fixpoint split_on (sep : ascii) (s : string) : list string :=
  match s with
  | EmptyString => [EmptyString]
  | String c rest =>
      if Ascii.eqb c sep then EmptyString :: split_on sep rest
      else
        match split_on sep rest with
        | first :: others => String c first :: others
        | [] => [String c EmptyString]
        end
  end.

(** The parameters of a URL: what follows the question mark, cut at each
    ampersand. *)
Definition query_parameters (url : string) : list string :=
  match split_on "?" url with
  | _ :: query :: _ => split_on "&" query
  | _ => []
  end.

(** The character [c] does not occur in [s]. *)
Definition absent (c : ascii) (s : string) : bool :=
  forallb (fun x => negb (Ascii.eqb x c)) (list_ascii_of_string s).


(** *** Exact arithmetic *)

Section ExactVocabulary.

Local Open Scope R_scope.

(** The sum of squares of a list of reals, as the fold computes it. *)
Definition sumSquaresR (v : list R) (s : R) : R :=
  fold_left (fun acc x => acc + x * x) v s.

(** The accumulators of [cosineSim] over the reals. *)
Definition cosineStepR (a b : list R) (acc : R * R * R) (i : nat) : R * R * R :=
  let '(dot, na, nb) := acc in
  (dot + nth i a 0 * nth i b 0, na + nth i a 0 * nth i a 0, nb + nth i b 0 * nth i b 0).

Definition cosineSumsR (a b : list R) (n : nat) : R * R * R :=
  fold_left (cosineStepR a b) (seq 0 n) (0, 0, 0).

Definition xfin3 (t : R * R * R) : xreal * xreal * xreal :=
  let '(d, x, y) := t in (XFin d, XFin x, XFin y).

End ExactVocabulary.

(** [x] lies in the closed interval from -1 to 1. *)
Definition in_cosine_range (x : float) : bool :=
  PrimFloat.leb (-1)%float x && PrimFloat.leb x 1%float.

(** *** Binary64 numbers as real numbers *)

Section BinaryVocabulary.

Local Open Scope R_scope.

(** [x === 0]: a zero of either sign. *)
Definition is_zero (x : float) : bool := PrimFloat.eqb x 0%float.

(** [x] is a normal number: not zero, not subnormal, not infinite, not NaN. *)
Definition is_normal (x : float) : bool :=
  match classify x with
  | PNormal | NNormal => true
  | _ => false
  end.

(** [x] is zero, subnormal or normal. *)
Definition is_finite (x : float) : bool :=
  match classify x with
  | FloatClass.NaN | PInf | NInf => false
  | _ => true
  end.

Definition bpow (e : Z) : R := powerRZ 2 e.

(** The real number [m * 2 ^ e]. *)
Definition F2R (m e : Z) : R := IZR m * bpow e.

Definition sgn (s : bool) : R := if s then -1 else 1.

(** The real number that a binary64 value stands for; 0 for the infinities
    and NaN. *)
Definition SF2R (x : spec_float) : R :=
  match x with
  | S754_finite s m e => F2R (cond_Zopp s (Zpos m)) e
  | _ => 0
  end.

Definition B2R (x : float) : R := SF2R (Prim2SF x).

(** The relative spacing of the normal numbers of binary64, [2 ^ -52]. *)
Definition eps : R := / IZR (2 ^ 52).

(** The number of bits that rounding takes off [m] at exponent [e]. *)
Definition cut (m e : Z) : Z := Z.max 0 (fexp prec emax (Zdigits2 m + e) - e).

(** [a] and [b] differ by at most [k] roundings: each is at least the other
    times [(1 - eps) ^ k]. *)
Definition close (k : nat) (a b : R) : Prop :=
  a * (1 - eps) ^ k <= b /\ b * (1 - eps) ^ k <= a.

(** The Euclidean norm of a vector of binary64 numbers, as a real number. *)
Definition norm_of (vec : list float) : R := R_sqrt.sqrt (sumSquaresR (map B2R vec) 0).

(** No operation of [normalizeL2(vec)] overflows or underflows: the norm is
    a normal number, and so are the square of every component other than 0
    and its quotient by the norm. *)
Definition normalizeL2_regular (vec : list float) : bool :=
  let norm := l2norm F64 vec in
  is_normal norm
  && forallb (fun v => is_zero v
                       || (is_normal (v * v)%float && is_normal (v / norm)%float)) vec.

(** The absolute values of the components, as real numbers. *)
Definition magnitudes (a : list float) : list R := map (fun x => Rabs (B2R x)) a.

(** The operations of round [i] of [cosineSim(a, b)] neither overflow nor
    underflow: a square or a product is a normal number unless a factor is 0. *)
Definition cosineStep_regular (a b : list float) (i : nat) : bool :=
  let x := at_index F64 a i in
  let y := at_index F64 b i in
  (is_zero x || is_normal (x * x)%float)
  && (is_zero y || is_normal (y * y)%float)
  && (is_zero x || is_zero y || is_normal (x * y)%float).

(** No operation of [cosineSim(a, b)] overflows or underflows: the rounds
    are regular, the sum of the products is finite, both norms and their
    product are normal numbers, and so is the quotient unless the sum of the
    products is 0. *)
Definition cosineSim_regular (a b : list float) : bool :=
  let '(dot, na, nb) :=
    fold_left (cosineStep F64 a b) (seq 0 (List.length a)) (0%float, 0%float, 0%float) in
  let den := (PrimFloat.sqrt na * PrimFloat.sqrt nb)%float in
  forallb (cosineStep_regular a b) (seq 0 (List.length a))
  && is_finite dot
  && is_normal (PrimFloat.sqrt na) && is_normal (PrimFloat.sqrt nb) && is_normal den
  && (is_zero dot || is_normal (dot / den)%float).

Definition sums_finite (sums : float * float * float) : Prop :=
  let '(dot, na, nb) := sums in
  is_finite dot = true /\ is_finite na = true /\ is_finite nb = true.

End BinaryVocabulary.

(** *** Ranking *)

Section RankingVocabulary.

Variable rt : Runtime.
Variable q : list float.

(** What the loop has done after any number of rounds from [(b0, s0)]:
    nothing scored above [s0], or the first of the best candidates is kept. *)
Definition nothing_above (addrs : list address_row) (s0 : float) : Prop :=
  forall c, In c addrs -> skipped rt q c = false ->
            gtb F64 (similarity rt q c) s0 = false.

Definition first_best (addrs : list address_row) (i : nat) (best : address_row) : Prop :=
  nth_error addrs i = Some best /\
  skipped rt q best = false /\
  (forall j c, nth_error addrs j = Some c -> skipped rt q c = false ->
               gtb F64 (similarity rt q c) (similarity rt q best) = false) /\
  (forall j c, (j < i)%nat -> nth_error addrs j = Some c -> skipped rt q c = false ->
               is_number (similarity rt q c) = true ->
               gtb F64 (similarity rt q best) (similarity rt q c) = true).

End RankingVocabulary.

(** *** Histories and states *)

(** The history once [e] is issued in state [s]. *)
Definition issued (s : state) (e : event) : history := (log s ++ [(now s, e)])%list.

(** A computation only adds to the log. *)
Definition grows (T : Type) (m : M T) : Prop :=
  forall s, exists new, log (snd (m s)) = (log s ++ new)%list.

Section StateVocabulary.

Variable w : world.

(** The state in which the call [e] issued in [s] has settled. *)
Definition after (s : state) (e : event) : state :=
  {| now := now s + latency w (issued s e); log := issued s e |}.

(** The state after the delay of one second that ends a round. *)
Definition slept (s : state) : state :=
  {| now := now s + 1000 + latency w (issued s (SetTimeout 1000));
     log := issued s (SetTimeout 1000) |}.

(** What [geocodeAddress] returns for the answer of Nominatim. *)
Definition first_match (r : reply (list coords)) : option coords :=
  match r with
  | Answer (first :: _) => Some first
  | _ => None
  end.

Definition geocoding (c : client) : event :=
  FetchNominatim (nominatim_url (fullAddress c)).

(** The answer of Nominatim for [c] when asked in state [s]. *)
Definition geocoded (s : state) (c : client) : option coords :=
  first_match (fetch_nominatim w (issued s (geocoding c)) (nominatim_url (fullAddress c))).

(** No client of the batch is found: each is asked for in its round, from
    the state in which that round starts, and the rounds follow one another
    with the delay. *)
Fixpoint unmatched (s : state) (clients : list client) : Prop :=
  match clients with
  | [] => True
  | c :: rest => geocoded s c = None /\ unmatched (slept (after s (geocoding c))) rest
  end.

End StateVocabulary.

Definition writing (found : coords) (c : client) : event :=
  UpdateCoordinates (lat found) (lon found) (ID c).

Definition as_failed (res : results) (c : client) : results :=
  {| updated := updated res;
     failed := (failed res ++ [{| failed_id := ID c; failed_address := fullAddress c |}])%list |}.

Definition as_updated (res : results) (c : client) (found : coords) : results :=
  {| updated := (updated res ++
       [{| updated_id := ID c; updated_address := fullAddress c;
           updated_lat := lat found; updated_lon := lon found |}])%list;
     failed := failed res |}.

(** The entities a result records, each by identifier and address. *)
Definition recorded (U : list updated_entry) (F : list failed_entry) : list (Z * string) :=
  (map (fun u => (updated_id u, updated_address u)) U
   ++ map (fun f => (failed_id f, failed_address f)) F)%list.

Definition entity (c : client) : Z * string := (ID c, fullAddress c).

Definition failed_entry_of (c : client) : failed_entry :=
  {| failed_id := ID c; failed_address := fullAddress c |}.

(** *** Generation *)

(** The schema [z.number().min(0).max(1)]. *)
Definition unit_number : zod := z.max 1 (z.min 0 z.number).

(** The schema of an entry of [relevantAddresses]. *)
Definition entry_schema : zod :=
  z.object [("addressId", z.string); ("relevance", unit_number)].

Definition invoking (context : string) (query : query_value) : event :=
  ChatInvoke context query.

Definition repairing (completion : string) : event :=
  ChatRepair completion "Failed to parse".

(** *** The pipeline *)

Section PipelineVocabulary.

Variable rt : Runtime.
Variable w : world.

(** The part of [queryLLM] inside [try]. *)
Definition pipeline (query : query_value) : M (outcome routed) :=
  (contextRecords <- runVectorSearch w query ;;
   let context := contextOf contextRecords in
   response <- llmChain_invoke rt w context query ;;
   let addressIds := map addressId (relevantAddresses response) in
   addresses <- call w (SelectClientsById addressIds)
                  (fun h => select_clients_by_id w h addressIds) ;;
   orderedAddresses <- Promise_all_map (locate_start w addresses) locate_settles
                         (locate_resume w) 2 (relevantAddresses response) ;;
   let validAddresses := validOnly orderedAddresses in
   let coordinates := map coords_of validAddresses in
   routeGeometry <- getRouteGeometry w coordinates ;;
   mapsUrl <- mapsUrl_block (map address validAddresses) ;;
   ret (Returned
          {| response := response;
             mapsUrl := mapsUrl_or_text mapsUrl;
             leafletMapData :=
               {| waypoints := validAddresses; routeGeometry := routeGeometry |} |}))%js.

End PipelineVocabulary.

(** ** A small deployment for the examples

    Five clients, of which the first is located; Nominatim knows the second
    and the third, has no match for the fourth and fails on the fifth.  The
    chat model echoes the query, and the runtime reads the completions below
    as JSON. *)

Module Demo.

Definition mk_client (n : Z) (name street code city : string) (la lo : option float)
  : client :=
  {| ID := n; CompanyName := Some name; Address := Some street;
     PostalCode := Some code; City := Some city; Country := Some "Portugal";
     Latitude := la; Longitude := lo |}.

Definition c1 : client :=
  mk_client 1 "Acme" "Rua Augusta 1" "1100-048" "Lisboa"
    (Some 38.71%float) (Some (-9.14)%float).
Definition c2 : client :=
  mk_client 2 "Beta" "Avenida dos Aliados 5" "4000-064" "Porto" None None.
Definition c3 : client :=
  mk_client 3 "Gama" "Praca 8 de Maio" "3000-300" "Coimbra" None None.
Definition c4 : client :=
  mk_client 4 "Delta" "Rua Sem Nome 0" "0000-000" "Atlantida" None None.
Definition c5 : client :=
  mk_client 5 "Epsilon" "Largo da Se" "8000-138" "Faro" None None.

Definition clients : list client := [c1; c2; c3; c4; c5].

Definition porto : coords := {| lat := 41.15%float; lon := (-8.61)%float |}.
Definition coimbra : coords := {| lat := 40.21%float; lon := (-8.43)%float |}.

Definition nominatim (url : string) : reply (list coords) :=
  if String.eqb url (nominatim_url (fullAddress c2)) then Answer [porto]
  else if String.eqb url (nominatim_url (fullAddress c3)) then Answer [coimbra]
  else if String.eqb url (nominatim_url (fullAddress c5)) then Failure "ECONNRESET"
  else Answer [].

Definition line : json := JObj [("type", JStr "LineString")].

(** A completion that names the given clients. *)
Definition naming (conf : float) (ids : list string) : json :=
  JObj [("answer", JStr "Visit in this order.");
        ("confidence", JNum conf);
        ("relevantAddresses",
         JArr (map (fun i => JObj [("addressId", JStr i); ("relevance", JNum 1%float)])
                 ids))].

Definition runtime : Runtime :=
  {| JSON_parse := fun str =>
       if String.eqb str "[1,0]" then Some (JArr [JNum 1%float; JNum 0%float])
       else if String.eqb str "[0,1]" then Some (JArr [JNum 0%float; JNum 1%float])
       else if String.eqb str "[1]" then Some (JArr [JNum 1%float])
       else if String.eqb str "7" then Some (JNum 7%float)
       else None;
     Number := fun _ => PrimFloat.nan;
     ToNumber_object := fun _ => PrimFloat.nan;
     match_numbers := fun _ => None;
     completion_json := fun text =>
       if String.eqb text "visit 1" then Some (naming 0.9%float ["1"])
       else if String.eqb text "visit 2 3" then Some (naming 0.9%float ["2"; "3"])
       else if String.eqb text "visit 1 2 3" then Some (naming 0.9%float ["1"; "2"; "3"])
       else if String.eqb text "visit 4 99" then Some (naming 0.5%float ["4"; "99"])
       else if String.eqb text "overconfident" then Some (naming 1.5%float ["1"])
       else if String.eqb text "fixable" then Some (naming 1.5%float ["1"])
       else None |}.

(** The deployment; its store rejects writes when [storage_down], and its
    routing engine fails when [router_down].  Every call takes 120 ms. *)
Definition deployment (storage_down router_down : bool) : world :=
  {| embeddings_create := fun _ _ => Answer [3%float; 4%float];
     select_addresses := fun _ =>
       Answer [ {| AddressID := 1; AddresseeFullName := Some "A"; EMBEDDING := None |};
                {| AddressID := 2; AddresseeFullName := Some "B"; EMBEDDING := Some "n/a" |};
                {| AddressID := 3; AddresseeFullName := Some "C"; EMBEDDING := Some "[1]" |};
                {| AddressID := 4; AddresseeFullName := Some "D"; EMBEDDING := Some "[1,0]" |};
                {| AddressID := 5; AddresseeFullName := Some "E"; EMBEDDING := Some " [0,1] " |};
                {| AddressID := 6; AddresseeFullName := Some "F"; EMBEDDING := Some "[0,1]" |} ];
     run_vector_search := fun _ _ => Answer [[("ID", Some "1"); ("Region", None)]];
     chat_invoke := fun _ _ query => Answer (query_text query);
     chat_repair := fun _ completion _ =>
       if String.eqb completion "fixable" then Answer "visit 1"
       else Answer "overconfident";
     select_clients_by_id := fun _ ids =>
       Answer (filter (fun c => existsb (String.eqb (Z_toString (ID c))) ids) clients);
     select_clients_without_coordinates := fun _ => Answer [c2; c3; c4; c5];
     update_coordinates := fun _ _ _ _ =>
       if storage_down then Failure "connection lost" else Answer tt;
     fetch_nominatim := fun _ url => nominatim url;
     fetch_osrm := fun _ _ =>
       if router_down then Failure "ETIMEDOUT"
       else Answer {| routes := Some [ {| geometry := Some line |} ] |};
     latency := fun _ => 120%N |}.

Definition start : state := {| now := 0; log := [] |}.

Definition post (prompt : string) : request := ReqObject (Some (Some prompt)).

End Demo.

(** ** Start-up: the API key of [init]

    [init] reads the key of the OpenAI client out of the environment variable
    [VCAP_SERVICES].  A value read out of parsed JSON is a [json], or [None]
    for [undefined]; what [init] throws is a [SyntaxError] of [JSON.parse], a
    [TypeError] of the engine, or its own [Error]. *)

Inductive exception : Type :=
| SyntaxError
| TypeError
| Error (message : string).

Inductive completion (T : Type) : Type :=
| Normal (a : T)
| Abrupt (e : exception).

Arguments Normal {T} a.
Arguments Abrupt {T} e.

(** Truthiness of a value. *)
Definition truthy (v : option json) : bool :=
  match v with
  | None | Some JNull => false
  | Some (JBool b) => b
  | Some (JNum x) => truthy_number x
  | Some (JStr s) => truthy_string s
  | Some (JArr _) | Some (JObj _) => true
  end.

(** [v[key]] and [v.key], for a key that no prototype defines: reading a
    property of [null] or [undefined] throws, a primitive or an array has no
    such property. *)
Definition member (v : option json) (key : string) : completion (option json) :=
  match v with
  | None | Some JNull => Abrupt TypeError
  | Some (JObj fields) => Normal (property key fields)
  | Some _ => Normal None
  end.

(** [v?.key] *)
Definition optional_member (v : option json) (key : string) : option json :=
  match member v key with
  | Normal value => value
  | Abrupt _ => None
  end.

(** [items.find(s => s.name === name)] on the elements of an array. *)
Fixpoint find_named (name : string) (items : list json) : completion (option json) :=
  match items with
  | [] => Normal None
  | s :: rest =>
      match member (Some s) "name" with
      | Abrupt e => Abrupt e
      | Normal (Some (JStr n)) =>
          if String.eqb n name then Normal (Some s) else find_named name rest
      | Normal _ => find_named name rest
      end
  end.

(** [services.find(s => s.name === name)] for a truthy [services]: only an
    array has a [find] that can be called. *)
Definition find_service (services : option json) (name : string)
  : completion (option json) :=
  match services with
  | Some (JArr items) => find_named name items
  | _ => Abrupt TypeError
  end.

(** What the variable of a key holds after
    [if (service?.credentials?.KEY) { key = service.credentials.KEY; }]. *)
Definition credential (service : option json) (key : string) : option json :=
  let value := optional_member (optional_member service "credentials") key in
  if truthy value then value else None.

(** The same with the test spelled
    [service && service.credentials && service.credentials.KEY]. *)
Definition credential_guarded (service : option json) (key : string) : option json :=
  if truthy service then
    match member service "credentials" with
    | Normal credentials =>
        if truthy credentials then
          match member credentials key with
          | Normal value => if truthy value then value else None
          | Abrupt _ => None
          end
        else None
    | Abrupt _ => None
    end
  else None.

Section Startup.

Variable rt : Runtime.

(** The part of [init] inside [if (process.env.VCAP_SERVICES)]: [lookup] is
    what is done with a truthy [vcap['user-provided']], [unset] what the
    variables hold when nothing is assigned. *)
Definition with_services {T : Type} (VCAP_SERVICES : option string) (unset : T)
    (lookup : option json -> completion T) : completion T :=
  match VCAP_SERVICES with
  | None => Normal unset
  | Some text =>
      if truthy_string text then
        match JSON_parse rt text with
        | None => Abrupt SyntaxError
        | Some vcap =>
            match member (Some vcap) "user-provided" with
            | Abrupt e => Abrupt e
            | Normal services =>
                if truthy services then lookup services else Normal unset
            end
        end
      else Normal unset
  end.

(** [if (!key) throw new Error(message)] *)
Definition required (message : string) (key : option json) : completion json :=
  match key with
  | Some value => if truthy key then Normal value else Abrupt (Error message)
  | None => Abrupt (Error message)
  end.

(** [init()] of the services up to [new OpenAI({ apiKey })]: the key that
    the client is built with. *)
Definition init (VCAP_SERVICES : option string) : completion json :=
  match
    with_services VCAP_SERVICES None
      (fun services =>
         match find_service services "openai-service" with
         | Abrupt e => Abrupt e
         | Normal openaiService => Normal (credential openaiService "OPENAI_API_KEY")
         end)
  with
  | Abrupt e => Abrupt e
  | Normal apiKey => required "OPENAI_API_KEY not found in VCAP_SERVICES" apiKey
  end.

(** [init()] of the first [AddressService], which spells the test of the
    credentials with [&&]. *)
Definition init_guarded (VCAP_SERVICES : option string) : completion json :=
  match
    with_services VCAP_SERVICES None
      (fun services =>
         match find_service services "openai-service" with
         | Abrupt e => Abrupt e
         | Normal openaiService =>
             Normal (credential_guarded openaiService "OPENAI_API_KEY")
         end)
  with
  | Abrupt e => Abrupt e
  | Normal apiKey => required "OPENAI_API_KEY not found in VCAP_SERVICES" apiKey
  end.

(** [init()] of [srv/service.js], which wants a key for Google Maps too:
    both services are looked up before either key is read. *)
Definition init_maps (VCAP_SERVICES : option string) : completion (json * json) :=
  match
    with_services VCAP_SERVICES (None, None)
      (fun services =>
         match find_service services "openai-service" with
         | Abrupt e => Abrupt e
         | Normal openaiService =>
             match find_service services "google-maps-service" with
             | Abrupt e => Abrupt e
             | Normal mapsService =>
                 Normal (credential openaiService "OPENAI_API_KEY",
                         credential mapsService "GOOGLE_MAPS_API_KEY")
             end
         end)
  with
  | Abrupt e => Abrupt e
  | Normal (apiKey, googleMapsApiKey) =>
      match required "OPENAI_API_KEY not found in VCAP_SERVICES" apiKey with
      | Abrupt e => Abrupt e
      | Normal openaiKey =>
          match required "GOOGLE_MAPS_API_KEY not found in VCAP_SERVICES"
                  googleMapsApiKey with
          | Abrupt e => Abrupt e
          | Normal mapsKey => Normal (openaiKey, mapsKey)
          end
      end
  end.

End Startup.

(** ** Reading the table of addresses, and ranking in the database *)

Section OtherHandlers.

Variable w : world.

(** [readAddress(req)] of the second [AddressService]: the rows of the table
    that [onFindClosest] scans. *)
Definition readAddress (req : request) : M (outcome (list address_row)) :=
  try_catch
    (data <- call w SelectAddresses (select_addresses w) ;;
     ret (Returned data))
    (fun e => reject req 500 ("Failed to read addresses: " ++ e)).

(** The message of the TypeError for [undefined.name]. *)
Definition reading_undefined (name : string) : string :=
  "Cannot read properties of undefined (reading '" ++ name ++ "')".

(** [getEmbedding(prompt)] of the services that rank in the database
    ([gen/srv/srv/service.js] and the service with [findClosest] of the
    routing files): [this.openai.embeddings.create(...)] for the [this] that
    the function sees, if there is one to read [openai] from. *)
Definition getEmbedding (this : option world) (prompt : string) : M (list float) :=
  match this with
  | None => throw (reading_undefined "openai")
  | Some service =>
      call w (EmbeddingsCreate prompt) (fun h => embeddings_create service h prompt)
  end.

(** [getEmbedding] is an arrow function at the top of its module, so its
    [this] is the one of the module, whoever calls it; at the top of an ES
    module [this] is [undefined]. *)
Definition module_this : option world := None.

Section DatabaseRanking.

Variable T : Type.

(** What the handler goes on to do with the embedding: cut it to 768
    components, normalise it and let the database rank the rows. *)
Variable rank : list float -> M (outcome T).

(** [onFindClosest(req)] of the services that rank in the database. *)
Definition onFindClosest_ranked (req : request) : M (outcome T) :=
  match req with
  | ReqObject (Some prompt) =>
      match prompt with
      | Some p =>
          if negb (truthy_string p) then reject req 400 "prompt is required"
          else
            try_catch
              (embedding <- getEmbedding module_this p ;;
               rank embedding)
              (fun message =>
                 reject req 500 ("Failed to find closest address: " ++ message))
      | None => reject req 400 "prompt is required"
      end
  | _ => throw "Cannot destructure property 'prompt'"
  end.

End DatabaseRanking.

End OtherHandlers.

(** ** Vocabulary of the further properties *)

(** *** Numbers *)

(** [x] is NaN. *)
Definition NaN (x : float) : Prop := Prim2SF x = S754_nan.

Definition ZeroOrNaN (x : float) : Prop :=
  (exists s, Prim2SF x = S754_zero s) \/ Prim2SF x = S754_nan.

(** The first accumulator of [cosineSim]. *)
Definition dot_of (acc : float * float * float) : float := fst (fst acc).

(** *** Encoded text *)

(** The value of a hexadecimal digit. *)
Definition hex_value (c : ascii) : nat :=
  let n := nat_of_ascii c in
  if Nat.leb 48 n && Nat.leb n 57 then n - 48 else n - 55.

(** Percent-decoding, what [decodeURIComponent] does on the bytes of a text
    that [encodeURIComponent] has put out: a percent sign and two hexadecimal
    digits stand for one byte. *)
Fixpoint percent_decode (cs : list ascii) : list ascii :=
  match cs with
  | [] => []
  | c :: rest =>
      if Ascii.eqb c "%" then
        match rest with
        | high :: low :: rest' =>
            ascii_of_nat (16 * hex_value high + hex_value low) :: percent_decode rest'
        | _ => cs
        end
      else c :: percent_decode rest
  end.

Definition decodeURIComponent (s : string) : string :=
  string_of_list_ascii (percent_decode (list_ascii_of_string s)).


(** The text of the value of a column in the context. *)
Definition column_text (column : string * option string) : string :=
  match snd column with
  | Some value => value
  | None => "N/A"
  end.

(** Neither the name nor the value of any column of the record holds a line
    break. *)
Definition single_line (r : record) : bool :=
  forallb (fun column =>
             absent (ascii_of_nat 10) (fst column)
             && absent (ascii_of_nat 10) (column_text column)) r.

(** *** Start-up *)

(** The element [s] of [vcap['user-provided']] has the name [name]. *)
Definition named (name : string) (s : json) : bool :=
  match s with
  | JObj fields =>
      match property "name" fields with
      | Some (JStr n) => String.eqb n name
      | _ => false
      end
  | _ => false
  end.

(** [service] is the first element of [items] with the name [name], and no
    element before it is [null]. *)
Definition first_named (name : string) (items : list json) (service : json) : Prop :=
  exists before after,
    items = (before ++ service :: after)%list /\
    named name service = true /\
    Forall (fun s => s <> JNull /\ named name s = false) before.

(** The entry [key] of the credentials of a service. *)
Definition credentials_entry (key : string) (service : json) : option json :=
  match service with
  | JObj fields =>
      match property "credentials" fields with
      | Some (JObj credentials) => property key credentials
      | _ => None
      end
  | _ => None
  end.

(** The environment names the services [items]. *)
Definition provides (rt : Runtime) (VCAP_SERVICES : option string) (items : list json)
  : Prop :=
  exists text vcap,
    VCAP_SERVICES = Some text /\ text <> "" /\
    JSON_parse rt text = Some (JObj vcap) /\
    property "user-provided" vcap = Some (JArr items).

(** *** Calls and waypoints *)

(** The events of a history, without their times. *)
Definition events (h : history) : list event := map snd h.

Definition is_writing (e : event) : bool :=
  match e with
  | UpdateCoordinates _ _ _ => true
  | _ => false
  end.

Definition is_routing (e : event) : bool :=
  match e with
  | FetchOsrm _ => true
  | _ => false
  end.

Definition is_chat (e : event) : bool :=
  match e with
  | ChatInvoke _ _ | ChatRepair _ _ => true
  | _ => false
  end.

(** The calls that concern coordinates: to Nominatim, to the routing engine,
    and the writes to the store. *)
Definition locating (e : event) : bool := is_geocoding e || is_writing e || is_routing e.

(** The calls of the retrieval and of the generation: the vector search, the
    chat model with its repair, and the read of the rows that were named. *)
Definition is_retrieval (e : event) : bool :=
  match e with
  | RunVectorSearch _ | ChatInvoke _ _ | ChatRepair _ _ | SelectClientsById _ => true
  | _ => false
  end.

(** The write that an entry of [updated] reports. *)
Definition written (u : updated_entry) : event :=
  UpdateCoordinates (updated_lat u) (updated_lon u) (updated_id u).

(** A computation adds to the log only events that satisfy [P]. *)
Definition emits (P : event -> bool) (T : Type) (m : M T) : Prop :=
  forall s, exists new,
    log (snd (m s)) = (log s ++ new)%list /\ forallb P (events new) = true.

(** A computation adds at most [n] events to the log. *)
Definition within (n : nat) (T : Type) (m : M T) : Prop :=
  forall s, (List.length (log (snd (m s))) <= List.length (log s) + n)%nat.

(** [!lat || !lon] for the stored coordinates of a row. *)
Definition lacks_coordinates (addr : client) : bool :=
  negb (truthy_coordinate (Latitude addr)) || negb (truthy_coordinate (Longitude addr)).

(** The rows that the entries name, in the order of the entries; an entry
    that names no row is passed over. *)
Definition named_clients (addresses : list client) (entries : list relevant)
  : list client :=
  MapsLink.notNull (map (find_address addresses) entries).

(** [addr.lat && addr.lon] *)
Definition located_waypoint (wp : waypoint) : bool :=
  truthy_coordinate (latitude wp) && truthy_coordinate (longitude wp).

(** The waypoint [wp] stands for the row [addr]. *)
Definition waypoint_of (addr : client) (wp : waypoint) : Prop :=
  id wp = ID addr /\ companyName wp = CompanyName addr /\ address wp = fullAddress addr.

(** A request for the row is sent to Nominatim: the row lacks a coordinate
    and its address can be encoded. *)
Definition sendable (addr : client) : bool :=
  lacks_coordinates addr && isWellFormed (fullAddress addr).

(** What a callback of [orderedAddresses] has become at its first [await],
    at the time [t]. *)
Definition started_for (addresses : list client) (t : N) (relAddr : relevant)
    (cb : callback located (option waypoint)) : Prop :=
  match find_address addresses relAddr with
  | None => cb = Returns None
  | Some addr =>
      if lacks_coordinates addr then
        if isWellFormed (fullAddress addr) then exists p, cb = Waits (Geocoding addr p)
        else cb = Throws "URI malformed" t
      else cb = Returns (Some {| id := ID addr; companyName := CompanyName addr;
                                 address := fullAddress addr;
                                 latitude := Latitude addr;
                                 longitude := Longitude addr |})
  end.

Section CallbackVocabulary.

Variables W Y : Type.
Variable resume : W -> M (Y + W).

(** What a callback has become after some stretches. *)
Inductive reaches : callback W Y -> callback W Y -> Prop :=
| reaches_here (cb : callback W Y) : reaches cb cb
| reaches_on (promised : W) (s s' : state) (cb final : callback W Y) :
    stretch (resume promised) s = (Ok cb, s') ->
    reaches cb final ->
    reaches (Waits promised) final.

(** The callback does not wait. *)
Definition settled (cb : callback W Y) : bool :=
  match cb with
  | Waits _ => false
  | _ => true
  end.

(** The callback has returned [value]. *)
Definition returned (cb : callback W Y) (value : Y) : Prop := cb = Returns value.

(** The stretches that the callbacks of a list have before them, when
    [stage] bounds those of a waiting one. *)
Variable stage : W -> nat.

Definition stage_of (cb : callback W Y) : nat :=
  match cb with
  | Waits promised => stage promised
  | _ => 0
  end.

Definition stages (cbs : list (callback W Y)) : nat := list_sum (map stage_of cbs).

End CallbackVocabulary.

(** A callback of [orderedAddresses] awaits twice at most. *)
Definition locate_stage (l : located) : nat :=
  match l with
  | Geocoding _ _ => 2
  | Writing _ _ _ => 1
  end.

(** What becomes of an entry of [relevantAddresses]: nothing when it names
    no row, and otherwise a waypoint for the row, with the stored
    coordinates when the row has them. *)
Definition resolves (addresses : list client) (relAddr : relevant)
    (entry : option waypoint) : Prop :=
  match find_address addresses relAddr with
  | None => entry = None
  | Some addr =>
      exists wp,
        entry = Some wp /\ waypoint_of addr wp /\
        (lacks_coordinates addr = false ->
         latitude wp = Latitude addr /\ longitude wp = Longitude addr)
  end.

(** [xs] is [ys] with some elements left out. *)
Inductive subsequence {T : Type} : list T -> list T -> Prop :=
| subsequence_nil : subsequence [] []
| subsequence_skip (y : T) (xs ys : list T) :
    subsequence xs ys -> subsequence xs (y :: ys)
| subsequence_keep (x : T) (xs ys : list T) :
    subsequence xs ys -> subsequence (x :: xs) (x :: ys).

(** ** Further examples

    An embedding model that answers with a given vector, and environments
    for [init]: in [bound] the service of OpenAI carries its key; in
    [shadowed] a service of that name without credentials stands before the
    one that carries the key. *)

Module Cases.

Definition embedding_as (embedding : list float) : world :=
  let d := Demo.deployment false false in
  {| embeddings_create := fun _ _ => Answer embedding;
     select_addresses := select_addresses d;
     run_vector_search := run_vector_search d;
     chat_invoke := chat_invoke d;
     chat_repair := chat_repair d;
     select_clients_by_id := select_clients_by_id d;
     select_clients_without_coordinates := select_clients_without_coordinates d;
     update_coordinates := update_coordinates d;
     fetch_nominatim := fetch_nominatim d;
     fetch_osrm := fetch_osrm d;
     latency := latency d |}.

(** A table whose only row stores the zero vector, and a runtime that
    parses it. *)
Definition zero_row : address_row :=
  {| AddressID := 7; AddresseeFullName := Some "G"; EMBEDDING := Some "[0,0]" |}.

Definition zero_stored : world :=
  let d := Demo.deployment false false in
  {| embeddings_create := embeddings_create d;
     select_addresses := fun _ => Answer [zero_row];
     run_vector_search := run_vector_search d;
     chat_invoke := chat_invoke d;
     chat_repair := chat_repair d;
     select_clients_by_id := select_clients_by_id d;
     select_clients_without_coordinates := select_clients_without_coordinates d;
     update_coordinates := update_coordinates d;
     fetch_nominatim := fetch_nominatim d;
     fetch_osrm := fetch_osrm d;
     latency := latency d |}.

Definition zero_runtime : Runtime :=
  {| JSON_parse := fun text =>
       if String.eqb text "[0,0]" then Some (JArr [JNum 0%float; JNum 0%float])
       else JSON_parse Demo.runtime text;
     Number := Number Demo.runtime;
     ToNumber_object := ToNumber_object Demo.runtime;
     match_numbers := match_numbers Demo.runtime;
     completion_json := completion_json Demo.runtime |}.

(** A client whose street holds an unpaired surrogate, the code unit D800,
    and a store that returns it first in the batch. *)
Definition unpaired : string :=
  String (ascii_of_nat 237) (String (ascii_of_nat 160) (String (ascii_of_nat 128) "")).

Definition c6 : client :=
  Demo.mk_client 6 "Zeta" ("Rua " ++ unpaired) "1000-001" "Lisboa" None None.

Definition unpaired_batch : world :=
  let d := Demo.deployment false false in
  {| embeddings_create := embeddings_create d;
     select_addresses := select_addresses d;
     run_vector_search := run_vector_search d;
     chat_invoke := chat_invoke d;
     chat_repair := chat_repair d;
     select_clients_by_id := select_clients_by_id d;
     select_clients_without_coordinates := fun _ => Answer [c6; Demo.c2];
     update_coordinates := update_coordinates d;
     fetch_nominatim := fetch_nominatim d;
     fetch_osrm := fetch_osrm d;
     latency := latency d |}.

Definition service (name key : string) (value : json) : json :=
  JObj [("name", JStr name); ("credentials", JObj [(key, value)])].

Definition bound : list json :=
  [service "xsuaa" "clientid" (JStr "sb-1");
   service "openai-service" "OPENAI_API_KEY" (JStr "sk-first");
   service "google-maps-service" "GOOGLE_MAPS_API_KEY" (JStr "maps-1")].

Definition shadowed : list json :=
  [JObj [("name", JStr "openai-service")];
   service "openai-service" "OPENAI_API_KEY" (JStr "sk-second")].

Definition runtime : Runtime :=
  {| JSON_parse := fun text =>
       if String.eqb text "bound" then Some (JObj [("user-provided", JArr bound)])
       else if String.eqb text "shadowed" then Some (JObj [("user-provided", JArr shadowed)])
       else None;
     Number := Number Demo.runtime;
     ToNumber_object := ToNumber_object Demo.runtime;
     match_numbers := match_numbers Demo.runtime;
     completion_json := completion_json Demo.runtime |}.

End Cases.

(* ================================================================== *)
(** * Properties *)

(** ** Exact arithmetic of [normalizeL2] and [cosineSim] *)

Section ExactArithmetic.

Local Open Scope R_scope.

Lemma Rltb_false_ge (a b : R) : b <= a -> Rltb a b = false.
Proof. intros H. unfold Rltb. destruct (Rlt_dec a b); [lra | reflexivity]. Qed.

Lemma Reqb_false_neq (a b : R) : a <> b -> Reqb a b = false.
Proof. intros H. unfold Reqb. destruct (Req_dec_T a b); [contradiction | reflexivity]. Qed.

Lemma Reqb_true_eq (a b : R) : a = b -> Reqb a b = true.
Proof. intros H. unfold Reqb. destruct (Req_dec_T a b); [reflexivity | contradiction]. Qed.

Lemma sumSquares_exact (v : list R) (s : R) :
  fold_left (fun acc val => add Exact acc (mul Exact val val)) (map XFin v) (XFin s)
  = XFin (sumSquaresR v s).
Proof.
  revert s. induction v as [|x v IH]; intros s; simpl; [reflexivity|].
  apply IH.
Qed.

Lemma sumSquaresR_ge (v : list R) (s : R) : s <= sumSquaresR v s.
Proof.
  revert s. induction v as [|x v IH]; intros s; simpl; [lra|].
  specialize (IH (s + x * x)). unfold sumSquaresR in *. nra.
Qed.

Lemma sumSquaresR_shift (v : list R) (s : R) :
  sumSquaresR v s = s + sumSquaresR v 0.
Proof.
  revert s. induction v as [|x v IH]; intros s; unfold sumSquaresR in *; simpl; [lra|].
  rewrite (IH (s + x * x)), (IH (0 + x * x)). lra.
Qed.

Lemma sumSquaresR_zero (v : list R) :
  sumSquaresR v 0 = 0 <-> Forall (fun x => x = 0) v.
Proof.
  induction v as [|x v IH]; simpl.
  - split; [constructor | reflexivity].
  - unfold sumSquaresR in *. simpl. fold (sumSquaresR v (0 + x * x)).
    rewrite sumSquaresR_shift. pose proof (sumSquaresR_ge v 0) as Hge.
    split.
    + intros H. assert (x = 0) by nra. subst x.
      constructor; [reflexivity|]. apply IH. unfold sumSquaresR in *. lra.
    + intros H. inversion H as [|? ? Hx Hv]; subst.
      apply IH in Hv. unfold sumSquaresR in *. lra.
Qed.

Lemma sumSquaresR_scale (v : list R) (c : R) :
  sumSquaresR (map (fun x => x / c) v) 0 = sumSquaresR v 0 / (c * c).
Proof.
  destruct (Req_dec_T c 0) as [->|Hc].
  - induction v as [|x v IH]; unfold sumSquaresR in *; simpl.
    + unfold Rdiv. rewrite Rmult_0_l. reflexivity.
    + fold (sumSquaresR (map (fun x => x / 0) v) (0 + x / 0 * (x / 0))).
      fold (sumSquaresR v (0 + x * x)).
      rewrite sumSquaresR_shift, (sumSquaresR_shift v (0 + x * x)).
      unfold sumSquaresR. rewrite IH. unfold Rdiv.
      rewrite !Rmult_0_l, Rinv_0. lra.
  - induction v as [|x v IH]; unfold sumSquaresR in *; simpl.
    + unfold Rdiv. rewrite Rmult_0_l. reflexivity.
    + fold (sumSquaresR (map (fun x => x / c) v) (0 + x / c * (x / c))).
      fold (sumSquaresR v (0 + x * x)).
      rewrite sumSquaresR_shift, (sumSquaresR_shift v (0 + x * x)).
      unfold sumSquaresR. rewrite IH. field. exact Hc.
Qed.

Lemma normalizeL2_exact (v : list R) :
  normalizeL2 Exact (map XFin v)
  = if Reqb (R_sqrt.sqrt (sumSquaresR v 0)) 0 then map XFin v
    else map XFin (map (fun x => x / R_sqrt.sqrt (sumSquaresR v 0)) v).
Proof.
  unfold normalizeL2. change (zero Exact) with (XFin 0).
  rewrite sumSquares_exact. cbn [sqrt eqb Exact xsqrt xeqb].
  rewrite (Rltb_false_ge (sumSquaresR_ge v 0)).
  change (xeqb (XFin ?a) (XFin ?b)) with (Reqb a b).
  destruct (Reqb (R_sqrt.sqrt (sumSquaresR v 0)) 0) eqn:E; [reflexivity|].
  rewrite !map_map. apply map_ext. intros x. simpl. rewrite E. reflexivity.
Qed.

Lemma l2norm_exact (v : list R) :
  l2norm Exact (map XFin v) = XFin (R_sqrt.sqrt (sumSquaresR v 0)).
Proof.
  unfold l2norm, sumSquares. change (zero Exact) with (XFin 0).
  rewrite sumSquares_exact. cbn [sqrt Exact xsqrt].
  rewrite (Rltb_false_ge (sumSquaresR_ge v 0)). reflexivity.
Qed.

(** Without rounding [normalizeL2] returns the zero vector unchanged and
    maps every other vector to one of Euclidean norm 1. *)
Lemma normalizeL2_exact_unit_norm (v : list R) :
  (Forall (fun x => x = 0) v ->
     normalizeL2 Exact (map XFin v) = map XFin v) /\
  (~ Forall (fun x => x = 0) v ->
     l2norm Exact (normalizeL2 Exact (map XFin v)) = XFin 1).
Proof.
  rewrite normalizeL2_exact. split; intros H.
  - apply sumSquaresR_zero in H. rewrite H, sqrt_0.
    rewrite Reqb_true_eq; reflexivity.
  - assert (Hpos : 0 < sumSquaresR v 0).
    { pose proof (sumSquaresR_ge v 0) as Hge.
      destruct (Req_dec_T (sumSquaresR v 0) 0) as [E|E]; [|lra].
      exfalso. apply H. apply sumSquaresR_zero. exact E. }
    pose proof (sqrt_lt_R0 _ Hpos) as Hs.
    rewrite Reqb_false_neq by lra.
    rewrite l2norm_exact, sumSquaresR_scale.
    rewrite sqrt_sqrt by lra.
    replace (sumSquaresR v 0 / sumSquaresR v 0) with 1 by (field; lra).
    rewrite sqrt_1. reflexivity.
Qed.

Lemma at_index_exact (a : list R) (i : nat) :
  (i < List.length a)%nat -> at_index Exact (map XFin a) i = XFin (nth i a 0).
Proof.
  intros H. unfold at_index.
  rewrite (nth_indep _ (nan Exact) (XFin 0)) by (rewrite length_map; exact H).
  apply map_nth.
Qed.

Lemma cosineSums_exact (a b : list R) (n : nat) :
  (n <= List.length a)%nat -> (n <= List.length b)%nat ->
  fold_left (cosineStep Exact (map XFin a) (map XFin b)) (seq 0 n)
    (XFin 0, XFin 0, XFin 0)
  = xfin3 (cosineSumsR a b n).
Proof.
  unfold cosineSumsR.
  induction n as [|n IH]; intros Ha Hb; [reflexivity|].
  rewrite seq_S, !fold_left_app, IH by lia. simpl.
  destruct (fold_left (cosineStepR a b) (seq 0 n) (0, 0, 0)) as [[d x] y].
  simpl. rewrite !at_index_exact by lia. reflexivity.
Qed.

Lemma mean_bound (p q t : R) :
  0 <= p -> 0 <= q -> t * t <= p * q -> 2 * t <= p + q.
Proof.
  intros Hp Hq Ht.
  pose proof (Rle_0_sqr (p - q)) as Hsq. unfold Rsqr in Hsq.
  destruct (Rle_lt_dec (2 * t) (p + q)) as [|Hlt]; [assumption|].
  exfalso.
  assert (0 < (2 * t - (p + q)) * (2 * t + (p + q)))
    by (apply Rmult_lt_0_compat; lra).
  nra.
Qed.

(** Cauchy-Schwarz on the accumulators, by induction on the rounds. *)
Lemma cosineSumsR_cauchy_schwarz (a b : list R) (n : nat) :
  let '(d, x, y) := cosineSumsR a b n in
  0 <= x /\ 0 <= y /\ d * d <= x * y.
Proof.
  unfold cosineSumsR. induction n as [|n IH].
  - simpl. lra.
  - rewrite seq_S, fold_left_app. simpl.
    destruct (fold_left (cosineStepR a b) (seq 0 n) (0, 0, 0)) as [[d x] y].
    simpl. destruct IH as (Hx & Hy & Hd).
    set (u := nth n a 0). set (w := nth n b 0).
    assert (Hu : 0 <= u * u) by nra. assert (Hw : 0 <= w * w) by nra.
    repeat split; try lra.
    assert (Hmix : 2 * (u * w * d) <= u * u * y + w * w * x).
    { assert (H1 : (u * w * d) * (u * w * d) <= (u * u * y) * (w * w * x)).
      { replace ((u * w * d) * (u * w * d)) with ((u * u) * (w * w) * (d * d)) by ring.
        replace ((u * u * y) * (w * w * x)) with ((u * u) * (w * w) * (x * y)) by ring.
        apply Rmult_le_compat_l; [nra | exact Hd]. }
      apply mean_bound; [nra | nra | exact H1]. }
    nra.
Qed.

Lemma cosineSumsR_pos_a (a b : list R) (n i : nat) :
  (i < n)%nat -> nth i a 0 <> 0 ->
  let '(d, x, y) := cosineSumsR a b n in 0 < x.
Proof.
  unfold cosineSumsR. intros Hi Hne. induction n as [|n IH]; [lia|].
  rewrite seq_S, fold_left_app. simpl.
  pose proof (cosineSumsR_cauchy_schwarz a b n) as Hcs. unfold cosineSumsR in Hcs.
  destruct (fold_left (cosineStepR a b) (seq 0 n) (0, 0, 0)) as [[d x] y].
  simpl. destruct Hcs as (Hx & _ & _).
  destruct (Nat.eq_dec i n) as [->|Hn].
  - nra.
  - assert (0 < x) by (apply IH; lia). nra.
Qed.

Lemma cosineSumsR_pos_b (a b : list R) (n i : nat) :
  (i < n)%nat -> nth i b 0 <> 0 ->
  let '(d, x, y) := cosineSumsR a b n in 0 < y.
Proof.
  unfold cosineSumsR. intros Hi Hne. induction n as [|n IH]; [lia|].
  rewrite seq_S, fold_left_app. simpl.
  pose proof (cosineSumsR_cauchy_schwarz a b n) as Hcs. unfold cosineSumsR in Hcs.
  destruct (fold_left (cosineStepR a b) (seq 0 n) (0, 0, 0)) as [[d x] y].
  simpl. destruct Hcs as (_ & Hy & _).
  destruct (Nat.eq_dec i n) as [->|Hn].
  - nra.
  - assert (0 < y) by (apply IH; lia). nra.
Qed.

Lemma Exists_nonzero_nth (v : list R) :
  Exists (fun x => x <> 0) v -> exists i, (i < List.length v)%nat /\ nth i v 0 <> 0.
Proof.
  induction 1 as [x v H | x v _ (i & Hi & Hn)].
  - exists 0%nat. simpl. split; [lia | exact H].
  - exists (S i). simpl. split; [lia | exact Hn].
Qed.

(** Without rounding the similarity of two vectors of one length, neither
    of them the zero vector, lies between -1 and 1. *)
Lemma cosineSim_exact_range (a b : list R) :
  List.length a = List.length b ->
  Exists (fun x => x <> 0) a ->
  Exists (fun x => x <> 0) b ->
  exists r, cosineSim Exact (map XFin a) (map XFin b) = XFin r /\ -1 <= r <= 1.
Proof.
  intros Hlen Ha Hb.
  apply Exists_nonzero_nth in Ha. apply Exists_nonzero_nth in Hb.
  destruct Ha as (i & Hi & Hai). destruct Hb as (j & Hj & Hbj).
  unfold cosineSim. rewrite length_map.
  change (zero Exact) with (XFin 0).
  rewrite cosineSums_exact by lia.
  pose proof (cosineSumsR_cauchy_schwarz a b (List.length a)) as Hcs.
  pose proof (cosineSumsR_pos_a a b Hi Hai) as Hpa.
  assert (Hj' : (j < List.length a)%nat) by lia.
  pose proof (cosineSumsR_pos_b a b Hj' Hbj) as Hpb.
  destruct (cosineSumsR a b (List.length a)) as [[d x] y].
  destruct Hcs as (_ & _ & Hd). simpl.
  rewrite !Rltb_false_ge by lra.
  pose proof (sqrt_lt_R0 _ Hpa) as Hsx. pose proof (sqrt_lt_R0 _ Hpb) as Hsy.
  assert (Hprod : 0 < R_sqrt.sqrt x * R_sqrt.sqrt y) by nra.
  change (xmul (XFin (R_sqrt.sqrt x)) (XFin (R_sqrt.sqrt y)))
    with (XFin (R_sqrt.sqrt x * R_sqrt.sqrt y)).
  cbv iota beta.
  rewrite (@Reqb_false_neq (R_sqrt.sqrt x * R_sqrt.sqrt y) 0) by lra.
  eexists. split; [reflexivity|].
  assert (Habs : Rabs d <= R_sqrt.sqrt x * R_sqrt.sqrt y).
  { rewrite <- sqrt_mult by lra. rewrite <- sqrt_Rsqr_abs.
    apply sqrt_le_1; unfold Rsqr; nra. }
  unfold Rabs in Habs. destruct (Rcase_abs d) as [Hneg|Hnn].
  all: split.
  all: apply Rmult_le_reg_r with (R_sqrt.sqrt x * R_sqrt.sqrt y); [exact Hprod|].
  all: unfold Rdiv; rewrite Rmult_assoc, Rinv_l by lra; lra.
Qed.

(** Without rounding too, a zero vector has no cosine similarity: [0 / 0]. *)
Lemma cosineSim_exact_zero_vector :
  cosineSim Exact (map XFin [0; 0]) (map XFin [1; 2]) = XNaN.
Proof.
  unfold cosineSim. rewrite length_map. change (zero Exact) with (XFin 0).
  rewrite cosineSums_exact by (simpl; lia).
  unfold cosineSumsR. simpl.
  replace (0 + 0 * 1 + 0 * 2) with 0 by ring.
  replace (0 + 0 * 0 + 0 * 0) with 0 by ring.
  rewrite !Rltb_false_ge by nra.
  change (xmul (XFin ?a) (XFin ?b)) with (XFin (a * b)). cbv iota beta.
  rewrite sqrt_0, Rmult_0_l. rewrite !Reqb_true_eq by reflexivity. reflexivity.
Qed.

End ExactArithmetic.

(** ** Binary64 arithmetic *)

(** C5 (as stated, refuted): the square of 1e200 overflows, the norm is
    [Infinity], and the vector is mapped to the zero vector, of norm 0; the
    square of 1e-200 underflows to 0 and the vector is returned as it is. *)
Lemma normalizeL2_overflow :
  PrimFloat.eqb 1e200%float 0%float = false /\
  normalizeL2 F64 [1e200%float] = [0%float] /\
  l2norm F64 (normalizeL2 F64 [1e200%float]) = 0%float /\
  normalizeL2 F64 [1e-200%float] = [1e-200%float].
Proof. vm_compute. repeat split; reflexivity. Qed.

(** On an ordinary vector the result is what JavaScript prints. *)
Example normalizeL2_3_4 :
  normalizeL2 F64 [3%float; 4%float] = [0.6%float; 0.8%float].
Proof. vm_compute. reflexivity. Qed.

(** C9 (as stated, refuted): with a zero vector [cosineSim] is [0 / 0], NaN,
    which is in no interval; and for the vector (1, 1, 1) against itself
    rounding gives 3 / (sqrt 3 * sqrt 3) = 1.0000000000000002. *)
Lemma cosineSim_out_of_range :
  cosineSim F64 [0%float; 0%float] [0%float; 0%float] = PrimFloat.nan /\
  in_cosine_range (cosineSim F64 [0%float; 0%float] [0%float; 0%float]) = false /\
  PrimFloat.ltb 1%float
    (cosineSim F64 [1%float; 1%float; 1%float] [1%float; 1%float; 1%float]) = true /\
  in_cosine_range
    (cosineSim F64 [1%float; 1%float; 1%float] [1%float; 1%float; 1%float]) = false.
Proof. vm_compute. repeat split; reflexivity. Qed.

(** The order of binary64 values, from its specification. *)

Ltac sf_compare_cases :=
  repeat match goal with
  | H : context [Z.compare ?a ?b] |- _ =>
      destruct (Z.compare_spec a b); subst
  | |- context [Z.compare ?a ?b] =>
      destruct (Z.compare_spec a b); subst
  | H : context [PosDef.Pos.compare_cont Eq ?a ?b] |- _ =>
      change (PosDef.Pos.compare_cont Eq a b) with (Pos.compare a b) in *;
      destruct (Pos.compare_spec a b); subst
  | |- context [PosDef.Pos.compare_cont Eq ?a ?b] =>
      change (PosDef.Pos.compare_cont Eq a b) with (Pos.compare a b) in *;
      destruct (Pos.compare_spec a b); subst
  end;
  simpl in *; try congruence; try lia.

Ltac sf_cases :=
  unfold SFltb, SFeqb, SFleb;
  repeat match goal with x : spec_float |- _ => destruct x end;
  simpl; try congruence;
  repeat match goal with b : bool |- _ => destruct b end;
  simpl; try congruence; intros; sf_compare_cases.

Lemma SFltb_between (x y z : spec_float) :
  SFltb z x = true -> SFltb z y = false -> SFeqb y y = true -> SFltb y x = true.
Proof. sf_cases. Qed.

Lemma SFltb_asym (x y : spec_float) : SFltb x y = true -> SFltb y x = false.
Proof. sf_cases. Qed.

Lemma SFltb_unordered_l (x y : spec_float) : SFeqb x x = false -> SFltb x y = false.
Proof. sf_cases. Qed.

Lemma SFltb_unordered_r (x y : spec_float) : SFeqb x x = false -> SFltb y x = false.
Proof. sf_cases. Qed.

Lemma SFleb_of_not_ltb (x y : spec_float) :
  SFeqb x x = true -> SFeqb y y = true -> SFltb x y = false -> SFleb y x = true.
Proof. sf_cases. Qed.

Lemma SFleb_not_ltb (x y : spec_float) : SFleb x y = true -> SFltb y x = false.
Proof. sf_cases. Qed.

Lemma SFleb_numbers (x y : spec_float) :
  SFleb x y = true -> SFeqb x x = true /\ SFeqb y y = true.
Proof. sf_cases; split; sf_cases. Qed.

Lemma SFltb_infinity (x : spec_float) :
  SFeqb x x = true -> SFltb (S754_infinity true) x = false -> x = S754_infinity true.
Proof. sf_cases. Qed.

(** [x > z] and not [y > z], for a [y] that is a number, give [x > y]. *)
Lemma gtb_between (x y z : float) :
  gtb F64 x z = true -> gtb F64 y z = false -> PrimFloat.eqb y y = true ->
  gtb F64 x y = true.
Proof.
  cbn [gtb F64]. rewrite !ltb_spec, !eqb_spec. apply SFltb_between.
Qed.

Lemma gtb_asym (x y : float) : gtb F64 x y = true -> gtb F64 y x = false.
Proof. cbn [gtb F64]. rewrite !ltb_spec. apply SFltb_asym. Qed.

Lemma gtb_irrefl (x : float) : gtb F64 x x = false.
Proof.
  destruct (gtb F64 x x) eqn:E; [|reflexivity].
  pose proof (gtb_asym E). congruence.
Qed.

(** NaN is above nothing and below nothing. *)
Lemma gtb_unordered (x y : float) :
  PrimFloat.eqb x x = false -> gtb F64 x y = false /\ gtb F64 y x = false.
Proof.
  cbn [gtb F64]. rewrite !ltb_spec, !eqb_spec. intros H. split.
  - apply SFltb_unordered_r, H.
  - apply SFltb_unordered_l, H.
Qed.

(** Zeros of either sign. *)

Lemma is_zero_spec (x : float) : is_zero x = true <-> exists s, Prim2SF x = S754_zero s.
Proof.
  unfold is_zero. rewrite eqb_spec.
  change (Prim2SF 0%float) with (S754_zero false).
  destruct (Prim2SF x) as [s|s| |s m e]; cbn.
  - split; [eauto | reflexivity].
  - split; [destruct s; discriminate | intros [? H]; discriminate].
  - split; [discriminate | intros [? H]; discriminate].
  - split; [destruct s; discriminate | intros [? H]; discriminate].
Qed.

Lemma Zero_mul (x y : float) : is_zero x = true -> is_zero y = true -> is_zero (x * y) = true.
Proof.
  rewrite !is_zero_spec, mul_spec. intros [s ->] [t ->]. cbn. eauto.
Qed.

Lemma Zero_add (x y : float) : is_zero x = true -> is_zero y = true -> is_zero (x + y) = true.
Proof.
  rewrite !is_zero_spec, add_spec. intros [s ->] [t ->]. cbn. destruct s, t; eauto.
Qed.

Lemma Zero_sqrt (x : float) : is_zero x = true -> is_zero (PrimFloat.sqrt x) = true.
Proof.
  rewrite !is_zero_spec, sqrt_spec. intros [s ->]. cbn. eauto.
Qed.

Lemma normalizeL2_zero_vector (vec : list float) :
  Forall (fun x => is_zero x = true) vec -> normalizeL2 F64 vec = vec.
Proof.
  intros Hv. unfold normalizeL2.
  assert (Hsum : forall acc, is_zero acc = true ->
            is_zero (fold_left (fun acc val => add F64 acc (mul F64 val val)) vec acc) = true).
  { induction Hv as [|x vec Hx _ IH]; intros acc Hacc; [exact Hacc|].
    cbn [fold_left]. apply IH. cbn [add mul F64]. apply Zero_add; [exact Hacc|].
    apply Zero_mul; exact Hx. }
  specialize (Hsum (zero F64) eq_refl).
  apply Zero_sqrt in Hsum. cbn [sqrt eqb F64 zero] in *. unfold is_zero in Hsum.
  rewrite Hsum. reflexivity.
Qed.

(** ** Rounding in binary64

    What the operations of [normalizeL2] and [cosineSim] compute in binary64,
    from the specification of the primitive floats: a result that is a normal
    number differs from the exact one by at most [eps] times itself, and a
    finite sum is exact or a normal number. *)

Section RoundingIntegers.

Local Open Scope Z_scope.

Lemma digits2_pos_size (p : positive) : digits2_pos p = Pos.size p.
Proof. induction p; simpl; congruence. Qed.

Lemma Zdigits2_bounds (m : Z) : 0 < m -> 2 ^ (Zdigits2 m - 1) <= m < 2 ^ Zdigits2 m.
Proof.
  destruct m as [|p|p]; try lia. intros _. cbn [Zdigits2]. rewrite digits2_pos_size.
  pose proof (Pos.size_gt p) as Hgt. pose proof (Pos.size_le p) as Hle.
  assert (H1 : 2 ^ Zpos (Pos.size p) <= 2 * Zpos p).
  { change 2 with (Zpos 2) at 1. rewrite <- Pos2Z.inj_pow. lia. }
  assert (H2 : Zpos p < 2 ^ Zpos (Pos.size p)).
  { change 2 with (Zpos 2). rewrite <- Pos2Z.inj_pow. lia. }
  split; [|exact H2].
  replace (Zpos (Pos.size p)) with (Zpos (Pos.size p) - 1 + 1) in H1 by lia.
  rewrite Z.pow_add_r in H1 by lia. change (2 ^ 1) with 2 in H1. lia.
Qed.

Lemma Zdigits2_zero : Zdigits2 0 = 0.
Proof. reflexivity. Qed.

Lemma Zdigits2_pos (m : Z) : 0 < m -> 0 < Zdigits2 m.
Proof. destruct m; simpl; lia. Qed.

Lemma Zdigits2_unique (m d : Z) : 0 < m -> 2 ^ (d - 1) <= m < 2 ^ d -> Zdigits2 m = d.
Proof.
  intros Hm [Hlo Hhi]. pose proof (@Zdigits2_bounds m Hm) as [Blo Bhi].
  pose proof (@Zdigits2_pos m Hm) as Hd.
  assert (0 < d).
  { destruct (Z.ltb_spec 0 d); [assumption|].
    assert (2 ^ d <= 1).
    { destruct (Z.eqb_spec d 0); [subst; simpl; lia|].
      rewrite Z.pow_neg_r by lia. lia. }
    lia. }
  destruct (Z.lt_trichotomy (Zdigits2 m) d) as [Hlt | [Heq | Hgt]]; [|exact Heq|].
  - assert (2 ^ Zdigits2 m <= 2 ^ (d - 1)) by (apply Z.pow_le_mono_r; lia). lia.
  - assert (2 ^ d <= 2 ^ (Zdigits2 m - 1)) by (apply Z.pow_le_mono_r; lia). lia.
Qed.

Lemma Zdigits2_div (m n : Z) :
  0 <= m -> 0 <= n -> Zdigits2 (m / 2 ^ n) = Z.max 0 (Zdigits2 m - n).
Proof.
  intros Hm Hn. assert (Hp : 0 < 2 ^ n) by (apply Z.pow_pos_nonneg; lia).
  destruct (Z.eqb_spec m 0) as [->|Hne].
  { rewrite Z.div_0_l by lia. simpl. lia. }
  pose proof (@Zdigits2_bounds m ltac:(lia)) as [Blo Bhi].
  pose proof (@Zdigits2_pos m ltac:(lia)) as Hd.
  destruct (Z.leb_spec (Zdigits2 m) n) as [Hle|Hlt].
  - assert (m < 2 ^ n).
    { assert (2 ^ Zdigits2 m <= 2 ^ n) by (apply Z.pow_le_mono_r; lia). lia. }
    rewrite Z.div_small by lia. simpl. lia.
  - rewrite Z.max_r by lia. apply Zdigits2_unique.
    + apply Z.div_str_pos. split; [lia|].
      assert (2 ^ n <= 2 ^ (Zdigits2 m - 1)) by (apply Z.pow_le_mono_r; lia). lia.
    + split.
      * apply Z.div_le_lower_bound; [lia|].
        rewrite <- Z.pow_add_r by lia. replace (n + (Zdigits2 m - n - 1)) with (Zdigits2 m - 1) by lia.
        exact Blo.
      * apply Z.div_lt_upper_bound; [lia|].
        rewrite <- Z.pow_add_r by lia. replace (n + (Zdigits2 m - n)) with (Zdigits2 m) by lia.
        exact Bhi.
Qed.

Lemma Zdigits2_mono (a b : Z) : 0 <= a <= b -> Zdigits2 a <= Zdigits2 b.
Proof.
  intros [Ha Hab]. destruct (Z.eqb_spec a 0) as [->|Hne].
  { destruct b; simpl; lia. }
  pose proof (@Zdigits2_bounds a ltac:(lia)) as [Alo Ahi].
  pose proof (@Zdigits2_bounds b ltac:(lia)) as [Blo Bhi].
  destruct (Z.leb_spec (Zdigits2 a) (Zdigits2 b)); [assumption|].
  assert (2 ^ Zdigits2 b <= 2 ^ (Zdigits2 a - 1)).
  { apply Z.pow_le_mono_r; [lia|]. lia. }
  lia.
Qed.

Lemma shr_1_m (mrs : shr_record) : 0 <= shr_m mrs -> shr_m (shr_1 mrs) = shr_m mrs / 2.
Proof.
  destruct mrs as [m r s]. simpl. intros Hm.
  destruct m as [|[p|p|]|p]; simpl; try lia; try reflexivity.
  - rewrite Pos2Z.inj_xI. apply Z.div_unique with (r := 1); lia.
  - rewrite Pos2Z.inj_xO. apply Z.div_unique with (r := 0); lia.
Qed.

Lemma shr_m_iter (p : positive) (mrs : shr_record) :
  0 <= shr_m mrs -> shr_m (SpecFloat.iter_pos shr_1 p mrs) = shr_m mrs / 2 ^ Zpos p.
Proof.
  revert mrs. induction p as [p IH|p IH|]; intros mrs Hm; simpl SpecFloat.iter_pos.
  - assert (H1 : 0 <= shr_m (shr_1 mrs)) by (rewrite shr_1_m by lia; apply Z.div_pos; lia).
    assert (H2 : 0 <= shr_m (SpecFloat.iter_pos shr_1 p (shr_1 mrs)))
      by (rewrite IH by lia; apply Z.div_pos; [lia | apply Z.pow_pos_nonneg; lia]).
    rewrite IH by lia. rewrite IH by lia. rewrite shr_1_m by lia.
    rewrite !Z.div_div by (try apply Z.pow_pos_nonneg; lia).
    f_equal. change 2 with (2 ^ 1) at 1. rewrite <- !Z.pow_add_r by lia. f_equal. lia.
  - assert (H2 : 0 <= shr_m (SpecFloat.iter_pos shr_1 p mrs))
      by (rewrite IH by lia; apply Z.div_pos; [lia | apply Z.pow_pos_nonneg; lia]).
    rewrite IH by lia. rewrite IH by lia.
    rewrite !Z.div_div by (try apply Z.pow_pos_nonneg; lia).
    f_equal. rewrite <- !Z.pow_add_r by lia. f_equal. lia.
  - rewrite shr_1_m by lia. reflexivity.
Qed.


Lemma fexp64_eq (x : Z) : fexp prec emax x = Z.max (x - 53) (-1074).
Proof. reflexivity. Qed.

Lemma shr_record_of_loc_m (m : Z) (l : location) : shr_m (shr_record_of_loc m l) = m.
Proof. destruct l as [|[]]; reflexivity. Qed.

Lemma shr_fexp_spec (m e : Z) (l : location) :
  0 <= m ->
  shr_m (fst (shr_fexp prec emax m e l)) = m / 2 ^ cut m e /\
  snd (shr_fexp prec emax m e l) = e + cut m e.
Proof.
  intros Hm. unfold shr_fexp, shr, cut.
  destruct (fexp prec emax (Zdigits2 m + e) - e) as [|p|p] eqn:E.
  - simpl. rewrite shr_record_of_loc_m, Z.div_1_r. lia.
  - cbn [fst snd]. rewrite shr_m_iter by (rewrite shr_record_of_loc_m; lia).
    rewrite shr_record_of_loc_m. rewrite Z.max_r by lia. split; reflexivity.
  - simpl. rewrite shr_record_of_loc_m, Z.max_l by lia. simpl. rewrite Z.div_1_r. lia.
Qed.

Lemma shr_fexp_exact (m e : Z) (l : location) :
  cut m e = 0 -> fst (shr_fexp prec emax m e l) = shr_record_of_loc m l.
Proof.
  unfold shr_fexp, shr, cut. destruct (fexp prec emax (Zdigits2 m + e) - e) as [|p|p]; try reflexivity.
  lia.
Qed.

Lemma round_nearest_even_cases (m : Z) (l : location) :
  round_nearest_even m l = m \/ round_nearest_even m l = m + 1.
Proof.
  destruct l as [|[]]; simpl; auto. destruct (Z.even m); auto.
Qed.

Lemma loc_of_shr_record_of_loc (m : Z) (l : location) :
  loc_of_shr_record (shr_record_of_loc m l) = l.
Proof. destruct l as [|[]]; reflexivity. Qed.

(** What rounding does to a mantissa [mx] at exponent [ex]. *)
Lemma binary_round_aux_spec (sx : bool) (mx ex : Z) (lx : location) :
  0 <= mx ->
  exists m' m1 m'' n n',
    0 <= n /\ 0 <= n' /\ 0 <= m' /\
    n = cut mx ex /\
    m' * 2 ^ n <= mx < (m' + 1) * 2 ^ n /\
    (m1 = m' \/ m1 = m' + 1) /\
    (lx = loc_Exact -> n = 0 -> m1 = mx) /\
    m'' * 2 ^ n' = m1 /\
    -1074 <= ex + n /\
    binary_round_aux prec emax sx mx ex lx
    = match m'' with
      | Z0 => S754_zero sx
      | Zpos m => if ex + n + n' <=? 971 then S754_finite sx m (ex + n + n')
                  else S754_infinity sx
      | Zneg _ => S754_nan
      end.
Proof.
  intros Hm. unfold binary_round_aux.
  pose proof (@shr_fexp_spec mx ex lx Hm) as [H1m H1e].
  destruct (shr_fexp prec emax mx ex lx) as [mrs' e'] eqn:E1. cbn [fst snd] in *.
  set (m' := shr_m mrs') in *.
  set (m1 := round_nearest_even m' (loc_of_shr_record mrs')).
  assert (Hp : 0 < 2 ^ cut mx ex) by (apply Z.pow_pos_nonneg; unfold cut; lia).
  assert (Hm' : 0 <= m') by (rewrite H1m; apply Z.div_pos; lia).
  assert (Hm1 : m1 = m' \/ m1 = m' + 1) by apply round_nearest_even_cases.
  assert (Hm1' : 0 <= m1) by lia.
  pose proof (@shr_fexp_spec m1 e' loc_Exact Hm1') as [H2m H2e].
  destruct (shr_fexp prec emax m1 e' loc_Exact) as [mrs'' e''] eqn:E2. cbn [fst snd] in *.
  (* the first result is canonical enough *)
  assert (Hcut0 : 0 <= cut mx ex) by (unfold cut; lia).
  assert (Hemin : -1074 <= e').
  { subst e'. unfold cut. rewrite fexp64_eq. lia. }
  assert (Hcan : fexp prec emax (Zdigits2 m' + e') <= e').
  { rewrite H1m, Zdigits2_div by lia. subst e'. unfold cut. rewrite !fexp64_eq. lia. }
  (* the second shift is by at most one bit, and exact *)
  assert (Hd1 : Zdigits2 m1 <= Zdigits2 m' + 1).
  { destruct Hm1 as [->| ->]; [lia|].
    destruct (Z.eqb_spec m' 0) as [->|Hne]; [simpl; lia|].
    pose proof (@Zdigits2_bounds m' ltac:(lia)) as [Blo Bhi].
    destruct (Z.eqb_spec (m' + 1) (2 ^ Zdigits2 m')) as [Heq|Hneq].
    - rewrite (@Zdigits2_unique (m' + 1) (Zdigits2 m' + 1)); [lia|lia|].
      replace (Zdigits2 m' + 1 - 1) with (Zdigits2 m') by lia.
      rewrite Z.pow_add_r by (pose proof (@Zdigits2_pos m'); lia). simpl (2 ^ 1). lia.
    - rewrite (@Zdigits2_unique (m' + 1) (Zdigits2 m')); lia. }
  assert (Hcut1 : cut m1 e' = 0 \/ (cut m1 e' = 1 /\ m1 = 2 * (m1 / 2))).
  { unfold cut. rewrite fexp64_eq in *.
    destruct (Z.leb_spec (Z.max (Zdigits2 m1 + e' - 53) (-1074) - e') 0) as [Hle|Hgt];
      [left; lia|]. right.
    assert (Hdd : Zdigits2 m1 = Zdigits2 m' + 1).
    { assert (Zdigits2 m' <= Zdigits2 m1) by (apply Zdigits2_mono; lia). lia. }
    split; [lia|].
    destruct Hm1 as [Heq|Heq]; [rewrite Heq in Hdd; lia|].
    destruct (Z.eqb_spec m' 0) as [H0|Hne].
    { rewrite Heq, H0 in Hgt. change (Zdigits2 (0 + 1)) with 1 in Hgt. lia. }
    pose proof (@Zdigits2_bounds m' ltac:(lia)) as [Blo Bhi].
    pose proof (@Zdigits2_bounds m1 ltac:(lia)) as [Clo Chi].
    rewrite Hdd in Clo. replace (Zdigits2 m' + 1 - 1) with (Zdigits2 m') in Clo by lia.
    assert (Hpow : m1 = 2 ^ Zdigits2 m') by lia.
    pose proof (@Zdigits2_pos m' ltac:(lia)) as Hdp.
    rewrite Hpow. replace (Zdigits2 m') with (1 + (Zdigits2 m' - 1)) at 1 2 by lia.
    rewrite Z.pow_add_r by lia. simpl (2 ^ 1).
    rewrite (Z.mul_comm 2), Z.div_mul by lia. lia. }
  exists m', m1, (shr_m mrs''), (cut mx ex), (cut m1 e').
  split; [lia|]. split; [unfold cut; lia|]. split; [lia|]. split; [reflexivity|].
  split.
  { rewrite H1m. pose proof (Z.div_mod mx (2 ^ cut mx ex) ltac:(lia)).
    pose proof (Z.mod_pos_bound mx (2 ^ cut mx ex) Hp). nia. }
  split; [exact Hm1|]. split.
  { intros -> H0. unfold m1, m'.
    pose proof (@shr_fexp_exact mx ex loc_Exact H0) as Hx. rewrite E1 in Hx. cbn [fst] in Hx.
    rewrite Hx. reflexivity. }
  split.
  { rewrite H2m. destruct Hcut1 as [-> | [-> Heven]].
    - change (2 ^ 0) with 1. rewrite Z.div_1_r. lia.
    - change (2 ^ 1) with 2. lia. }
  split; [lia|].
  rewrite H2e, H1e. reflexivity.
Qed.

End RoundingIntegers.

Section RoundingReals.

Local Open Scope R_scope.

Lemma bpow_pos (e : Z) : 0 < bpow e.
Proof. apply powerRZ_lt. lra. Qed.

Lemma bpow_add (a b : Z) : bpow (a + b) = bpow a * bpow b.
Proof. apply powerRZ_add. lra. Qed.

Lemma bpow_IZR (n : Z) : (0 <= n)%Z -> bpow n = IZR (2 ^ n).
Proof.
  intros Hn. unfold bpow. destruct n as [|p|p]; [reflexivity| |lia].
  cbn [powerRZ]. rewrite <- (positive_nat_Z p), <- pow_IZR. reflexivity.
Qed.

Lemma eps_bpow : eps = bpow (-52).
Proof.
  unfold eps. change (-52)%Z with (Z.opp 52). unfold bpow. rewrite powerRZ_neg'.
  f_equal. symmetry. apply (@bpow_IZR 52). lia.
Qed.

Lemma eps_pos : 0 < eps.
Proof. rewrite eps_bpow. apply bpow_pos. Qed.

Lemma F2R_scale (m k e : Z) : (0 <= k)%Z -> F2R (m * 2 ^ k) e = F2R m (e + k).
Proof.
  intros Hk. unfold F2R. rewrite mult_IZR, bpow_add, <- (@bpow_IZR k Hk). ring.
Qed.

Lemma F2R_le (a b e : Z) : (a <= b)%Z -> F2R a e <= F2R b e.
Proof.
  intros H. unfold F2R. apply Rmult_le_compat_r; [left; apply bpow_pos | apply IZR_le, H].
Qed.

(** One rounding to a normal number: the result is within one unit of its
    last place of what was rounded. *)
Lemma round_aux_normal (sx : bool) (mx ex : Z) (lx : location) (X : R)
    (s : bool) (m : positive) (e : Z) :
  (0 <= mx)%Z -> F2R mx ex <= X <= F2R (mx + 1) ex ->
  binary_round_aux prec emax sx mx ex lx = S754_finite s m e ->
  digits2_pos m = 53%positive ->
  s = sx /\ Rabs (F2R (Zpos m) e - X) <= eps * F2R (Zpos m) e.
Proof.
  intros Hmx HX Hr Hd.
  destruct (@binary_round_aux_spec sx mx ex lx Hmx)
    as (m' & m1 & m'' & n & n' & Hn & Hn' & Hm' & _ & Hfloor & Hm1 & _ & Hm'' & _ & Hres).
  rewrite Hres in Hr. destruct m'' as [|p|p]; try discriminate.
  destruct (_ <=? _)%Z; [|discriminate]. injection Hr as <- <- <-.
  split; [reflexivity|].
  assert (Hval : F2R (Zpos p) (ex + n + n') = F2R m1 (ex + n)).
  { rewrite <- Hm''. rewrite F2R_scale by exact Hn'. reflexivity. }
  rewrite Hval.
  assert (Hp : (2 ^ 52 <= Zpos p)%Z).
  { pose proof (@Zdigits2_bounds (Zpos p) eq_refl) as Hb. cbn [Zdigits2] in Hb.
    rewrite Hd in Hb. change (2 ^ (53 - 1))%Z with (2 ^ 52)%Z in Hb. lia. }
  assert (Hm1' : (2 ^ 52 <= m1)%Z).
  { rewrite <- Hm''. assert (1 <= 2 ^ n')%Z by (apply Z.pow_pos_nonneg with (a := 2%Z) in Hn'; lia).
    nia. }
  assert (Hlo : F2R m' (ex + n) <= X).
  { rewrite <- F2R_scale by exact Hn. eapply Rle_trans; [|apply HX]. apply F2R_le. lia. }
  assert (Hhi : X <= F2R (m' + 1) (ex + n)).
  { rewrite <- F2R_scale by exact Hn. eapply Rle_trans; [apply HX|]. apply F2R_le. lia. }
  unfold F2R in *. rewrite plus_IZR in Hhi.
  pose proof (bpow_pos (ex + n)) as HB.
  assert (H52 : 1 <= eps * IZR m1).
  { unfold eps. apply IZR_le in Hm1'.
    assert (0 < IZR (2 ^ 52)) by (apply IZR_lt; reflexivity).
    apply Rmult_le_reg_l with (r := IZR (2 ^ 52)); [assumption|].
    rewrite <- Rmult_assoc, Rinv_r by lra. lra. }
  assert (Hgoal : Rabs (IZR m1 * bpow (ex + n) - X) <= bpow (ex + n)).
  { apply Rabs_le. destruct Hm1 as [-> | ->]; [|rewrite plus_IZR]; split; nra. }
  eapply Rle_trans; [exact Hgoal|]. nra.
Qed.

Lemma SF2R_finite (s : bool) (m : positive) (e : Z) :
  SF2R (S754_finite s m e) = sgn s * F2R (Zpos m) e.
Proof. unfold SF2R, F2R, sgn. destruct s; cbn [cond_Zopp]; [rewrite opp_IZR|]; ring. Qed.

Lemma sgn_xorb (a b : bool) : sgn (xorb a b) = sgn a * sgn b.
Proof. destruct a, b; unfold sgn; cbn; ring. Qed.

Lemma sgn_abs (s : bool) (x : R) : Rabs (sgn s * x) = Rabs x.
Proof. destruct s; unfold sgn; [rewrite <- Rabs_Ropp; f_equal; ring | f_equal; ring]. Qed.

Lemma F2R_pos (m : positive) (e : Z) : 0 < F2R (Zpos m) e.
Proof.
  unfold F2R. apply Rmult_lt_0_compat; [apply IZR_lt; reflexivity | apply bpow_pos].
Qed.

Lemma is_normal_inv (x : float) :
  is_normal x = true ->
  exists s m e, Prim2SF x = S754_finite s m e /\ digits2_pos m = 53%positive.
Proof.
  unfold is_normal. rewrite classify_spec. unfold SF64classify, SFclassify.
  destruct (Prim2SF x) as [s|s| |s m e]; try (destruct s; discriminate); try discriminate.
  intros H. exists s, m, e. split; [reflexivity|].
  destruct (Z.eqb_spec (Zpos (digits2_pos m)) prec) as [E|E].
  - injection E as E. exact E.
  - destruct s; discriminate.
Qed.

Lemma is_finite_inv (x : float) :
  is_finite x = true ->
  (exists s, Prim2SF x = S754_zero s) \/
  (exists s m e, Prim2SF x = S754_finite s m e /\ (-1074 <= e)%Z).
Proof.
  unfold is_finite. rewrite classify_spec. unfold SF64classify, SFclassify.
  pose proof (Prim2SF_valid x) as Hv.
  destruct (Prim2SF x) as [s|s| |s m e]; try (destruct s; discriminate); try discriminate.
  - intros _. left. exists s. reflexivity.
  - intros _. right. exists s, m, e. split; [reflexivity|].
    cbn [SpecFloat.valid_binary] in Hv. unfold bounded, canonical_mantissa in Hv.
    apply andb_true_iff in Hv. destruct Hv as [Hc _]. apply Z.eqb_eq in Hc.
    unfold fexp, emin in Hc. change (3 - emax - prec)%Z with (-1074)%Z in Hc. lia.
Qed.

Lemma is_zero_inv (x : float) :
  is_zero x = true -> exists s, Prim2SF x = S754_zero s.
Proof.
  unfold is_zero. rewrite FloatAxioms.eqb_spec. change (Prim2SF 0) with (S754_zero false).
  unfold SFeqb, SFcompare.
  destruct (Prim2SF x) as [s|s| |s m e]; try discriminate.
  - intros _. exists s. reflexivity.
  - destruct s; discriminate.
  - destruct s; discriminate.
Qed.

Lemma is_normal_finite (x : float) : is_normal x = true -> is_finite x = true.
Proof. unfold is_normal, is_finite. destruct (classify x); congruence. Qed.

Lemma is_zero_finite (x : float) : is_zero x = true -> is_finite x = true.
Proof.
  intros H. apply is_zero_inv in H. destruct H as (s & H).
  unfold is_finite. rewrite classify_spec, H. destruct s; reflexivity.
Qed.

Lemma B2R_zero (x : float) : is_zero x = true -> B2R x = 0.
Proof. intros H. apply is_zero_inv in H. destruct H as (s & H). unfold B2R. rewrite H. reflexivity. Qed.

(** The product, when it is a normal number. *)
Lemma mul_error (x y : float) :
  is_normal (x * y) = true ->
  Rabs (B2R (x * y) - B2R x * B2R y) <= eps * Rabs (B2R (x * y)).
Proof.
  intros H. apply is_normal_inv in H. destruct H as (s & m & e & Hr & Hd).
  unfold B2R. rewrite Hr. rewrite mul_spec in Hr. unfold SF64mul, SFmul in Hr.
  destruct (Prim2SF x) as [sx|sx| |sx mx ex]; destruct (Prim2SF y) as [sy|sy| |sy my ey];
    try discriminate.
  destruct (@round_aux_normal (xorb sx sy) (Zpos (mx * my)) (ex + ey) loc_Exact
              (F2R (Zpos (mx * my)) (ex + ey)) s m e) as [-> Herr];
    [lia | split; [lra | apply F2R_le; lia] | exact Hr | exact Hd |].
  rewrite !SF2R_finite, sgn_xorb.
  replace (sgn sx * sgn sy * F2R (Zpos m) e - sgn sx * F2R (Zpos mx) ex * (sgn sy * F2R (Zpos my) ey))
    with (sgn sx * (sgn sy * (F2R (Zpos m) e - F2R (Zpos (mx * my)) (ex + ey)))).
  2: { unfold F2R. rewrite Pos2Z.inj_mul, mult_IZR, bpow_add. ring. }
  rewrite Rmult_assoc, !sgn_abs. rewrite (Rabs_pos_eq (F2R (Zpos m) e)) by (left; apply F2R_pos).
  exact Herr.
Qed.

Lemma Zdiv_eucl_floor (a b q r : Z) :
  (0 <= a)%Z -> (0 < b)%Z -> Z.div_eucl a b = (q, r) ->
  (0 <= q)%Z /\ IZR q <= IZR a / IZR b <= IZR (q + 1).
Proof.
  intros Ha Hb E. pose proof (Z_div_mod a b (Z.lt_gt _ _ Hb)) as H. rewrite E in H.
  destruct H as [Heq Hr]. assert (Hq : (0 <= q)%Z) by nia. split; [exact Hq|].
  assert (Hb' : 0 < IZR b) by (apply IZR_lt; exact Hb).
  assert (H1 : IZR b * IZR q <= IZR a) by (rewrite <- mult_IZR; apply IZR_le; lia).
  assert (H2 : IZR a <= IZR b * IZR (q + 1)) by (rewrite <- mult_IZR; apply IZR_le; lia).
  split.
  - apply Rmult_le_reg_l with (r := IZR b); [exact Hb'|]. 
    replace (IZR b * (IZR a / IZR b)) with (IZR a) by (field; lra). exact H1.
  - apply Rmult_le_reg_l with (r := IZR b); [exact Hb'|].
    replace (IZR b * (IZR a / IZR b)) with (IZR a) by (field; lra). exact H2.
Qed.

(** The quotient, when it is a normal number. *)
Lemma div_error (x y : float) :
  is_normal (x / y) = true ->
  Rabs (B2R (x / y) - B2R x / B2R y) <= eps * Rabs (B2R (x / y)).
Proof.
  intros H. apply is_normal_inv in H. destruct H as (s & m & e & Hr & Hd).
  unfold B2R. rewrite Hr. rewrite div_spec in Hr. unfold SF64div, SFdiv in Hr.
  destruct (Prim2SF x) as [sx|sx| |sx mx ex]; destruct (Prim2SF y) as [sy|sy| |sy my ey];
    try discriminate.
  unfold SFdiv_core_binary in Hr.
  set (e' := Z.min (fexp prec emax (Zdigits2 (Zpos mx) + ex - (Zdigits2 (Zpos my) + ey)))
               (ex - ey)) in *.
  set (sh := (ex - ey - e')%Z) in *.
  assert (Hsh : (0 <= sh)%Z) by (unfold sh, e'; lia).
  set (m' := match sh with Zpos _ => Z.shiftl (Zpos mx) sh | Z0 => Zpos mx | Zneg _ => 0%Z end)
    in *.
  assert (Hm' : m' = (Zpos mx * 2 ^ sh)%Z).
  { unfold m'. destruct sh as [|p|p]; [cbn; lia | rewrite Z.shiftl_mul_pow2 by lia; reflexivity | lia]. }
  destruct (Z.div_eucl m' (Zpos my)) as [q r] eqn:Ediv.
  destruct (@Zdiv_eucl_floor m' (Zpos my) q r) as [Hq Hfloor];
    [rewrite Hm'; apply Z.mul_nonneg_nonneg; [lia | apply Z.pow_nonneg; lia] | lia | exact Ediv |].
  assert (Hexact : F2R (Zpos mx) ex / F2R (Zpos my) ey = IZR m' / IZR (Zpos my) * bpow e').
  { unfold F2R. rewrite Hm', mult_IZR, <- (@bpow_IZR sh Hsh).
    replace ex with (ey + (sh + e'))%Z at 1 by (unfold sh; lia). rewrite !bpow_add.
    pose proof (bpow_pos ey). assert (0 < IZR (Zpos my)) by (apply IZR_lt; reflexivity).
    field. split; lra. }
  destruct (@round_aux_normal (xorb sx sy) q e' (new_location (Zpos my) r)
              (F2R (Zpos mx) ex / F2R (Zpos my) ey) s m e) as [-> Herr];
    [exact Hq | | exact Hr | exact Hd |].
  { rewrite Hexact. unfold F2R. pose proof (bpow_pos e'). split; apply Rmult_le_compat_r; lra. }
  rewrite !SF2R_finite, sgn_xorb.
  replace (sgn sx * sgn sy * F2R (Zpos m) e - sgn sx * F2R (Zpos mx) ex / (sgn sy * F2R (Zpos my) ey))
    with (sgn sx * (sgn sy * (F2R (Zpos m) e - F2R (Zpos mx) ex / F2R (Zpos my) ey))).
  2: { pose proof (F2R_pos my ey). destruct sx, sy; unfold sgn; field; lra. }
  rewrite Rmult_assoc, !sgn_abs. rewrite (Rabs_pos_eq (F2R (Zpos m) e)) by (left; apply F2R_pos).
  exact Herr.
Qed.

Lemma sqrt_scaled (a b : R) : 0 <= a -> 0 <= b -> R_sqrt.sqrt (a * (b * b)) = R_sqrt.sqrt a * b.
Proof.
  intros Ha Hb. rewrite sqrt_mult by nra. rewrite sqrt_square by exact Hb. reflexivity.
Qed.

Lemma Zsqrtrem_floor (a q r : Z) :
  (0 <= a)%Z -> Z.sqrtrem a = (q, r) ->
  (0 <= q)%Z /\ IZR q <= R_sqrt.sqrt (IZR a) <= IZR (q + 1).
Proof.
  intros Ha E. pose proof (Z.sqrtrem_spec a Ha) as H. rewrite E in H.
  destruct H as [Heq Hr].
  assert (Hq : (0 <= q)%Z).
  { pose proof (Z.sqrtrem_sqrt a) as Hs. rewrite E in Hs. cbn [fst] in Hs.
    rewrite Hs. apply Z.sqrt_nonneg. }
  split; [exact Hq|].
  assert (H0 : 0 <= IZR q) by (apply IZR_le; exact Hq).
  assert (H1 : 0 <= IZR (q + 1)) by (apply IZR_le; lia).
  split.
  - rewrite <- (sqrt_square (IZR q)) at 1 by exact H0.
    apply sqrt_le_1; [nra | apply IZR_le; exact Ha |].
    rewrite <- mult_IZR. apply IZR_le. lia.
  - rewrite <- (sqrt_square (IZR (q + 1))) by exact H1.
    apply sqrt_le_1; [apply IZR_le; exact Ha | nra |].
    rewrite <- mult_IZR. apply IZR_le. nia.
Qed.

(** The square root, when it is a normal number. *)
Lemma sqrt_error (x : float) :
  is_normal (PrimFloat.sqrt x) = true ->
  0 < B2R x /\ 0 < B2R (PrimFloat.sqrt x) /\
  Rabs (B2R (PrimFloat.sqrt x) - R_sqrt.sqrt (B2R x)) <= eps * B2R (PrimFloat.sqrt x).
Proof.
  intros H. apply is_normal_inv in H. destruct H as (s & m & e & Hr & Hd).
  unfold B2R. rewrite Hr. rewrite sqrt_spec in Hr. unfold SF64sqrt, SFsqrt in Hr.
  destruct (Prim2SF x) as [sx|sx| |sx mx ex]; try discriminate;
    try (destruct sx; discriminate).
  destruct sx; [discriminate|].
  unfold SFsqrt_core_binary in Hr.
  set (e' := Z.min (fexp prec emax (Z.div2 (Zdigits2 (Zpos mx) + ex + 1))) (Z.div2 ex)) in *.
  set (sh := (ex - 2 * e')%Z) in *.
  assert (Hsh : (0 <= sh)%Z).
  { unfold sh, e'. rewrite (Z.div2_div ex). pose proof (Z.mul_div_le ex 2). lia. }
  set (m' := match sh with Zpos _ => Z.shiftl (Zpos mx) sh | Z0 => Zpos mx | Zneg _ => 0%Z end)
    in *.
  assert (Hm' : m' = (Zpos mx * 2 ^ sh)%Z).
  { unfold m'. destruct sh as [|p|p]; [cbn; lia | rewrite Z.shiftl_mul_pow2 by lia; reflexivity | lia]. }
  assert (Hm0 : (0 <= m')%Z).
  { rewrite Hm'. apply Z.mul_nonneg_nonneg; [lia | apply Z.pow_nonneg; lia]. }
  destruct (Z.sqrtrem m') as [q r] eqn:Esqrt.
  destruct (@Zsqrtrem_floor m' q r Hm0 Esqrt) as [Hq Hfloor].
  assert (Hexact : R_sqrt.sqrt (F2R (Zpos mx) ex) = R_sqrt.sqrt (IZR m') * bpow e').
  { rewrite <- sqrt_scaled; [|apply IZR_le; exact Hm0 | left; apply bpow_pos].
    f_equal. unfold F2R. rewrite Hm', mult_IZR, <- (@bpow_IZR sh Hsh).
    rewrite Rmult_assoc, <- !bpow_add. do 2 f_equal. unfold sh. lia. }
  destruct (@round_aux_normal false q e'
              (if (r =? 0)%Z then loc_Exact
               else loc_Inexact (if (r <=? q)%Z then Lt else Gt))
              (R_sqrt.sqrt (F2R (Zpos mx) ex)) s m e) as [-> Herr];
    [exact Hq | | exact Hr | exact Hd |].
  { rewrite Hexact. unfold F2R. pose proof (bpow_pos e'). split; apply Rmult_le_compat_r; lra. }
  rewrite !SF2R_finite. unfold sgn. rewrite !Rmult_1_l.
  split; [apply F2R_pos|]. split; [apply F2R_pos | exact Herr].
Qed.

Lemma iter_xO (m d : positive) : Zpos (Pos.iter xO m d) = (Zpos m * 2 ^ Zpos d)%Z.
Proof.
  induction d as [|d IH] using Pos.peano_ind.
  - cbn. lia.
  - rewrite Pos.iter_succ. rewrite Pos2Z.inj_xO, IH, Pos2Z.inj_succ, Z.pow_succ_r by lia. ring.
Qed.

Lemma shl_align_spec (mx : positive) (ex ez : Z) :
  (ez <= ex)%Z ->
  snd (shl_align mx ex ez) = ez /\
  Zpos (fst (shl_align mx ex ez)) = (Zpos mx * 2 ^ (ex - ez))%Z.
Proof.
  intros H. unfold shl_align. destruct (ez - ex)%Z as [|d|d] eqn:E; cbn [fst snd].
  - replace (ex - ez)%Z with 0%Z by lia. split; lia.
  - lia.
  - rewrite iter_xO. replace (ex - ez)%Z with (Zpos d) by lia. split; reflexivity.
Qed.

Lemma shl_align_same (mx : positive) (ex ez : Z) :
  (ex <= ez)%Z -> shl_align mx ex ez = (mx, ex).
Proof.
  intros H. unfold shl_align. destruct (ez - ex)%Z as [|d|d] eqn:E; [reflexivity..|lia].
Qed.

Lemma Zdigits2_shift (m : positive) (k : Z) :
  (0 <= k)%Z -> Zdigits2 (Zpos m * 2 ^ k) = (Zdigits2 (Zpos m) + k)%Z.
Proof.
  intros Hk. pose proof (@Zdigits2_bounds (Zpos m) eq_refl) as Hb.
  pose proof (@Zdigits2_pos (Zpos m) eq_refl) as Hd.
  assert (H2 : (0 < 2 ^ k)%Z) by (apply Z.pow_pos_nonneg; lia).
  apply Zdigits2_unique; [nia|].
  replace (Zdigits2 (Zpos m) + k - 1)%Z with ((Zdigits2 (Zpos m) - 1) + k)%Z by lia.
  rewrite !Z.pow_add_r by lia. nia.
Qed.

(** Rounding an integer multiple of a power of two that is not below the
    least exponent: the result is exact or a normal number. *)
Lemma binary_round_error (sx : bool) (mx : positive) (ex : Z) :
  (-1074 <= ex)%Z ->
  binary_round prec emax sx mx ex = S754_infinity sx \/
  exists m e,
    binary_round prec emax sx mx ex = S754_finite sx m e /\
    Rabs (F2R (Zpos m) e - F2R (Zpos mx) ex) <= eps * F2R (Zpos m) e.
Proof.
  intros Hex. unfold binary_round.
  set (f := fexp prec emax (Zpos (digits2_pos mx) + ex)).
  assert (Hf : f = Z.max (Zdigits2 (Zpos mx) + ex - 53) (-1074)) by apply fexp64_eq.
  destruct (shl_align mx ex f) as [mz ez] eqn:Ealign.
  assert (Hval : F2R (Zpos mz) ez = F2R (Zpos mx) ex /\
                 (cut (Zpos mz) ez = 0%Z \/
                  (0 < cut (Zpos mz) ez)%Z /\
                  (2 ^ 52 * 2 ^ cut (Zpos mz) ez <= Zpos mz)%Z)).
  { destruct (Z_le_gt_dec f ex) as [Hle|Hgt].
    - destruct (@shl_align_spec mx ex f Hle) as [He Hm]. rewrite Ealign in He, Hm.
      cbn [fst snd] in He, Hm. subst ez. split.
      + rewrite Hm, F2R_scale by lia. f_equal. lia.
      + left. unfold cut. rewrite Hm, Zdigits2_shift by lia.
        replace (Zdigits2 (Zpos mx) + (ex - f) + f)%Z with (Zdigits2 (Zpos mx) + ex)%Z by lia.
        change (fexp prec emax (Zdigits2 (Zpos mx) + ex)) with f. lia.
    - rewrite shl_align_same in Ealign by lia. injection Ealign as <- <-.
      split; [reflexivity|]. right. unfold cut. fold f.
      change (fexp prec emax (Zdigits2 (Zpos mx) + ex)) with f.
      split; [lia|]. rewrite Z.max_r by lia.
      assert (Hn : (f - ex = Zdigits2 (Zpos mx) - 53)%Z) by lia. rewrite Hn.
      pose proof (@Zdigits2_bounds (Zpos mx) eq_refl) as Hb.
      rewrite <- Z.pow_add_r by lia.
      replace (52 + (Zdigits2 (Zpos mx) - 53))%Z with (Zdigits2 (Zpos mx) - 1)%Z by lia. lia. }
  destruct Hval as [Hval Hcut]. rewrite <- Hval.
  destruct (@binary_round_aux_spec sx (Zpos mz) ez loc_Exact ltac:(lia))
    as (m' & m1 & m'' & n & n' & Hn & Hn' & Hm' & Hncut & Hfloor & Hm1 & Hexact & Hm'' & _ & Hres).
  rewrite Hres.
  assert (Hcase : m1 = Zpos mz /\ n = 0%Z \/ (2 ^ 52 <= m')%Z).
  { destruct Hcut as [Hc | [Hc Hbig]].
    - left. split; [apply Hexact; [reflexivity | lia] | lia].
    - right. rewrite <- Hncut in Hbig.
      assert (0 < 2 ^ n)%Z by (apply Z.pow_pos_nonneg; lia). nia. }
  assert (Hm1pos : (0 < m1)%Z) by (destruct Hcase as [[-> _] | H]; lia).
  assert (H2n' : (0 < 2 ^ n')%Z) by (apply Z.pow_pos_nonneg; lia).
  destruct m'' as [|p|p]; [lia| |lia].
  destruct (_ <=? _)%Z; [|left; reflexivity].
  right. exists p, (ez + n + n')%Z. split; [reflexivity|].
  assert (Hv : F2R (Zpos p) (ez + n + n') = F2R m1 (ez + n)).
  { rewrite <- Hm''. rewrite F2R_scale by exact Hn'. reflexivity. }
  rewrite Hv. destruct Hcase as [[-> ->] | Hbig].
  - rewrite Z.add_0_r. unfold Rminus. rewrite Rplus_opp_r, Rabs_R0.
    pose proof (F2R_pos mz ez). pose proof eps_pos. nra.
  - assert (Hlo : F2R m' (ez + n) <= F2R (Zpos mz) ez).
    { rewrite <- F2R_scale by exact Hn. apply F2R_le. lia. }
    assert (Hhi : F2R (Zpos mz) ez <= F2R (m' + 1) (ez + n)).
    { rewrite <- F2R_scale by exact Hn. apply F2R_le. lia. }
    unfold F2R in *. rewrite plus_IZR in Hhi.
    pose proof (bpow_pos (ez + n)) as HB.
    assert (H52 : 1 <= eps * IZR m1).
    { unfold eps. assert (Hm1' : (2 ^ 52 <= m1)%Z) by (destruct Hm1; lia).
      apply IZR_le in Hm1'.
      assert (0 < IZR (2 ^ 52)) by (apply IZR_lt; reflexivity).
      apply Rmult_le_reg_l with (r := IZR (2 ^ 52)); [assumption|].
      rewrite <- Rmult_assoc, Rinv_r by lra. lra. }
    assert (Hgoal : Rabs (IZR m1 * bpow (ez + n) - IZR (Zpos mz) * bpow ez) <= bpow (ez + n)).
    { apply Rabs_le. destruct Hm1 as [-> | ->]; [|rewrite plus_IZR]; split; nra. }
    eapply Rle_trans; [exact Hgoal|]. nra.
Qed.

Lemma is_finite_spec (x : float) :
  is_finite x = true ->
  match Prim2SF x with S754_infinity _ | S754_nan => False | _ => True end.
Proof.
  unfold is_finite. rewrite classify_spec. unfold SF64classify, SFclassify.
  destruct (Prim2SF x) as [s|s| |s m e]; try (destruct s; discriminate); try discriminate; auto.
Qed.

Lemma F2R_cond_Zopp (s : bool) (m : positive) (e : Z) :
  F2R (cond_Zopp s (Zpos m)) e = sgn s * F2R (Zpos m) e.
Proof. unfold F2R, sgn. destruct s; cbn [cond_Zopp]; [rewrite opp_IZR|]; ring. Qed.

Lemma F2R_plus (a b e : Z) : F2R (a + b) e = F2R a e + F2R b e.
Proof. unfold F2R. rewrite plus_IZR. ring. Qed.

Lemma F2R_aligned (mx : positive) (ex ez : Z) :
  (ez <= ex)%Z -> F2R (Zpos (fst (shl_align mx ex ez))) ez = F2R (Zpos mx) ex.
Proof.
  intros H. destruct (@shl_align_spec mx ex ez H) as [_ ->].
  rewrite F2R_scale by lia. f_equal. lia.
Qed.

(** The sum of two finite numbers, when it is finite: exact, or a normal
    number. *)
Lemma add_error (x y : float) :
  is_finite x = true -> is_finite y = true -> is_finite (x + y) = true ->
  Rabs (B2R (x + y) - (B2R x + B2R y)) <= eps * Rabs (B2R (x + y)).
Proof.
  intros Hx Hy Hr. apply is_finite_spec in Hr.
  apply is_finite_inv in Hx. apply is_finite_inv in Hy.
  unfold B2R. rewrite add_spec in *. unfold SF64add in *.
  assert (Hzero : forall r, Rabs (r - r) <= eps * Rabs r).
  { intros r. unfold Rminus. rewrite Rplus_opp_r, Rabs_R0.
    pose proof eps_pos. pose proof (Rabs_pos r). nra. }
  destruct Hx as [(sx & Ex) | (sx & mx & ex & Ex & Hex)];
    destruct Hy as [(sy & Ey) | (sy & my & ey & Ey & Hey)];
    rewrite Ex, Ey in Hr |- *; clear Ex Ey.
  - destruct sx, sy; cbn [SFadd SF2R]; rewrite Rplus_0_l; apply Hzero.
  - cbn [SFadd]. change (SF2R (S754_zero sx)) with 0. rewrite Rplus_0_l. apply Hzero.
  - cbn [SFadd]. change (SF2R (S754_zero sy)) with 0. rewrite Rplus_0_r. apply Hzero.
  - cbn [SFadd] in *. cbv zeta in *.
    set (ez := Z.min ex ey) in *.
    set (M := (cond_Zopp sx (Zpos (fst (shl_align mx ex ez)))
               + cond_Zopp sy (Zpos (fst (shl_align my ey ez))))%Z) in *.
    assert (Hsum : SF2R (S754_finite sx mx ex) + SF2R (S754_finite sy my ey) = F2R M ez).
    { unfold M. rewrite F2R_plus, !F2R_cond_Zopp, !F2R_aligned by (unfold ez; lia).
      rewrite !SF2R_finite. reflexivity. }
    rewrite Hsum. assert (Hez : (-1074 <= ez)%Z) by (unfold ez; lia).
    destruct M as [|p|p]; cbn [binary_normalize] in *.
    + cbn [SF2R]. unfold F2R. rewrite Rmult_0_l. apply Hzero.
    + destruct (@binary_round_error false p ez Hez) as [E | (m & e & E & Herr)];
        rewrite E in *; [contradiction|].
      rewrite SF2R_finite. unfold sgn. rewrite Rmult_1_l.
      rewrite (Rabs_pos_eq (F2R (Zpos m) e)) by (left; apply F2R_pos). exact Herr.
    + destruct (@binary_round_error true p ez Hez) as [E | (m & e & E & Herr)];
        rewrite E in *; [contradiction|].
      rewrite SF2R_finite. unfold sgn.
      replace (-1 * F2R (Zpos m) e - F2R (Zneg p) ez)
        with (- (F2R (Zpos m) e - F2R (Zpos p) ez)).
      2: { unfold F2R. change (Zneg p) with (- Zpos p)%Z. rewrite opp_IZR. ring. }
      rewrite Rabs_Ropp. replace (-1 * F2R (Zpos m) e) with (- F2R (Zpos m) e) by ring.
      rewrite Rabs_Ropp, (Rabs_pos_eq (F2R (Zpos m) e)) by (left; apply F2R_pos). exact Herr.
Qed.

Lemma eps_small : 0 < eps < 1.
Proof.
  split; [apply eps_pos|]. unfold eps.
  rewrite <- Rinv_1. apply Rinv_lt_contravar; [|apply IZR_lt; reflexivity].
  rewrite Rmult_1_l. apply IZR_lt. reflexivity.
Qed.

Lemma shrink_bounds (k : nat) : 0 < (1 - eps) ^ k <= 1.
Proof.
  pose proof eps_small as He. split.
  - apply pow_lt. lra.
  - apply Rle_trans with (1 ^ k); [apply pow_incr; lra | rewrite pow1; lra].
Qed.

Lemma shrink_le (j k : nat) : (j <= k)%nat -> (1 - eps) ^ k <= (1 - eps) ^ j.
Proof.
  intros H. replace k with (j + (k - j))%nat by lia. rewrite pow_add.
  pose proof (shrink_bounds j). pose proof (shrink_bounds (k - j)). nra.
Qed.

Lemma close_refl (k : nat) (a : R) : 0 <= a -> close k a a.
Proof. intros Ha. pose proof (shrink_bounds k). split; nra. Qed.

Lemma close_sym (k : nat) (a b : R) : close k a b -> close k b a.
Proof. intros [H1 H2]. split; assumption. Qed.

Lemma close_weaken (j k : nat) (a b : R) :
  0 <= a -> 0 <= b -> (j <= k)%nat -> close j a b -> close k a b.
Proof.
  intros Ha Hb Hjk [H1 H2]. pose proof (@shrink_le j k Hjk). pose proof (shrink_bounds k).
  split; nra.
Qed.

Lemma close_trans (j k : nat) (a b c : R) :
  close j a b -> close k b c -> close (j + k) a c.
Proof.
  intros [H1 H2] [H3 H4]. unfold close. rewrite pow_add.
  pose proof (shrink_bounds j). pose proof (shrink_bounds k). split.
  - apply Rle_trans with (b * (1 - eps) ^ k); [|exact H3].
    rewrite <- Rmult_assoc. apply Rmult_le_compat_r; lra.
  - apply Rle_trans with (b * (1 - eps) ^ j); [|exact H2].
    rewrite (Rmult_comm ((1 - eps) ^ j)), <- Rmult_assoc. apply Rmult_le_compat_r; lra.
Qed.

Lemma close_plus (k : nat) (a b c d : R) :
  close k a b -> close k c d -> close k (a + c) (b + d).
Proof. intros [H1 H2] [H3 H4]. split; lra. Qed.

Lemma close_mult (j k : nat) (a b c d : R) :
  0 <= a -> 0 <= b -> 0 <= c -> 0 <= d ->
  close j a b -> close k c d -> close (j + k) (a * c) (b * d).
Proof.
  intros Ha Hb Hc Hd [H1 H2] [H3 H4]. unfold close. rewrite pow_add.
  pose proof (shrink_bounds j). pose proof (shrink_bounds k). split.
  - replace (a * c * ((1 - eps) ^ j * (1 - eps) ^ k))
      with ((a * (1 - eps) ^ j) * (c * (1 - eps) ^ k)) by ring.
    apply Rmult_le_compat; nra.
  - replace (b * d * ((1 - eps) ^ j * (1 - eps) ^ k))
      with ((b * (1 - eps) ^ j) * (d * (1 - eps) ^ k)) by ring.
    apply Rmult_le_compat; nra.
Qed.

Lemma close_sqrt (k : nat) (a b : R) :
  0 <= a -> 0 <= b -> close (k + k) a b -> close k (R_sqrt.sqrt a) (R_sqrt.sqrt b).
Proof.
  intros Ha Hb [H1 H2]. rewrite pow_add in H1, H2.
  pose proof (shrink_bounds k) as Hk. split.
  - rewrite <- sqrt_scaled by lra. apply sqrt_le_1; nra.
  - rewrite <- sqrt_scaled by lra. apply sqrt_le_1; nra.
Qed.

Lemma close_div (j k : nat) (a b c d : R) :
  0 <= a -> 0 <= b -> 0 < c -> 0 < d ->
  close j a b -> close k c d -> close (j + k) (a / c) (b / d).
Proof.
  intros Ha Hb Hc Hd [H1 H2] [H3 H4]. unfold close. rewrite pow_add.
  pose proof (shrink_bounds j). pose proof (shrink_bounds k).
  assert (Hic : 0 < / c) by (apply Rinv_0_lt_compat; exact Hc).
  assert (Hid : 0 < / d) by (apply Rinv_0_lt_compat; exact Hd).
  assert (E1 : / c * (1 - eps) ^ k <= / d).
  { apply Rmult_le_reg_l with (r := c); [exact Hc|].
    rewrite <- Rmult_assoc, Rinv_r, Rmult_1_l by lra.
    apply Rmult_le_reg_l with (r := d); [exact Hd|].
    rewrite <- (Rmult_assoc d c), (Rmult_comm d c), Rmult_assoc, Rinv_r by lra. lra. }
  assert (E2 : / d * (1 - eps) ^ k <= / c).
  { apply Rmult_le_reg_l with (r := d); [exact Hd|].
    rewrite <- Rmult_assoc, Rinv_r, Rmult_1_l by lra.
    apply Rmult_le_reg_l with (r := c); [exact Hc|].
    rewrite <- (Rmult_assoc c d), (Rmult_comm c d), Rmult_assoc, Rinv_r by lra. lra. }
  unfold Rdiv. split.
  - replace (a * / c * ((1 - eps) ^ j * (1 - eps) ^ k))
      with ((a * (1 - eps) ^ j) * (/ c * (1 - eps) ^ k)) by ring.
    apply Rmult_le_compat; nra.
  - replace (b * / d * ((1 - eps) ^ j * (1 - eps) ^ k))
      with ((b * (1 - eps) ^ j) * (/ d * (1 - eps) ^ k)) by ring.
    apply Rmult_le_compat; nra.
Qed.

Lemma abs_le_inv (x b : R) : Rabs x <= b -> - b <= x <= b.
Proof.
  intros H. pose proof (Rle_abs x). pose proof (Rle_abs (- x)) as H2.
  rewrite Rabs_Ropp in H2. lra.
Qed.

(** From the error of one operation. *)
Lemma error_sign (f X : R) : Rabs (f - X) <= eps * Rabs f -> 0 <= X -> 0 <= f.
Proof.
  intros H HX. pose proof eps_small. destruct (Rle_or_lt 0 f) as [Hf|Hf]; [exact Hf|].
  exfalso. rewrite (Rabs_left f) in H by exact Hf.
  rewrite Rabs_left in H by lra. nra.
Qed.

Lemma error_close (f X : R) :
  Rabs (f - X) <= eps * Rabs f -> 0 <= X -> 0 <= f /\ close 1 f X.
Proof.
  intros H HX. pose proof (@error_sign f X H HX) as Hf. split; [exact Hf|].
  rewrite (Rabs_pos_eq f) in H by exact Hf. apply abs_le_inv in H.
  pose proof eps_small. unfold close. rewrite pow_1. split; nra.
Qed.

Lemma error_close_abs (f X : R) :
  Rabs (f - X) <= eps * Rabs f -> close 1 (Rabs f) (Rabs X).
Proof.
  intros H. apply error_close; [|apply Rabs_pos].
  rewrite (Rabs_pos_eq (Rabs f)) by apply Rabs_pos.
  eapply Rle_trans; [apply Rabs_triang_inv2 | exact H].
Qed.

(** Bernoulli's inequality, and what [k] roundings leave of 1. *)
Lemma shrink_bernoulli (k : nat) : 1 - INR k * eps <= (1 - eps) ^ k.
Proof.
  pose proof eps_small as He. induction k as [|k IH].
  - cbn. lra.
  - rewrite S_INR. cbn [pow]. pose proof (shrink_bounds k). pose proof (pos_INR k). nra.
Qed.

Lemma close_one (k : nat) (a : R) :
  INR k * eps <= / 2 -> close k a 1 -> Rabs (a - 1) <= 2 * INR k * eps.
Proof.
  intros Hk [H1 H2]. pose proof (shrink_bernoulli k) as Hb.
  pose proof (shrink_bounds k) as Hs. pose proof (pos_INR k) as Hn.
  pose proof eps_small as He. rewrite Rmult_1_l in H2.
  assert (Ha : 0 <= a) by lra.
  apply Rabs_le. split; [lra|]. apply Rplus_le_reg_r with (r := 1).
  replace (a - 1 + 1) with a by ring. replace (2 * INR k * eps + 1) with (1 + 2 * (INR k * eps)) by ring.
  assert (H3 : a * (1 - INR k * eps) <= 1) by nra.
  set (z := INR k * eps) in *. assert (Hz : 0 <= z) by (unfold z; nra).
  assert (H5 : 1 <= (1 + 2 * z) * (1 - z)) by nra.
  destruct (Rle_or_lt a (1 + 2 * z)) as [Hle|Hlt]; [lra|]. exfalso.
  assert (H6 : (1 + 2 * z) * (1 - z) < a * (1 - z)) by (apply Rmult_lt_compat_r; lra).
  lra.
Qed.

Lemma upper_one (k : nat) (a : R) :
  INR k * eps <= / 2 -> 0 <= a -> a * (1 - eps) ^ k <= 1 -> a <= 1 + 2 * INR k * eps.
Proof.
  intros Hk Ha H1. pose proof (shrink_bernoulli k) as Hb.
  replace (1 + 2 * INR k * eps) with (1 + 2 * (INR k * eps)) by ring.
  pose proof (pos_INR k) as Hn. pose proof eps_small as He.
  assert (H3 : a * (1 - INR k * eps) <= 1) by nra.
  set (z := INR k * eps) in *. assert (Hz : 0 <= z) by (unfold z; nra).
  assert (H5 : 1 <= (1 + 2 * z) * (1 - z)) by nra.
  destruct (Rle_or_lt a (1 + 2 * z)) as [Hle|Hlt]; [lra|]. exfalso.
  assert (H6 : (1 + 2 * z) * (1 - z) < a * (1 - z)) by (apply Rmult_lt_compat_r; lra).
  lra.
Qed.

Lemma add_finite (a b : float) :
  is_finite (a + b) = true -> is_finite a = true /\ is_finite b = true.
Proof.
  unfold is_finite. rewrite !classify_spec, add_spec. unfold SF64add, SF64classify, SFclassify.
  destruct (Prim2SF a) as [sa|sa| |sa ma ea]; destruct (Prim2SF b) as [sb|sb| |sb mb eb];
    cbn [SFadd]; try (destruct sa); try (destruct sb); try discriminate;
    intros _; split; try reflexivity;
    match goal with |- context [Z.eqb ?x ?y] => destruct (Z.eqb x y) end; reflexivity.
Qed.

Lemma B2R_finite (x : float) : B2R x <> 0 -> is_finite x = true.
Proof.
  unfold B2R, is_finite. rewrite classify_spec. unfold SF64classify, SFclassify.
  destruct (Prim2SF x) as [s|s| |s m e]; cbn [SF2R]; try (intros H; exfalso; apply H; reflexivity).
  intros _. destruct s; destruct (Z.eqb _ _); reflexivity.
Qed.

Lemma B2R_mul_zero (x y : float) : is_zero x = true -> is_zero y = true -> B2R (x * y) = 0.
Proof.
  intros Hx Hy. apply is_zero_inv in Hx. apply is_zero_inv in Hy.
  destruct Hx as (sx & Hx). destruct Hy as (sy & Hy).
  unfold B2R. rewrite mul_spec, Hx, Hy. reflexivity.
Qed.

Lemma B2R_div_zero (x y : float) : is_zero x = true -> is_normal y = true -> B2R (x / y) = 0.
Proof.
  intros Hx Hy. apply is_zero_inv in Hx. apply is_normal_inv in Hy.
  destruct Hx as (sx & Hx). destruct Hy as (sy & my & ey & Hy & _).
  unfold B2R. rewrite div_spec, Hx, Hy. reflexivity.
Qed.

Lemma is_normal_not_zero (x : float) : is_normal x = true -> is_zero x = false.
Proof.
  intros H. destruct (is_zero x) eqn:E; [|reflexivity].
  apply is_zero_inv in E. destruct E as (s & E). apply is_normal_inv in H.
  destruct H as (s' & m & e & H & _). congruence.
Qed.

(** The square of a component. *)
Lemma square_close (x : float) :
  is_zero x = true \/ is_normal (x * x) = true ->
  0 <= B2R (x * x) /\ close 1 (B2R (x * x)) (B2R x * B2R x).
Proof.
  intros [Hz | Hn].
  - rewrite (@B2R_mul_zero x x Hz Hz), (@B2R_zero x Hz). split; [lra|].
    rewrite Rmult_0_l. apply close_refl. lra.
  - apply error_close; [apply mul_error, Hn | nra].
Qed.

Lemma fold_squares_finite (vec : list float) (acc : float) :
  is_finite (fold_left (fun acc val => acc + val * val)%float vec acc) = true ->
  is_finite acc = true.
Proof.
  revert acc. induction vec as [|x vec IH]; intros acc H; [exact H|].
  cbn [fold_left] in H. apply IH in H. apply add_finite in H. apply H.
Qed.

(** The sum of the squares as the fold computes it is the sum of the squares
    of the components up to one rounding more than there are components. *)
Lemma fold_squares_close (vec : list float) (acc : float) (k : nat) (total : R) :
  Forall (fun x => is_zero x = true \/ is_normal (x * x) = true) vec ->
  is_finite (fold_left (fun acc val => acc + val * val)%float vec acc) = true ->
  (1 <= k)%nat -> 0 <= total -> 0 <= B2R acc -> close k (B2R acc) total ->
  0 <= B2R (fold_left (fun acc val => acc + val * val)%float vec acc) /\
  close (k + List.length vec)
    (B2R (fold_left (fun acc val => acc + val * val)%float vec acc))
    (sumSquaresR (map B2R vec) total).
Proof.
  intros Hv. revert acc k total.
  induction Hv as [|x vec Hx _ IH]; intros acc k total Hfin Hk Htotal Hacc Hclose.
  - cbn [fold_left List.length map]. rewrite Nat.add_0_r. split; assumption.
  - cbn [fold_left List.length map] in *.
    pose proof (@fold_squares_finite _ _ Hfin) as Hstep.
    destruct (@add_finite _ _ Hstep) as [Hfa Hfq].
    destruct (@square_close x Hx) as [Hq Hqc].
    pose proof (add_error acc (x * x) Hfa Hfq Hstep) as Herr.
    apply error_close in Herr; [|lra]. destruct Herr as [Hnew Hnc].
    assert (Hsq : 0 <= B2R x * B2R x) by nra.
    assert (Hsum : close (1 + k) (B2R (acc + x * x)) (total + B2R x * B2R x)).
    { apply close_trans with (b := B2R acc + B2R (x * x)); [exact Hnc|].
      apply close_plus; [exact Hclose|].
      apply close_weaken with (j := 1%nat); assumption. }
    destruct (IH (acc + x * x)%float (1 + k)%nat (total + B2R x * B2R x) Hfin
                ltac:(lia) ltac:(lra) Hnew Hsum) as [H0 Hc].
    split; [exact H0|].
    replace (k + S (List.length vec))%nat with (1 + k + List.length vec)%nat by lia.
    exact Hc.
Qed.

Lemma sumSquaresR_ratio (total : R) (K : nat) (ys xs : list R) (a b : R) :
  Forall2 (fun y x => close K (y * y) (x * x / total)) ys xs ->
  close K a (b / total) ->
  close K (sumSquaresR ys a) (sumSquaresR xs b / total).
Proof.
  intros H. revert a b. induction H as [|y x ys xs Hyx _ IH]; intros a b Hab.
  - exact Hab.
  - unfold sumSquaresR in *. cbn [fold_left]. apply IH.
    replace ((b + x * x) / total) with (b / total + x * x / total) by (unfold Rdiv; ring).
    apply close_plus; assumption.
Qed.

Lemma Forall2_map_both (T U V : Type) (P : U -> V -> Prop) (f : T -> U) (g : T -> V)
    (l : list T) :
  Forall (fun x => P (f x) (g x)) l -> Forall2 P (map f l) (map g l).
Proof. induction 1; cbn [map]; constructor; assumption. Qed.

Lemma rounding_budget (n : nat) (k : Z) :
  (Z.of_nat n < 2 ^ 32)%Z -> (0 <= k <= 7)%Z ->
  INR (3 * n + Z.to_nat k) * eps <= / 2.
Proof.
  intros Hn Hk. rewrite INR_IZR_INZ. unfold eps.
  assert (H : (Z.of_nat (3 * n + Z.to_nat k) <= 2 ^ 34)%Z) by lia.
  apply IZR_le in H. change (2 ^ 34)%Z with 17179869184%Z in H.
  change (2 ^ 52)%Z with 4503599627370496%Z.
  assert (Hp : 0 <= IZR (Z.of_nat (3 * n + Z.to_nat k))) by (apply IZR_le; lia).
  lra.
Qed.

Lemma eps_twice : 2 * eps = / IZR (2 ^ 51).
Proof.
  unfold eps. change (2 ^ 52)%Z with (2 * 2 ^ 51)%Z. rewrite mult_IZR.
  assert (0 < IZR (2 ^ 51)) by (apply IZR_lt; reflexivity). field. lra.
Qed.

(** C5 (amended): a vector of zeros of either sign is returned unchanged;
    and for a vector in whose normalization no operation overflows or
    underflows, the Euclidean norm of the result differs from 1 by at most
    [(n + 3) / 2 ^ 51], where [n] is the number of its components. *)
Theorem normalizeL2_unit_norm (vec : list float) :
  (Forall (fun x => is_zero x = true) vec -> normalizeL2 F64 vec = vec) /\
  (normalizeL2_regular vec = true ->
   (Z.of_nat (List.length vec) < 2 ^ 32)%Z ->
   Rabs (norm_of (normalizeL2 F64 vec) - 1)
   <= IZR (Z.of_nat (List.length vec) + 3) / IZR (2 ^ 51)).
Proof.
  split; [apply normalizeL2_zero_vector|].
  intros Hreg Hlen. unfold normalizeL2_regular in Hreg.
  apply andb_true_iff in Hreg. destruct Hreg as [Hnorm Hall].
  unfold l2norm, sumSquares in Hnorm, Hall. unfold normalizeL2.
  cbn [num sqrt add mul div eqb zero F64] in *.
  set (sum := fold_left (fun acc val => (acc + val * val)%float) vec 0%float) in *.
  set (norm := PrimFloat.sqrt sum) in *.
  set (n := List.length vec) in *.
  set (total := sumSquaresR (map B2R vec) 0).
  fold (is_zero norm). rewrite (@is_normal_not_zero norm Hnorm).
  destruct (@sqrt_error sum Hnorm) as (Hsum & Hn & Herr). fold norm in Hn, Herr.
  assert (Hsquares : Forall (fun x => is_zero x = true \/ is_normal (x * x) = true) vec).
  { apply Forall_forall. intros x Hx. rewrite forallb_forall in Hall.
    specialize (Hall x Hx). apply orb_true_iff in Hall.
    destruct Hall as [Hz | Hq]; [left; exact Hz|].
    apply andb_true_iff in Hq. right. apply Hq. }
  destruct (@fold_squares_close vec 0%float 1 0 Hsquares) as [_ Hclose];
    [apply B2R_finite; fold sum; lra | lia | lra | | |].
  { rewrite (@B2R_zero 0%float eq_refl). lra. }
  { rewrite (@B2R_zero 0%float eq_refl). apply close_refl. lra. }
  fold sum in Hclose. fold total in Hclose. fold n in Hclose.
  assert (Htotal : 0 < total).
  { destruct Hclose as [H1 _]. pose proof (shrink_bounds (1 + n)). nra. }
  pose proof (sqrt_lt_R0 _ Htotal) as Hroot.
  assert (Hnc : close (n + 2) (B2R norm) (R_sqrt.sqrt total)).
  { replace (n + 2)%nat with (1 + (n + 1))%nat by lia.
    apply close_trans with (b := R_sqrt.sqrt (B2R sum)).
    - apply error_close; [|apply sqrt_pos].
      rewrite (Rabs_pos_eq (B2R norm)) by lra. exact Herr.
    - apply close_sqrt; [lra | lra |].
      apply close_weaken with (j := (1 + n)%nat); [lra | lra | lia | exact Hclose]. }
  assert (Heach : Forall (fun v => close ((n + 3) + (n + 3))
                                     (B2R (v / norm) * B2R (v / norm))
                                     (B2R v * B2R v / total)) vec).
  { apply Forall_forall. intros v Hv. rewrite forallb_forall in Hall.
    specialize (Hall v Hv). apply orb_true_iff in Hall.
    assert (Habs : close (n + 3) (Rabs (B2R (v / norm))) (Rabs (B2R v) / R_sqrt.sqrt total)).
    { destruct Hall as [Hz | Hq].
      - rewrite (@B2R_div_zero v norm Hz Hnorm), (@B2R_zero v Hz), Rabs_R0.
        unfold Rdiv. rewrite Rmult_0_l. apply close_refl. lra.
      - apply andb_true_iff in Hq. destruct Hq as [_ Hq].
        replace (n + 3)%nat with (1 + (0 + (n + 2)))%nat by lia.
        apply close_trans with (b := Rabs (B2R v) / B2R norm).
        + replace (Rabs (B2R v) / B2R norm) with (Rabs (B2R v / B2R norm)).
          * apply error_close_abs, div_error, Hq.
          * unfold Rdiv. rewrite Rabs_mult, (Rabs_pos_eq (/ B2R norm)); [reflexivity|].
            left. apply Rinv_0_lt_compat. exact Hn.
        + apply close_div; [apply Rabs_pos | apply Rabs_pos | exact Hn | exact Hroot | | exact Hnc].
          apply close_refl, Rabs_pos. }
    replace (B2R (v / norm) * B2R (v / norm))
      with (Rabs (B2R (v / norm)) * Rabs (B2R (v / norm)))
      by (rewrite <- Rabs_mult; apply Rabs_pos_eq; nra).
    replace (B2R v * B2R v / total)
      with (Rabs (B2R v) / R_sqrt.sqrt total * (Rabs (B2R v) / R_sqrt.sqrt total)).
    2: { rewrite <- (sqrt_sqrt total) at 3 by lra.
         replace (B2R v * B2R v) with (Rabs (B2R v) * Rabs (B2R v))
           by (rewrite <- Rabs_mult; apply Rabs_pos_eq; nra).
         field. lra. }
    assert (Hq0 : 0 <= Rabs (B2R v) / R_sqrt.sqrt total).
    { apply Rmult_le_pos; [apply Rabs_pos | left; apply Rinv_0_lt_compat; exact Hroot]. }
    apply close_mult; try assumption; apply Rabs_pos. }
  apply (Forall2_map_both (fun y x => close (n + 3 + (n + 3)) (y * y) (x * x / total))
           (fun v => B2R (v / norm)%float) B2R) in Heach.
  apply sumSquaresR_ratio with (a := 0) (b := 0) in Heach.
  2: { unfold Rdiv. rewrite Rmult_0_l. apply close_refl. lra. }
  fold total in Heach.
  replace (total / total) with 1 in Heach by (field; lra).
  unfold norm_of. rewrite map_map.
  assert (Hy : 0 <= sumSquaresR (map (fun v => B2R (v / norm)) vec) 0)
    by apply sumSquaresR_ge.
  apply close_sqrt in Heach; [|exact Hy | lra]. rewrite sqrt_1 in Heach.
  apply close_one in Heach.
  - eapply Rle_trans; [exact Heach|]. right.
    rewrite Rmult_comm, <- Rmult_assoc, (Rmult_comm eps), eps_twice.
    rewrite INR_IZR_INZ, Nat2Z.inj_add. fold n. unfold Rdiv. rewrite Rmult_comm. reflexivity.
  - replace (n + 3)%nat with (3 * 0 + Z.to_nat 3 + n)%nat by lia.
    pose proof (@rounding_budget n 3 Hlen ltac:(lia)) as Hb.
    eapply Rle_trans; [|exact Hb]. apply Rmult_le_compat_r; [left; apply eps_pos|].
    apply le_INR. lia.
Qed.

(** Witness of C5: the vector (3, 4), whose normalization (0.6, 0.8) has a
    norm within 5 / 2 ^ 51 of 1. *)
Lemma normalizeL2_unit_norm_witness :
  Rabs (norm_of (normalizeL2 F64 [3%float; 4%float]) - 1) <= IZR (2 + 3) / IZR (2 ^ 51).
Proof.
  apply (proj2 (normalizeL2_unit_norm [3%float; 4%float])).
  - vm_compute. reflexivity.
  - vm_compute. reflexivity.
Defined.

Lemma B2R_mul_zero_l (x y : float) : is_zero x = true -> B2R (x * y) = 0.
Proof.
  intros Hx. apply is_zero_inv in Hx. destruct Hx as (sx & Hx).
  unfold B2R. rewrite mul_spec, Hx. unfold SF64mul.
  destruct (Prim2SF y); reflexivity.
Qed.

Lemma B2R_mul_zero_r (x y : float) : is_zero y = true -> B2R (x * y) = 0.
Proof.
  intros Hy. apply is_zero_inv in Hy. destruct Hy as (sy & Hy).
  unfold B2R. rewrite mul_spec, Hy. unfold SF64mul.
  destruct (Prim2SF x); reflexivity.
Qed.

Lemma nth_magnitudes (a : list float) (i : nat) :
  nth i (magnitudes a) 0 = Rabs (B2R (at_index F64 a i)).
Proof.
  unfold magnitudes, at_index.
  assert (E : 0 = (fun x => Rabs (B2R x)) (nan F64)).
  { cbv beta. change (B2R (nan F64)) with 0. symmetry. apply Rabs_R0. }
  rewrite E at 1. apply (map_nth (fun x => Rabs (B2R x))).
Qed.

(** One round on an accumulator of squares. *)
Lemma square_step (acc x : float) (k : nat) (total : R) :
  is_zero x = true \/ is_normal (x * x) = true ->
  is_finite (acc + x * x) = true ->
  (1 <= k)%nat -> 0 <= total -> 0 <= B2R acc -> close k (B2R acc) total ->
  0 <= B2R (acc + x * x) /\
  close (1 + k) (B2R (acc + x * x)) (total + Rabs (B2R x) * Rabs (B2R x)).
Proof.
  intros Hx Hstep Hk Htotal Hacc Hclose.
  replace (Rabs (B2R x) * Rabs (B2R x)) with (B2R x * B2R x)
    by (rewrite <- Rabs_mult; symmetry; apply Rabs_pos_eq; nra).
  destruct (@add_finite _ _ Hstep) as [Hfa Hfq].
  destruct (@square_close x Hx) as [Hq Hqc].
  pose proof (add_error acc (x * x) Hfa Hfq Hstep) as Herr.
  apply error_close in Herr; [|lra]. destruct Herr as [Hnew Hnc].
  assert (Hsq : 0 <= B2R x * B2R x) by nra.
  split; [exact Hnew|].
  apply close_trans with (b := B2R acc + B2R (x * x)); [exact Hnc|].
  apply close_plus; [exact Hclose|].
  apply close_weaken with (j := 1%nat); assumption.
Qed.

(** One round on the accumulator of products. *)
Lemma product_step (acc x y : float) (k : nat) (total : R) :
  is_zero x = true \/ is_zero y = true \/ is_normal (x * y) = true ->
  is_finite (acc + x * y) = true ->
  (1 <= k)%nat -> Rabs (B2R acc) * (1 - eps) ^ k <= total ->
  Rabs (B2R (acc + x * y)) * (1 - eps) ^ (1 + k)
  <= total + Rabs (B2R x) * Rabs (B2R y).
Proof.
  intros Hxy Hstep Hk Hacc.
  destruct (@add_finite _ _ Hstep) as [Hfa Hfp].
  assert (Hp : Rabs (B2R (x * y)) * (1 - eps) <= Rabs (B2R x) * Rabs (B2R y)).
  { destruct Hxy as [Hz | [Hz | Hn]].
    - rewrite (@B2R_mul_zero_l x y Hz), Rabs_R0, Rmult_0_l.
      apply Rmult_le_pos; apply Rabs_pos.
    - rewrite (@B2R_mul_zero_r x y Hz), Rabs_R0, Rmult_0_l.
      apply Rmult_le_pos; apply Rabs_pos.
    - pose proof (@error_close_abs _ _ (mul_error x y Hn)) as [H1 _].
      rewrite pow_1, Rabs_mult in H1. exact H1. }
  pose proof (add_error acc (x * y) Hfa Hfp Hstep) as Herr.
  apply error_close_abs in Herr. destruct Herr as [H1 _]. rewrite pow_1 in H1.
  pose proof (Rabs_triang (B2R acc) (B2R (x * y))) as Htri.
  pose proof (shrink_bounds k) as Hs. pose proof eps_small as He.
  assert (Hsk : (1 - eps) ^ k <= 1 - eps).
  { pose proof (@shrink_le 1 k Hk) as H. rewrite pow_1 in H. exact H. }
  pose proof (Rabs_pos (B2R (x * y))) as Hp0.
  pose proof (Rabs_pos (B2R acc)) as Ha0.
  cbn [pow Nat.add].
  apply Rle_trans with ((Rabs (B2R acc) + Rabs (B2R (x * y))) * (1 - eps) ^ k).
  - rewrite <- Rmult_assoc. apply Rmult_le_compat_r; [lra|]. lra.
  - rewrite Rmult_plus_distr_r.
    assert (Rabs (B2R (x * y)) * (1 - eps) ^ k <= Rabs (B2R (x * y)) * (1 - eps))
      by (apply Rmult_le_compat_l; lra).
    lra.
Qed.

(** The accumulators after [n] rounds against the sums of the magnitudes. *)
Lemma cosine_sums_close (a b : list float) (n : nat) :
  (forall i, (i < n)%nat -> cosineStep_regular a b i = true) ->
  sums_finite (fold_left (cosineStep F64 a b) (seq 0 n) (0%float, 0%float, 0%float)) ->
  let '(dot, na, nb) :=
    fold_left (cosineStep F64 a b) (seq 0 n) (0%float, 0%float, 0%float) in
  let '(D, X, Y) := cosineSumsR (magnitudes a) (magnitudes b) n in
  Rabs (B2R dot) * (1 - eps) ^ (n + 1) <= D /\
  (0 <= B2R na /\ close (n + 1) (B2R na) X) /\
  (0 <= B2R nb /\ close (n + 1) (B2R nb) Y).
Proof.
  induction n as [|n IH]; intros Hreg Hfin.
  - cbn [seq fold_left]. unfold cosineSumsR. cbn [seq fold_left].
    rewrite (@B2R_zero 0%float eq_refl), Rabs_R0, Rmult_0_l.
    repeat split; try lra; apply close_refl; lra.
  - pose proof (cosineSumsR_cauchy_schwarz (magnitudes a) (magnitudes b) n) as Hcs.
    unfold cosineSumsR in *. rewrite seq_S, !fold_left_app.
    rewrite seq_S, fold_left_app in Hfin. cbn [Nat.add fold_left] in *.
    destruct (fold_left (cosineStep F64 a b) (seq 0 n) (0%float, 0%float, 0%float))
      as [[dot na] nb].
    destruct (fold_left (cosineStepR (magnitudes a) (magnitudes b)) (seq 0 n) (0, 0, 0))
      as [[D X] Y].
    cbn [cosineStep cosineStepR add mul F64 num] in *.
    rewrite !nth_magnitudes.
    destruct Hfin as (Hfd & Hfa & Hfb). destruct Hcs as (HX & HY & _).
    destruct IH as (Hd & [Ha0 Ha] & [Hb0 Hb]).
    { intros i Hi. apply Hreg. lia. }
    { apply add_finite in Hfd. apply add_finite in Hfa. apply add_finite in Hfb.
      repeat split; [apply Hfd | apply Hfa | apply Hfb]. }
    specialize (Hreg n (Nat.lt_succ_diag_r n)). unfold cosineStep_regular in Hreg.
    cbv zeta in Hreg. apply andb_true_iff in Hreg. destruct Hreg as [Hreg Hxy].
    apply andb_true_iff in Hreg. destruct Hreg as [Hx Hy].
    apply orb_true_iff in Hx. apply orb_true_iff in Hy.
    apply orb_true_iff in Hxy. rewrite orb_true_iff in Hxy.
    assert (Hxy' : is_zero (at_index F64 a n) = true \/ is_zero (at_index F64 b n) = true \/
                   is_normal (at_index F64 a n * at_index F64 b n) = true) by tauto.
    split; [|split].
    + apply (@product_step dot _ _ (n + 1) D Hxy' Hfd); [lia | exact Hd].
    + apply (@square_step na _ (n + 1) X Hx Hfa); [lia | exact HX | exact Ha0 | exact Ha].
    + apply (@square_step nb _ (n + 1) Y Hy Hfb); [lia | exact HY | exact Hb0 | exact Hb].
Qed.

Lemma B2R_normal_finite (x : float) : is_normal x = true -> B2R x <> 0.
Proof.
  intros H. apply is_normal_inv in H. destruct H as (s & m & e & H & _).
  unfold B2R. rewrite H, SF2R_finite. pose proof (F2R_pos m e).
  destruct s; unfold sgn; lra.
Qed.

Lemma div_zero_finite (x y : float) :
  is_zero x = true -> is_normal y = true -> is_finite (x / y) = true.
Proof.
  intros Hx Hy. apply is_zero_inv in Hx. apply is_normal_inv in Hy.
  destruct Hx as (sx & Hx). destruct Hy as (sy & my & ey & Hy & _).
  unfold is_finite. rewrite classify_spec, div_spec, Hx, Hy.
  cbn. destruct (xorb sx sy); reflexivity.
Qed.

Lemma cosineSim_binary64 (a b : list float) :
  cosineSim F64 a b
  = let '(dot, na, nb) :=
      fold_left (cosineStep F64 a b) (seq 0 (List.length a)) (0%float, 0%float, 0%float) in
    (dot / (PrimFloat.sqrt na * PrimFloat.sqrt nb))%float.
Proof. reflexivity. Qed.

(** C9 (amended): for vectors of the same length in whose similarity no
    operation overflows or underflows, [cosineSim] returns a number whose
    absolute value is at most [1 + (3 n + 7) / 2 ^ 51], where [n] is the
    number of components. *)
Theorem cosineSim_range (a b : list float) :
  List.length a = List.length b ->
  cosineSim_regular a b = true ->
  (Z.of_nat (List.length a) < 2 ^ 32)%Z ->
  is_finite (cosineSim F64 a b) = true /\
  Rabs (B2R (cosineSim F64 a b))
  <= 1 + IZR (3 * Z.of_nat (List.length a) + 7) / IZR (2 ^ 51).
Proof.
  intros _ Hreg Hlen. unfold cosineSim_regular in Hreg. rewrite cosineSim_binary64.
  set (n := List.length a) in *.
  pose proof (@cosine_sums_close a b n) as Hsums.
  pose proof (cosineSumsR_cauchy_schwarz (magnitudes a) (magnitudes b) n) as Hcs.
  destruct (fold_left (cosineStep F64 a b) (seq 0 n) (0%float, 0%float, 0%float))
    as [[dot na] nb].
  destruct (cosineSumsR (magnitudes a) (magnitudes b) n) as [[D X] Y].
  cbn [div mul sqrt F64 num] in *.
  set (sa := PrimFloat.sqrt na) in *. set (sb := PrimFloat.sqrt nb) in *.
  set (den := (sa * sb)%float) in *.
  repeat (apply andb_true_iff in Hreg; destruct Hreg as [Hreg ?]).
  rename H into Hquot, H0 into Hden, H1 into Hsb, H2 into Hsa, H3 into Hdot.
  destruct Hcs as (HX & HY & Hcs).
  destruct (@sqrt_error na Hsa) as (Hna & Hsa0 & Hsae). fold sa in Hsa0, Hsae.
  destruct (@sqrt_error nb Hsb) as (Hnb & Hsb0 & Hsbe). fold sb in Hsb0, Hsbe.
  destruct Hsums as (Hd & [_ Ha] & [_ Hb]).
  { intros i Hi. rewrite forallb_forall in Hreg. apply Hreg, in_seq. lia. }
  { repeat split; [exact Hdot | apply B2R_finite; lra | apply B2R_finite; lra]. }
  assert (Hroot : forall (acc : float) (root : float) (total : R),
             0 <= total -> 0 < B2R acc -> 0 < B2R root ->
             Rabs (B2R root - R_sqrt.sqrt (B2R acc)) <= eps * B2R root ->
             close (n + 1) (B2R acc) total ->
             R_sqrt.sqrt total * (1 - eps) ^ (n + 2) <= B2R root).
  { intros acc root total Ht Hacc Hr Herr Hc.
    assert (Hrc : close (1 + (n + 1)) (B2R root) (R_sqrt.sqrt total)).
    { apply close_trans with (b := R_sqrt.sqrt (B2R acc)).
      - apply error_close; [|apply sqrt_pos].
        rewrite (Rabs_pos_eq (B2R root)) by lra. exact Herr.
      - apply close_sqrt; [lra | lra |].
        apply close_weaken with (j := (n + 1)%nat); [lra | lra | lia | exact Hc]. }
    replace (n + 2)%nat with (1 + (n + 1))%nat by lia. apply Hrc. }
  pose proof (Hroot na sa X HX Hna Hsa0 Hsae Ha) as Hlow_a.
  pose proof (Hroot nb sb Y HY Hnb Hsb0 Hsbe Hb) as Hlow_b.
  pose proof (mul_error sa sb Hden) as Hdene. fold den in Hdene.
  apply error_close in Hdene; [|nra]. destruct Hdene as [Hden0 [_ Hdenc]].
  rewrite pow_1 in Hdenc.
  pose proof eps_small as He.
  assert (Hdenpos : 0 < B2R den).
  { assert (0 < B2R sa * B2R sb * (1 - eps))
      by (apply Rmult_lt_0_compat; [apply Rmult_lt_0_compat|]; lra).
    lra. }
  pose proof (shrink_bounds (n + 1)) as Hs1. pose proof (shrink_bounds (n + 2)) as Hs2.
  assert (HD : D <= R_sqrt.sqrt X * R_sqrt.sqrt Y).
  { rewrite <- sqrt_mult by lra.
    assert (H0 : 0 <= D).
    { eapply Rle_trans; [|exact Hd]. apply Rmult_le_pos; [apply Rabs_pos | lra]. }
    rewrite <- (sqrt_square D H0). apply sqrt_le_1; nra. }
  pose proof (sqrt_pos X) as HsX. pose proof (sqrt_pos Y) as HsY.
  assert (Hlow : R_sqrt.sqrt X * R_sqrt.sqrt Y
                 * ((1 - eps) ^ (n + 2) * (1 - eps) ^ (n + 2) * (1 - eps)) <= B2R den).
  { apply Rle_trans with (B2R sa * B2R sb * (1 - eps)); [|exact Hdenc].
    replace (R_sqrt.sqrt X * R_sqrt.sqrt Y
             * ((1 - eps) ^ (n + 2) * (1 - eps) ^ (n + 2) * (1 - eps)))
      with ((R_sqrt.sqrt X * (1 - eps) ^ (n + 2)) * (R_sqrt.sqrt Y * (1 - eps) ^ (n + 2))
            * (1 - eps)) by ring.
    apply Rmult_le_compat_r; [lra|].
    apply Rmult_le_compat; try assumption; apply Rmult_le_pos; lra. }
  assert (Hratio : Rabs (B2R dot) / B2R den
                   * ((1 - eps) ^ (n + 1)
                      * ((1 - eps) ^ (n + 2) * (1 - eps) ^ (n + 2) * (1 - eps))) <= 1).
  { set (t1 := (1 - eps) ^ (n + 1)) in *.
    set (t2 := (1 - eps) ^ (n + 2) * (1 - eps) ^ (n + 2) * (1 - eps)) in *.
    assert (Ht2 : 0 <= t2) by (unfold t2; apply Rmult_le_pos; [apply Rmult_le_pos|]; lra).
    apply Rmult_le_reg_r with (r := B2R den); [exact Hdenpos|].
    replace (Rabs (B2R dot) / B2R den * (t1 * t2) * B2R den)
      with (Rabs (B2R dot) * t1 * t2) by (field; lra).
    rewrite Rmult_1_l.
    apply Rle_trans with (R_sqrt.sqrt X * R_sqrt.sqrt Y * t2); [|exact Hlow].
    apply Rmult_le_compat_r; [exact Ht2|]. lra. }
  assert (Hbudget : INR (3 * n + Z.to_nat 7) * eps <= / 2)
    by (apply rounding_budget; [exact Hlen | lia]).
  assert (Hbound : 1 + 2 * INR (3 * n + Z.to_nat 7) * eps
                   = 1 + IZR (3 * Z.of_nat n + 7) / IZR (2 ^ 51)).
  { f_equal. rewrite Rmult_comm, <- Rmult_assoc, (Rmult_comm eps), eps_twice.
    rewrite INR_IZR_INZ, Nat2Z.inj_add, Nat2Z.inj_mul, Z2Nat.id by lia.
    unfold Rdiv. rewrite Rmult_comm. reflexivity. }
  rewrite <- Hbound.
  apply orb_true_iff in Hquot. destruct Hquot as [Hz | Hq].
  - split; [apply (@div_zero_finite dot den Hz Hden)|].
    rewrite (@B2R_div_zero dot den Hz Hden), Rabs_R0.
    pose proof (pos_INR (3 * n + Z.to_nat 7)). nra.
  - split; [apply (@is_normal_finite _ Hq)|].
    pose proof (@error_close_abs _ _ (div_error dot den Hq)) as [Hc _].
    rewrite pow_1 in Hc.
    replace (Rabs (B2R dot / B2R den)) with (Rabs (B2R dot) / B2R den) in Hc.
    2: { unfold Rdiv. rewrite Rabs_mult, (Rabs_pos_eq (/ B2R den)); [reflexivity|].
         left. apply Rinv_0_lt_compat. exact Hdenpos. }
    apply upper_one; [exact Hbudget | apply Rabs_pos |].
    replace (3 * n + Z.to_nat 7)%nat with (1 + ((n + 1) + ((n + 2) + (n + 2) + 1)))%nat
      by lia.
    rewrite (pow_add (1 - eps) 1 ((n + 1) + ((n + 2) + (n + 2) + 1))),
      (pow_add (1 - eps) (n + 1) ((n + 2) + (n + 2) + 1)),
      (pow_add (1 - eps) ((n + 2) + (n + 2)) 1),
      (pow_add (1 - eps) (n + 2) (n + 2)), !pow_1.
    set (c := Rabs (B2R (dot / den))) in *.
    set (r := Rabs (B2R dot) / B2R den) in *.
    set (t1 := (1 - eps) ^ (n + 1)) in *.
    set (t2 := (1 - eps) ^ (n + 2)) in *.
    assert (Ht : 0 <= t1 * (t2 * t2 * (1 - eps))).
    { apply Rmult_le_pos; [lra|]. apply Rmult_le_pos; [apply Rmult_le_pos|]; lra. }
    apply Rle_trans with (r * (t1 * (t2 * t2 * (1 - eps)))); [|exact Hratio].
    rewrite <- Rmult_assoc. apply Rmult_le_compat_r; [exact Ht | exact Hc].
Qed.

(** Witness of C9: the vector (1, 1, 1) against itself, whose similarity
    1.0000000000000002 is above 1 and within the bound. *)
Lemma cosineSim_range_witness :
  is_finite (cosineSim F64 [1%float; 1%float; 1%float] [1%float; 1%float; 1%float]) = true /\
  Rabs (B2R (cosineSim F64 [1%float; 1%float; 1%float] [1%float; 1%float; 1%float]))
  <= 1 + IZR (3 * 3 + 7) / IZR (2 ^ 51).
Proof.
  apply (@cosineSim_range [1%float; 1%float; 1%float] [1%float; 1%float; 1%float]).
  - reflexivity.
  - vm_compute. reflexivity.
  - vm_compute. reflexivity.
Defined.

End RoundingReals.

(** ** Application-side ranking *)

Section Ranking.

Variable rt : Runtime.
Variable q : list float.

Lemma parseEmbedding_null (a : address_row) :
  parseEmbedding rt (EMBEDDING a) = None <-> missing a \/ unparseable rt a.
Proof.
  unfold parseEmbedding, missing, unparseable.
  destruct (EMBEDDING a) as [text|]; [|split; auto].
  fold (stored_text text).
  destruct (truthy_string text) eqn:Et; cbn [negb].
  - assert (Hne : text <> ""%string) by (intros ->; discriminate).
    destruct (JSON_parse rt (stored_text text)) as [v|] eqn:Ej.
    + split.
      * intros H. right. exists text. split; [reflexivity|]. split; [exact Hne|].
        right. exists v. split; [exact Ej|]. intros items Hv. subst v. discriminate H.
      * intros [[H|H] | (t & Ht & _ & [[H _] | (v' & Hv' & Hnot)])].
        -- discriminate.
        -- injection H as H. contradiction.
        -- injection Ht as <-. congruence.
        -- injection Ht as <-. rewrite Ej in Hv'. injection Hv' as <-.
           destruct v; try reflexivity. exfalso. eapply Hnot. reflexivity.
    + destruct (match_numbers rt (stored_text text)) as [matches|] eqn:Em.
      * split; [discriminate|].
        intros [[H|H] | (t & Ht & _ & [[_ H] | (v & Hv & _)])].
        -- discriminate.
        -- injection H as H. contradiction.
        -- injection Ht as <-. congruence.
        -- injection Ht as <-. congruence.
      * split; [|reflexivity]. intros _. right. exists text.
        split; [reflexivity|]. split; [exact Hne|]. left. split; assumption.
  - split; [|reflexivity]. intros _. left. right.
    unfold truthy_string in Et. apply negb_false_iff, String.eqb_eq in Et.
    subst. reflexivity.
Qed.

(** A candidate is skipped when its embedding is missing, cannot be parsed,
    or has another length than the query vector, and only then. *)
Lemma skipped_reasons (a : address_row) :
  skipped rt q a = true <-> missing a \/ unparseable rt a \/ mismatched rt q a.
Proof.
  unfold skipped, usable, mismatched.
  destruct (parseEmbedding rt (EMBEDDING a)) as [dbEmb|] eqn:E.
  - destruct (Nat.eqb (List.length dbEmb) (List.length q)) eqn:El.
    + split; [discriminate|]. apply Nat.eqb_eq in El.
      intros [H | [H | (e & He & Hne)]].
      * assert (Hnull : parseEmbedding rt (EMBEDDING a) = None)
          by (apply parseEmbedding_null; left; exact H).
        congruence.
      * assert (Hnull : parseEmbedding rt (EMBEDDING a) = None)
          by (apply parseEmbedding_null; right; exact H).
        congruence.
      * injection He as <-. contradiction.
    + split; [|reflexivity]. intros _. right. right.
      exists dbEmb. split; [reflexivity|]. apply Nat.eqb_neq, El.
  - split; [|reflexivity]. intros _.
    apply parseEmbedding_null in E. tauto.
Qed.

Lemma scanStep_skipped (acc : option address_row * float) (a : address_row) :
  skipped rt q a = true -> scanStep rt q acc a = acc.
Proof.
  unfold skipped, usable, scanStep.
  destruct (parseEmbedding rt (EMBEDDING a)) as [dbEmb|]; [|reflexivity].
  destruct (Nat.eqb (List.length dbEmb) (List.length q)); [discriminate | reflexivity].
Qed.

Lemma scanStep_usable (acc : option address_row * float) (a : address_row) :
  skipped rt q a = false ->
  scanStep rt q acc a
  = if gtb F64 (similarity rt q a) (snd acc) then (Some a, similarity rt q a) else acc.
Proof.
  unfold skipped, usable, scanStep, similarity.
  destruct (parseEmbedding rt (EMBEDDING a)) as [dbEmb|]; [|discriminate].
  destruct (Nat.eqb (List.length dbEmb) (List.length q)); [reflexivity | discriminate].
Qed.

Lemma fold_scan_filter (addrs : list address_row) (acc : option address_row * float) :
  fold_left (scanStep rt q) addrs acc
  = fold_left (scanStep rt q) (filter (fun a => negb (skipped rt q a)) addrs) acc.
Proof.
  revert acc. induction addrs as [|a addrs IH]; intros acc; [reflexivity|].
  simpl. destruct (skipped rt q a) eqn:E; simpl.
  - rewrite scanStep_skipped by exact E. apply IH.
  - apply IH.
Qed.

Lemma gtb_trans (x y z : float) :
  gtb F64 x y = true -> gtb F64 y z = true -> gtb F64 x z = true.
Proof.
  intros Hxy Hyz.
  apply gtb_between with (z := y); [exact Hxy | apply gtb_asym, Hyz |].
  destruct (PrimFloat.eqb z z) eqn:E; [reflexivity|].
  apply (@gtb_unordered z y) in E. destruct E as [_ E]. congruence.
Qed.

Lemma fold_scan_cases (addrs : list address_row) (acc : option address_row * float) :
  (fold_left (scanStep rt q) addrs acc = acc /\ nothing_above rt q addrs (snd acc)) \/
  (exists i best,
      fold_left (scanStep rt q) addrs acc = (Some best, similarity rt q best) /\
      gtb F64 (similarity rt q best) (snd acc) = true /\
      first_best rt q addrs i best).
Proof.
  revert acc. induction addrs as [|a addrs IH]; intros acc.
  - left. split; [reflexivity|]. intros c [].
  - simpl. destruct (skipped rt q a) eqn:Ea.
    + rewrite scanStep_skipped by exact Ea.
      destruct (IH acc) as [[Hfold Hno] | (i & best & Hfold & Hgt & Hnth & Hb & Hmax & Hprev)].
      * left. split; [exact Hfold|].
        intros c [<-|Hc] Hs; [congruence | apply Hno; assumption].
      * right. exists (S i), best. split; [exact Hfold|]. split; [exact Hgt|].
        split; [exact Hnth|]. split; [exact Hb|]. split.
        -- intros [|j] c Hj Hs; simpl in Hj.
           ++ injection Hj as <-. congruence.
           ++ eapply Hmax; eassumption.
        -- intros [|j] c Hlt Hj Hs Hnum; simpl in Hj.
           ++ injection Hj as <-. congruence.
           ++ apply (Hprev j); [lia | assumption..].
    + rewrite scanStep_usable by exact Ea.
      destruct (gtb F64 (similarity rt q a) (snd acc)) eqn:Eg.
      * destruct (IH (Some a, similarity rt q a))
          as [[Hfold Hno] | (i & best & Hfold & Hgt & Hnth & Hb & Hmax & Hprev)];
          cbn [snd] in *.
        -- right. exists 0%nat, a. split; [exact Hfold|]. split; [exact Eg|].
           split; [reflexivity|]. split; [exact Ea|]. split.
           ++ intros [|j] c Hj Hs; simpl in Hj.
              ** injection Hj as <-. apply gtb_irrefl.
              ** apply Hno; [eapply nth_error_In; eassumption | exact Hs].
           ++ intros j c Hlt. lia.
        -- right. exists (S i), best. split; [exact Hfold|].
           split; [eapply gtb_trans; eassumption|].
           split; [exact Hnth|]. split; [exact Hb|]. split.
           ++ intros [|j] c Hj Hs; simpl in Hj.
              ** injection Hj as <-. apply gtb_asym, Hgt.
              ** eapply Hmax; eassumption.
           ++ intros [|j] c Hlt Hj Hs Hnum; simpl in Hj.
              ** injection Hj as <-. exact Hgt.
              ** apply (Hprev j); [lia | assumption..].
      * destruct (IH acc)
          as [[Hfold Hno] | (i & best & Hfold & Hgt & Hnth & Hb & Hmax & Hprev)].
        -- left. split; [exact Hfold|].
           intros c [<-|Hc] Hs; [exact Eg | apply Hno; assumption].
        -- right. exists (S i), best. split; [exact Hfold|]. split; [exact Hgt|].
           split; [exact Hnth|]. split; [exact Hb|].
           assert (Hnum_a : is_number (similarity rt q a) = true ->
                            gtb F64 (similarity rt q best) (similarity rt q a) = true).
           { intros Hnum. eapply gtb_between; eassumption. }
           split.
           ++ intros [|j] c Hj Hs; simpl in Hj.
              ** injection Hj as <-.
                 destruct (is_number (similarity rt q a)) eqn:En.
                 --- apply gtb_asym, Hnum_a. reflexivity.
                 --- apply (@gtb_unordered _ (similarity rt q best)) in En. apply En.
              ** eapply Hmax; eassumption.
           ++ intros [|j] c Hlt Hj Hs Hnum; simpl in Hj.
              ** injection Hj as <-. apply Hnum_a, Hnum.
              ** apply (Hprev j); [lia | assumption..].
Qed.

End Ranking.

Local Open Scope list_scope.

(** ** Running the calls *)

Section Calls.

Variable w : world.

Lemma call_run (T : Type) (e : event) (oracle : history -> reply T) (s : state) :
  call w e oracle s
  = (match oracle (issued s e) with
     | Answer a => Ok a
     | Failure m => Throw m
     end,
     {| now := now s + latency w (issued s e); log := issued s e |}).
Proof.
  unfold call, bind, issue, await, issued. cbn.
  rewrite N.max_r by lia. reflexivity.
Qed.

Lemma sleep_run (ms : N) (s : state) :
  sleep w ms s
  = (Ok tt, {| now := now s + ms + latency w (issued s (SetTimeout ms));
               log := issued s (SetTimeout ms) |}).
Proof. reflexivity. Qed.

End Calls.

(** C6 (amended): in the ranking of [onFindClosest], with a prompt and
    answers of the embedding model and of the database, the handler returns
    without an error; candidates whose embedding is missing, cannot be parsed
    or has another length than the query vector change nothing; the candidate
    returned scores highest among the others, and every earlier one scores
    strictly lower (or has no score); nothing is returned exactly when no
    candidate that is not skipped scores above [-Infinity]. *)
Theorem onFindClosest_ranking (rt : Runtime) (w : world) (p : string) (s : state)
    (embedding : list float) (addrs : list address_row) :
  truthy_string p = true ->
  embeddings_create w (issued s (EmbeddingsCreate p)) p = Answer embedding ->
  select_addresses w
    (issued {| now := now s + latency w (issued s (EmbeddingsCreate p));
               log := issued s (EmbeddingsCreate p) |} SelectAddresses)
  = Answer addrs ->
  let q := normalizeL2 F64 (firstn 768 embedding) in
  exists found s',
    onFindClosest rt w (ReqObject (Some (Some p))) s = (Ok (Returned found), s') /\
    found = fst (scan rt q (filter (fun a => negb (skipped rt q a)) addrs)) /\
    (forall best, found = Some best -> exists i, first_best rt q addrs i best) /\
    (found = None <-> nothing_above rt q addrs (neg_infinity F64)) /\
    (forall a, skipped rt q a = true <->
               missing a \/ unparseable rt a \/ mismatched rt q a).
Proof.
  intros Hp Hemb Hsel q.
  exists (fst (scan rt q addrs)). eexists.
  split; [|split; [|split; [|split; [|apply skipped_reasons]]]].
  - unfold onFindClosest. rewrite Hp. cbn [negb].
    unfold try_catch, bind. rewrite call_run, Hemb.
    rewrite call_run, Hsel. reflexivity.
  - unfold scan. rewrite <- fold_scan_filter. reflexivity.
  - unfold scan. intros best Hbest.
    destruct (fold_scan_cases rt q addrs (None, neg_infinity F64))
      as [[Hfold Hno] | (i & b & Hfold & Hgt & Hfirst)];
      rewrite Hfold in Hbest; cbn [fst] in Hbest; [discriminate|].
    injection Hbest as <-. exists i. exact Hfirst.
  - unfold scan.
    destruct (fold_scan_cases rt q addrs (None, neg_infinity F64))
      as [[Hfold Hno] | (i & b & Hfold & Hgt & Hfirst)];
      rewrite Hfold; cbn [fst snd] in *.
    + split; [intros _; exact Hno | reflexivity].
    + split; [discriminate|]. intros Hno. exfalso.
      destruct Hfirst as (Hnth & Hs & _).
      rewrite (Hno b (nth_error_In _ _ Hnth) Hs) in Hgt. discriminate.
Qed.

(** C6 (as stated, refuted): the only candidate stores the zero vector; it
    is not skipped, but its similarity with the query vector is NaN, which is
    above nothing, and the handler returns [null] instead of the candidate. *)
Lemma onFindClosest_passes_over_candidate :
  let q := normalizeL2 F64 (firstn 768 [3%float; 4%float]) in
  select_addresses Cases.zero_stored
    (issued (after Cases.zero_stored Demo.start (EmbeddingsCreate "near the river"))
       SelectAddresses)
  = Answer [Cases.zero_row] /\
  skipped Cases.zero_runtime q Cases.zero_row = false /\
  is_number (similarity Cases.zero_runtime q Cases.zero_row) = false /\
  fst (onFindClosest Cases.zero_runtime Cases.zero_stored (Demo.post "near the river")
         Demo.start)
  = Ok (Returned None).
Proof. vm_compute. repeat split; reflexivity. Qed.

(** ** Route geometry *)

(** C7: with fewer than two waypoints [getRouteGeometry] returns [null] and
    calls nothing; with two or more it calls the routing engine once, never
    throws, and returns [null] when the call fails or the answer has no
    route. *)
Theorem getRouteGeometry_engine (w : world) (coordinates : list coords) (s : state) :
  ((List.length coordinates < 2)%nat ->
     getRouteGeometry w coordinates s = (Ok None, s)) /\
  ((2 <= List.length coordinates)%nat ->
     exists g,
       getRouteGeometry w coordinates s
       = (Ok g, {| now := now s + latency w (issued s (FetchOsrm coordinates));
                   log := (log s ++ [(now s, FetchOsrm coordinates)])%list |}) /\
       (forall e, fetch_osrm w (issued s (FetchOsrm coordinates)) coordinates = Failure e ->
                  g = None) /\
       (forall data, fetch_osrm w (issued s (FetchOsrm coordinates)) coordinates = Answer data ->
                     routes data = None \/ routes data = Some [] -> g = None) /\
       (forall data first rest,
           fetch_osrm w (issued s (FetchOsrm coordinates)) coordinates = Answer data ->
           routes data = Some (first :: rest) -> g = geometry first)).
Proof.
  unfold getRouteGeometry. split; intros Hlen.
  - apply Nat.ltb_lt in Hlen. rewrite Hlen. reflexivity.
  - apply Nat.ltb_ge in Hlen. rewrite Hlen.
    unfold try_catch, bind. rewrite call_run.
    destruct (fetch_osrm w (issued s (FetchOsrm coordinates)) coordinates)
      as [data|e] eqn:E.
    + destruct data as [[[|first rest]|]]; cbn [routes];
        eexists; (split; [reflexivity|]); repeat split; intros; try congruence;
        repeat match goal with
               | H : Answer _ = Answer _ |- _ => injection H as <-
               | H : _ \/ _ |- _ => destruct H
               end; cbn [routes] in *; congruence.
    + eexists. split; [reflexivity|]. repeat split; intros; congruence.
Qed.

(** ** Geocoding a batch *)

Section Batch.

Variable w : world.

Lemma geocodeAddress_fetch_run (address : string) (s : state) :
  geocodeAddress_fetch w address s
  = if isWellFormed address then
      (Ok {| settles_with :=
               fetch_nominatim w (issued s (FetchNominatim (nominatim_url address)))
                 (nominatim_url address);
             settles_at :=
               now s + latency w (issued s (FetchNominatim (nominatim_url address))) |},
       {| now := now s; log := issued s (FetchNominatim (nominatim_url address)) |})
    else (Throw "URI malformed", s).
Proof.
  unfold geocodeAddress_fetch, encodeURIComponent_call, bind.
  destruct (isWellFormed address); reflexivity.
Qed.

Lemma geocodeAddress_run (address : string) (s : state) :
  geocodeAddress w address s
  = if isWellFormed address then
      (Ok (first_match
             (fetch_nominatim w (issued s (FetchNominatim (nominatim_url address)))
                (nominatim_url address))),
       after w s (FetchNominatim (nominatim_url address)))
    else (Throw "URI malformed", s).
Proof.
  unfold geocodeAddress. unfold bind at 1. rewrite geocodeAddress_fetch_run.
  destruct (isWellFormed address); [|reflexivity].
  unfold geocodeAddress_settle, try_catch, bind, await, after. cbn [settles_with settles_at now log].
  rewrite N.max_r by lia.
  destruct (fetch_nominatim _ _ _) as [[|first rest]|e]; reflexivity.
Qed.

Lemma processClient_malformed (res : results) (c : client) (s : state) :
  isWellFormed (fullAddress c) = false ->
  processClient w res c s = (Throw "URI malformed", s).
Proof.
  intros H. unfold processClient, bind at 1. rewrite geocodeAddress_run, H. reflexivity.
Qed.

Lemma processClient_failed (res : results) (c : client) (s : state) :
  isWellFormed (fullAddress c) = true ->
  geocoded w s c = None ->
  processClient w res c s = (Ok (as_failed res c), slept w (after w s (geocoding c))).
Proof.
  intros Hwf H. unfold processClient, bind at 1. rewrite geocodeAddress_run, Hwf.
  fold (geocoding c). fold (geocoded w s c). rewrite H. reflexivity.
Qed.

Lemma processClient_updated (res : results) (c : client) (s : state) (found : coords) :
  isWellFormed (fullAddress c) = true ->
  geocoded w s c = Some found ->
  update_coordinates w (issued (after w s (geocoding c)) (writing found c))
    (lat found) (lon found) (ID c) = Answer tt ->
  processClient w res c s
  = (Ok (as_updated res c found),
     slept w (after w (after w s (geocoding c)) (writing found c))).
Proof.
  intros Hwf H Hw. unfold processClient, bind at 1. rewrite geocodeAddress_run, Hwf.
  fold (geocoding c). fold (geocoded w s c). rewrite H.
  unfold bind. rewrite call_run. fold (writing found c). rewrite Hw. reflexivity.
Qed.

Lemma processClient_aborted (res : results) (c : client) (s : state) (found : coords)
    (e : string) :
  isWellFormed (fullAddress c) = true ->
  geocoded w s c = Some found ->
  update_coordinates w (issued (after w s (geocoding c)) (writing found c))
    (lat found) (lon found) (ID c) = Failure e ->
  processClient w res c s
  = (Throw e, after w (after w s (geocoding c)) (writing found c)).
Proof.
  intros Hwf H Hw. unfold processClient, bind at 1. rewrite geocodeAddress_run, Hwf.
  fold (geocoding c). fold (geocoded w s c). rewrite H.
  unfold bind. rewrite call_run. fold (writing found c). rewrite Hw. reflexivity.
Qed.

(** The four ways in which a round of the loop ends. *)
Lemma processClient_cases (res : results) (c : client) (s : state) :
  (isWellFormed (fullAddress c) = false /\
   processClient w res c s = (Throw "URI malformed", s)) \/
  (isWellFormed (fullAddress c) = true /\ geocoded w s c = None /\
   processClient w res c s = (Ok (as_failed res c), slept w (after w s (geocoding c)))) \/
  (exists found,
      isWellFormed (fullAddress c) = true /\ geocoded w s c = Some found /\
      ((update_coordinates w (issued (after w s (geocoding c)) (writing found c))
          (lat found) (lon found) (ID c) = Answer tt /\
        processClient w res c s
        = (Ok (as_updated res c found),
           slept w (after w (after w s (geocoding c)) (writing found c)))) \/
       (exists e,
           update_coordinates w (issued (after w s (geocoding c)) (writing found c))
             (lat found) (lon found) (ID c) = Failure e /\
           processClient w res c s
           = (Throw e, after w (after w s (geocoding c)) (writing found c))))).
Proof.
  destruct (isWellFormed (fullAddress c)) eqn:Hwf.
  - right. destruct (geocoded w s c) as [found|] eqn:Eg.
    + right. exists found. split; [reflexivity|]. split; [reflexivity|].
      destruct (update_coordinates w (issued (after w s (geocoding c)) (writing found c))
                  (lat found) (lon found) (ID c)) as [[]|e] eqn:Eu.
      * left. split; [reflexivity|]. apply processClient_updated; assumption.
      * right. exists e. split; [reflexivity|]. apply processClient_aborted; assumption.
    + left. split; [reflexivity|]. split; [reflexivity|].
      apply processClient_failed; assumption.
  - left. split; [reflexivity|]. apply processClient_malformed. exact Hwf.
Qed.

Lemma processClients_cons (res : results) (c : client) (rest : list client) (s : state) :
  processClients w res (c :: rest) s
  = match processClient w res c s with
    | (Ok res', s') => processClients w res' rest s'
    | (Throw e, s') => (Throw e, s')
    end.
Proof. reflexivity. Qed.

Lemma recorded_as_failed (res : results) (c : client) :
  Permutation (recorded (updated (as_failed res c)) (failed (as_failed res c)))
    (recorded (updated res) (failed res) ++ [entity c]).
Proof.
  unfold recorded, as_failed, entity. cbn [updated failed].
  rewrite map_app. cbn [map failed_id failed_address]. rewrite app_assoc. reflexivity.
Qed.

Lemma recorded_as_updated (res : results) (c : client) (found : coords) :
  Permutation (recorded (updated (as_updated res c found)) (failed (as_updated res c found)))
    (recorded (updated res) (failed res) ++ [entity c]).
Proof.
  unfold recorded, as_updated, entity. cbn [updated failed].
  rewrite map_app. cbn [map updated_id updated_address].
  rewrite <- !app_assoc. apply Permutation_app_head. apply Permutation_app_comm.
Qed.

(** The loop ends in one of three ways: normally, with every client
    recorded once; at a write that the store refuses, which is then the last
    call made; or at an address that cannot be encoded. *)
Lemma processClients_outcomes (clients : list client) (res : results) (s : state) :
  (exists res' s',
      processClients w res clients s = (Ok res', s') /\
      Permutation (recorded (updated res') (failed res'))
        (recorded (updated res) (failed res) ++ map entity clients)) \/
  (exists c found e s',
      In c clients /\
      processClients w res clients s = (Throw e, s') /\
      (exists h t, log s' = h ++ [(t, writing found c)]) /\
      update_coordinates w (log s') (lat found) (lon found) (ID c) = Failure e) \/
  (exists c s',
      In c clients /\ isWellFormed (fullAddress c) = false /\
      processClients w res clients s = (Throw "URI malformed", s')).
Proof.
  revert res s. induction clients as [|c rest IH]; intros res s.
  - left. exists res, s. split; [reflexivity|]. rewrite app_nil_r. reflexivity.
  - rewrite processClients_cons.
    destruct (processClient_cases res c s)
      as [[Hwf Hrun] | [(Hwf & Hg & Hrun) | (found & Hwf & Hg & [[Hu Hrun] | (e & Hu & Hrun)])]];
      rewrite Hrun.
    + right. right. exists c, s. split; [left; reflexivity|]. split; [exact Hwf|reflexivity].
    + destruct (IH (as_failed res c) (slept w (after w s (geocoding c))))
        as [(res' & s' & Hrest & Hperm) | [(c' & f & e & s' & Hin & Hrest & Hlast & Hfail)
                                          | (c' & s' & Hin & Hwf' & Hrest)]].
      * left. exists res', s'. split; [exact Hrest|].
        rewrite Hperm, recorded_as_failed, <- app_assoc. reflexivity.
      * right. left. exists c', f, e, s'. split; [right; exact Hin|].
        split; [exact Hrest|]. split; assumption.
      * right. right. exists c', s'. split; [right; exact Hin|]. split; assumption.
    + destruct (IH (as_updated res c found)
                  (slept w (after w (after w s (geocoding c)) (writing found c))))
        as [(res' & s' & Hrest & Hperm) | [(c' & f & e & s' & Hin & Hrest & Hlast & Hfail)
                                          | (c' & s' & Hin & Hwf' & Hrest)]].
      * left. exists res', s'. split; [exact Hrest|].
        rewrite Hperm, recorded_as_updated, <- app_assoc. reflexivity.
      * right. left. exists c', f, e, s'. split; [right; exact Hin|].
        split; [exact Hrest|]. split; assumption.
      * right. right. exists c', s'. split; [right; exact Hin|]. split; assumption.
    + right. left. exists c, found, e, (after w (after w s (geocoding c)) (writing found c)).
      split; [left; reflexivity|]. split; [reflexivity|]. split.
      * eexists. eexists. reflexivity.
      * exact Hu.
Qed.

(** When no client of the batch is found, every client is recorded as
    failed, in order, and no write is made. *)
Lemma processClients_all_failed (clients : list client) (res : results) (s : state) :
  Forall (fun c => isWellFormed (fullAddress c) = true) clients ->
  unmatched w s clients ->
  exists s',
    processClients w res clients s
    = (Ok {| updated := updated res;
             failed := (failed res ++ map failed_entry_of clients)%list |}, s').
Proof.
  revert res s. induction clients as [|c rest IH]; intros res s Hwf Hnone.
  - exists s. cbn [processClients map]. rewrite app_nil_r. destruct res; reflexivity.
  - inversion Hwf as [|? ? Hc Hrest]; subst. destruct Hnone as [Hg Hnone].
    rewrite processClients_cons.
    rewrite (processClient_failed res c s Hc Hg).
    destruct (IH (as_failed res c) (slept w (after w s (geocoding c))) Hrest Hnone)
      as (s' & Hrun).
    exists s'. rewrite Hrun. unfold as_failed. cbn [updated failed map].
    rewrite <- app_assoc. reflexivity.
Qed.

Lemma geocode_times_app (h1 h2 : history) :
  geocode_times (h1 ++ h2) = (geocode_times h1 ++ geocode_times h2)%list.
Proof. unfold geocode_times. rewrite filter_app, map_app. reflexivity. Qed.

Lemma spaced_cons (gap t : N) (times : list N) :
  spaced gap times -> Forall (fun u => (t + gap <= u)%N) times -> spaced gap (t :: times).
Proof.
  intros Hs Hall. destruct times as [|u rest]; cbn; [tauto|].
  inversion Hall; subst. split; [assumption|exact Hs].
Qed.

(** Spaced times span at least one gap per step. *)
Lemma spaced_span (gap t : N) (times : list N) :
  spaced gap (t :: times) ->
  (t + gap * N.of_nat (List.length times) <= last times t)%N.
Proof.
  revert t. induction times as [|u rest IH]; intros t H.
  - cbn. lia.
  - destruct H as [Hgap Hrest]. specialize (IH u Hrest).
    change (last (u :: rest) t) with (match rest with [] => u | _ => last rest t end).
    assert (Hlast : match rest with [] => u | _ => last rest t end = last rest u).
    { destruct rest as [|v rest']; [reflexivity|].
      clear. revert v. induction rest' as [|x r IHr]; intros v; [reflexivity|].
      cbn [last] in *. apply (IHr x). }
    rewrite Hlast. cbn [List.length]. lia.
Qed.

(** The loop of [populateCoordinates] sends its requests to Nominatim at
    least a second apart, whatever their answers; when it ends normally it
    has sent one per client, in order. *)
Lemma processClients_spaced (clients : list client) (res : results) (s : state) :
  exists new,
    log (snd (processClients w res clients s)) = (log s ++ new)%list /\
    spaced 1000 (geocode_times new) /\
    Forall (fun t => (now s <= t)%N) (geocode_times new) /\
    (forall res', fst (processClients w res clients s) = Ok res' ->
       filter is_geocoding (map snd new) = map geocoding clients).
Proof.
  revert res s. induction clients as [|c rest IH]; intros res s.
  - exists []. cbn. rewrite app_nil_r. repeat split; constructor.
  - rewrite processClients_cons.
    destruct (processClient_cases res c s)
      as [[Hwf Hrun] | [(Hwf & E & Hrun) | (found & Hwf & E & [[Ew Hrun] | (e & Ew & Hrun)])]];
      rewrite Hrun.
    + exists []. cbn [snd fst]. rewrite app_nil_r.
      split; [reflexivity|]. split; [exact I|]. split; [constructor | discriminate].
    + set (s1 := slept w (after w s (geocoding c))).
      destruct (IH (as_failed res c) s1) as (new & Hlog & Hsp & Hall & Hok).
      exists ([(now s, geocoding c);
               (now (after w s (geocoding c)), SetTimeout 1000)] ++ new)%list.
      split; [|split; [|split]].
      * rewrite Hlog. unfold s1, slept, after, issued. cbn [log].
        rewrite <- !app_assoc. reflexivity.
      * rewrite geocode_times_app.
        change (geocode_times _ ++ geocode_times new)%list
          with (now s :: geocode_times new).
        apply spaced_cons; [exact Hsp|].
        eapply Forall_impl; [|exact Hall]. unfold s1, slept, after. cbn [now]. intros; lia.
      * rewrite geocode_times_app.
        change (geocode_times _ ++ geocode_times new)%list
          with (now s :: geocode_times new).
        constructor; [lia|].
        eapply Forall_impl; [|exact Hall]. unfold s1, slept, after. cbn [now]. intros; lia.
      * intros res' Hres. rewrite map_app, filter_app, (Hok res' Hres). reflexivity.
    + set (s1 := slept w (after w (after w s (geocoding c)) (writing found c))).
      destruct (IH (as_updated res c found) s1) as (new & Hlog & Hsp & Hall & Hok).
      exists ([(now s, geocoding c);
               (now (after w s (geocoding c)), writing found c);
               (now (after w (after w s (geocoding c)) (writing found c)), SetTimeout 1000)]
              ++ new)%list.
      split; [|split; [|split]].
      * rewrite Hlog. unfold s1, slept, after, issued. cbn [log].
        rewrite <- !app_assoc. reflexivity.
      * rewrite geocode_times_app.
        change (geocode_times _ ++ geocode_times new)%list
          with (now s :: geocode_times new).
        apply spaced_cons; [exact Hsp|].
        eapply Forall_impl; [|exact Hall]. unfold s1, slept, after. cbn [now]. intros; lia.
      * rewrite geocode_times_app.
        change (geocode_times _ ++ geocode_times new)%list
          with (now s :: geocode_times new).
        constructor; [lia|].
        eapply Forall_impl; [|exact Hall]. unfold s1, slept, after. cbn [now]. intros; lia.
      * intros res' Hres. rewrite map_app, filter_app, (Hok res' Hres). reflexivity.
    + exists [(now s, geocoding c); (now (after w s (geocoding c)), writing found c)].
      split; [|split; [|split]].
      * unfold after, issued. cbn [log snd]. rewrite <- app_assoc. reflexivity.
      * cbn. tauto.
      * change (geocode_times _) with [now s]. constructor; [lia | constructor].
      * cbn [fst]. discriminate.
Qed.

End Batch.

Lemma populateCoordinates_run (w : world) (req : request) (s : state)
    (clients : list client) :
  select_clients_without_coordinates w (issued s SelectClientsWithoutCoordinates)
  = Answer clients ->
  clients <> [] ->
  populateCoordinates w req s
  = match processClients w {| updated := []; failed := [] |} clients
            (after w s SelectClientsWithoutCoordinates) with
    | (Ok res, s') =>
        (Ok (Returned
               {| message := ("Processed " ++ nat_toString (List.length clients)
                              ++ " clients.")%string;
                  updated_list := Some (updated res);
                  failed_list := Some (failed res) |}), s')
    | (Throw e, s') => reject req 500 ("Failed to populate coordinates: " ++ e)%string s'
    end.
Proof.
  intros Hsel Hne. unfold populateCoordinates, try_catch.
  unfold bind at 1. rewrite call_run, Hsel. fold (after w s SelectClientsWithoutCoordinates).
  destruct clients as [|c rest]; [contradiction|].
  cbn [List.length Nat.eqb]. unfold bind.
  destruct (processClients w _ (c :: rest) _) as [[res|e] s']; reflexivity.
Qed.

(** C8 (amended): for a batch read from the store, (1) an address without a
    match or with a failing request is recorded as failed and the loop goes
    on with the next client, while a write that the store refuses, or an
    address that [encodeURIComponent] refuses, ends the loop there with an
    exception; (2) the handler ends in one of three ways: it returns
    normally, and its two lists record every client of the batch once; or it
    rejects the request with status 500 and the message of a write for a
    client of the batch that the store refused, which is the last call made;
    or it rejects it with status 500 because the address of a client of the
    batch is not well formed; (3) when no client of the batch is found, the
    handler still returns normally, with every client in the failed list;
    (4) an empty batch returns a message and no lists. *)
Theorem populateCoordinates_partition (w : world) (data : option (option string))
    (s : state) (clients : list client) :
  select_clients_without_coordinates w (issued s SelectClientsWithoutCoordinates)
  = Answer clients ->
  ((forall res c rest s1,
       isWellFormed (fullAddress c) = true ->
       geocoded w s1 c = None ->
       processClients w res (c :: rest) s1
       = processClients w (as_failed res c) rest (slept w (after w s1 (geocoding c)))) /\
   (forall res c rest s1 found e,
       isWellFormed (fullAddress c) = true ->
       geocoded w s1 c = Some found ->
       update_coordinates w (issued (after w s1 (geocoding c)) (writing found c))
         (lat found) (lon found) (ID c) = Failure e ->
       processClients w res (c :: rest) s1
       = (Throw e, after w (after w s1 (geocoding c)) (writing found c))) /\
   (forall res c rest s1,
       isWellFormed (fullAddress c) = false ->
       processClients w res (c :: rest) s1 = (Throw "URI malformed", s1))) /\
  (clients <> [] ->
   (exists U F s',
       populateCoordinates w (ReqObject data) s
       = (Ok (Returned
                {| message := ("Processed " ++ nat_toString (List.length clients)
                               ++ " clients.")%string;
                   updated_list := Some U; failed_list := Some F |}), s') /\
       Permutation (recorded U F) (map entity clients)) \/
   (exists c found e s',
       In c clients /\
       populateCoordinates w (ReqObject data) s
       = (Ok (Rejected 500 ("Failed to populate coordinates: " ++ e)%string), s') /\
       (exists h t, log s' = h ++ [(t, writing found c)]) /\
       update_coordinates w (log s') (lat found) (lon found) (ID c) = Failure e) \/
   (exists c s',
       In c clients /\ isWellFormed (fullAddress c) = false /\
       populateCoordinates w (ReqObject data) s
       = (Ok (Rejected 500 "Failed to populate coordinates: URI malformed"), s'))) /\
  (clients <> [] ->
   Forall (fun c => isWellFormed (fullAddress c) = true) clients ->
   unmatched w (after w s SelectClientsWithoutCoordinates) clients ->
   exists s',
     populateCoordinates w (ReqObject data) s
     = (Ok (Returned
              {| message := ("Processed " ++ nat_toString (List.length clients)
                             ++ " clients.")%string;
                 updated_list := Some [];
                 failed_list := Some (map failed_entry_of clients) |}), s')) /\
  (clients = [] ->
   populateCoordinates w (ReqObject data) s
   = (Ok (Returned
            {| message := "All clients already have coordinates or no clients found.";
               updated_list := None; failed_list := None |}),
      after w s SelectClientsWithoutCoordinates)).
Proof.
  intros Hsel. split; [|split; [|split]].
  - split; [|split].
    + intros res c rest s1 Hwf H. rewrite processClients_cons.
      rewrite (processClient_failed w res c s1 Hwf H). reflexivity.
    + intros res c rest s1 found e Hwf H Hu. rewrite processClients_cons.
      rewrite (processClient_aborted w res c s1 Hwf H Hu). reflexivity.
    + intros res c rest s1 Hwf. rewrite processClients_cons.
      rewrite (processClient_malformed w res c s1 Hwf). reflexivity.
  - intros Hne. rewrite (populateCoordinates_run w _ s Hsel Hne).
    destruct (processClients_outcomes w clients {| updated := []; failed := [] |}
                (after w s SelectClientsWithoutCoordinates))
      as [(res & s' & Hrun & Hperm) | [(c & found & e & s' & Hin & Hrun & Hlast & Hfail)
                                      | (c & s' & Hin & Hwf & Hrun)]];
      rewrite Hrun.
    + left. exists (updated res), (failed res), s'. split; [reflexivity | exact Hperm].
    + right. left. exists c, found, e, s'. repeat split; assumption.
    + right. right. exists c, s'. repeat split; assumption.
  - intros Hne Hwf Hnone. rewrite (populateCoordinates_run w _ s Hsel Hne).
    destruct (@processClients_all_failed w clients {| updated := []; failed := [] |}
                (after w s SelectClientsWithoutCoordinates) Hwf Hnone) as (s' & Hrun).
    rewrite Hrun. exists s'. reflexivity.
  - intros ->. unfold populateCoordinates, try_catch.
    unfold bind. rewrite call_run, Hsel. reflexivity.
Qed.

(** Witness of C8: the batch of the deployment, with two clients located
    and two recorded as failed. *)
Lemma populateCoordinates_partition_witness :
  exists U F s',
    populateCoordinates (Demo.deployment false false) (ReqObject None) Demo.start
    = (Ok (Returned
             {| message := ("Processed " ++ nat_toString 4 ++ " clients.")%string;
                updated_list := Some U; failed_list := Some F |}), s') /\
    Permutation (recorded U F) (map entity [Demo.c2; Demo.c3; Demo.c4; Demo.c5]).
Proof.
  destruct (proj1 (proj2 (@populateCoordinates_partition (Demo.deployment false false)
                            None Demo.start [Demo.c2; Demo.c3; Demo.c4; Demo.c5]
                            eq_refl)))
    as [Hreturned | [(c & found & e & s' & _ & Hrun & _) | (c & s' & _ & _ & Hrun)]].
  - discriminate.
  - exact Hreturned.
  - vm_compute in Hrun. discriminate.
  - vm_compute in Hrun. discriminate.
Defined.

(** C8 (as stated, refuted): when the store rejects the write for the first
    client that was geocoded, the handler rejects the request with status
    500, and no client is recorded in any list; and so it does, before any
    request is sent, when the address of the first client of the batch holds
    an unpaired surrogate. *)
Lemma populateCoordinates_aborted :
  fst (populateCoordinates (Demo.deployment true false) (ReqObject None) Demo.start)
  = Ok (Rejected 500 "Failed to populate coordinates: connection lost") /\
  populateCoordinates Cases.unpaired_batch (ReqObject None) Demo.start
  = (Ok (Rejected 500 "Failed to populate coordinates: URI malformed"),
     after Cases.unpaired_batch Demo.start SelectClientsWithoutCoordinates).
Proof. vm_compute. split; reflexivity. Qed.

(** X1: within a batch of [populateCoordinates] successive requests to
    Nominatim are at least 1000 ms apart, whatever the answers: between the
    first and the last of them lie at least 1000 ms for each of the others. *)
Theorem populateCoordinates_rate_limit (w : world) (req : request) (s : state) :
  exists new,
    log (snd (populateCoordinates w req s)) = log s ++ new /\
    spaced 1000 (geocode_times new) /\
    (forall first rest,
        geocode_times new = first :: rest ->
        (first + 1000 * N.of_nat (List.length rest) <= last rest first)%N).
Proof.
  assert (Hspan : forall new, spaced 1000 (geocode_times new) ->
            forall first rest, geocode_times new = first :: rest ->
              (first + 1000 * N.of_nat (List.length rest) <= last rest first)%N).
  { intros new Hsp first rest E. rewrite E in Hsp. apply spaced_span, Hsp. }
  destruct (select_clients_without_coordinates w (issued s SelectClientsWithoutCoordinates))
    as [clients|e] eqn:Hsel.
  - destruct clients as [|c rest].
    + exists [(now s, SelectClientsWithoutCoordinates)].
      unfold populateCoordinates, try_catch, bind. rewrite call_run, Hsel.
      cbn. repeat split; intros; try discriminate.
    + assert (Hne : c :: rest <> []) by discriminate.
      rewrite (populateCoordinates_run w req s Hsel Hne).
      destruct (processClients_spaced w (c :: rest) {| updated := []; failed := [] |}
                  (after w s SelectClientsWithoutCoordinates))
        as (new & Hlog & Hsp & _ & _).
      exists ((now s, SelectClientsWithoutCoordinates) :: new).
      assert (Hlog' : log (snd (processClients w {| updated := []; failed := [] |}
                                  (c :: rest) (after w s SelectClientsWithoutCoordinates)))
                      = log s ++ (now s, SelectClientsWithoutCoordinates) :: new).
      { rewrite Hlog. unfold after, issued. cbn [log]. rewrite <- app_assoc. reflexivity. }
      destruct (processClients w _ (c :: rest) _) as [[res|e] s']; cbn [snd] in *.
      * split; [exact Hlog'|]. split; [exact Hsp | apply (Hspan new Hsp)].
      * split; [destruct req; exact Hlog'|]. split; [exact Hsp | apply (Hspan new Hsp)].
  - exists [(now s, SelectClientsWithoutCoordinates)].
    unfold populateCoordinates, try_catch, bind. rewrite call_run, Hsel.
    destruct req; cbn; repeat split; intros; try discriminate.
Qed.

(** ** Validated generation *)

Lemma leb_of_not_ltb (x y : float) :
  is_number x = true -> is_number y = true ->
  PrimFloat.ltb x y = false -> PrimFloat.leb y x = true.
Proof.
  unfold is_number. rewrite !eqb_spec, ltb_spec, leb_spec. apply SFleb_of_not_ltb.
Qed.

Lemma leb_not_ltb (x y : float) :
  PrimFloat.leb x y = true -> PrimFloat.ltb y x = false.
Proof. rewrite ltb_spec, leb_spec. apply SFleb_not_ltb. Qed.

Lemma leb_is_number (x y : float) :
  PrimFloat.leb x y = true -> is_number x = true /\ is_number y = true.
Proof.
  unfold is_number. rewrite !eqb_spec, leb_spec. apply SFleb_numbers.
Qed.

Lemma unit_number_accepts (v data : json) :
  safeParse unit_number v = Some data <->
  exists x, v = JNum x /\ data = JNum x /\ in_unit_interval x = true.
Proof.
  unfold unit_number, z.max, z.min, z.number. cbn [app safeParse].
  split.
  - destruct v as [| |x| | |]; try discriminate.
    cbn [existsb violates]. rewrite orb_false_r.
    destruct (PrimFloat.is_nan x) eqn:En; [discriminate|].
    destruct (PrimFloat.ltb x 0) eqn:E0; [discriminate|].
    destruct (PrimFloat.ltb 1 x) eqn:E1; [discriminate|].
    cbn [orb]. intros H. injection H as <-. exists x. repeat split.
    unfold PrimFloat.is_nan in En. apply negb_false_iff in En.
    unfold in_unit_interval.
    rewrite (@leb_of_not_ltb x 0%float En eq_refl E0).
    rewrite (@leb_of_not_ltb 1%float x eq_refl En E1). reflexivity.
  - intros (x & -> & -> & H). unfold in_unit_interval in H.
    apply andb_true_iff in H. destruct H as [H0 H1].
    destruct (leb_is_number H0) as [_ Hn].
    cbn [existsb violates]. rewrite orb_false_r.
    unfold PrimFloat.is_nan. unfold is_number in Hn. rewrite Hn. cbn [negb orb].
    rewrite (leb_not_ltb H0), (leb_not_ltb H1). reflexivity.
Qed.

Lemma all_some_Forall2 (T : Type) (xs : list (option T)) (ys : list T) :
  all_some xs = Some ys -> Forall2 (fun x y => x = Some y) xs ys.
Proof.
  revert ys. induction xs as [|[x|] xs IH]; intros ys H; cbn in H.
  - injection H as <-. constructor.
  - destruct (all_some xs) as [zs|]; [|discriminate].
    injection H as <-. constructor; [reflexivity | apply IH; reflexivity].
  - discriminate.
Qed.

Lemma entry_schema_accepts (item data : json) :
  safeParse entry_schema item = Some data ->
  in_unit_interval (get_number "relevance" data) = true.
Proof.
  unfold entry_schema, z.object, z.string.
  remember unit_number as U eqn:HU.
  destruct item as [| | | | |fields]; cbn; try discriminate.
  destruct (property "addressId" fields) as [a|]; [|discriminate].
  destruct a; try discriminate.
  destruct (property "relevance" fields) as [r|]; [|discriminate].
  destruct (safeParse U r) as [r'|] eqn:Er; [|discriminate].
  subst U. apply unit_number_accepts in Er. destruct Er as (x & -> & -> & Hx).
  intros H. injection H as <-. exact Hx.
Qed.

(** What [outputSchema] accepts has its numbers in range. *)
Lemma outputSchema_accepts (value data : json) :
  safeParse outputSchema value = Some data -> valid_numbers (generated_of data).
Proof.
  unfold outputSchema.
  change (z.max 1 (z.min 0 z.number)) with unit_number.
  change (z.object [("addressId", z.string); ("relevance", unit_number)])
    with entry_schema.
  unfold z.object at 1. unfold z.array, z.string.
  remember unit_number as U eqn:HU. remember entry_schema as E eqn:HE.
  destruct value as [| | | | |fields]; cbn; try discriminate.
  destruct (property "answer" fields) as [a|]; [|discriminate].
  destruct a; try discriminate.
  destruct (property "confidence" fields) as [c|]; [|discriminate].
  destruct (safeParse U c) as [c'|] eqn:Ec; [|discriminate].
  destruct (property "relevantAddresses" fields) as [r|]; [|discriminate].
  destruct r as [| | | |items|]; try discriminate.
  destruct (all_some (map (safeParse E) items)) as [items'|] eqn:Ei; [|discriminate].
  cbn. intros H. injection H as <-.
  subst U. apply unit_number_accepts in Ec. destruct Ec as (x & -> & -> & Hx).
  split; [exact Hx|].
  unfold generated_of. cbn [relevantAddresses].
  change (get_array "relevantAddresses" _) with items'.
  apply all_some_Forall2 in Ei. subst E.
  clear - Ei. revert items' Ei. induction items as [|item items IH]; intros items' H.
  - inversion H; subst. constructor.
  - inversion H as [|? ? ? ? Hhd Htl]; subst. cbn [map]. constructor.
    + cbn [relevance]. eapply entry_schema_accepts. exact Hhd.
    + apply IH. exact Htl.
Qed.

(** A number out of range in [confidence] makes [outputSchema] reject. *)
Lemma outputSchema_rejects_confidence (fields : list (string * json)) (x : float) :
  property "confidence" fields = Some (JNum x) ->
  in_unit_interval x = false ->
  safeParse outputSchema (JObj fields) = None.
Proof.
  intros Hc Hx.
  destruct (safeParse outputSchema (JObj fields)) as [data|] eqn:E; [|reflexivity].
  exfalso. revert E. unfold outputSchema.
  change (z.max 1 (z.min 0 z.number)) with unit_number.
  unfold z.object at 1. unfold z.string.
  remember unit_number as U eqn:HU.
  remember (z.array _) as R eqn:HR.
  cbn. destruct (property "answer" fields) as [a|]; [|discriminate].
  destruct a; try discriminate.
  rewrite Hc.
  destruct (safeParse U (JNum x)) as [c'|] eqn:Ec; [|discriminate].
  subst U. apply unit_number_accepts in Ec. destruct Ec as (y & Hy & _ & Hin).
  injection Hy as <-. congruence.
Qed.

Lemma entry_schema_rejects (fields : list (string * json)) (x : float) :
  property "relevance" fields = Some (JNum x) ->
  in_unit_interval x = false ->
  safeParse entry_schema (JObj fields) = None.
Proof.
  intros Hr Hx.
  destruct (safeParse entry_schema (JObj fields)) as [data|] eqn:E; [|reflexivity].
  exfalso. revert E. unfold entry_schema, z.object, z.string.
  remember unit_number as U eqn:HU. cbn.
  destruct (property "addressId" fields) as [a|]; [|discriminate].
  destruct a; try discriminate.
  rewrite Hr. destruct (safeParse U (JNum x)) as [r'|] eqn:Er; [|discriminate].
  subst U. apply unit_number_accepts in Er. destruct Er as (y & Hy & _ & Hin).
  injection Hy as <-. congruence.
Qed.

Lemma all_some_none (T : Type) (xs : list (option T)) :
  In None xs -> all_some xs = None.
Proof.
  induction xs as [|[x|] xs IH]; intros H; cbn.
  - destruct H.
  - destruct H as [H|H]; [discriminate|]. rewrite (IH H). reflexivity.
  - reflexivity.
Qed.

(** A number out of range in the [relevance] of an entry makes
    [outputSchema] reject. *)
Lemma outputSchema_rejects_relevance (fields entry : list (string * json))
    (items : list json) (x : float) :
  property "relevantAddresses" fields = Some (JArr items) ->
  In (JObj entry) items ->
  property "relevance" entry = Some (JNum x) ->
  in_unit_interval x = false ->
  safeParse outputSchema (JObj fields) = None.
Proof.
  intros Hitems Hin Hr Hx.
  unfold outputSchema.
  change (z.max 1 (z.min 0 z.number)) with unit_number.
  change (z.object [("addressId", z.string); ("relevance", unit_number)])
    with entry_schema.
  unfold z.object at 1. unfold z.array, z.string.
  remember unit_number as U eqn:HU. remember entry_schema as E eqn:HE.
  cbn. destruct (property "answer" fields) as [a|]; [|reflexivity].
  destruct a; try reflexivity.
  destruct (property "confidence" fields) as [c|]; [|reflexivity].
  destruct (safeParse U c) as [c'|]; [|reflexivity].
  rewrite Hitems.
  rewrite all_some_none; [reflexivity|].
  apply in_map_iff. exists (JObj entry). split; [|exact Hin].
  subst E. eapply entry_schema_rejects; eassumption.
Qed.

Section Generation.

Variable rt : Runtime.
Variable w : world.

Lemma parser_parse_run (text : string) (s : state) :
  parser_parse rt text s
  = (match parsed rt text with
     | Some g => Ok g
     | None => Throw "Failed to parse"
     end, s).
Proof.
  unfold parser_parse, parsed.
  destruct (completion_json rt text) as [value|]; [|reflexivity].
  destruct (safeParse outputSchema value); reflexivity.
Qed.

Lemma parsed_valid (text : string) (g : generated) :
  parsed rt text = Some g -> valid_numbers g.
Proof.
  unfold parsed. destruct (completion_json rt text) as [value|]; [|discriminate].
  destruct (safeParse outputSchema value) as [data|] eqn:E; [|discriminate].
  intros H. injection H as <-. eapply outputSchema_accepts. exact E.
Qed.

Lemma llmChain_invoke_run (context : string) (query : query_value) (s : state) :
  llmChain_invoke rt w context query s
  = match chat_invoke w (issued s (invoking context query)) context query with
    | Failure e => (Throw e, after w s (invoking context query))
    | Answer c1 =>
        match parsed rt c1 with
        | Some g => (Ok g, after w s (invoking context query))
        | None =>
            let s1 := after w s (invoking context query) in
            (match chat_repair w (issued s1 (repairing c1)) c1 "Failed to parse" with
             | Failure e => Throw e
             | Answer c2 =>
                 match parsed rt c2 with
                 | Some g => Ok g
                 | None => Throw "Failed to parse"
                 end
             end, after w s1 (repairing c1))
        end
    end.
Proof.
  unfold llmChain_invoke. unfold bind at 1. rewrite call_run.
  fold (invoking context query). fold (after w s (invoking context query)).
  destruct (chat_invoke w _ context query) as [c1|e]; [|reflexivity].
  unfold parserWithFix_parse, try_catch. rewrite parser_parse_run.
  destruct (parsed rt c1) as [g|]; [reflexivity|].
  unfold bind. rewrite call_run. fold (repairing c1).
  destruct (chat_repair w _ c1 "Failed to parse") as [c2|e]; [|reflexivity].
  rewrite parser_parse_run. unfold after.
  destruct (parsed rt c2); reflexivity.
Qed.

End Generation.

(** C3: the chain returns an object only with [confidence] and every
    [relevance] between 0 and 1; an output with such a number out of range is
    rejected by the schema; when the first output is rejected the model is
    asked for a repair exactly once, and the chain returns the repaired
    object if it is accepted and throws if it is not; an accepted first
    output is returned without a repair. *)
Theorem generation_validated_repaired_once (rt : Runtime) (w : world)
    (context : string) (query : query_value) (s : state) :
  (forall g s', llmChain_invoke rt w context query s = (Ok g, s') -> valid_numbers g) /\
  (forall fields x,
      property "confidence" fields = Some (JNum x) ->
      in_unit_interval x = false ->
      safeParse outputSchema (JObj fields) = None) /\
  (forall fields entry items x,
      property "relevantAddresses" fields = Some (JArr items) ->
      In (JObj entry) items ->
      property "relevance" entry = Some (JNum x) ->
      in_unit_interval x = false ->
      safeParse outputSchema (JObj fields) = None) /\
  (forall c1,
      chat_invoke w (issued s (invoking context query)) context query = Answer c1 ->
      parsed rt c1 = None ->
      let s1 := after w s (invoking context query) in
      log (snd (llmChain_invoke rt w context query s))
      = log s ++ [(now s, invoking context query); (now s1, repairing c1)] /\
      (forall c2,
          chat_repair w (issued s1 (repairing c1)) c1 "Failed to parse" = Answer c2 ->
          parsed rt c2 = None ->
          fst (llmChain_invoke rt w context query s) = Throw "Failed to parse") /\
      (forall c2 g,
          chat_repair w (issued s1 (repairing c1)) c1 "Failed to parse" = Answer c2 ->
          parsed rt c2 = Some g ->
          fst (llmChain_invoke rt w context query s) = Ok g)) /\
  (forall c1 g,
      chat_invoke w (issued s (invoking context query)) context query = Answer c1 ->
      parsed rt c1 = Some g ->
      llmChain_invoke rt w context query s = (Ok g, after w s (invoking context query))).
Proof.
  split; [|split; [|split; [|split]]].
  - intros g s'. rewrite llmChain_invoke_run.
    destruct (chat_invoke w _ context query) as [c1|e]; [|discriminate].
    destruct (parsed rt c1) as [g1|] eqn:E1.
    + intros H. injection H as <- _. eapply parsed_valid. exact E1.
    + cbv zeta.
      destruct (chat_repair w _ c1 "Failed to parse") as [c2|e]; [|discriminate].
      destruct (parsed rt c2) as [g2|] eqn:E2; [|discriminate].
      intros H. injection H as <- _. eapply parsed_valid. exact E2.
  - apply outputSchema_rejects_confidence.
  - apply outputSchema_rejects_relevance.
  - intros c1 H1 Hbad s1. rewrite llmChain_invoke_run, H1, Hbad. cbv zeta.
    fold s1. cbn [fst snd]. split; [|split].
    + unfold after, issued. cbn [log]. unfold s1, after, issued. cbn [log now].
      rewrite <- app_assoc. reflexivity.
    + intros c2 H2 Hbad2. rewrite H2, Hbad2. reflexivity.
    + intros c2 g H2 Hok. rewrite H2, Hok. reflexivity.
  - intros c1 g H1 Hok. rewrite llmChain_invoke_run, H1, Hok. reflexivity.
Qed.

(** Witness of C3: a model that answers with a confidence of 1.5, and does
    so again when asked to repair; one repair is attempted, and the chain
    throws. *)
Lemma generation_validated_repaired_once_witness :
  log (snd (llmChain_invoke Demo.runtime (Demo.deployment false false) "context"
              (QString "overconfident") Demo.start))
  = [(0%N, ChatInvoke "context" (QString "overconfident"));
     (120%N, ChatRepair "overconfident" "Failed to parse")] /\
  fst (llmChain_invoke Demo.runtime (Demo.deployment false false) "context"
         (QString "overconfident") Demo.start)
  = Throw "Failed to parse".
Proof.
  destruct (proj1 (proj2 (proj2 (proj2
              (generation_validated_repaired_once Demo.runtime
                 (Demo.deployment false false) "context" (QString "overconfident")
                 Demo.start))))
              "overconfident" eq_refl eq_refl) as (Hlog & Hfail & _).
  split; [exact Hlog | exact (Hfail "overconfident" eq_refl eq_refl)].
Defined.

(** The confidence 1.5 of that answer is out of range, and [queryLLM] turns
    the failure of the chain into a rejection with status 500. *)
Example overconfident_rejected :
  in_unit_interval 1.5%float = false /\
  safeParse outputSchema (Demo.naming 1.5%float ["1"%string]) = None /\
  fst (queryLLM Demo.runtime (Demo.deployment false false) (Demo.post "overconfident")
         Demo.start)
  = Ok (Rejected 500 "Failed to process query: Failed to parse").
Proof. vm_compute. repeat split; reflexivity. Qed.

(** ** The log only grows *)

Create HintDb grows.

Lemma grows_ret (T : Type) (a : T) : grows (ret a).
Proof. intros s. exists []. cbn. rewrite app_nil_r. reflexivity. Qed.

Lemma grows_throw (T : Type) (e : string) : grows (@throw T e).
Proof. intros s. exists []. cbn. rewrite app_nil_r. reflexivity. Qed.

Lemma grows_bind (T U : Type) (m : M T) (k : T -> M U) :
  grows m -> (forall a, grows (k a)) -> grows (bind m k).
Proof.
  intros Hm Hk s. unfold bind. destruct (Hm s) as (l1 & H1).
  destruct (m s) as [[a|e] s1]; cbn [snd] in *.
  - destruct (Hk a s1) as (l2 & H2). exists (l1 ++ l2).
    rewrite H2, H1, app_assoc. reflexivity.
  - exists l1. exact H1.
Qed.

Lemma grows_try_catch (T : Type) (body : M T) (handler : string -> M T) :
  grows body -> (forall e, grows (handler e)) -> grows (try_catch body handler).
Proof.
  intros Hm Hk s. unfold try_catch. destruct (Hm s) as (l1 & H1).
  destruct (body s) as [[a|e] s1]; cbn [snd] in *.
  - exists l1. exact H1.
  - destruct (Hk e s1) as (l2 & H2). exists (l1 ++ l2).
    rewrite H2, H1, app_assoc. reflexivity.
Qed.

Lemma grows_issue (w : world) (T : Type) (e : event) (oracle : history -> reply T) :
  grows (issue w e oracle).
Proof. intros s. exists [(now s, e)]. reflexivity. Qed.

Lemma grows_await (T : Type) (p : promise T) : grows (await p).
Proof. intros s. exists []. cbn. rewrite app_nil_r. reflexivity. Qed.

Lemma grows_call (w : world) (T : Type) (e : event) (oracle : history -> reply T) :
  grows (call w e oracle).
Proof.
  unfold call. apply grows_bind; [apply grows_issue | intros; apply grows_await].
Qed.

Lemma grows_reject (T : Type) (req : request) (code : N) (message : string) :
  grows (@reject T req code message).
Proof. destruct req; [apply grows_ret | apply grows_throw]. Qed.

Lemma grows_mapM (X Y : Type) (f : X -> M Y) (xs : list X) :
  (forall x, grows (f x)) -> grows (mapM f xs).
Proof.
  intros Hf. induction xs as [|x xs IH]; cbn [mapM].
  - apply grows_ret.
  - apply grows_bind; [apply Hf|]. intros y.
    apply grows_bind; [exact IH|]. intros ys. apply grows_ret.
Qed.

#[local] Hint Resolve grows_ret grows_throw grows_issue grows_await grows_call
  grows_reject : grows.

Ltac grows_step :=
  first [ apply grows_bind; [|intros ?]
        | apply grows_try_catch; [|intros ?]
        | apply grows_mapM; intros ?
        | solve [auto with grows] ].

Lemma grows_parser_parse (rt : Runtime) (text : string) : grows (parser_parse rt text).
Proof.
  unfold parser_parse. destruct (completion_json rt text) as [value|]; [|auto with grows].
  destruct (safeParse outputSchema value); auto with grows.
Qed.

#[local] Hint Resolve grows_parser_parse : grows.

Lemma grows_llmChain_invoke (rt : Runtime) (w : world) (context : string)
    (query : query_value) :
  grows (llmChain_invoke rt w context query).
Proof. unfold llmChain_invoke, parserWithFix_parse. repeat grows_step. Qed.

Lemma grows_geocodeAddress_settle (p : promise (list coords)) :
  grows (geocodeAddress_settle p).
Proof.
  unfold geocodeAddress_settle. repeat grows_step.
  match goal with a : list coords |- _ => destruct a end; auto with grows.
Qed.

Lemma grows_getRouteGeometry (w : world) (coordinates : list coords) :
  grows (getRouteGeometry w coordinates).
Proof.
  unfold getRouteGeometry. destruct (Nat.ltb _ 2); [auto with grows|].
  repeat grows_step.
  match goal with a : osrm_data |- _ => destruct (routes a) as [[|first rest]|] end;
    auto with grows.
Qed.

#[local] Hint Resolve grows_llmChain_invoke grows_getRouteGeometry : grows.

(** ** What a computation adds to the log *)

Lemma emits_ret (P : event -> bool) (T : Type) (a : T) : emits P (ret a).
Proof. intros s. exists []. rewrite app_nil_r. split; reflexivity. Qed.

Lemma emits_throw (P : event -> bool) (T : Type) (e : string) : emits P (@throw T e).
Proof. intros s. exists []. rewrite app_nil_r. split; reflexivity. Qed.

Lemma emits_bind (P : event -> bool) (T U : Type) (m : M T) (k : T -> M U) :
  emits P m -> (forall a, emits P (k a)) -> emits P (bind m k).
Proof.
  intros Hm Hk s. unfold bind. destruct (Hm s) as (new1 & H1 & P1).
  destruct (m s) as [[a|e] s1]; cbn [snd] in *.
  - destruct (Hk a s1) as (new2 & H2 & P2). exists (new1 ++ new2). split.
    + rewrite H2, H1, app_assoc. reflexivity.
    + unfold events in *. rewrite map_app, forallb_app, P1, P2. reflexivity.
  - exists new1. split; assumption.
Qed.

Lemma emits_try_catch (P : event -> bool) (T : Type) (body : M T)
    (handler : string -> M T) :
  emits P body -> (forall e, emits P (handler e)) -> emits P (try_catch body handler).
Proof.
  intros Hb Hh s. unfold try_catch. destruct (Hb s) as (new1 & H1 & P1).
  destruct (body s) as [[a|e] s1]; cbn [snd] in *.
  - exists new1. split; assumption.
  - destruct (Hh e s1) as (new2 & H2 & P2). exists (new1 ++ new2). split.
    + rewrite H2, H1, app_assoc. reflexivity.
    + unfold events in *. rewrite map_app, forallb_app, P1, P2. reflexivity.
Qed.

Lemma emits_call (P : event -> bool) (w : world) (T : Type) (e : event)
    (oracle : history -> reply T) :
  P e = true -> emits P (call w e oracle).
Proof.
  intros He s. rewrite call_run. exists [(now s, e)]. split; [reflexivity|].
  cbn. rewrite He. reflexivity.
Qed.

Lemma emits_reject (P : event -> bool) (T : Type) (req : request) (code : N)
    (message : string) :
  emits P (@reject T req code message).
Proof. destruct req; [apply emits_ret | apply emits_throw]. Qed.

Lemma emits_parser_parse (P : event -> bool) (rt : Runtime) (text : string) :
  emits P (parser_parse rt text).
Proof.
  unfold parser_parse. destruct (completion_json rt text); [|apply emits_throw].
  destruct (safeParse outputSchema _); [apply emits_ret | apply emits_throw].
Qed.

Lemma emits_llmChain_invoke (P : event -> bool) (rt : Runtime) (w : world)
    (context : string) (query : query_value) :
  (forall e, is_chat e = true -> P e = true) ->
  emits P (llmChain_invoke rt w context query).
Proof.
  intros HP. unfold llmChain_invoke, parserWithFix_parse.
  apply emits_bind; [apply emits_call, HP; reflexivity|]. intros completion.
  apply emits_try_catch; [apply emits_parser_parse|]. intros e.
  apply emits_bind; [apply emits_call, HP; reflexivity|]. intros repaired.
  apply emits_parser_parse.
Qed.

Lemma emits_grows (P : event -> bool) (T : Type) (m : M T) : emits P m -> grows m.
Proof. intros H s. destruct (H s) as (new & Hlog & _). exists new. exact Hlog. Qed.

Lemma emits_issue (P : event -> bool) (w : world) (T : Type) (e : event)
    (oracle : history -> reply T) :
  P e = true -> emits P (issue w e oracle).
Proof.
  intros He s. exists [(now s, e)]. split; [reflexivity|]. cbn. rewrite He. reflexivity.
Qed.

Lemma emits_await (P : event -> bool) (T : Type) (p : promise T) : emits P (await p).
Proof. intros s. exists []. cbn. rewrite app_nil_r. split; reflexivity. Qed.

Lemma emits_mapM (P : event -> bool) (X Y : Type) (f : X -> M Y) (xs : list X) :
  (forall x, emits P (f x)) -> emits P (mapM f xs).
Proof.
  intros Hf. induction xs as [|x xs IH]; cbn [mapM].
  - apply emits_ret.
  - apply emits_bind; [apply Hf|]. intros y.
    apply emits_bind; [exact IH|]. intros ys. apply emits_ret.
Qed.

Lemma emits_encodeURIComponent_call (P : event -> bool) (text : string) :
  emits P (encodeURIComponent_call text).
Proof.
  unfold encodeURIComponent_call.
  destruct (isWellFormed text); [apply emits_ret | apply emits_throw].
Qed.

Lemma emits_mapsUrl_block (P : event -> bool) (addresses : list string) :
  emits P (mapsUrl_block addresses).
Proof.
  unfold mapsUrl_block. destruct addresses as [|first rest]; [apply emits_ret|].
  apply emits_bind; [apply emits_encodeURIComponent_call|]. intros origin.
  apply emits_bind; [apply emits_encodeURIComponent_call|]. intros destination.
  apply emits_bind; [apply emits_mapM; intros; apply emits_encodeURIComponent_call|].
  intros stops. apply emits_ret.
Qed.

Lemma emits_geocodeAddress_settle (P : event -> bool) (p : promise (list coords)) :
  emits P (geocodeAddress_settle p).
Proof.
  unfold geocodeAddress_settle.
  apply emits_try_catch; [|intros; apply emits_ret].
  apply emits_bind; [apply emits_await|]. intros [|first rest]; apply emits_ret.
Qed.

Lemma emits_geocodeAddress_fetch (P : event -> bool) (w : world) (address : string) :
  (forall e, is_geocoding e = true -> P e = true) ->
  emits P (geocodeAddress_fetch w address).
Proof.
  intros HP. unfold geocodeAddress_fetch.
  apply emits_bind; [apply emits_encodeURIComponent_call|]. intros query.
  apply emits_issue, HP. reflexivity.
Qed.

Lemma emits_locate_start (P : event -> bool) (w : world) (addresses : list client)
    (relAddr : relevant) :
  (forall e, is_geocoding e = true -> P e = true) ->
  emits P (locate_start w addresses relAddr).
Proof.
  intros HP. unfold locate_start.
  destruct (find_address addresses relAddr) as [addr|]; [|apply emits_ret].
  destruct (_ || _); [|apply emits_ret].
  apply emits_bind; [apply emits_geocodeAddress_fetch, HP|]. intros p. apply emits_ret.
Qed.

Lemma emits_locate_resume (P : event -> bool) (w : world) (l : located) :
  (forall e, is_writing e = true -> P e = true) ->
  emits P (locate_resume w l).
Proof.
  intros HP. destruct l as [addr p|addr found p]; cbn [locate_resume].
  - apply emits_bind; [apply emits_geocodeAddress_settle|]. intros [found|].
    + apply emits_bind; [apply emits_issue, HP; reflexivity|]. intros p'. apply emits_ret.
    + apply emits_ret.
  - apply emits_bind; [apply emits_await|]. intros []. apply emits_ret.
Qed.

Lemma emits_getRouteGeometry (P : event -> bool) (w : world) (coordinates : list coords) :
  (forall e, is_routing e = true -> P e = true) ->
  emits P (getRouteGeometry w coordinates).
Proof.
  intros HP. unfold getRouteGeometry. destruct (Nat.ltb _ 2); [apply emits_ret|].
  apply emits_try_catch; [|intros; apply emits_ret].
  apply emits_bind; [apply emits_call, HP; reflexivity|]. intros data.
  destruct (routes data) as [[|first rest]|]; apply emits_ret.
Qed.

(** ** Callbacks side by side *)

Lemma bind_Ok (T U : Type) (m : M T) (k : T -> M U) (s s' : state) (b : U) :
  bind m k s = (Ok b, s') ->
  exists a s1, m s = (Ok a, s1) /\ k a s1 = (Ok b, s').
Proof.
  unfold bind. destruct (m s) as [[a|e] s1]; [|discriminate].
  intros H. exists a, s1. split; [reflexivity | exact H].
Qed.

Lemma Forall2_replace_nth (A B : Type) (R : A -> B -> Prop) (i : nat) (old new : A)
    (xs : list A) (ys : list B) :
  nth_error xs i = Some old ->
  (forall y, R new y -> R old y) ->
  Forall2 R (replace_nth i new xs) ys -> Forall2 R xs ys.
Proof.
  intros Hnth Hstep. revert i ys Hnth.
  induction xs as [|x xs IH]; intros [|i] ys Hnth H; cbn in Hnth; try discriminate.
  - injection Hnth as ->. cbn [replace_nth] in H.
    inversion H as [|? y ? ys' Hy Hrest]; subst. constructor; [apply Hstep, Hy | exact Hrest].
  - cbn [replace_nth] in H.
    inversion H as [|? y ? ys' Hy Hrest]; subst. constructor; [exact Hy|].
    eapply IH; eassumption.
Qed.

Section CallbackLaws.

Variables X W Y : Type.
Variable start : X -> M (Y + W).
Variable settles : W -> N.
Variable resume : W -> M (Y + W).

Lemma stretch_run (m : M (Y + W)) (s : state) :
  stretch m s
  = (Ok match fst (m s) with
        | Ok (inl value) => Returns value
        | Ok (inr promised) => Waits promised
        | Throw e => Throws e (now (snd (m s)))
        end, snd (m s)).
Proof. unfold stretch. destruct (m s) as [[[value|promised]|e] s']; reflexivity. Qed.

Lemma emits_stretch (P : event -> bool) (m : M (Y + W)) : emits P m -> emits P (stretch m).
Proof.
  intros H s. rewrite stretch_run. cbn [snd]. apply H.
Qed.

Lemma earliest_waits (cbs : list (callback W Y)) (i : nat) (promised : W) :
  earliest settles cbs = Some (i, promised) -> nth_error cbs i = Some (Waits promised).
Proof.
  revert i promised. induction cbs as [|cb rest IH]; intros i promised H;
    cbn [earliest] in H; [discriminate|].
  destruct (earliest settles rest) as [[j other]|]; cbn [option_map fst snd] in H.
  - specialize (IH j other eq_refl).
    destruct cb as [value|e t|mine].
    + injection H as <- <-. exact IH.
    + injection H as <- <-. exact IH.
    + destruct (N.ltb (settles other) (settles mine)); injection H as <- <-;
        [exact IH | reflexivity].
  - destruct cb as [value|e t|mine]; try discriminate.
    injection H as <- <-. reflexivity.
Qed.

Lemma earliest_none (cbs : list (callback W Y)) :
  earliest settles cbs = None -> forallb (@settled W Y) cbs = true.
Proof.
  induction cbs as [|cb rest IH]; [reflexivity|]. cbn [earliest forallb].
  destruct (earliest settles rest) as [[j other]|]; cbn [option_map].
  - destruct cb as [value|e t|mine]; try discriminate.
    destruct (N.ltb _ _); discriminate.
  - destruct cb as [value|e t|mine]; try discriminate; intros _; apply IH; reflexivity.
Qed.

(** The loop always comes back, and what it comes back with is what the
    callbacks have become. *)
Lemma event_loop_reaches (fuel : nat) (cbs : list (callback W Y)) (s : state) :
  exists final,
    event_loop settles resume fuel cbs s
    = (Ok final, snd (event_loop settles resume fuel cbs s)) /\
    Forall2 (reaches resume) cbs final.
Proof.
  revert cbs s. induction fuel as [|fuel IH]; intros cbs s; cbn [event_loop].
  - exists cbs. split; [reflexivity|].
    induction cbs; constructor; [apply reaches_here | assumption].
  - destruct (earliest settles cbs) as [[i promised]|] eqn:E.
    + unfold bind. rewrite stretch_run.
      set (cb := match fst (resume promised s) with
                 | Ok (inl value) => Returns value
                 | Ok (inr other) => Waits other
                 | Throw e => Throws e (now (snd (resume promised s)))
                 end).
      destruct (IH (replace_nth i cb cbs) (snd (resume promised s))) as (final & Hrun & Hall).
      exists final. split; [exact Hrun|].
      eapply Forall2_replace_nth; [apply earliest_waits, E | | exact Hall].
      intros y Hy. eapply reaches_on; [|exact Hy].
      rewrite stretch_run. reflexivity.
    + exists cbs. split; [reflexivity|].
      clear. induction cbs; constructor; [apply reaches_here | assumption].
Qed.

Lemma emits_event_loop (P : event -> bool) (fuel : nat) (cbs : list (callback W Y)) :
  (forall promised, emits P (resume promised)) ->
  emits P (event_loop settles resume fuel cbs).
Proof.
  intros Hresume. revert cbs. induction fuel as [|fuel IH]; intros cbs; cbn [event_loop].
  - apply emits_ret.
  - destruct (earliest settles cbs) as [[i promised]|]; [|apply emits_ret].
    apply emits_bind; [apply emits_stretch, Hresume|]. intros cb. apply IH.
Qed.

Lemma emits_Promise_all_map (P : event -> bool) (awaits : nat) (xs : list X) :
  (forall x, emits P (start x)) ->
  (forall promised, emits P (resume promised)) ->
  emits P (Promise_all_map start settles resume awaits xs).
Proof.
  intros Hstart Hresume. unfold Promise_all_map.
  apply emits_bind; [apply emits_mapM; intros; apply emits_stretch, Hstart|]. intros started.
  apply emits_bind; [apply emits_event_loop, Hresume|]. intros final.
  destruct (first_rejection final) as [[e t]|]; [|apply emits_ret].
  intros s. exists []. cbn. rewrite app_nil_r. split; reflexivity.
Qed.

(** *** The loop ends with no callback waiting *)

Variable stage : W -> nat.

Hypothesis stage_positive : forall promised, (0 < stage promised)%nat.

Hypothesis stage_falls :
  forall promised s other s',
    resume promised s = (Ok (inr other), s') -> (stage other < stage promised)%nat.

Lemma stages_replace_nth (i : nat) (old new : callback W Y) (cbs : list (callback W Y)) :
  nth_error cbs i = Some old ->
  (stages stage (replace_nth i new cbs) + stage_of stage old
   = stages stage cbs + stage_of stage new)%nat.
Proof.
  revert i. unfold stages.
  induction cbs as [|cb rest IH]; intros [|i] H; cbn in H; try discriminate.
  - injection H as ->. cbn [replace_nth map list_sum fold_right]. lia.
  - cbn [replace_nth map list_sum fold_right]. specialize (IH i H).
    change (fold_right Nat.add 0%nat ?l) with (list_sum l) in *. lia.
Qed.

Lemma event_loop_settles (fuel : nat) (cbs : list (callback W Y)) (s : state)
    (final : list (callback W Y)) (s' : state) :
  (stages stage cbs <= fuel)%nat ->
  event_loop settles resume fuel cbs s = (Ok final, s') ->
  forallb (@settled W Y) final = true.
Proof.
  revert cbs s. induction fuel as [|fuel IH]; intros cbs s Hfuel H; cbn [event_loop] in H.
  - injection H as <- _.
    assert (Hz : stages stage cbs = 0%nat) by lia. clear - Hz stage_positive.
    induction cbs as [|cb rest IHc]; [reflexivity|].
    unfold stages in *. cbn [map list_sum fold_right] in Hz.
    change (fold_right Nat.add 0%nat ?l) with (list_sum l) in Hz.
    destruct cb as [value|e t|promised]; cbn [stage_of forallb settled andb] in *;
      try (apply IHc; lia).
    pose proof (stage_positive promised). lia.
  - destruct (earliest settles cbs) as [[i promised]|] eqn:E.
    + apply bind_Ok in H. destruct H as (cb & s1 & Hcb & H).
      eapply IH; [|exact H].
      apply earliest_waits in E.
      pose proof (@stages_replace_nth i _ cb _ E) as Hs. cbn [stage_of] in Hs.
      assert (Hcb' : (stage_of stage cb < stage promised)%nat).
      { rewrite stretch_run in Hcb. injection Hcb as <- _.
        destruct (resume promised s) as [[[value|other]|e] s2] eqn:Er; cbn [fst stage_of].
        - apply stage_positive.
        - eapply stage_falls. exact Er.
        - apply stage_positive. }
      lia.
    + injection H as <- _. apply earliest_none, E.
Qed.

End CallbackLaws.

(** ** The maps link *)

Local Open Scope string_scope.

Lemma append_assoc (a b c : string) : (a ++ b) ++ c = a ++ (b ++ c).
Proof. induction a as [|ch a IH]; cbn; [reflexivity | rewrite IH; reflexivity]. Qed.

Lemma append_nil_r (a : string) : a ++ "" = a.
Proof. induction a as [|ch a IH]; cbn; [reflexivity | rewrite IH; reflexivity]. Qed.



Lemma truthy_string_nonempty (a : string) : a <> "" -> truthy_string a = true.
Proof.
  intros H. unfold truthy_string. apply negb_true_iff.
  apply String.eqb_neq. exact H.
Qed.








(** *** The parameters of the link *)

Lemma absent_cons (c x : ascii) (s : string) :
  absent c (String x s) = negb (Ascii.eqb x c) && absent c s.
Proof. reflexivity. Qed.

Lemma absent_app (c : ascii) (a b : string) :
  absent c (a ++ b) = absent c a && absent c b.
Proof.
  induction a as [|x a IH]; [reflexivity|].
  cbn [append]. rewrite !absent_cons, IH, andb_assoc. reflexivity.
Qed.

Lemma split_on_absent (sep : ascii) (a : string) :
  absent sep a = true -> split_on sep a = [a].
Proof.
  induction a as [|x a IH]; [reflexivity|].
  rewrite absent_cons. intros H. apply andb_true_iff in H. destruct H as [Hx Ha].
  cbn [split_on]. apply negb_true_iff in Hx. rewrite Hx, (IH Ha). reflexivity.
Qed.

Lemma split_on_app (sep : ascii) (a b : string) :
  absent sep a = true -> split_on sep (a ++ String sep b) = a :: split_on sep b.
Proof.
  induction a as [|x a IH]; intros H.
  - cbn [append split_on]. rewrite Ascii.eqb_refl. reflexivity.
  - rewrite absent_cons in H. apply andb_true_iff in H. destruct H as [Hx Ha].
    cbn [append split_on]. apply negb_true_iff in Hx. rewrite Hx, (IH Ha). reflexivity.
Qed.

Lemma hex_digit_unreserved (n : nat) : (n < 16)%nat -> unreserved (hex_digit n) = true.
Proof.
  intros H. do 16 (destruct n as [|n]; [reflexivity|]). lia.
Qed.

Lemma unreserved_differs (c sep : ascii) :
  unreserved c = true -> unreserved sep = false -> Ascii.eqb c sep = false.
Proof.
  intros Hc Hsep. destruct (Ascii.eqb c sep) eqn:E; [|reflexivity].
  apply Ascii.eqb_eq in E. congruence.
Qed.

(** [encodeURIComponent] puts out unreserved characters and percent signs
    only. *)
Lemma encodeURIComponent_absent (sep : ascii) (a : string) :
  unreserved sep = false -> Ascii.eqb (ascii_of_nat 37) sep = false ->
  absent sep (encodeURIComponent a) = true.
Proof.
  intros Hsep Hpct. unfold absent, encodeURIComponent.
  rewrite list_ascii_of_string_of_list_ascii.
  induction (list_ascii_of_string a) as [|c cs IH]; [reflexivity|].
  cbn [flat_map]. rewrite forallb_app, IH, andb_true_r.
  destruct (unreserved c) eqn:Ec.
  - cbn [forallb]. rewrite (unreserved_differs c sep Ec Hsep). reflexivity.
  - unfold percent_encode. cbn [forallb]. rewrite Hpct.
    rewrite !unreserved_differs; try assumption; try reflexivity.
    + apply hex_digit_unreserved. apply Nat.mod_upper_bound. discriminate.
    + apply hex_digit_unreserved.
      apply Nat.Div0.div_lt_upper_bound.
      pose proof (nat_ascii_bounded c). lia.
Qed.


Lemma split_join (bar : ascii) (parts : list string) :
  parts <> [] ->
  Forall (fun part => absent bar part = true) parts ->
  split_on bar (join (String bar "") parts) = parts.
Proof.
  intros Hne Hall. induction Hall as [|part rest Hpart Hrest IH]; [contradiction|].
  destruct rest as [|next rest].
  - cbn [join]. apply split_on_absent, Hpart.
  - change (join (String bar "") (part :: next :: rest))
      with (part ++ String bar (join (String bar "") (next :: rest))).
    rewrite split_on_app by exact Hpart. rewrite IH by discriminate. reflexivity.
Qed.


Local Open Scope list_scope.

(** ** The pipeline of [queryLLM] *)

Lemma state_eta (s : state) : {| now := now s; log := log s |} = s.
Proof. destruct s. reflexivity. Qed.

Lemma forallb_last_removelast (T : Type) (P : T -> bool) (y : T) (ys : list T) (d : T) :
  forallb P (y :: ys) = P (last (y :: ys) d) && forallb P (removelast (y :: ys)).
Proof.
  revert y. induction ys as [|z ys IH]; intros y.
  - cbn. destruct (P y); reflexivity.
  - specialize (IH z). cbn [forallb] in IH |- *.
    change (last (y :: z :: ys) d) with (last (z :: ys) d).
    change (removelast (y :: z :: ys)) with (y :: removelast (z :: ys)).
    cbn [forallb]. rewrite IH.
    destruct (P y), (P (last (z :: ys) d)); reflexivity.
Qed.

Lemma forallb_removelast_last (T : Type) (P : T -> bool) (first : T) (rest : list T) :
  forallb P (first :: rest)
  = P first && P (last (first :: rest) first) && forallb P (removelast rest).
Proof.
  destruct rest as [|x rest].
  - cbn. destruct (P first); reflexivity.
  - change (last (first :: x :: rest) first) with (last (x :: rest) first).
    cbn [forallb]. pose proof (forallb_last_removelast P x rest first) as H.
    cbn [forallb] in H. rewrite H. destruct (P first); reflexivity.
Qed.

Lemma bind_encodeURIComponent_call (T : Type) (text : string) (k : string -> M T)
    (s : state) :
  bind (encodeURIComponent_call text) k s
  = if isWellFormed text then k (encodeURIComponent text) s
    else (Throw "URI malformed", s).
Proof. unfold bind, encodeURIComponent_call. destruct (isWellFormed text); reflexivity. Qed.

Lemma mapM_encodeURIComponent_call (texts : list string) (s : state) :
  mapM encodeURIComponent_call texts s
  = if forallb isWellFormed texts then (Ok (map encodeURIComponent texts), s)
    else (Throw "URI malformed", s).
Proof.
  induction texts as [|text texts IH]; [reflexivity|].
  cbn [mapM forallb map]. rewrite bind_encodeURIComponent_call.
  destruct (isWellFormed text); cbn [andb]; [|reflexivity].
  unfold bind. rewrite IH.
  destruct (forallb isWellFormed texts); reflexivity.
Qed.

(** The link block throws when an address cannot be encoded, and otherwise
    leaves the link of the addresses; it calls nothing. *)
Lemma mapsUrl_block_run (addresses : list string) (s : state) :
  (forallb isWellFormed addresses = true /\
   exists link,
     mapsUrl_block addresses s = (Ok link, s) /\
     mapsUrl_or_text link = mapsUrl_of addresses) \/
  (forallb isWellFormed addresses = false /\
   mapsUrl_block addresses s = (Throw "URI malformed", s)).
Proof.
  destruct addresses as [|first rest].
  - left. split; [reflexivity|]. exists ""%string. split; reflexivity.
  - rewrite forallb_removelast_last. unfold mapsUrl_block.
    change (slice_1_m1 (first :: rest)) with (removelast rest).
    rewrite bind_encodeURIComponent_call.
    destruct (isWellFormed first); cbn [andb]; [|right; split; reflexivity].
    rewrite bind_encodeURIComponent_call.
    destruct (isWellFormed (last (first :: rest) first)); cbn [andb];
      [|right; split; reflexivity].
    unfold bind. rewrite mapM_encodeURIComponent_call.
    destruct (forallb isWellFormed (removelast rest)); [|right; split; reflexivity].
    left. split; [reflexivity|]. eexists. split; [reflexivity|]. reflexivity.
Qed.

Lemma named_clients_cons (addresses : list client) (relAddr : relevant)
    (entries : list relevant) :
  named_clients addresses (relAddr :: entries)
  = named_clients addresses [relAddr] ++ named_clients addresses entries.
Proof.
  unfold named_clients. cbn [map MapsLink.notNull].
  destruct (find_address addresses relAddr); reflexivity.
Qed.

Lemma geocodeAddress_settle_run (p : promise (list coords)) (s : state) :
  geocodeAddress_settle p s
  = (Ok (first_match (settles_with p)),
     {| now := N.max (now s) (settles_at p); log := log s |}).
Proof.
  unfold geocodeAddress_settle, try_catch, bind, await, first_match.
  destruct (settles_with p) as [[|first rest]|e]; reflexivity.
Qed.

Lemma first_rejection_none (W Y : Type) (cbs : list (callback W Y)) :
  first_rejection cbs = None -> Forall (fun cb => forall e t, cb <> Throws e t) cbs.
Proof.
  induction cbs as [|cb rest IH]; [constructor|]. cbn [first_rejection].
  destruct cb as [value|e t|promised].
  - intros H. constructor; [discriminate | apply IH, H].
  - destruct (first_rejection rest) as [[e' t']|]; [destruct (N.ltb t' t)|]; discriminate.
  - intros H. constructor; [discriminate | apply IH, H].
Qed.

(** Callbacks of which none waits and none has thrown have all returned. *)
Lemma fulfilled_all (W Y : Type) (cbs : list (callback W Y)) :
  forallb (@settled W Y) cbs = true -> first_rejection cbs = None ->
  Forall2 (@returned W Y) cbs (fulfilled cbs).
Proof.
  induction cbs as [|cb rest IH]; [constructor|].
  cbn [forallb first_rejection fulfilled].
  destruct cb as [value|e t|promised]; cbn [settled andb].
  - intros Hs Hr. constructor; [reflexivity | apply IH; assumption].
  - destruct (first_rejection rest) as [[e' t']|]; [destruct (N.ltb t' t)|]; discriminate.
  - discriminate.
Qed.

Section Pipeline.

Variable rt : Runtime.
Variable w : world.

Lemma queryLLM_unfold (req : request) :
  queryLLM rt w req
  = if falsy_query (query_of req) then reject req 400 "query is required"
    else try_catch (pipeline rt w (query_of req))
           (fun e => reject req 500 ("Failed to process query: " ++ e)%string).
Proof. reflexivity. Qed.

(** *** The callbacks up to their first [await] *)

Lemma locate_start_run (addresses : list client) (relAddr : relevant) (s : state) :
  exists cb,
    stretch (locate_start w addresses relAddr) s
    = (Ok cb, {| now := now s;
                 log := log s ++ map (fun c => (now s, geocoding c))
                                   (filter sendable (named_clients addresses [relAddr])) |}) /\
    started_for addresses (now s) relAddr cb.
Proof.
  rewrite stretch_run.
  unfold locate_start, started_for, named_clients, sendable, lacks_coordinates.
  cbn [map MapsLink.notNull].
  destruct (find_address addresses relAddr) as [addr|]; cbn [MapsLink.notNull filter].
  - destruct (_ || _) eqn:E; cbn [map andb].
    + unfold bind. rewrite geocodeAddress_fetch_run.
      destruct (isWellFormed (fullAddress addr)); cbn [fst snd ret filter map].
      * eexists. split; [reflexivity|]. eexists. reflexivity.
      * eexists. rewrite app_nil_r, state_eta. split; reflexivity.
    + eexists. cbn [fst snd ret]. rewrite app_nil_r, state_eta. split; reflexivity.
  - eexists. cbn [fst snd ret]. rewrite app_nil_r, state_eta. split; reflexivity.
Qed.

Lemma mapM_locate_start (addresses : list client) (entries : list relevant) (s : state) :
  exists started,
    mapM (fun relAddr => stretch (locate_start w addresses relAddr)) entries s
    = (Ok started,
       {| now := now s;
          log := log s ++ map (fun c => (now s, geocoding c))
                            (filter sendable (named_clients addresses entries)) |}) /\
    Forall2 (started_for addresses (now s)) entries started.
Proof.
  revert s. induction entries as [|relAddr entries IH]; intros s.
  - exists []. cbn. rewrite app_nil_r, state_eta. split; [reflexivity|constructor].
  - destruct (locate_start_run addresses relAddr s) as (cb & Hcb & Hrel).
    destruct (IH {| now := now s;
                    log := log s ++ map (fun c => (now s, geocoding c))
                                      (filter sendable
                                         (named_clients addresses [relAddr])) |})
      as (started & Hstarted & Hall).
    exists (cb :: started). split; [|constructor; assumption].
    cbn [now log] in Hstarted.
    cbn [mapM]. unfold bind. rewrite Hcb, Hstarted. cbn [ret now log].
    rewrite (named_clients_cons addresses relAddr entries), filter_app, map_app, app_assoc.
    reflexivity.
Qed.

(** *** The callbacks after their first [await] *)

Lemma reaches_returns (cb final : callback located (option waypoint))
    (entry : option waypoint) :
  reaches (locate_resume w) cb final -> cb = Returns entry -> final = Returns entry.
Proof. intros H. destruct H; [auto | discriminate]. Qed.

Lemma reaches_throws (cb final : callback located (option waypoint)) (e : string) (t : N) :
  reaches (locate_resume w) cb final -> cb = Throws e t -> final = Throws e t.
Proof. intros H. destruct H; [auto | discriminate]. Qed.

Lemma reaches_writing (addr : client) (found : coords) (p : promise unit)
    (entry : option waypoint) :
  reaches (locate_resume w) (Waits (Writing addr found p)) (Returns entry) ->
  entry = Some {| id := ID addr; companyName := CompanyName addr;
                  address := fullAddress addr;
                  latitude := Some (lat found);
                  longitude := Some (lon found) |}.
Proof.
  intros H. inversion H as [|? s s' cb ? Hstep Hrest]; subst.
  rewrite stretch_run in Hstep. cbn [locate_resume] in Hstep.
  unfold bind, await in Hstep. cbn [fst snd] in Hstep.
  destruct (settles_with p) as [[]|e]; cbn [fst snd ret] in Hstep; injection Hstep as <- _.
  - pose proof (reaches_returns Hrest eq_refl) as Hr. injection Hr as ->. reflexivity.
  - pose proof (reaches_throws Hrest eq_refl) as Hr. discriminate.
Qed.

Lemma reaches_geocoding (addr : client) (p : promise (list coords))
    (entry : option waypoint) :
  reaches (locate_resume w) (Waits (Geocoding addr p)) (Returns entry) ->
  exists wp, entry = Some wp /\ waypoint_of addr wp.
Proof.
  intros H. inversion H as [|? s s' cb ? Hstep Hrest]; subst.
  rewrite stretch_run in Hstep. cbn [locate_resume] in Hstep.
  unfold bind in Hstep. rewrite geocodeAddress_settle_run in Hstep.
  destruct (first_match (settles_with p)) as [found|];
    cbn [fst snd ret issue] in Hstep; injection Hstep as <- _.
  - apply reaches_writing in Hrest. subst entry. eexists. split; [reflexivity|].
    repeat split.
  - pose proof (reaches_returns Hrest eq_refl) as Hr. injection Hr as ->.
    eexists. split; [reflexivity|]. repeat split.
Qed.

Lemma resolves_of (addresses : list client) (t : N) (relAddr : relevant)
    (cb final : callback located (option waypoint)) (entry : option waypoint) :
  started_for addresses t relAddr cb ->
  reaches (locate_resume w) cb final ->
  returned final entry ->
  resolves addresses relAddr entry /\
  (forall addr, find_address addresses relAddr = Some addr ->
                lacks_coordinates addr = true -> isWellFormed (fullAddress addr) = true).
Proof.
  unfold started_for, resolves, returned. intros Hstart Hreach ->.
  destruct (find_address addresses relAddr) as [addr|].
  - destruct (lacks_coordinates addr) eqn:E.
    + destruct (isWellFormed (fullAddress addr)) eqn:Ewf.
      * destruct Hstart as (p & ->). apply reaches_geocoding in Hreach.
        destruct Hreach as (wp & -> & Hwp). split.
        -- exists wp. repeat split; try apply Hwp; discriminate.
        -- intros a Ha _. injection Ha as <-. exact Ewf.
      * pose proof (reaches_throws Hreach Hstart) as Hr. discriminate.
    + pose proof (reaches_returns Hreach Hstart) as Hr.
      injection Hr as ->. split.
      * eexists. split; [reflexivity|]. repeat split.
      * intros a Ha Hl. injection Ha as <-. congruence.
  - pose proof (reaches_returns Hreach Hstart) as Hr.
    injection Hr as ->. split; [reflexivity | discriminate].
Qed.

Lemma resolves_all (addresses : list client) (t : N) (entries : list relevant)
    (started final : list (callback located (option waypoint)))
    (ordered : list (option waypoint)) :
  Forall2 (started_for addresses t) entries started ->
  Forall2 (reaches (locate_resume w)) started final ->
  Forall2 (@returned located (option waypoint)) final ordered ->
  Forall2 (resolves addresses) entries ordered /\
  filter sendable (named_clients addresses entries)
  = filter lacks_coordinates (named_clients addresses entries).
Proof.
  intros Hs. revert final ordered.
  induction Hs as [|relAddr cb entries started Hcb _ IH]; intros final ordered Hr Hf.
  - inversion Hr; subst. inversion Hf; subst. split; [constructor | reflexivity].
  - inversion Hr as [|? c' ? final' Hc' Hr']; subst.
    inversion Hf as [|? entry ? ordered' He Hf']; subst.
    destruct (IH _ _ Hr' Hf') as [Hall Hfilter].
    destruct (@resolves_of addresses t relAddr cb c' entry Hcb Hc' He) as [Hres Hwf].
    split; [constructor; assumption|].
    rewrite (named_clients_cons addresses relAddr entries), !filter_app, Hfilter.
    f_equal. unfold named_clients. cbn [map MapsLink.notNull].
    destruct (find_address addresses relAddr) as [addr|]; [|reflexivity].
    cbn [MapsLink.notNull filter]. unfold sendable.
    destruct (lacks_coordinates addr) eqn:El; [|reflexivity].
    rewrite (Hwf addr eq_refl El). reflexivity.
Qed.

Lemma locate_stage_falls (promised : located) (s : state) (other : located) (s' : state) :
  locate_resume w promised s = (Ok (inr other), s') ->
  (locate_stage other < locate_stage promised)%nat.
Proof.
  destruct promised as [addr p|addr found p]; cbn [locate_resume].
  - unfold bind. rewrite geocodeAddress_settle_run.
    destruct (first_match (settles_with p)) as [found|]; [|discriminate].
    cbn [issue ret]. intros H. injection H as <- _. cbn. lia.
  - unfold bind, await. destruct (settles_with p) as [[]|e]; discriminate.
Qed.

Lemma started_stages (addresses : list client) (t : N) (entries : list relevant)
    (started : list (callback located (option waypoint))) :
  Forall2 (started_for addresses t) entries started ->
  (stages locate_stage started <= 2 * List.length entries)%nat.
Proof.
  unfold stages. induction 1 as [|relAddr cb entries started Hcb _ IH];
    cbn [map list_sum fold_right List.length]; [lia|].
  change (fold_right Nat.add 0%nat ?l) with (list_sum l).
  assert (Hc : (stage_of locate_stage cb <= 2)%nat).
  { destruct cb as [value|e t'|[addr p|addr found p]]; cbn; lia. }
  lia.
Qed.

(** [Promise.all] over the callbacks, when it fulfils: every entry has been
    resolved, a request went to Nominatim for each row that lacks a
    coordinate, all at one time, and what was called after that are writes. *)
Lemma Promise_all_locate (addresses : list client) (entries : list relevant)
    (s s' : state) (ordered : list (option waypoint)) :
  Promise_all_map (locate_start w addresses) locate_settles (locate_resume w) 2 entries s
  = (Ok ordered, s') ->
  Forall2 (resolves addresses) entries ordered /\
  exists writes,
    log s' = log s ++ map (fun c => (now s, geocoding c))
                        (filter lacks_coordinates (named_clients addresses entries))
             ++ writes /\
    forallb is_writing (events writes) = true.
Proof.
  unfold Promise_all_map. intros H.
  apply bind_Ok in H. destruct H as (started & s1 & Hstart & H).
  apply bind_Ok in H. destruct H as (final & s2 & Hloop & H).
  destruct (first_rejection final) as [[e t]|] eqn:Hrej; [discriminate|].
  injection H as <- <-.
  destruct (mapM_locate_start addresses entries s) as (started' & Hstart' & Hstarted).
  rewrite Hstart' in Hstart. injection Hstart as -> <-.
  destruct (event_loop_reaches locate_settles (locate_resume w) (2 * List.length entries)
              started
              {| now := now s;
                 log := log s ++ map (fun c => (now s, geocoding c))
                                   (filter sendable (named_clients addresses entries)) |})
    as (final' & Hrun & Hreach).
  rewrite Hloop in Hrun. cbn [snd] in Hrun. injection Hrun as <-.
  assert (Hsettled : forallb (@settled located (option waypoint)) final = true).
  { eapply event_loop_settles with (stage := locate_stage); [| | |exact Hloop].
    - intros [addr p|addr found p]; cbn; lia.
    - apply locate_stage_falls.
    - apply (started_stages Hstarted). }
  destruct (resolves_all Hstarted Hreach (fulfilled_all final Hsettled Hrej))
    as [Hres Hfilter].
  split; [exact Hres|].
  destruct (@emits_event_loop _ _ locate_settles (locate_resume w) is_writing
              (2 * List.length entries) started
              (fun l => @emits_locate_resume is_writing w l (fun e He => He))
              {| now := now s;
                 log := log s ++ map (fun c => (now s, geocoding c))
                                   (filter sendable (named_clients addresses entries)) |})
    as (writes & Hlog & Hwrites).
  rewrite Hloop in Hlog. cbn [snd log] in Hlog.
  exists writes. split; [|exact Hwrites].
  rewrite Hlog, Hfilter, <- app_assoc. reflexivity.
Qed.

Lemma getRouteGeometry_run (coordinates : list coords) (s : state) :
  getRouteGeometry w coordinates s
  = if Nat.ltb (List.length coordinates) 2 then (Ok None, s)
    else
      (Ok match fetch_osrm w (issued s (FetchOsrm coordinates)) coordinates with
          | Answer data =>
              match routes data with
              | Some (first :: _) => geometry first
              | _ => None
              end
          | Failure _ => None
          end,
       after w s (FetchOsrm coordinates)).
Proof.
  unfold getRouteGeometry. destruct (Nat.ltb _ 2); [reflexivity|].
  unfold try_catch, bind. rewrite call_run.
  destruct (fetch_osrm w _ coordinates) as [data|e]; [|reflexivity].
  destruct (routes data) as [[|first rest]|]; reflexivity.
Qed.

Lemma llmChain_invoke_log (context : string) (query : query_value) (s s' : state)
    (g : generated) :
  llmChain_invoke rt w context query s = (Ok g, s') ->
  valid_numbers g /\
  exists repair,
    log s' = log s ++ (now s, ChatInvoke context query) :: repair /\
    forallb is_chat (events repair) = true /\ (List.length repair <= 1)%nat.
Proof.
  rewrite llmChain_invoke_run.
  destruct (chat_invoke w _ context query) as [c1|e]; [|discriminate].
  destruct (parsed rt c1) as [g1|] eqn:E1.
  - intros H. injection H as <- <-. split; [eapply parsed_valid; eassumption|].
    exists []. repeat split. cbn. lia.
  - cbv zeta. destruct (chat_repair w _ c1 _) as [c2|e]; [|discriminate].
    destruct (parsed rt c2) as [g2|] eqn:E2; [|discriminate].
    intros H. injection H as <- <-. split; [eapply parsed_valid; eassumption|].
    eexists [_]. unfold after, issued, invoking. cbn [log].
    rewrite <- app_assoc. repeat split. cbn. lia.
Qed.

(** *** The whole run *)

Lemma queryLLM_returned (req : request) (s s' : state) (r : routed) :
  queryLLM rt w req s = (Ok (Returned r), s') ->
  pipeline rt w (query_of req) s = (Ok (Returned r), s').
Proof.
  rewrite queryLLM_unfold. destruct (falsy_query (query_of req)).
  - destruct req; discriminate.
  - unfold try_catch.
    destruct (pipeline rt w (query_of req) s) as [[out|e] s1];
      [|destruct req; discriminate].
    intros H. exact H.
Qed.

Lemma queryLLM_run (req : request) (s s' : state) (r : routed) :
  queryLLM rt w req s = (Ok (Returned r), s') ->
  let query := query_of req in
  let entries := relevantAddresses (response r) in
  let ids := map addressId entries in
  let stops := waypoints (leafletMapData r) in
  exists records addresses ordered repair writes s2 s5,
    let s1 := after w s (RunVectorSearch query) in
    let s3 := after w s2 (SelectClientsById ids) in
    run_vector_search w (issued s (RunVectorSearch query)) query = Answer records /\
    llmChain_invoke rt w (contextOf records) query s1 = (Ok (response r), s2) /\
    select_clients_by_id w (issued s2 (SelectClientsById ids)) ids = Answer addresses /\
    Forall2 (resolves addresses) entries ordered /\
    stops = validOnly ordered /\
    mapsUrl r = mapsUrl_of (map address stops) /\
    getRouteGeometry w (map coords_of stops) s5
    = (Ok (routeGeometry (leafletMapData r)), s') /\
    log s5
    = log s
      ++ (now s, RunVectorSearch query)
         :: (now s1, ChatInvoke (contextOf records) query)
         :: repair
      ++ (now s2, SelectClientsById ids)
         :: map (fun c => (now s3, geocoding c))
              (filter lacks_coordinates (named_clients addresses entries))
      ++ writes /\
    forallb is_chat (events repair) = true /\ (List.length repair <= 1)%nat /\
    forallb is_writing (events writes) = true.
Proof.
  intros H query entries ids stops.
  apply queryLLM_returned in H. fold query in H. unfold pipeline in H.
  apply bind_Ok in H. destruct H as (records & s1 & Hsearch & H).
  unfold runVectorSearch in Hsearch. rewrite call_run in Hsearch.
  destruct (run_vector_search w (issued s (RunVectorSearch query)) query)
    as [records'|e] eqn:Esearch; [|discriminate].
  injection Hsearch as -> <-.
  apply bind_Ok in H. destruct H as (g & s2 & Hchain & H).
  apply bind_Ok in H. destruct H as (addresses & s3 & Hsel & H).
  rewrite call_run in Hsel.
  destruct (select_clients_by_id w _ _) as [addresses'|e] eqn:Esel; [|discriminate].
  injection Hsel as -> <-.
  apply bind_Ok in H. destruct H as (ordered & s5 & Hall & H).
  apply bind_Ok in H. destruct H as (geometry & s6 & Hroute & H).
  apply bind_Ok in H. destruct H as (link & s7 & Hlink & H).
  injection H as Hr <-.
  destruct (mapsUrl_block_run (map address (validOnly ordered)) s6)
    as [(_ & link' & Hblock & Htext) | (_ & Hblock)];
    rewrite Hblock in Hlink; [|discriminate].
  injection Hlink as <- <-.
  apply Promise_all_locate in Hall. destruct Hall as (Hres & writes & Hlog5 & Hwrites).
  apply llmChain_invoke_log in Hchain as Hchain'.
  destruct Hchain' as (_ & repair & Hlog2 & Hrepair & Hone).
  subst r. subst query entries ids stops.
  cbn [response leafletMapData waypoints routeGeometry mapsUrl] in *.
  exists records, addresses, ordered, repair, writes, s2, s5. cbv zeta.
  split; [first [exact Esearch | reflexivity]|]. split; [exact Hchain|].
  split; [first [exact Esel | reflexivity]|].
  split; [exact Hres|].
  split; [reflexivity|]. split; [exact Htext|]. split; [exact Hroute|].
  split.
  { rewrite Hlog5. unfold after, issued in *. cbn [log now] in *. rewrite Hlog2.
    repeat (rewrite <- app_assoc; cbn [app]). reflexivity. }
  split; [exact Hrepair|]. split; [exact Hone|exact Hwrites].
Qed.

(** The addresses of the waypoints of a response can all be encoded. *)
Lemma queryLLM_well_formed (req : request) (s s' : state) (r : routed) :
  queryLLM rt w req s = (Ok (Returned r), s') ->
  forallb isWellFormed (map address (waypoints (leafletMapData r))) = true.
Proof.
  intros H. apply queryLLM_returned in H. unfold pipeline in H.
  apply bind_Ok in H. destruct H as (records & s1 & _ & H).
  apply bind_Ok in H. destruct H as (g & s2 & _ & H).
  apply bind_Ok in H. destruct H as (addresses & s3 & _ & H).
  apply bind_Ok in H. destruct H as (ordered & s5 & _ & H).
  apply bind_Ok in H. destruct H as (geometry & s6 & _ & H).
  apply bind_Ok in H. destruct H as (link & s7 & Hlink & H).
  injection H as <- _. cbn [leafletMapData waypoints].
  destruct (mapsUrl_block_run (map address (validOnly ordered)) s6)
    as [(Hwf & _) | (_ & Hblock)]; [exact Hwf|].
  rewrite Hblock in Hlink. discriminate.
Qed.

(** What the pipeline hands back without an exception is a response. *)
Lemma pipeline_returns (query : query_value) (s s' : state) (out : outcome routed) :
  pipeline rt w query s = (Ok out, s') -> exists r, out = Returned r.
Proof.
  unfold pipeline. intros H.
  apply bind_Ok in H. destruct H as (records & s1 & _ & H).
  apply bind_Ok in H. destruct H as (g & s2 & _ & H).
  apply bind_Ok in H. destruct H as (addresses & s3 & _ & H).
  apply bind_Ok in H. destruct H as (ordered & s5 & _ & H).
  apply bind_Ok in H. destruct H as (geometry & s6 & _ & H).
  apply bind_Ok in H. destruct H as (link & s7 & _ & H).
  injection H as <- _. eexists. reflexivity.
Qed.

(** A run of [queryLLM] that passes the guard ends in a response, in a
    rejection with status 500, or in an exception. *)
Lemma queryLLM_outcomes (req : request) (s : state) :
  falsy_query (query_of req) = false ->
  (exists r, fst (queryLLM rt w req s) = Ok (Returned r)) \/
  (exists e, fst (queryLLM rt w req s) = Ok (Rejected 500 e)) \/
  (exists e, fst (queryLLM rt w req s) = Throw e).
Proof.
  intros Hq. rewrite queryLLM_unfold, Hq. unfold try_catch.
  destruct (pipeline rt w (query_of req) s) as [[out|e] s1] eqn:E.
  - left. apply pipeline_returns in E. destruct E as (r & ->). eexists. reflexivity.
  - right. destruct req; [left | right]; eexists; reflexivity.
Qed.

(** What the pipeline calls after the vector search. *)
Lemma emits_pipeline_rest (P : event -> bool) (query : query_value)
    (contextRecords : list record) :
  (forall e, P e = true) ->
  emits P
    (response <- llmChain_invoke rt w (contextOf contextRecords) query ;;
     addresses <- call w (SelectClientsById (map addressId (relevantAddresses response)))
                    (fun h => select_clients_by_id w h
                                (map addressId (relevantAddresses response))) ;;
     orderedAddresses <- Promise_all_map (locate_start w addresses) locate_settles
                           (locate_resume w) 2 (relevantAddresses response) ;;
     routeGeometry <- getRouteGeometry w (map coords_of (validOnly orderedAddresses)) ;;
     mapsUrl <- mapsUrl_block (map address (validOnly orderedAddresses)) ;;
     ret (Returned
            {| response := response;
               mapsUrl := mapsUrl_or_text mapsUrl;
               leafletMapData :=
                 {| waypoints := validOnly orderedAddresses;
                    routeGeometry := routeGeometry |} |}))%js.
Proof.
  intros HP.
  apply emits_bind; [apply emits_llmChain_invoke; intros; apply HP|]. intros response.
  apply emits_bind; [apply emits_call, HP|]. intros addresses.
  apply emits_bind.
  { apply emits_Promise_all_map; intros.
    - apply emits_locate_start. intros; apply HP.
    - apply emits_locate_resume. intros; apply HP. }
  intros ordered.
  apply emits_bind; [apply emits_getRouteGeometry; intros; apply HP|]. intros geometry.
  apply emits_bind; [apply emits_mapsUrl_block|]. intros link. apply emits_ret.
Qed.

Lemma grows_pipeline (query : query_value) : grows (pipeline rt w query).
Proof.
  apply emits_grows with (P := fun _ => true). unfold pipeline, runVectorSearch.
  apply emits_bind; [apply emits_call; reflexivity|]. intros records.
  apply emits_pipeline_rest. reflexivity.
Qed.

Lemma bind_call_first (T U : Type) (e : event) (oracle : history -> reply T)
    (k : T -> M U) (s : state) :
  (forall a, grows (k a)) ->
  exists rest, log (snd (bind (call w e oracle) k s)) = log s ++ (now s, e) :: rest.
Proof.
  intros Hk. unfold bind. rewrite call_run.
  destruct (oracle (issued s e)) as [a|m].
  - destruct (Hk a {| now := now s + latency w (issued s e); log := issued s e |})
      as (new & Hnew).
    exists new. rewrite Hnew. unfold issued. cbn [log].
    rewrite <- app_assoc. reflexivity.
  - exists []. reflexivity.
Qed.

(** The vector search is the first call of the pipeline. *)
Lemma pipeline_first_call (query : query_value) (s : state) :
  exists rest,
    log (snd (pipeline rt w query s)) = log s ++ (now s, RunVectorSearch query) :: rest.
Proof.
  unfold pipeline, runVectorSearch. apply bind_call_first.
  intros records. apply emits_grows with (P := fun _ => true).
  apply emits_pipeline_rest. reflexivity.
Qed.

(** A rejection in the handler of [catch] leaves the log as it is. *)
Lemma try_catch_reject_log (T : Type) (body : M (outcome T)) (req : request)
    (code : N) (message : string -> string) (s : state) :
  log (snd (try_catch body (fun e => reject req code (message e)) s))
  = log (snd (body s)).
Proof.
  unfold try_catch. destruct (body s) as [[a|e] s1]; [reflexivity|].
  destruct req; reflexivity.
Qed.

Lemma falsy_query_of (req : request) :
  falsy_query (query_of req) = true -> req = ReqString "".
Proof.
  destruct req as [[[p|]|]|q]; unfold query_of; cbn [data_prompt].
  - destruct (truthy_string p) eqn:E; cbn [falsy_query]; [rewrite E|]; discriminate.
  - discriminate.
  - discriminate.
  - cbn [falsy_query]. unfold truthy_string. rewrite negb_involutive.
    intros H. apply String.eqb_eq in H. congruence.
Qed.

(** C1 (the code at the failing input): [queryLLM] never answers with the
    rejection 400; for a request whose prompt is the empty string the guard
    sees the request object, which is truthy, and the vector search is the
    first thing that runs; called with the bare empty string, the guard
    fires, but a string has no [reject] and a TypeError is thrown. *)
Theorem queryLLM_empty_prompt_searches (s : state) :
  (forall req s0, fst (queryLLM rt w req s0) <> Ok (Rejected 400 "query is required")) /\
  (exists rest,
      log (snd (queryLLM rt w (ReqObject (Some (Some ""))) s))
      = log s ++ (now s, RunVectorSearch (QObject (Some (Some "")))) :: rest) /\
  queryLLM rt w (ReqString "") s = (Throw "req.reject is not a function", s).
Proof.
  split; [|split].
  - intros req s0. destruct (falsy_query (query_of req)) eqn:Hq.
    + apply falsy_query_of in Hq. subst req. cbn. discriminate.
    + destruct (queryLLM_outcomes req s0 Hq) as [(r & H) | [(e & H) | (e & H)]];
        rewrite H; discriminate.
  - rewrite queryLLM_unfold. cbn [query_of data_prompt truthy_string String.eqb negb
                                  falsy_query].
    rewrite try_catch_reject_log. apply pipeline_first_call.
  - reflexivity.
Qed.



End Pipeline.










(** ** Geocoding inside [queryLLM] *)

(** The callbacks of [orderedAddresses] run up to their first [await] in one
    instant: the clock does not move, and whatever they send is sent at that
    time. *)
Lemma locate_start_same_instant (w : world) (addresses : list client)
    (entries : list relevant) (s : state) :
  let started := mapM (fun relAddr => stretch (locate_start w addresses relAddr)) entries s in
  now (snd started) = now s /\
  exists new,
    log (snd started) = log s ++ new /\
    Forall (fun entry => fst entry = now s) new.
Proof.
  destruct (mapM_locate_start w addresses entries s) as (started & -> & _).
  cbn [snd now log]. split; [reflexivity|]. eexists. split; [reflexivity|].
  apply Forall_forall. intros entry Hin. apply in_map_iff in Hin.
  destruct Hin as (c & <- & _). reflexivity.
Qed.

(** C2 (the code at the failing input): [queryLLM] sends its requests to
    Nominatim for the addresses of one response in the same instant; for a
    response that names two clients without coordinates the two requests
    leave at time 360 ms both, while in [populateCoordinates] they lie 1000 ms
    apart. *)
Theorem queryLLM_geocodes_without_delay :
  geocode_times
    (log (snd (queryLLM Demo.runtime (Demo.deployment false false)
                 (Demo.post "visit 2 3") Demo.start)))
  = [360%N; 360%N] /\
  geocode_times
    (log (snd (populateCoordinates (Demo.deployment false false) (Demo.post "")
                 Demo.start)))
  = [120%N; 1480%N; 2840%N; 4080%N].
Proof. vm_compute. split; reflexivity. Qed.

(** Witness of C6: in the deployment the first three candidates are
    skipped, and of the two that score 0.8 the earlier is returned. *)
Lemma onFindClosest_ranking_witness :
  exists found s',
    onFindClosest Demo.runtime (Demo.deployment false false) (Demo.post "near the river")
      Demo.start
    = (Ok (Returned found), s') /\
    found = Some {| AddressID := 5; AddresseeFullName := Some "E"%string;
                    EMBEDDING := Some " [0,1] "%string |}.
Proof.
  destruct (@onFindClosest_ranking Demo.runtime (Demo.deployment false false)
              "near the river" Demo.start [3%float; 4%float]
              [ {| AddressID := 1; AddresseeFullName := Some "A"%string; EMBEDDING := None |};
                {| AddressID := 2; AddresseeFullName := Some "B"%string;
                   EMBEDDING := Some "n/a"%string |};
                {| AddressID := 3; AddresseeFullName := Some "C"%string;
                   EMBEDDING := Some "[1]"%string |};
                {| AddressID := 4; AddresseeFullName := Some "D"%string;
                   EMBEDDING := Some "[1,0]"%string |};
                {| AddressID := 5; AddresseeFullName := Some "E"%string;
                   EMBEDDING := Some " [0,1] "%string |};
                {| AddressID := 6; AddresseeFullName := Some "F"%string;
                   EMBEDDING := Some "[0,1]"%string |} ]
              eq_refl eq_refl eq_refl) as (found & s' & Hrun & Hfound & _).
  exists found, s'. split; [exact Hrun|].
  rewrite Hfound. vm_compute. reflexivity.
Defined.

(** The routing engine of the deployment: not called for one point, called
    once for two, and a failure gives [null]. *)
Example getRouteGeometry_runs :
  getRouteGeometry (Demo.deployment false false) [Demo.porto] Demo.start
  = (Ok None, Demo.start) /\
  getRouteGeometry (Demo.deployment false false) [Demo.porto; Demo.coimbra] Demo.start
  = (Ok (Some Demo.line),
     {| now := 120; log := [(0%N, FetchOsrm [Demo.porto; Demo.coimbra])] |}) /\
  getRouteGeometry (Demo.deployment false true) [Demo.porto; Demo.coimbra] Demo.start
  = (Ok None,
     {| now := 120; log := [(0%N, FetchOsrm [Demo.porto; Demo.coimbra])] |}).
Proof. vm_compute. repeat split; reflexivity. Qed.

(* ================================================================== *)
(** * Further properties of the code *)

(** ** Vectors in any arithmetic *)

Section VectorLaws.

Variable A : Arith.

Lemma cosineStep_ext (a b b' : list A) (indices : list nat) (acc : A * A * A) :
  (forall i, In i indices -> at_index A b i = at_index A b' i) ->
  fold_left (cosineStep A a b) indices acc = fold_left (cosineStep A a b') indices acc.
Proof.
  revert acc. induction indices as [|i indices IH]; intros acc H; [reflexivity|].
  cbn [fold_left]. rewrite IH by (intros j Hj; apply H; right; exact Hj).
  f_equal. destruct acc as [[dot na] nb]. unfold cosineStep.
  rewrite (H i) by (left; reflexivity). reflexivity.
Qed.

(** X4: [cosineSim(a, b)] reads the components of [b] below [a.length] and
    no others: what [b] holds beyond them changes nothing, in either
    arithmetic. *)
Theorem cosineSim_reads_prefix (a b : list A) :
  cosineSim A a (firstn (List.length a) b) = cosineSim A a b /\
  (forall extra, (List.length a <= List.length b)%nat ->
                 cosineSim A a (b ++ extra) = cosineSim A a b).
Proof.
  split.
  - unfold cosineSim.
    rewrite (@cosineStep_ext a (firstn (List.length a) b) b); [reflexivity|].
    intros i Hi. apply in_seq in Hi. unfold at_index. rewrite nth_firstn.
    destruct (Nat.ltb_spec i (List.length a)); [reflexivity|lia].
  - intros extra Hlen. unfold cosineSim.
    rewrite (@cosineStep_ext a (b ++ extra) b); [reflexivity|].
    intros i Hi. apply in_seq in Hi. unfold at_index. apply app_nth1. lia.
Qed.

Lemma normalizeL2_length (vec : list A) :
  List.length (normalizeL2 A vec) = List.length vec.
Proof.
  unfold normalizeL2. destruct (eqb A _ _); [reflexivity|apply length_map].
Qed.

End VectorLaws.

(** ** NaN and zero in binary64 *)

Lemma NaN_nan : NaN PrimFloat.nan.
Proof. reflexivity. Qed.

Lemma NaN_not_number (x : float) : NaN x -> is_number x = false.
Proof. unfold NaN, is_number. intros H. rewrite eqb_spec, H. reflexivity. Qed.

Lemma NaN_add_l (x y : float) : NaN x -> NaN (x + y).
Proof. unfold NaN. intros H. rewrite add_spec, H. reflexivity. Qed.

Lemma NaN_add_r (x y : float) : NaN y -> NaN (x + y).
Proof. unfold NaN. intros H. rewrite add_spec, H. destruct (Prim2SF x); reflexivity. Qed.

Lemma NaN_mul_l (x y : float) : NaN x -> NaN (x * y).
Proof. unfold NaN. intros H. rewrite mul_spec, H. reflexivity. Qed.

Lemma NaN_mul_r (x y : float) : NaN y -> NaN (x * y).
Proof. unfold NaN. intros H. rewrite mul_spec, H. destruct (Prim2SF x); reflexivity. Qed.

Lemma NaN_div_l (x y : float) : NaN x -> NaN (x / y).
Proof. unfold NaN. intros H. rewrite div_spec, H. reflexivity. Qed.

(** Multiplication in binary64 commutes, rounding included. *)
Lemma mul_comm (x y : float) : (x * y = y * x)%float.
Proof.
  apply Prim2SF_inj. rewrite !mul_spec. unfold SF64mul, SFmul.
  destruct (Prim2SF x) as [sx|sx| |sx mx ex], (Prim2SF y) as [sy|sy| |sy my ey];
    try reflexivity; rewrite (xorb_comm sx sy); try reflexivity.
  rewrite (Pos.mul_comm mx my), (Z.add_comm ex ey). reflexivity.
Qed.

Lemma cosineStep_keeps_NaN (a b : list float) (acc : float * float * float) (i : nat) :
  NaN (dot_of acc) -> NaN (dot_of (cosineStep F64 a b acc i)).
Proof.
  destruct acc as [[dot na] nb]. unfold dot_of. cbn. apply NaN_add_l.
Qed.

Lemma cosineStep_makes_NaN (a b : list float) (acc : float * float * float) (i : nat) :
  NaN (at_index F64 a i) \/ NaN (at_index F64 b i) ->
  NaN (dot_of (cosineStep F64 a b acc i)).
Proof.
  destruct acc as [[dot na] nb]. unfold dot_of. cbn [cosineStep fst add mul F64].
  intros [H|H]; apply NaN_add_r; [apply NaN_mul_l|apply NaN_mul_r]; exact H.
Qed.

Lemma fold_cosineStep_keeps_NaN (a b : list float) (indices : list nat)
    (acc : float * float * float) :
  NaN (dot_of acc) -> NaN (dot_of (fold_left (cosineStep F64 a b) indices acc)).
Proof.
  revert acc. induction indices as [|i indices IH]; intros acc H; [exact H|].
  cbn [fold_left]. apply IH, cosineStep_keeps_NaN, H.
Qed.

Lemma fold_cosineStep_NaN (a b : list float) (indices : list nat)
    (acc : float * float * float) (k : nat) :
  In k indices ->
  NaN (at_index F64 a k) \/ NaN (at_index F64 b k) ->
  NaN (dot_of (fold_left (cosineStep F64 a b) indices acc)).
Proof.
  revert acc. induction indices as [|i indices IH]; intros acc Hin H; [contradiction|].
  cbn [fold_left]. destruct Hin as [->|Hin].
  - apply fold_cosineStep_keeps_NaN, cosineStep_makes_NaN, H.
  - apply IH; assumption.
Qed.

Lemma cosineSim_NaN_at (a b : list float) (k : nat) :
  (k < List.length a)%nat ->
  NaN (at_index F64 a k) \/ NaN (at_index F64 b k) ->
  NaN (cosineSim F64 a b).
Proof.
  intros Hk H.
  pose proof (@fold_cosineStep_NaN a b (seq 0 (List.length a))
                (zero F64, zero F64, zero F64) k) as Hdot.
  unfold cosineSim.
  destruct (fold_left _ _ _) as [[dot na] nb]. unfold dot_of in Hdot. cbn [fst div F64] in *.
  apply NaN_div_l, Hdot; [apply in_seq; lia | exact H].
Qed.

(** X5: in binary64 a component that is NaN, in either vector, makes the
    similarity NaN, and so does a second vector that is shorter than the
    first, whose missing components read as [undefined]. *)
Theorem cosineSim_not_a_number (a b : list float) :
  (forall k, (k < List.length a)%nat ->
             is_number (at_index F64 a k) = false \/ is_number (at_index F64 b k) = false ->
             is_number (cosineSim F64 a b) = false) /\
  ((List.length b < List.length a)%nat -> is_number (cosineSim F64 a b) = false).
Proof.
  assert (Hnan : forall x, is_number x = false -> NaN x).
  { intros x Hx. unfold is_number in Hx. rewrite eqb_spec in Hx. unfold NaN.
    destruct (Prim2SF x) as [s|s| |s m e]; try reflexivity; cbn in Hx.
    - discriminate.
    - destruct s; discriminate.
    - unfold SFeqb, SFcompare in Hx. destruct s.
      + rewrite Z.compare_refl, Pos.compare_cont_refl in Hx. discriminate.
      + rewrite Z.compare_refl, Pos.compare_cont_refl in Hx. discriminate. }
  split.
  - intros k Hk H. apply NaN_not_number, (@cosineSim_NaN_at a b k Hk).
    destruct H as [H|H]; [left|right]; apply Hnan, H.
  - intros Hlen. apply NaN_not_number, (@cosineSim_NaN_at a b (List.length b) Hlen).
    right. unfold at_index. rewrite nth_overflow; [apply NaN_nan|apply le_n].
Qed.

(** What X5 says of a second vector with one component for two. *)
Lemma cosineSim_not_a_number_witness :
  is_number (cosineSim F64 [1%float; 2%float] [1%float]) = false.
Proof.
  apply (proj2 (cosineSim_not_a_number [1%float; 2%float] [1%float])).
  cbn. lia.
Defined.

Lemma cosineStep_swap (a b : list float) (indices : list nat) (d x y : float) :
  fold_left (cosineStep F64 b a) indices (d, y, x)
  = let '(d', x', y') := fold_left (cosineStep F64 a b) indices (d, x, y) in (d', y', x').
Proof.
  revert d x y. induction indices as [|i indices IH]; intros d x y; [reflexivity|].
  cbn [fold_left cosineStep add mul F64].
  rewrite (mul_comm (at_index F64 b i) (at_index F64 a i)). apply IH.
Qed.

(** X6: [cosineSim] is symmetric in binary64, rounding included: for two
    vectors of one length it does not matter which is the query. *)
Theorem cosineSim_symmetric (a b : list float) :
  List.length a = List.length b -> cosineSim F64 a b = cosineSim F64 b a.
Proof.
  intros Hlen. unfold cosineSim.
  assert (E : @List.length (num F64) b = @List.length (num F64) a)
    by (symmetry; exact Hlen).
  rewrite E.
  change (zero F64, zero F64, zero F64) with (0%float, 0%float, 0%float).
  rewrite (cosineStep_swap a b).
  destruct (fold_left (cosineStep F64 a b) _ _) as [[d x] y].
  cbn [div mul sqrt F64]. rewrite (mul_comm (PrimFloat.sqrt y) (PrimFloat.sqrt x)).
  reflexivity.
Qed.

Lemma cosineSim_symmetric_witness :
  cosineSim F64 [1%float; 2%float] [3%float; 5%float]
  = cosineSim F64 [3%float; 5%float] [1%float; 2%float].
Proof. apply cosineSim_symmetric. reflexivity. Defined.

Lemma ZeroOrNaN_zero : ZeroOrNaN 0%float.
Proof. left. exists false. reflexivity. Qed.

Lemma ZeroOrNaN_mul_l (x y : float) : ZeroOrNaN x -> ZeroOrNaN (x * y).
Proof.
  unfold ZeroOrNaN. rewrite mul_spec. intros [[s ->] | ->]; [|right; reflexivity].
  destruct (Prim2SF y); cbn; eauto.
Qed.

Lemma ZeroOrNaN_add (x y : float) : ZeroOrNaN x -> ZeroOrNaN y -> ZeroOrNaN (x + y).
Proof.
  unfold ZeroOrNaN. rewrite add_spec.
  intros [[s ->] | ->] [[t ->] | ->]; cbn; eauto.
  destruct s, t; eauto.
Qed.

Lemma ZeroOrNaN_sqrt (x : float) : ZeroOrNaN x -> ZeroOrNaN (PrimFloat.sqrt x).
Proof.
  unfold ZeroOrNaN. rewrite sqrt_spec. intros [[s ->] | ->]; cbn; eauto.
Qed.

Lemma ZeroOrNaN_div (x y : float) : ZeroOrNaN x -> ZeroOrNaN y -> NaN (x / y).
Proof.
  unfold ZeroOrNaN, NaN. rewrite div_spec.
  intros [[s ->] | ->] [[t ->] | ->]; reflexivity.
Qed.

Lemma at_index_zero (a : list float) (i : nat) :
  Forall (fun x => is_zero x = true) a -> (i < List.length a)%nat ->
  is_zero (at_index F64 a i) = true.
Proof.
  intros Ha Hi. unfold at_index. rewrite Forall_forall in Ha. apply Ha, nth_In, Hi.
Qed.

Lemma fold_cosineStep_zero (a b : list float) (indices : list nat)
    (dot na nb : float) :
  Forall (fun x => is_zero x = true) a ->
  Forall (fun i => (i < List.length a)%nat) indices ->
  ZeroOrNaN dot -> ZeroOrNaN na ->
  let '(dot', na', _) := fold_left (cosineStep F64 a b) indices (dot, na, nb) in
  ZeroOrNaN dot' /\ ZeroOrNaN na'.
Proof.
  intros Ha. revert dot na nb.
  induction indices as [|i indices IH]; intros dot na nb Hi Hdot Hna; [split; assumption|].
  inversion Hi as [|? ? Hlt Hrest]; subst.
  cbn [fold_left cosineStep add mul F64].
  assert (Hz : ZeroOrNaN (at_index F64 a i)).
  { left. apply is_zero_spec, at_index_zero; assumption. }
  apply IH; [exact Hrest | |]; apply ZeroOrNaN_add; try assumption;
    apply ZeroOrNaN_mul_l, Hz.
Qed.

Lemma cosineSim_zero_NaN (a b : list float) :
  Forall (fun x => is_zero x = true) a -> NaN (cosineSim F64 a b).
Proof.
  intros Ha. unfold cosineSim.
  pose proof (@fold_cosineStep_zero a b (seq 0 (List.length a)) 0%float 0%float 0%float Ha)
    as H.
  change (zero F64, zero F64, zero F64) with (0%float, 0%float, 0%float).
  destruct (fold_left (cosineStep F64 a b) _ _) as [[dot na] nb].
  destruct H as [Hdot Hna].
  - apply Forall_forall. intros i Hi. apply in_seq in Hi. lia.
  - apply ZeroOrNaN_zero.
  - apply ZeroOrNaN_zero.
  - cbn [div mul sqrt F64]. apply ZeroOrNaN_div; [exact Hdot|].
    apply ZeroOrNaN_mul_l, ZeroOrNaN_sqrt, Hna.
Qed.

(** X7: in binary64 a vector of zeros of either sign, the empty vector
    included, is returned by [normalizeL2] as it is, and its similarity with
    any vector at all is NaN. *)
Theorem zero_vector_binary64 (a b : list float) :
  Forall (fun x => is_zero x = true) a ->
  normalizeL2 F64 a = a /\ is_number (cosineSim F64 a b) = false.
Proof.
  intros Ha. split; [apply normalizeL2_zero_vector, Ha|].
  apply NaN_not_number, cosineSim_zero_NaN, Ha.
Qed.

Lemma zero_vector_binary64_witness :
  normalizeL2 F64 [0%float; (-0)%float] = [0%float; (-0)%float] /\
  is_number (cosineSim F64 [0%float; (-0)%float] [1%float; 2%float]) = false.
Proof.
  apply (@zero_vector_binary64 [0%float; (-0)%float] [1%float; 2%float]).
  repeat constructor.
Defined.

(** ** Normalisation in exact arithmetic *)

Section ExactNormalization.

Local Open Scope R_scope.

Lemma sqrt_sumSquaresR_nonzero (v : list R) :
  Reqb (R_sqrt.sqrt (sumSquaresR v 0)) 0 = false ->
  0 < sumSquaresR v 0 /\ 0 < R_sqrt.sqrt (sumSquaresR v 0).
Proof.
  intros E. pose proof (sumSquaresR_ge v 0) as Hge.
  destruct (Req_dec_T (sumSquaresR v 0) 0) as [Hz|Hz].
  - rewrite Hz, sqrt_0, Reqb_true_eq in E by reflexivity. discriminate.
  - assert (Hpos : 0 < sumSquaresR v 0) by lra.
    split; [exact Hpos | apply sqrt_lt_R0, Hpos].
Qed.

(** X8: without rounding [normalizeL2] is idempotent: a vector that has been
    normalised is returned as it is. *)
Theorem normalizeL2_exact_idempotent (v : list R) :
  normalizeL2 Exact (normalizeL2 Exact (map XFin v)) = normalizeL2 Exact (map XFin v).
Proof.
  rewrite (normalizeL2_exact v).
  destruct (Reqb (R_sqrt.sqrt (sumSquaresR v 0)) 0) eqn:E.
  - rewrite normalizeL2_exact, E. reflexivity.
  - destruct (sqrt_sumSquaresR_nonzero v E) as [Hpos Hs].
    rewrite normalizeL2_exact, sumSquaresR_scale, sqrt_sqrt by lra.
    replace (sumSquaresR v 0 / sumSquaresR v 0) with 1 by (field; lra).
    rewrite sqrt_1, Reqb_false_neq by lra.
    f_equal. rewrite map_map. apply map_ext. intros x. field. lra.
Qed.

Lemma nth_scaled (a : list R) (c : R) (i : nat) :
  nth i (map (fun x => x / c) a) 0 = nth i a 0 / c.
Proof.
  revert i. induction a as [|x a IH]; intros [|i]; simpl;
    solve [unfold Rdiv; ring | reflexivity | apply IH].
Qed.

Lemma triple_eq (p q r p' q' r' : R) :
  p = p' -> q = q' -> r = r' -> (p, q, r) = (p', q', r').
Proof. intros -> -> ->. reflexivity. Qed.

Lemma cosineSumsR_scale (a b : list R) (c : R) (n : nat) :
  c <> 0 ->
  cosineSumsR (map (fun x => x / c) a) b n
  = let '(d, x, y) := cosineSumsR a b n in (d / c, x / (c * c), y).
Proof.
  intros Hc. unfold cosineSumsR. induction n as [|n IH].
  - simpl. apply triple_eq; unfold Rdiv; ring.
  - rewrite !seq_S, !fold_left_app, IH. simpl.
    destruct (fold_left (cosineStepR a b) (seq 0 n) (0, 0, 0)) as [[d x] y].
    simpl. rewrite nth_scaled. apply triple_eq; field; exact Hc.
Qed.

Lemma sumSquaresR_snoc (v : list R) (z : R) :
  sumSquaresR (v ++ [z]) 0 = sumSquaresR v 0 + z * z.
Proof. unfold sumSquaresR. rewrite fold_left_app. reflexivity. Qed.

Lemma firstn_snoc (a : list R) (n : nat) :
  (n < List.length a)%nat -> firstn (S n) a = firstn n a ++ [nth n a 0].
Proof.
  revert n. induction a as [|x a IH]; intros n Hn; simpl in Hn; [lia|].
  destruct n as [|n]; [reflexivity|].
  cbn [firstn nth app]. rewrite <- IH by lia. reflexivity.
Qed.

(** The second accumulator of [cosineSim] is the sum of squares of
    [normalizeL2]. *)
Lemma cosineSumsR_norm (a b : list R) (n : nat) :
  (n <= List.length a)%nat ->
  snd (fst (cosineSumsR a b n)) = sumSquaresR (firstn n a) 0.
Proof.
  unfold cosineSumsR. induction n as [|n IH]; intros Hn; [reflexivity|].
  rewrite seq_S, fold_left_app, firstn_snoc, sumSquaresR_snoc by lia.
  rewrite <- IH by lia. simpl.
  destruct (fold_left (cosineStepR a b) (seq 0 n) (0, 0, 0)) as [[d x] y].
  reflexivity.
Qed.

(** X9: without rounding the similarity does not feel the normalisation of
    the query: [cosineSim(normalizeL2(u), d)] is [cosineSim(u, d)] for
    vectors of one length, as in [onFindClosest], the zero vectors and their
    NaN included. *)
Theorem cosineSim_exact_normalized (u d : list R) :
  List.length u = List.length d ->
  cosineSim Exact (normalizeL2 Exact (map XFin u)) (map XFin d)
  = cosineSim Exact (map XFin u) (map XFin d).
Proof.
  intros Hlen. rewrite normalizeL2_exact.
  destruct (Reqb (R_sqrt.sqrt (sumSquaresR u 0)) 0) eqn:E; [reflexivity|].
  destruct (sqrt_sumSquaresR_nonzero u E) as [Hpos Hs].
  set (n := R_sqrt.sqrt (sumSquaresR u 0)) in *.
  assert (Hn : n * n = sumSquaresR u 0) by (apply sqrt_sqrt; lra).
  unfold cosineSim. rewrite !length_map. change (zero Exact) with (XFin 0).
  rewrite !cosineSums_exact by (rewrite ?length_map; lia).
  rewrite cosineSumsR_scale by lra.
  pose proof (cosineSumsR_cauchy_schwarz u d (List.length u)) as Hcs.
  pose proof (@cosineSumsR_norm u d (List.length u) (le_n _)) as Hx.
  rewrite firstn_all in Hx.
  destruct (cosineSumsR u d (List.length u)) as [[dd x] y].
  cbn [fst snd] in Hx. subst x. destruct Hcs as (_ & Hy & Hd).
  cbn [xfin3 sqrt div mul Exact xsqrt].
  replace (sumSquaresR u 0 / (n * n)) with 1 by (rewrite Hn; field; lra).
  rewrite !Rltb_false_ge by lra.
  rewrite sqrt_1. fold n.
  change (xmul (XFin ?p) (XFin ?q)) with (XFin (p * q)).
  pose proof (sqrt_pos y) as Hsy.
  destruct (Req_dec_T (R_sqrt.sqrt y) 0) as [Hz|Hz].
  - assert (Hy0 : y = 0) by (apply sqrt_eq_0; assumption).
    assert (Hd0 : dd = 0) by nra.
    subst dd. rewrite Hz. unfold xdiv.
    rewrite !Reqb_true_eq; try reflexivity; try ring.
    unfold Rdiv. ring.
  - unfold xdiv.
    rewrite !Reqb_false_neq by nra.
    f_equal. field. lra.
Qed.

Lemma cosineSim_exact_normalized_witness :
  cosineSim Exact (normalizeL2 Exact (map XFin [3; 4])) (map XFin [1; 0])
  = cosineSim Exact (map XFin [3; 4]) (map XFin [1; 0]).
Proof. apply cosineSim_exact_normalized. reflexivity. Defined.

End ExactNormalization.

(** ** Encoded addresses *)

Lemma hex_value_digit (n : nat) : (n < 16)%nat -> hex_value (hex_digit n) = n.
Proof. intros H. do 16 (destruct n as [|n]; [reflexivity|]). lia. Qed.

Lemma percent_decode_encode (c : ascii) (rest : list ascii) :
  percent_decode (percent_encode c ++ rest) = c :: percent_decode rest.
Proof.
  unfold percent_encode. cbn [app percent_decode].
  change (Ascii.eqb (ascii_of_nat 37) "%") with true. cbv iota.
  pose proof (nat_ascii_bounded c) as Hc.
  rewrite !hex_value_digit.
  - rewrite <- Nat.div_mod_eq, ascii_nat_embedding. reflexivity.
  - apply Nat.mod_upper_bound. discriminate.
  - apply Nat.Div0.div_lt_upper_bound. lia.
Qed.

Lemma percent_decode_flat_map (cs : list ascii) :
  percent_decode
    (flat_map (fun c => if unreserved c then [c] else percent_encode c) cs)
  = cs.
Proof.
  induction cs as [|c cs IH]; [reflexivity|].
  cbn [flat_map]. destruct (unreserved c) eqn:E.
  - cbn [app percent_decode].
    assert (Hpct : Ascii.eqb c "%" = false).
    { destruct (Ascii.eqb c "%") eqn:Ep; [|reflexivity].
      apply Ascii.eqb_eq in Ep. subst c. discriminate. }
    rewrite Hpct, IH. reflexivity.
  - rewrite percent_decode_encode, IH. reflexivity.
Qed.

Lemma decodeURIComponent_encodeURIComponent (s : string) :
  decodeURIComponent (encodeURIComponent s) = s.
Proof.
  unfold decodeURIComponent, encodeURIComponent.
  rewrite list_ascii_of_string_of_list_ascii, percent_decode_flat_map.
  apply string_of_list_ascii_of_string.
Qed.

Lemma encodeURIComponent_injective (a b : string) :
  encodeURIComponent a = encodeURIComponent b -> a = b.
Proof.
  intros E. rewrite <- (decodeURIComponent_encodeURIComponent a),
              <- (decodeURIComponent_encodeURIComponent b), E.
  reflexivity.
Qed.

(** X10: [encodeURIComponent] loses nothing of an address: its output holds
    unreserved characters and percent signs only, percent-decoding gives the
    text back, and so two texts with one encoding are the same text. *)
Theorem encodeURIComponent_round_trip :
  (forall s, decodeURIComponent (encodeURIComponent s) = s) /\
  (forall a b, encodeURIComponent a = encodeURIComponent b -> a = b) /\
  (forall s sep, unreserved sep = false -> Ascii.eqb (ascii_of_nat 37) sep = false ->
                 absent sep (encodeURIComponent s) = true).
Proof.
  split; [exact decodeURIComponent_encodeURIComponent|].
  split; [exact encodeURIComponent_injective|].
  intros s sep. apply encodeURIComponent_absent.
Qed.

Lemma nominatim_url_parameters (address : string) :
  query_parameters (nominatim_url address)
  = [("q=" ++ encodeURIComponent address)%string; "format=json"; "limit=1"].
Proof.
  unfold query_parameters, nominatim_url.
  change ("https://nominatim.openstreetmap.org/search?q=" ++ ?x)%string
    with ("https://nominatim.openstreetmap.org/search" ++ String "?" ("q=" ++ x))%string.
  rewrite split_on_app by reflexivity.
  rewrite split_on_absent
    by (rewrite !absent_app, encodeURIComponent_absent by reflexivity; reflexivity).
  change ("q=" ++ encodeURIComponent address ++ "&format=json&limit=1")%string
    with ("q=" ++ encodeURIComponent address ++ String "&" "format=json&limit=1")%string.
  rewrite <- append_assoc.
  rewrite split_on_app
    by (rewrite absent_app, encodeURIComponent_absent by reflexivity; reflexivity).
  reflexivity.
Qed.

(** X11: [geocodeAddress] encodes the address before its [try]: for an
    address that cannot be encoded, one with an unpaired surrogate, it throws
    [URI malformed] and sends nothing.  For any other address it does not
    throw: it sends one request, whose parameters are the encoded address as
    [q], [format=json] and [limit=1] whatever the address holds, and returns
    the first match, or [null] when there is none or the request fails.  Two
    addresses are looked up with one URL only if they are the same. *)
Theorem geocodeAddress_request (w : world) (address : string) (s : state) :
  geocodeAddress w address s
  = (if isWellFormed address
     then (Ok (first_match
                 (fetch_nominatim w (issued s (FetchNominatim (nominatim_url address)))
                    (nominatim_url address))),
           after w s (FetchNominatim (nominatim_url address)))
     else (Throw "URI malformed", s)) /\
  query_parameters (nominatim_url address)
  = [("q=" ++ encodeURIComponent address)%string; "format=json"; "limit=1"] /\
  (forall other, nominatim_url other = nominatim_url address -> other = address).
Proof.
  split; [apply geocodeAddress_run|]. split; [apply nominatim_url_parameters|].
  intros other E.
  assert (Hq : query_parameters (nominatim_url other)
               = query_parameters (nominatim_url address)) by (rewrite E; reflexivity).
  rewrite !nominatim_url_parameters in Hq. injection Hq as Hq.
  apply encodeURIComponent_injective, Hq.
Qed.



(** ** Start-up *)

Lemma member_name (s : json) :
  s <> JNull ->
  exists v, member (Some s) "name" = Normal v /\
            (forall name, named name s
                          = match v with
                            | Some (JStr n) => String.eqb n name
                            | _ => false
                            end).
Proof.
  intros Hs. destruct s; try contradiction; cbn; eexists; split; try reflexivity;
    intros name; reflexivity.
Qed.

Lemma json_null_dec (s : json) : {s = JNull} + {s <> JNull}.
Proof. destruct s; (left; reflexivity) || (right; discriminate). Qed.

Lemma find_named_found (name : string) (items : list json) (service : json) :
  find_named name items = Normal (Some service) <-> first_named name items service.
Proof.
  split.
  - induction items as [|s items IH]; [discriminate|].
    cbn [find_named]. destruct (json_null_dec s) as [->|Hs]; [discriminate|].
    destruct (member_name Hs) as (v & Hv & Hnamed). rewrite Hv.
    specialize (Hnamed name).
    assert (Hrest : find_named name items = Normal (Some service) ->
                    named name s = false -> first_named name (s :: items) service).
    { intros H Hn. destruct (IH H) as (before & after & -> & Hsvc & Hbefore).
      exists (s :: before), after. repeat split; [exact Hsvc|].
      constructor; [split; assumption | exact Hbefore]. }
    destruct v as [[| | |n| |]|]; try (intros H; apply Hrest; [exact H|exact Hnamed]).
    destruct (String.eqb n name) eqn:E.
    + intros H. injection H as <-. exists [], items. repeat split; [exact Hnamed|constructor].
    + intros H. apply Hrest; [exact H|exact Hnamed].
  - intros (before & after & -> & Hsvc & Hbefore).
    induction Hbefore as [|s before [Hs Hn] _ IH].
    + cbn [app find_named].
      assert (Hs : service <> JNull) by (intros ->; discriminate).
      destruct (member_name Hs) as (v & Hv & Hnamed). rewrite Hv.
      rewrite (Hnamed name) in Hsvc.
      destruct v as [[| | |n| |]|]; try discriminate. rewrite Hsvc. reflexivity.
    + cbn [app find_named].
      destruct (member_name Hs) as (v & Hv & Hnamed). rewrite Hv.
      rewrite (Hnamed name) in Hn.
      destruct v as [[| | |n| |]|]; try exact IH. rewrite Hn. exact IH.
Qed.

Lemma find_named_outcomes (name : string) (items : list json) :
  find_named name items = Abrupt TypeError \/
  find_named name items = Normal None \/
  exists service, find_named name items = Normal (Some service).
Proof.
  induction items as [|s items IH]; [right; left; reflexivity|].
  cbn [find_named]. destruct s as [| b | x | str | elements | fields]; cbn;
    try exact IH; [left; reflexivity|].
  destruct (property "name" fields) as [[| | |n| |]|]; try exact IH.
  destruct (String.eqb n name); [right; right; eexists; reflexivity | exact IH].
Qed.

Lemma optional_chain (service : json) (key : string) :
  optional_member (optional_member (Some service) "credentials") key
  = credentials_entry key service.
Proof.
  unfold optional_member, credentials_entry.
  destruct service as [| b | x | str | elements | fields]; try reflexivity.
  cbn [member].
  destruct (property "credentials" fields) as [[| b | x | str | elements | creds]|];
    reflexivity.
Qed.

Lemma credential_entry (service : json) (key : string) (value : json) :
  credential (Some service) key = Some value <->
  credentials_entry key service = Some value /\ truthy (Some value) = true.
Proof.
  unfold credential. rewrite optional_chain.
  destruct (credentials_entry key service) as [v|].
  - destruct (truthy (Some v)) eqn:E.
    + split; [intros H; injection H as <-; split; [reflexivity|exact E]|].
      intros [H _]. exact H.
    + split; [discriminate|]. intros [H Ht]. injection H as <-. congruence.
  - split; [discriminate | intros [H _]; discriminate].
Qed.

Lemma credential_truthy (service : option json) (key : string) (value : json) :
  credential service key = Some value -> truthy (Some value) = true.
Proof.
  unfold credential. destruct (truthy _) eqn:E; [|discriminate].
  intros H. rewrite H in E. exact E.
Qed.

Lemma credential_guarded_eq (service : option json) (key : string) :
  credential_guarded service key = credential service key.
Proof.
  unfold credential_guarded, credential, optional_member.
  destruct service as [[| b | x | str | elements | fields]|]; cbn [truthy member];
    try reflexivity;
    try match goal with |- (if ?c then _ else _) = _ => destruct c; reflexivity end.
  destruct (property "credentials" fields) as [[| b | x | str | elements | creds]|];
    cbn [truthy member]; try reflexivity;
    try match goal with |- (if ?c then _ else _) = _ => destruct c; reflexivity end.
Qed.

Lemma required_credential (message : string) (service : option json) (key : string) :
  required message (credential service key)
  = match credential service key with
    | Some value => Normal value
    | None => Abrupt (Error message)
    end.
Proof.
  unfold required. destruct (credential service key) as [value|] eqn:E; [|reflexivity].
  rewrite (credential_truthy _ _ E). reflexivity.
Qed.

Section StartupLaws.

Variable rt : Runtime.

(** What [init] does once the environment names its services. *)
Lemma with_services_provided (T : Type) (VCAP_SERVICES : option string) (unset : T)
    (lookup : option json -> completion T) (items : list json) :
  provides rt VCAP_SERVICES items ->
  with_services rt VCAP_SERVICES unset lookup = lookup (Some (JArr items)).
Proof.
  intros (text & vcap & -> & Htext & Hparse & Hprop).
  unfold with_services. rewrite (truthy_string_nonempty Htext), Hparse. cbn.
  rewrite Hprop. reflexivity.
Qed.

(** The other way round: a look-up was made only if the environment names
    its services. *)
Lemma with_services_looked_up (T : Type) (VCAP_SERVICES : option string) (unset : T)
    (lookup : option json -> completion T) (a : T) :
  with_services rt VCAP_SERVICES unset lookup = Normal a ->
  (forall services, (forall items, services <> Some (JArr items)) ->
                    lookup services = Abrupt TypeError) ->
  a = unset \/
  exists items, provides rt VCAP_SERVICES items /\ lookup (Some (JArr items)) = Normal a.
Proof.
  intros H Hlookup. unfold with_services in H.
  destruct VCAP_SERVICES as [text|]; [|left; injection H as <-; reflexivity].
  destruct (truthy_string text) eqn:Et; [|left; injection H as <-; reflexivity].
  destruct (JSON_parse rt text) as [vcap|] eqn:Ep; [|discriminate].
  destruct (member (Some vcap) "user-provided") as [services|e] eqn:Em; [|discriminate].
  destruct (truthy services) eqn:Es; [|left; injection H as <-; reflexivity].
  destruct services as [[| b | x | str | items | fields]|];
    try (rewrite Hlookup in H by (intros items; discriminate); discriminate).
  right. exists items. split; [|exact H].
  exists text. destruct vcap as [| b | x | str | elements | vcap]; try discriminate.
  exists vcap. repeat split.
  - intros ->. discriminate.
  - exact Ep.
  - cbn in Em. injection Em as ->. reflexivity.
Qed.

Lemma with_services_ext (T : Type) (VCAP_SERVICES : option string) (unset : T)
    (lookup lookup' : option json -> completion T) :
  (forall services, lookup services = lookup' services) ->
  with_services rt VCAP_SERVICES unset lookup
  = with_services rt VCAP_SERVICES unset lookup'.
Proof.
  intros H. unfold with_services.
  destruct VCAP_SERVICES as [text|]; [|reflexivity].
  destruct (truthy_string text); [|reflexivity].
  destruct (JSON_parse rt text) as [vcap|]; [|reflexivity].
  destruct (member (Some vcap) "user-provided") as [services|e]; [|reflexivity].
  rewrite H. reflexivity.
Qed.

Lemma find_service_not_array (services : option json) (name : string) :
  (forall items, services <> Some (JArr items)) ->
  find_service services name = Abrupt TypeError.
Proof.
  intros H. destruct services as [[| b | x | str | items | fields]|]; try reflexivity.
  exfalso. apply (H items). reflexivity.
Qed.

(** X12: [init] finds a key exactly when [VCAP_SERVICES] holds an object
    whose [user-provided] is an array in which the first element named
    [openai-service], with no [null] before it, carries under
    [credentials] a truthy [OPENAI_API_KEY]; the key is that one. *)
Theorem init_key (VCAP_SERVICES : option string) (key : json) :
  init rt VCAP_SERVICES = Normal key <->
  exists items service,
    provides rt VCAP_SERVICES items /\
    first_named "openai-service" items service /\
    credentials_entry "OPENAI_API_KEY" service = Some key /\
    truthy (Some key) = true.
Proof.
  split.
  - unfold init. intros H.
    destruct (with_services _ _ _ _) as [apiKey|e] eqn:Ew; [|discriminate].
    apply with_services_looked_up in Ew.
    + destruct Ew as [->|(items & Hprov & Hlook)]; [discriminate|].
      cbn [find_service] in Hlook.
      destruct (find_named "openai-service" items) as [found|e] eqn:Ef; [|discriminate].
      injection Hlook as <-. rewrite required_credential in H.
      destruct (credential found "OPENAI_API_KEY") as [value|] eqn:Ec; [|discriminate].
      injection H as ->.
      destruct found as [service|]; [|discriminate].
      exists items, service. apply find_named_found in Ef.
      apply credential_entry in Ec. tauto.
    + intros services Hs. rewrite find_service_not_array by exact Hs. reflexivity.
  - intros (items & service & Hprov & Hfirst & Hentry & Htruthy).
    unfold init. rewrite (with_services_provided _ _ Hprov). cbn [find_service].
    apply find_named_found in Hfirst. rewrite Hfirst, required_credential.
    assert (Hc : credential (Some service) "OPENAI_API_KEY" = Some key)
      by (apply credential_entry; split; assumption).
    rewrite Hc. reflexivity.
Qed.

(** X13: only the first service named [openai-service] counts: when the
    environment names its services, what [init] does is settled by the
    credentials of that element, whatever stands behind it; without a truthy
    key there [init] throws, even if a later service of the name has one. *)
Theorem init_first_service_only (VCAP_SERVICES : option string) (items : list json)
    (service : json) :
  provides rt VCAP_SERVICES items ->
  first_named "openai-service" items service ->
  init rt VCAP_SERVICES
  = match credentials_entry "OPENAI_API_KEY" service with
    | Some key =>
        if truthy (Some key) then Normal key
        else Abrupt (Error "OPENAI_API_KEY not found in VCAP_SERVICES")
    | None => Abrupt (Error "OPENAI_API_KEY not found in VCAP_SERVICES")
    end.
Proof.
  intros Hprov Hfirst.
  unfold init. rewrite (with_services_provided _ _ Hprov). cbn [find_service].
  apply find_named_found in Hfirst. rewrite Hfirst, required_credential.
  destruct (credential (Some service) "OPENAI_API_KEY") as [value|] eqn:Ec.
  - apply credential_entry in Ec. destruct Ec as [-> ->]. reflexivity.
  - destruct (credentials_entry "OPENAI_API_KEY" service) as [key|] eqn:Ee; [|reflexivity].
    destruct (truthy (Some key)) eqn:Et; [|reflexivity].
    assert (Hc : credential (Some service) "OPENAI_API_KEY" = Some key)
      by (apply credential_entry; split; assumption).
    congruence.
Qed.

(** X14: how [init] fails: with [VCAP_SERVICES] unset or empty, or without
    [user-provided], it throws its own error; a text that is not JSON makes
    it throw the SyntaxError of [JSON.parse]; the text [null], a
    [user-provided] that is truthy but no array, and a [null] among the
    services when none is named [openai-service], make it throw a
    TypeError. *)
Theorem init_failures (text : string) :
  init rt None = Abrupt (Error "OPENAI_API_KEY not found in VCAP_SERVICES") /\
  init rt (Some ""%string) = Abrupt (Error "OPENAI_API_KEY not found in VCAP_SERVICES") /\
  (text <> ""%string -> JSON_parse rt text = None ->
   init rt (Some text) = Abrupt SyntaxError) /\
  (text <> ""%string -> JSON_parse rt text = Some JNull ->
   init rt (Some text) = Abrupt TypeError) /\
  (forall vcap,
      text <> ""%string -> JSON_parse rt text = Some (JObj vcap) ->
      property "user-provided" vcap = None ->
      init rt (Some text) = Abrupt (Error "OPENAI_API_KEY not found in VCAP_SERVICES")) /\
  (forall vcap services,
      text <> ""%string -> JSON_parse rt text = Some (JObj vcap) ->
      property "user-provided" vcap = Some services ->
      truthy (Some services) = true ->
      (forall items, services <> JArr items) ->
      init rt (Some text) = Abrupt TypeError) /\
  (forall vcap items,
      text <> ""%string -> JSON_parse rt text = Some (JObj vcap) ->
      property "user-provided" vcap = Some (JArr items) ->
      In JNull items ->
      (forall service, ~ first_named "openai-service" items service) ->
      init rt (Some text) = Abrupt TypeError).
Proof.
  split; [reflexivity|]. split; [reflexivity|].
  split; [|split; [|split; [|split]]].
  - intros Ht Hp. unfold init, with_services.
    rewrite (truthy_string_nonempty Ht), Hp. reflexivity.
  - intros Ht Hp. unfold init, with_services.
    rewrite (truthy_string_nonempty Ht), Hp. reflexivity.
  - intros vcap Ht Hp Hprop. unfold init, with_services.
    rewrite (truthy_string_nonempty Ht), Hp. cbn. rewrite Hprop. reflexivity.
  - intros vcap services Ht Hp Hprop Htruthy Hna. unfold init, with_services.
    rewrite (truthy_string_nonempty Ht), Hp. cbn. rewrite Hprop, Htruthy.
    rewrite find_service_not_array; [reflexivity|].
    intros items E. injection E as E. exact (Hna items E).
  - intros vcap items Ht Hp Hprop Hnull Hnone. unfold init, with_services.
    rewrite (truthy_string_nonempty Ht), Hp. cbn. rewrite Hprop. cbn.
    destruct (find_named_outcomes "openai-service" items) as [E|[E|(service & E)]].
    + rewrite E. reflexivity.
    + exfalso. clear Hnone Hprop. induction items as [|s items IH]; [contradiction|].
      cbn [find_named] in E. destruct Hnull as [->|Hin]; [discriminate|].
      destruct s as [| b | x | str | elements | fields]; cbn in E;
        try (apply IH; assumption); [discriminate|].
      destruct (property "name" fields) as [[| | |n| |]|]; try (apply IH; assumption).
      destruct (String.eqb n "openai-service"); [discriminate | apply IH; assumption].
    + exfalso. apply (Hnone service). apply find_named_found. exact E.
Qed.

(** X15: the test of the credentials spelled with [&&] and the one spelled
    with [?.] are the same function; and whenever the [init] that wants a key
    for Google Maps too succeeds, the plain [init] succeeds with the same key
    for OpenAI, and the other key is the truthy [GOOGLE_MAPS_API_KEY] of the
    first service named [google-maps-service]. *)
Theorem init_variants (VCAP_SERVICES : option string) :
  init_guarded rt VCAP_SERVICES = init rt VCAP_SERVICES /\
  (forall apiKey googleMapsApiKey,
      init_maps rt VCAP_SERVICES = Normal (apiKey, googleMapsApiKey) ->
      init rt VCAP_SERVICES = Normal apiKey /\
      truthy (Some googleMapsApiKey) = true /\
      exists items service,
        provides rt VCAP_SERVICES items /\
        first_named "google-maps-service" items service /\
        credentials_entry "GOOGLE_MAPS_API_KEY" service = Some googleMapsApiKey).
Proof.
  split.
  - unfold init_guarded, init.
    rewrite (@with_services_ext _ VCAP_SERVICES None _
               (fun services =>
                  match find_service services "openai-service" with
                  | Abrupt e => Abrupt e
                  | Normal openaiService =>
                      Normal (credential openaiService "OPENAI_API_KEY")
                  end)); [reflexivity|].
    intros services. destruct (find_service services "openai-service"); [|reflexivity].
    rewrite credential_guarded_eq. reflexivity.
  - intros apiKey mapsKey H. unfold init_maps in H.
    destruct (with_services _ _ _ _) as [[k m]|e] eqn:Ew; [|discriminate].
    apply with_services_looked_up in Ew.
    + destruct Ew as [E|(items & Hprov & Hlook)]; [injection E as -> ->; discriminate|].
      cbn [find_service] in Hlook.
      destruct (find_named "openai-service" items) as [openai|e] eqn:Eo; [|discriminate].
      destruct (find_named "google-maps-service" items) as [maps|e] eqn:Em; [|discriminate].
      injection Hlook as <- <-. rewrite !required_credential in H.
      destruct (credential openai "OPENAI_API_KEY") as [k|] eqn:Ek; [|discriminate].
      destruct (credential maps "GOOGLE_MAPS_API_KEY") as [m|] eqn:Emk; [|discriminate].
      injection H as -> ->.
      split; [|split].
      * unfold init. rewrite (with_services_provided _ _ Hprov). cbn [find_service].
        rewrite Eo, required_credential, Ek. reflexivity.
      * apply (credential_truthy _ _ Emk).
      * destruct maps as [service|]; [|discriminate].
        exists items, service. apply find_named_found in Em.
        apply credential_entry in Emk. tauto.
    + intros services Hs. rewrite find_service_not_array by exact Hs. reflexivity.
Qed.

End StartupLaws.

(** What X13 says of an environment in which a service named
    [openai-service] without credentials stands before the one with the
    key. *)
Lemma init_first_service_only_witness :
  init Cases.runtime (Some "shadowed"%string)
  = Abrupt (Error "OPENAI_API_KEY not found in VCAP_SERVICES").
Proof.
  apply (@init_first_service_only Cases.runtime (Some "shadowed"%string) Cases.shadowed
           (JObj [("name"%string, JStr "openai-service")])).
  - exists "shadowed"%string, [("user-provided"%string, JArr Cases.shadowed)].
    repeat split; discriminate.
  - exists [], [Cases.service "openai-service" "OPENAI_API_KEY" (JStr "sk-second")].
    repeat split. constructor.
Defined.

(** With the key on the first service of the name, [init] finds it, and so
    does the [init] that wants the key for Google Maps. *)
Example init_bound :
  init Cases.runtime (Some "bound"%string) = Normal (JStr "sk-first") /\
  init_maps Cases.runtime (Some "bound"%string)
  = Normal (JStr "sk-first", JStr "maps-1") /\
  init_maps Cases.runtime (Some "shadowed"%string)
  = Abrupt (Error "OPENAI_API_KEY not found in VCAP_SERVICES").
Proof. repeat split; reflexivity. Qed.


(** ** The handler [onFindClosest] *)

Section FindClosest.

Variable rt : Runtime.
Variable w : world.

(** The run of the handler for a prompt that is not empty. *)
Lemma onFindClosest_run (p : string) (s : state) :
  truthy_string p = true ->
  onFindClosest rt w (ReqObject (Some (Some p))) s
  = let s1 := after w s (EmbeddingsCreate p) in
    match embeddings_create w (issued s (EmbeddingsCreate p)) p with
    | Failure e =>
        (Ok (Rejected 500 ("Failed to find closest address: " ++ e)%string), s1)
    | Answer embedding =>
        let s2 := after w s1 SelectAddresses in
        match select_addresses w (issued s1 SelectAddresses) with
        | Failure e =>
            (Ok (Rejected 500 ("Failed to find closest address: " ++ e)%string), s2)
        | Answer addrs =>
            (Ok (Returned (fst (scan rt (normalizeL2 F64 (firstn 768 embedding)) addrs))),
             s2)
        end
    end.
Proof.
  intros Hp. unfold onFindClosest. rewrite Hp. cbn [negb].
  unfold try_catch, bind. rewrite call_run.
  destruct (embeddings_create w (issued s (EmbeddingsCreate p)) p) as [embedding|e];
    [|reflexivity].
  rewrite call_run. fold (after w s (EmbeddingsCreate p)).
  destruct (select_addresses w _) as [addrs|e]; reflexivity.
Qed.

(** X16: [onFindClosest] rejects a request without a prompt, or with the
    empty one, with status 400 before anything is called, and only such a
    request; for any other prompt the first call is the one to the embedding
    model, with the prompt as it is. *)
Theorem onFindClosest_prompt_required (prompt : option string) (s : state) :
  (fst (onFindClosest rt w (ReqObject (Some prompt)) s)
   = Ok (Rejected 400 "prompt is required")
   <-> prompt = None \/ prompt = Some ""%string) /\
  (prompt = None \/ prompt = Some ""%string ->
   snd (onFindClosest rt w (ReqObject (Some prompt)) s) = s) /\
  (forall p, prompt = Some p -> p <> ""%string ->
     exists rest,
       log (snd (onFindClosest rt w (ReqObject (Some prompt)) s))
       = log s ++ (now s, EmbeddingsCreate p) :: rest).
Proof.
  split; [|split].
  - split.
    + destruct prompt as [p|]; [|auto].
      destruct (truthy_string p) eqn:Ep.
      * rewrite onFindClosest_run by exact Ep. cbv zeta.
        destruct (embeddings_create _ _ _); [|discriminate].
        destruct (select_addresses _ _); discriminate.
      * intros _. right. unfold truthy_string in Ep.
        apply negb_false_iff, String.eqb_eq in Ep. subst. reflexivity.
    + intros [->| ->]; reflexivity.
  - intros [->| ->]; reflexivity.
  - intros p -> Hp. rewrite onFindClosest_run by (apply truthy_string_nonempty, Hp).
    cbv zeta. destruct (embeddings_create _ _ _).
    + destruct (select_addresses _ _); eexists; unfold after, issued; cbn [snd log];
        rewrite <- app_assoc; reflexivity.
    + exists []. reflexivity.
Qed.

(** X17: for a request with a prompt [onFindClosest] never throws: a
    failure of the embedding model, after which the table is not read, and a
    failure of the read of the table are both answered with status 500 and
    the message of what failed; nothing else is rejected. *)
Theorem onFindClosest_failures (p : string) (s : state) :
  truthy_string p = true ->
  let s1 := after w s (EmbeddingsCreate p) in
  (forall e,
      embeddings_create w (issued s (EmbeddingsCreate p)) p = Failure e ->
      onFindClosest rt w (ReqObject (Some (Some p))) s
      = (Ok (Rejected 500 ("Failed to find closest address: " ++ e)%string), s1)) /\
  (forall embedding e,
      embeddings_create w (issued s (EmbeddingsCreate p)) p = Answer embedding ->
      select_addresses w (issued s1 SelectAddresses) = Failure e ->
      onFindClosest rt w (ReqObject (Some (Some p))) s
      = (Ok (Rejected 500 ("Failed to find closest address: " ++ e)%string),
         after w s1 SelectAddresses)) /\
  (forall out, fst (onFindClosest rt w (ReqObject (Some (Some p))) s) = Ok out ->
     (exists found, out = Returned found) \/
     (exists e, out = Rejected 500 ("Failed to find closest address: " ++ e)%string)) /\
  (forall e, fst (onFindClosest rt w (ReqObject (Some (Some p))) s) <> Throw e).
Proof.
  intros Hp s1. rewrite onFindClosest_run by exact Hp. fold s1. cbv zeta.
  split; [|split; [|split]].
  - intros e ->. reflexivity.
  - intros embedding e -> ->. reflexivity.
  - intros out. destruct (embeddings_create _ _ _).
    + destruct (select_addresses _ _); intros H; cbn [fst] in H; injection H as <-;
        [left|right]; eexists; reflexivity.
    + intros H; cbn [fst] in H; injection H as <-. right; eexists; reflexivity.
  - intros e. destruct (embeddings_create _ _ _).
    + destruct (select_addresses _ _); discriminate.
    + discriminate.
Qed.

Lemma scan_best (q : list float) (addrs : list address_row) (best : address_row) :
  fst (scan rt q addrs) = Some best ->
  In best addrs /\ skipped rt q best = false /\
  gtb F64 (similarity rt q best) (neg_infinity F64) = true.
Proof.
  unfold scan.
  destruct (fold_scan_cases rt q addrs (None, neg_infinity F64))
    as [[Hfold _] | (i & b & Hfold & Hgt & Hnth & Hs & _)];
    rewrite Hfold; cbn [fst snd] in *; [discriminate|].
  intros H. injection H as <-.
  split; [eapply nth_error_In; eassumption|]. split; assumption.
Qed.

Lemma scan_nothing (q : list float) (addrs : list address_row) :
  (forall a, In a addrs -> skipped rt q a = false ->
             is_number (similarity rt q a) = false) ->
  fst (scan rt q addrs) = None.
Proof.
  intros H. destruct (fst (scan rt q addrs)) as [best|] eqn:E; [|reflexivity].
  apply scan_best in E. destruct E as (Hin & Hs & Hgt).
  specialize (H best Hin Hs). unfold is_number in H.
  apply (@gtb_unordered (similarity rt q best) (neg_infinity F64)) in H.
  destruct H as [H _]. congruence.
Qed.

(** X18: the row that [onFindClosest] returns is a row of the table whose
    stored embedding has as many components as the query vector, which are
    the first 768 of the embedding of the prompt at most, and whose
    similarity is a number: a stored embedding of more than 768 components is
    never returned. *)
Theorem onFindClosest_dimension (p : string) (s s' : state) (best : address_row) :
  onFindClosest rt w (ReqObject (Some (Some p))) s = (Ok (Returned (Some best)), s') ->
  exists embedding addrs dbEmb,
    embeddings_create w (issued s (EmbeddingsCreate p)) p = Answer embedding /\
    select_addresses w (issued (after w s (EmbeddingsCreate p)) SelectAddresses)
    = Answer addrs /\
    In best addrs /\
    parseEmbedding rt (EMBEDDING best) = Some dbEmb /\
    List.length dbEmb = Nat.min 768 (List.length embedding) /\
    (List.length dbEmb <= 768)%nat /\
    is_number (cosineSim F64 (normalizeL2 F64 (firstn 768 embedding)) dbEmb) = true.
Proof.
  destruct (truthy_string p) eqn:Hp; [|unfold onFindClosest; rewrite Hp; discriminate].
  rewrite onFindClosest_run by exact Hp. cbv zeta.
  destruct (embeddings_create _ _ _) as [embedding|e]; [|discriminate].
  destruct (select_addresses _ _) as [addrs|e]; [|discriminate].
  assert (Hl : List.length (normalizeL2 F64 (firstn 768 embedding))
               = Nat.min 768 (List.length embedding))
    by (etransitivity; [apply (normalizeL2_length F64) | apply length_firstn]).
  remember (normalizeL2 F64 (firstn 768 embedding)) as q eqn:Eq.
  intros H.
  assert (Hbest : fst (scan rt q addrs) = Some best) by congruence.
  apply scan_best in Hbest. destruct Hbest as (Hin & Hs & Hgt).
  unfold skipped, usable in Hs. unfold similarity in Hgt.
  destruct (parseEmbedding rt (EMBEDDING best)) as [dbEmb|]; [|discriminate].
  destruct (Nat.eqb _ _) eqn:El; [|discriminate].
  apply Nat.eqb_eq in El.
  assert (Hd : List.length dbEmb = Nat.min 768 (List.length embedding))
    by (rewrite El; exact Hl).
  exists embedding, addrs, dbEmb. rewrite <- Eq.
  repeat split; try assumption; try reflexivity.
  - lia.
  - destruct (is_number (cosineSim F64 q dbEmb)) eqn:En; [reflexivity|].
    unfold is_number in En.
    apply (@gtb_unordered _ (neg_infinity F64)) in En. destruct En as [En _].
    congruence.
Qed.

(** X19: when the embedding of the prompt is empty, or zero in its first
    768 components, [onFindClosest] returns [null] whatever the table holds:
    every similarity is NaN, and NaN is above nothing. *)
Theorem onFindClosest_zero_embedding (p : string) (s : state) (embedding : list float)
    (addrs : list address_row) :
  truthy_string p = true ->
  embeddings_create w (issued s (EmbeddingsCreate p)) p = Answer embedding ->
  Forall (fun x => is_zero x = true) (firstn 768 embedding) ->
  select_addresses w (issued (after w s (EmbeddingsCreate p)) SelectAddresses)
  = Answer addrs ->
  onFindClosest rt w (ReqObject (Some (Some p))) s
  = (Ok (Returned None), after w (after w s (EmbeddingsCreate p)) SelectAddresses).
Proof.
  intros Hp Hemb Hzero Hsel. rewrite onFindClosest_run by exact Hp. cbv zeta.
  rewrite Hemb, Hsel, normalizeL2_zero_vector by exact Hzero.
  rewrite scan_nothing; [reflexivity|].
  intros a _ _. unfold similarity.
  destruct (parseEmbedding rt (EMBEDDING a)); [|reflexivity].
  apply NaN_not_number, cosineSim_zero_NaN, Hzero.
Qed.

End FindClosest.

(** What X17 says of the request of the examples. *)
Lemma onFindClosest_failures_witness :
  exists out,
    fst (onFindClosest Demo.runtime (Demo.deployment false false)
           (Demo.post "near the river") Demo.start) = Ok out /\
    ((exists found, out = Returned found) \/
     (exists e, out = Rejected 500 ("Failed to find closest address: " ++ e)%string)).
Proof.
  eexists. split; [reflexivity|].
  apply (proj1 (proj2 (proj2 (@onFindClosest_failures Demo.runtime
           (Demo.deployment false false) "near the river" Demo.start eq_refl)))).
  reflexivity.
Defined.

(** What X18 says of the row returned in the examples. *)
Lemma onFindClosest_dimension_witness :
  exists embedding addrs dbEmb,
    embeddings_create (Demo.deployment false false)
      (issued Demo.start (EmbeddingsCreate "near the river")) "near the river"
    = Answer embedding /\
    select_addresses (Demo.deployment false false)
      (issued (after (Demo.deployment false false) Demo.start
                 (EmbeddingsCreate "near the river")) SelectAddresses)
    = Answer addrs /\
    In {| AddressID := 5; AddresseeFullName := Some "E"%string;
          EMBEDDING := Some " [0,1] "%string |} addrs /\
    parseEmbedding Demo.runtime (Some " [0,1] "%string) = Some dbEmb /\
    List.length dbEmb = Nat.min 768 (List.length embedding) /\
    (List.length dbEmb <= 768)%nat /\
    is_number (cosineSim F64 (normalizeL2 F64 (firstn 768 embedding)) dbEmb) = true.
Proof.
  eapply (@onFindClosest_dimension Demo.runtime (Demo.deployment false false)
            "near the river" Demo.start).
  vm_compute. reflexivity.
Defined.

(** What X19 says when the embedding model answers with the zero vector. *)
Lemma onFindClosest_zero_embedding_witness :
  onFindClosest Demo.runtime (Cases.embedding_as [0%float; 0%float])
    (Demo.post "near the river") Demo.start
  = (Ok (Returned None),
     after (Cases.embedding_as [0%float; 0%float])
       (after (Cases.embedding_as [0%float; 0%float]) Demo.start
          (EmbeddingsCreate "near the river")) SelectAddresses).
Proof.
  eapply (@onFindClosest_zero_embedding Demo.runtime
            (Cases.embedding_as [0%float; 0%float]) "near the river" Demo.start).
  - reflexivity.
  - reflexivity.
  - repeat constructor.
  - reflexivity.
Defined.

(** ** What a batch of [populateCoordinates] reports *)

Section BatchReport.

Variable w : world.

Lemma processClients_report (clients : list client) (res res' : results) (s s' : state) :
  processClients w res clients s = (Ok res', s') ->
  exists U F new,
    updated res' = updated res ++ U /\
    failed res' = failed res ++ F /\
    Permutation (recorded U F) (map entity clients) /\
    log s' = log s ++ new /\
    filter is_writing (events new) = map written U /\
    filter is_geocoding (events new) = map (geocoding) clients /\
    (now s + 1000 * N.of_nat (List.length clients) <= now s')%N.
Proof.
  revert res s. induction clients as [|c clients IH]; intros res s H.
  - cbn in H. injection H as <- <-. exists [], [], [].
    rewrite !app_nil_r. repeat split; try reflexivity. cbn. lia.
  - rewrite processClients_cons in H.
    destruct (processClient_cases w res c s)
      as [[_ Hrun] | [(_ & Hg & Hrun)
                     | (found & _ & Hg & [[_ Hrun] | (e & _ & Hrun)])]];
      rewrite Hrun in H; [discriminate| | |discriminate].
    + apply IH in H. destruct H as (U & F & new & HU & HF & Hperm & Hlog & Hw & Hgeo & Ht).
      exists U, (failed_entry_of c :: F),
        ((now s, geocoding c)
           :: (now (after w s (geocoding c)), SetTimeout 1000) :: new).
      cbn [as_failed updated failed] in HU, HF.
      split; [exact HU|]. split; [rewrite HF, <- app_assoc; reflexivity|].
      split.
      { unfold recorded in *. cbn [map].
        apply Permutation_sym, Permutation_cons_app, Permutation_sym. exact Hperm. }
      split.
      { rewrite Hlog. unfold slept, after, issued. cbn [log now].
        rewrite <- !app_assoc. reflexivity. }
      split; [exact Hw|]. split; [cbn; f_equal; exact Hgeo|].
      unfold slept, after in Ht. cbn [now] in Ht. cbn [List.length]. lia.
    + apply IH in H. destruct H as (U & F & new & HU & HF & Hperm & Hlog & Hw & Hgeo & Ht).
      exists ({| updated_id := ID c; updated_address := fullAddress c;
                 updated_lat := lat found; updated_lon := lon found |} :: U), F,
        ((now s, geocoding c)
           :: (now (after w s (geocoding c)), writing found c)
           :: (now (after w (after w s (geocoding c)) (writing found c)), SetTimeout 1000)
           :: new).
      cbn [as_updated updated failed] in HU, HF.
      split; [rewrite HU, <- app_assoc; reflexivity|]. split; [exact HF|].
      split.
      { unfold recorded in *. cbn [map app]. apply perm_skip. exact Hperm. }
      split.
      { rewrite Hlog. unfold slept, after, issued. cbn [log now].
        rewrite <- !app_assoc. reflexivity. }
      split; [cbn; f_equal; exact Hw|]. split; [cbn; f_equal; exact Hgeo|].
      unfold slept, after in Ht. cbn [now] in Ht. cbn [List.length]. lia.
Qed.

End BatchReport.

Lemma populateCoordinates_cases (w : world) (req : request) (s : state) :
  (exists e,
      select_clients_without_coordinates w (issued s SelectClientsWithoutCoordinates)
      = Failure e /\
      populateCoordinates w req s
      = reject req 500 ("Failed to populate coordinates: " ++ e)%string
          (after w s SelectClientsWithoutCoordinates)) \/
  (select_clients_without_coordinates w (issued s SelectClientsWithoutCoordinates)
   = Answer [] /\
   populateCoordinates w req s
   = (Ok (Returned
            {| message := "All clients already have coordinates or no clients found.";
               updated_list := None; failed_list := None |}),
      after w s SelectClientsWithoutCoordinates)) \/
  (exists clients,
      clients <> [] /\
      select_clients_without_coordinates w (issued s SelectClientsWithoutCoordinates)
      = Answer clients /\
      populateCoordinates w req s
      = match processClients w {| updated := []; failed := [] |} clients
                (after w s SelectClientsWithoutCoordinates) with
        | (Ok res, s') =>
            (Ok (Returned
                   {| message := ("Processed " ++ nat_toString (List.length clients)
                                  ++ " clients.")%string;
                      updated_list := Some (updated res);
                      failed_list := Some (failed res) |}), s')
        | (Throw e, s') =>
            reject req 500 ("Failed to populate coordinates: " ++ e)%string s'
        end).
Proof.
  destruct (select_clients_without_coordinates w (issued s SelectClientsWithoutCoordinates))
    as [[|c clients]|e] eqn:Hsel.
  - right. left. split; [reflexivity|].
    unfold populateCoordinates, try_catch, bind. rewrite call_run, Hsel. reflexivity.
  - right. right. exists (c :: clients). split; [discriminate|]. split; [reflexivity|].
    apply populateCoordinates_run; [exact Hsel | discriminate].
  - left. exists e. split; [reflexivity|].
    unfold populateCoordinates, try_catch, bind. rewrite call_run, Hsel. reflexivity.
Qed.

(** X20: whenever [populateCoordinates] returns its lists, whatever the
    answers of Nominatim and of the store were, every client that was read is
    in exactly one of them, the number in the message is the number of
    entries of the two lists together, each client was looked up once, in the
    order in which the store returned them, and the writes made to the store
    are those that [updated] reports, in its order and with its coordinates;
    with no client to process only the read is made. *)
Theorem populateCoordinates_report (w : world) (req : request) (s s' : state)
    (r : populated) :
  populateCoordinates w req s = (Ok (Returned r), s') ->
  exists clients,
    select_clients_without_coordinates w (issued s SelectClientsWithoutCoordinates)
    = Answer clients /\
    ((clients = [] /\ updated_list r = None /\ failed_list r = None /\
      log s' = log s ++ [(now s, SelectClientsWithoutCoordinates)]) \/
     (exists U F new,
         updated_list r = Some U /\ failed_list r = Some F /\
         Permutation (recorded U F) (map entity clients) /\
         message r = ("Processed " ++ nat_toString (List.length U + List.length F)
                      ++ " clients.")%string /\
         log s' = log s ++ (now s, SelectClientsWithoutCoordinates) :: new /\
         filter is_writing (events new) = map written U /\
         filter is_geocoding (events new) = map geocoding clients)).
Proof.
  intros H.
  destruct (populateCoordinates_cases w req s)
    as [(e & Hsel & Hrun) | [[Hsel Hrun] | (clients & Hne & Hsel & Hrun)]];
    rewrite Hrun in H.
  - destruct req; discriminate.
  - injection H as <- <-. exists []. split; [exact Hsel|]. left. repeat split.
  - destruct (processClients w _ clients _) as [[res|e] s1] eqn:Hp;
      [|destruct req; discriminate].
    injection H as <- <-. exists clients. split; [exact Hsel|]. right.
    apply processClients_report in Hp.
    destruct Hp as (U & F & new & HU & HF & Hperm & Hlog & Hw & Hgeo & _).
    cbn [updated failed app] in HU, HF. subst.
    exists (updated res), (failed res), new. cbn [updated_list failed_list message].
    repeat split; try assumption.
    + assert (Hlen : List.length clients
                     = (List.length (updated res) + List.length (failed res))%nat).
      { apply Permutation_length in Hperm. unfold recorded in Hperm.
        rewrite length_app, !length_map in Hperm. lia. }
      rewrite Hlen. reflexivity.
    + rewrite Hlog. unfold after, issued. cbn [log]. rewrite <- app_assoc. reflexivity.
Qed.

(** X21: a batch that returns its lists has taken 1000 ms at least for
    each client in them: the delay follows every client, the last one
    included. *)
Theorem populateCoordinates_duration (w : world) (req : request) (s s' : state)
    (r : populated) (U : list updated_entry) (F : list failed_entry) :
  populateCoordinates w req s = (Ok (Returned r), s') ->
  updated_list r = Some U -> failed_list r = Some F ->
  (now s + 1000 * N.of_nat (List.length U + List.length F) <= now s')%N.
Proof.
  intros H HU HF.
  destruct (populateCoordinates_cases w req s)
    as [(e & Hsel & Hrun) | [[Hsel Hrun] | (clients & Hne & Hsel & Hrun)]];
    rewrite Hrun in H.
  - destruct req; discriminate.
  - injection H as <- <-. discriminate.
  - destruct (processClients w _ clients _) as [[res|e] s1] eqn:Hp;
      [|destruct req; discriminate].
    injection H as <- <-. cbn [updated_list failed_list] in HU, HF.
    injection HU as <-. injection HF as <-.
    apply processClients_report in Hp.
    destruct Hp as (U & F & new & HU & HF & Hperm & _ & _ & _ & Ht).
    cbn [updated failed app] in HU, HF. subst.
    apply Permutation_length in Hperm. unfold recorded in Hperm.
    rewrite length_app, !length_map in Hperm. rewrite Hperm.
    unfold after in Ht. cbn [now] in Ht. lia.
Qed.

(** X22: for a request of CAP [populateCoordinates] never throws: it
    returns, or rejects the request with status 500 and the message of what
    failed; when the read of the clients fails, nothing else is called. *)
Theorem populateCoordinates_outcomes (w : world) (data : option (option string))
    (s : state) :
  (forall e,
      select_clients_without_coordinates w (issued s SelectClientsWithoutCoordinates)
      = Failure e ->
      populateCoordinates w (ReqObject data) s
      = (Ok (Rejected 500 ("Failed to populate coordinates: " ++ e)%string),
         after w s SelectClientsWithoutCoordinates)) /\
  (forall out,
      fst (populateCoordinates w (ReqObject data) s) = Ok out ->
      (exists r, out = Returned r) \/
      (exists e, out = Rejected 500 ("Failed to populate coordinates: " ++ e)%string)) /\
  (forall e, fst (populateCoordinates w (ReqObject data) s) <> Throw e).
Proof.
  destruct (populateCoordinates_cases w (ReqObject data) s)
    as [(e & Hsel & Hrun) | [[Hsel Hrun] | (clients & Hne & Hsel & Hrun)]];
    rewrite Hrun; (split; [|split]).
  - intros e' He'. rewrite Hsel in He'. injection He' as <-. reflexivity.
  - intros out H. cbn in H. injection H as <-. right. eexists. reflexivity.
  - intros e'. discriminate.
  - intros e He. congruence.
  - intros out H. cbn in H. injection H as <-. left. eexists. reflexivity.
  - intros e'. discriminate.
  - intros e He. congruence.
  - intros out. destruct (processClients w _ clients _) as [[res|e] s1]; intros H;
      cbn in H; injection H as <-; [left|right]; eexists; reflexivity.
  - intros e'. destruct (processClients w _ clients _) as [[res|e] s1]; discriminate.
Qed.

(** What X20 and X21 say of the batch of the examples: four clients, of
    which two are located. *)
Lemma populateCoordinates_report_witness :
  exists r s' U F new,
    populateCoordinates (Demo.deployment false false) (ReqObject None) Demo.start
    = (Ok (Returned r), s') /\
    updated_list r = Some U /\ failed_list r = Some F /\
    Permutation (recorded U F) (map entity [Demo.c2; Demo.c3; Demo.c4; Demo.c5]) /\
    log s' = log Demo.start ++ (now Demo.start, SelectClientsWithoutCoordinates) :: new /\
    filter is_writing (events new) = map written U /\
    filter is_geocoding (events new)
    = map geocoding [Demo.c2; Demo.c3; Demo.c4; Demo.c5].
Proof.
  destruct (populateCoordinates (Demo.deployment false false) (ReqObject None) Demo.start)
    as [[[r|code m]|e] s'] eqn:E; try (vm_compute in E; discriminate).
  destruct (populateCoordinates_report _ _ _ E) as (clients & Hsel & Hcases).
  assert (Hclients : clients = [Demo.c2; Demo.c3; Demo.c4; Demo.c5]).
  { cbn in Hsel. injection Hsel as <-. reflexivity. }
  subst clients.
  destruct Hcases as [(Hnil & _) | (U & F & new & HU & HF & Hperm & _ & Hlog & Hw & Hg)];
    [discriminate|].
  exists r, s', U, F, new. repeat split; assumption.
Defined.

Lemma populateCoordinates_duration_witness :
  exists r s' U F,
    populateCoordinates (Demo.deployment false false) (ReqObject None) Demo.start
    = (Ok (Returned r), s') /\
    updated_list r = Some U /\ failed_list r = Some F /\
    (List.length U + List.length F = 4)%nat /\
    (now Demo.start + 1000 * N.of_nat (List.length U + List.length F) <= now s')%N.
Proof.
  destruct (populateCoordinates (Demo.deployment false false) (ReqObject None) Demo.start)
    as [[[r|code m]|e] s'] eqn:E; try (vm_compute in E; discriminate).
  destruct (updated_list r) as [U|] eqn:HU;
    [|vm_compute in E; injection E as <- _; discriminate].
  destruct (failed_list r) as [F|] eqn:HF;
    [|vm_compute in E; injection E as <- _; discriminate].
  exists r, s', U, F. split; [reflexivity|]. split; [exact HU|]. split; [exact HF|].
  split.
  - vm_compute in E. injection E as <- _. cbn in HU, HF.
    injection HU as <-. injection HF as <-. reflexivity.
  - exact (populateCoordinates_duration _ _ _ E HU HF).
Defined.

(** ** The run of [queryLLM] *)

Lemma validOnly_located (ordered : list (option waypoint)) :
  forallb located_waypoint (validOnly ordered) = true.
Proof.
  induction ordered as [|[wp|] ordered IH]; cbn [validOnly]; [reflexivity| |exact IH].
  destruct (_ && _) eqn:E; [|exact IH].
  cbn [forallb]. unfold located_waypoint at 1. rewrite E, IH. reflexivity.
Qed.

Lemma find_address_named (addresses : list client) (relAddr : relevant) (addr : client) :
  find_address addresses relAddr = Some addr ->
  In addr addresses /\ Z_toString (ID addr) = addressId relAddr.
Proof.
  unfold find_address. intros H. apply find_some in H. destruct H as [Hin Heq].
  split; [exact Hin | apply String.eqb_eq, Heq].
Qed.

Lemma resolves_subsequence (addresses : list client) (entries : list relevant)
    (ordered : list (option waypoint)) :
  Forall2 (resolves addresses) entries ordered ->
  subsequence (map (fun wp => Z_toString (id wp)) (validOnly ordered))
    (map addressId entries) /\
  Forall (fun wp => exists addr, In addr addresses /\ waypoint_of addr wp)
    (validOnly ordered).
Proof.
  induction 1 as [|relAddr entry entries ordered Hres _ [IHs IHf]].
  - split; constructor.
  - unfold resolves in Hres.
    destruct (find_address addresses relAddr) as [addr|] eqn:Ef.
    + destruct Hres as (wp & -> & Hwp & _).
      apply find_address_named in Ef. destruct Ef as [Hin Hid].
      cbn [validOnly map]. destruct (_ && _).
      * split.
        -- cbn [map]. destruct Hwp as (Hwid & _). rewrite Hwid, Hid.
           apply subsequence_keep, IHs.
        -- constructor; [exists addr; split; assumption | exact IHf].
      * split; [apply subsequence_skip, IHs | exact IHf].
    + subst entry. cbn [validOnly map]. split; [apply subsequence_skip, IHs | exact IHf].
Qed.

Lemma subsequence_length (T : Type) (xs ys : list T) :
  subsequence xs ys -> (List.length xs <= List.length ys)%nat.
Proof. induction 1; cbn; lia. Qed.

(** X23: the waypoints of a response: each has a latitude and a longitude
    that are numbers other than 0, each stands for a row that the store
    returned and that an entry of [relevantAddresses] names, and they follow
    the order of the entries, of which there are no fewer. *)
Theorem queryLLM_waypoints (rt : Runtime) (w : world) (req : request) (s s' : state)
    (r : routed) :
  queryLLM rt w req s = (Ok (Returned r), s') ->
  let stops := waypoints (leafletMapData r) in
  let entries := relevantAddresses (response r) in
  forallb located_waypoint stops = true /\
  subsequence (map (fun wp => Z_toString (id wp)) stops) (map addressId entries) /\
  (List.length stops <= List.length entries)%nat /\
  exists addresses s2,
    select_clients_by_id w (issued s2 (SelectClientsById (map addressId entries)))
      (map addressId entries) = Answer addresses /\
    Forall (fun wp => exists addr, In addr addresses /\ waypoint_of addr wp) stops.
Proof.
  intros H stops entries.
  destruct (@queryLLM_run _ _ _ _ _ _ H)
    as (records & addresses & ordered & repair & writes & s2 & s5 & _ & _ & Hsel
        & Hres & Hstops & _).
  fold stops in Hstops. fold entries in Hres, Hsel.
  apply resolves_subsequence in Hres. destruct Hres as [Hsub Hrows].
  rewrite <- Hstops in Hsub, Hrows.
  split; [rewrite Hstops; apply validOnly_located|].
  split; [exact Hsub|]. split.
  - apply subsequence_length in Hsub. rewrite !length_map in Hsub. exact Hsub.
  - exists addresses, s2. split; assumption.
Qed.

(** X24: the object of the chat model that a response carries has its
    [confidence] and every [relevance] between 0 and 1. *)
Theorem queryLLM_response_valid (rt : Runtime) (w : world) (req : request)
    (s s' : state) (r : routed) :
  queryLLM rt w req s = (Ok (Returned r), s') -> valid_numbers (response r).
Proof.
  intros H.
  destruct (@queryLLM_run _ _ _ _ _ _ H)
    as (records & addresses & ordered & repair & writes & s2 & s5 & _ & Hchain & _).
  apply llmChain_invoke_log in Hchain. apply Hchain.
Qed.

Lemma filter_events_none (P Q : event -> bool) (h : history) :
  forallb P (events h) = true -> (forall e, P e = true -> Q e = false) ->
  filter (fun entry => Q (snd entry)) h = [].
Proof.
  intros HP HQ. induction h as [|[t e] h IH]; [reflexivity|].
  cbn [events map forallb snd] in HP. apply andb_true_iff in HP. destruct HP as [He Hh].
  cbn [filter snd]. rewrite (HQ e He). apply IH, Hh.
Qed.

Lemma filter_geocoding_all (t : N) (clients : list client) :
  filter (fun entry => is_geocoding (snd entry)) (map (fun c => (t, geocoding c)) clients)
  = map (fun c => (t, geocoding c)) clients.
Proof.
  induction clients as [|c clients IH]; [reflexivity|].
  cbn [map filter snd geocoding is_geocoding]. rewrite IH. reflexivity.
Qed.

(** X2: the requests that a run of [queryLLM] sends to Nominatim: one for
    each entry that names a row without a latitude or a longitude, in the
    order of the entries and as often as the row is named, all of them at the
    instant at which the rows have come back from the store; a row that has
    its coordinates is not looked up. *)
Theorem queryLLM_geocodes_missing (rt : Runtime) (w : world) (req : request)
    (s s' : state) (r : routed) :
  queryLLM rt w req s = (Ok (Returned r), s') ->
  let entries := relevantAddresses (response r) in
  exists addresses s2 new,
    select_clients_by_id w (issued s2 (SelectClientsById (map addressId entries)))
      (map addressId entries) = Answer addresses /\
    log s' = log s ++ new /\
    filter (fun entry => is_geocoding (snd entry)) new
    = map (fun c => (now (after w s2 (SelectClientsById (map addressId entries))),
                     geocoding c))
        (filter lacks_coordinates (named_clients addresses entries)).
Proof.
  intros H entries.
  destruct (@queryLLM_run _ _ _ _ _ _ H)
    as (records & addresses & ordered & repair & writes & s2 & s5 & _ & _ & Hsel
        & _ & _ & _ & Hroute & Hlog & Hrepair & _ & Hwrites).
  fold entries in Hsel, Hlog.
  rewrite getRouteGeometry_run in Hroute.
  exists addresses, s2.
  assert (Hr : filter (fun entry => is_geocoding (snd entry)) repair = []).
  { apply filter_events_none with (P := is_chat); [exact Hrepair|].
    intros [] He; try discriminate; reflexivity. }
  assert (Hw : filter (fun entry => is_geocoding (snd entry)) writes = []).
  { apply filter_events_none with (P := is_writing); [exact Hwrites|].
    intros [] He; try discriminate; reflexivity. }
  destruct (Nat.ltb _ 2).
  - injection Hroute as _ <-. eexists. split; [exact Hsel|]. split; [exact Hlog|].
    cbn [filter snd is_geocoding]. rewrite filter_app. cbn [filter snd is_geocoding].
    rewrite Hr, filter_app, filter_geocoding_all, Hw, app_nil_r. reflexivity.
  - injection Hroute as _ <-. eexists. split; [exact Hsel|]. split.
    + unfold after at 1. cbn [log]. unfold issued at 1. rewrite Hlog.
      rewrite <- app_assoc. reflexivity.
    + rewrite filter_app. cbn [filter snd is_geocoding]. rewrite filter_app.
      cbn [filter snd is_geocoding].
      rewrite Hr, filter_app, filter_geocoding_all, Hw, !app_nil_r. reflexivity.
Qed.

(** X25: the routing engine is asked at most once in a run of [queryLLM],
    after every other call, for the coordinates of the waypoints in their
    order, and only when there are two waypoints or more; with fewer the
    response has no geometry. *)
Theorem queryLLM_routes_once (rt : Runtime) (w : world) (req : request)
    (s s' : state) (r : routed) :
  queryLLM rt w req s = (Ok (Returned r), s') ->
  let stops := waypoints (leafletMapData r) in
  exists before,
    forallb (fun e => negb (is_routing e)) (events before) = true /\
    ((List.length stops < 2)%nat ->
     log s' = log s ++ before /\ routeGeometry (leafletMapData r) = None) /\
    ((2 <= List.length stops)%nat ->
     exists t, log s' = log s ++ before ++ [(t, FetchOsrm (map coords_of stops))]).
Proof.
  intros H stops.
  destruct (@queryLLM_run _ _ _ _ _ _ H)
    as (records & addresses & ordered & repair & writes & s2 & s5 & _ & _ & _
        & _ & _ & _ & Hroute & Hlog & Hrepair & _ & Hwrites).
  fold stops in Hroute. rewrite getRouteGeometry_run, length_map in Hroute.
  eexists. split; [|split].
  2: { intros Hlt. apply Nat.ltb_lt in Hlt. rewrite Hlt in Hroute.
       injection Hroute as <- <-. split; [exact Hlog | reflexivity]. }
  2: { intros Hge. apply Nat.ltb_ge in Hge. rewrite Hge in Hroute.
       injection Hroute as _ <-. exists (now s5).
       unfold after. cbn [log]. unfold issued. rewrite Hlog.
       rewrite <- app_assoc. reflexivity. }
  unfold events in *. cbn [map forallb snd is_routing negb andb].
  rewrite map_app, forallb_app. cbn [map forallb snd is_routing negb andb].
  rewrite map_app, forallb_app.
  assert (Hr : forallb (fun e => negb (is_routing e)) (map snd repair) = true).
  { clear - Hrepair. induction repair as [|[t e] h IH]; [reflexivity|].
    cbn [map forallb snd] in *. apply andb_true_iff in Hrepair.
    destruct Hrepair as [He Hh]. rewrite (IH Hh), andb_true_r.
    destruct e; try discriminate; reflexivity. }
  assert (Hw : forallb (fun e => negb (is_routing e)) (map snd writes) = true).
  { clear - Hwrites. induction writes as [|[t e] h IH]; [reflexivity|].
    cbn [map forallb snd] in *. apply andb_true_iff in Hwrites.
    destruct Hwrites as [He Hh]. rewrite (IH Hh), andb_true_r.
    destruct e; try discriminate; reflexivity. }
  rewrite Hr, Hw, andb_true_r. cbn [andb].
  apply forallb_forall. intros e He. rewrite map_map in He. apply in_map_iff in He.
  destruct He as (c & <- & _). reflexivity.
Qed.

Lemma within_ret (T : Type) (a : T) : within 0 (ret a).
Proof. intros s. cbn. lia. Qed.

Lemma within_reject (T : Type) (req : request) (code : N) (message : string) :
  within 0 (@reject T req code message).
Proof. intros s. destruct req; cbn; lia. Qed.

Lemma within_call (w : world) (T : Type) (e : event) (oracle : history -> reply T) :
  within 1 (call w e oracle).
Proof.
  intros s. rewrite call_run. destruct (oracle _); cbn [snd]; unfold after, issued;
    cbn [log]; rewrite length_app; cbn; lia.
Qed.

Lemma within_bind (n1 n2 : nat) (T U : Type) (m : M T) (k : T -> M U) :
  within n1 m -> (forall a, within n2 (k a)) -> within (n1 + n2) (bind m k).
Proof.
  intros Hm Hk s. unfold bind. specialize (Hm s).
  destruct (m s) as [[a|e] s1]; cbn [snd] in *.
  - specialize (Hk a s1). lia.
  - lia.
Qed.

Lemma within_try_catch (n1 n2 : nat) (T : Type) (body : M T) (handler : string -> M T) :
  within n1 body -> (forall e, within n2 (handler e)) ->
  within (n1 + n2) (try_catch body handler).
Proof.
  intros Hb Hh s. unfold try_catch. specialize (Hb s).
  destruct (body s) as [[a|e] s1]; cbn [snd] in *.
  - lia.
  - specialize (Hh e s1). lia.
Qed.

Lemma within_parser_parse (rt : Runtime) (text : string) : within 0 (parser_parse rt text).
Proof.
  intros s. unfold parser_parse. destruct (completion_json rt text); [|cbn; lia].
  destruct (safeParse outputSchema _); cbn; lia.
Qed.

Lemma within_llmChain_invoke (rt : Runtime) (w : world) (context : string)
    (query : query_value) :
  within 2 (llmChain_invoke rt w context query).
Proof.
  unfold llmChain_invoke, parserWithFix_parse.
  apply (@within_bind 1 1); [apply within_call|]. intros completion.
  apply (@within_try_catch 0 1); [apply within_parser_parse|]. intros e.
  apply (@within_bind 1 0); [apply within_call|]. intros repaired.
  apply within_parser_parse.
Qed.

Lemma within_mapsUrl_block (addresses : list string) : within 0 (mapsUrl_block addresses).
Proof.
  intros s.
  destruct (mapsUrl_block_run addresses s) as [(_ & link & -> & _) | (_ & ->)];
    cbn [snd]; lia.
Qed.

(** X27: [queryLLM] of the service without geocoding calls nothing but the
    vector search, the chat model with its repair and the read of the rows:
    it never writes to the store and never calls Nominatim or the routing
    engine, however the run ends. *)
Theorem MapsLink_queryLLM_calls (rt : Runtime) (w : world) (req : request) (s : state) :
  exists new,
    log (snd (MapsLink.queryLLM rt w req s)) = log s ++ new /\
    forallb is_retrieval (events new) = true /\
    forallb (fun e => negb (locating e)) (events new) = true /\
    (List.length new <= 4)%nat.
Proof.
  assert (H : emits is_retrieval (MapsLink.queryLLM rt w req)).
  { unfold MapsLink.queryLLM.
    destruct (falsy_query (query_of req)); [apply emits_reject|].
    apply emits_try_catch; [|intros e; apply emits_reject].
    unfold runVectorSearch.
    apply emits_bind; [apply emits_call; reflexivity|]. intros records.
    apply emits_bind.
    { apply emits_llmChain_invoke. intros []; try discriminate; reflexivity. }
    intros generated.
    apply emits_bind; [apply emits_call; reflexivity|]. intros addresses.
    apply emits_bind; [apply emits_mapsUrl_block|]. intros link.
    apply emits_ret. }
  assert (Hmax : within 4 (MapsLink.queryLLM rt w req)).
  { unfold MapsLink.queryLLM.
    destruct (falsy_query (query_of req)).
    { intros s0. pose proof (@within_reject MapsLink.linked req 400 "query is required" s0).
      lia. }
    apply (@within_try_catch 4 0); [|intros e; apply within_reject].
    unfold runVectorSearch.
    apply (@within_bind 1 3); [apply within_call|]. intros records.
    apply (@within_bind 2 1); [apply within_llmChain_invoke|]. intros generated.
    apply (@within_bind 1 0); [apply within_call|]. intros addresses.
    apply (@within_bind 0 0); [apply within_mapsUrl_block|]. intros link.
    apply within_ret. }
  destruct (H s) as (new & Hlog & Hnew).
  exists new. split; [exact Hlog|]. split; [exact Hnew|]. split.
  - clear - Hnew. unfold events in *. induction new as [|[t e] new IH]; [reflexivity|].
    cbn [map forallb snd] in *. apply andb_true_iff in Hnew. destruct Hnew as [He Hn].
    rewrite (IH Hn), andb_true_r. destruct e; try discriminate; reflexivity.
  - specialize (Hmax s). rewrite Hlog, length_app in Hmax. lia.
Qed.

Section Outcomes.

Variable rt : Runtime.
Variable w : world.

Lemma query_of_request (data : option (option string)) :
  falsy_query (query_of (ReqObject data)) = false.
Proof.
  destruct (falsy_query (query_of (ReqObject data))) eqn:E; [|reflexivity].
  apply falsy_query_of in E. discriminate.
Qed.

(** X26: for a request of CAP [queryLLM] never throws, in either routing
    service: it returns a response, or it rejects the request with status 500
    and the message of what failed; when the vector search fails nothing else
    is called. *)
Theorem queryLLM_rejects_with_500 (data : option (option string)) (s : state) :
  (exists out,
      fst (queryLLM rt w (ReqObject data) s) = Ok out /\
      ((exists r, out = Returned r) \/
       (exists e, out = Rejected 500 ("Failed to process query: " ++ e)%string))) /\
  (exists out,
      fst (MapsLink.queryLLM rt w (ReqObject data) s) = Ok out /\
      ((exists r, out = Returned r) \/
       (exists e, out = Rejected 500 ("Failed to process query: " ++ e)%string))) /\
  (forall e,
      let query := query_of (ReqObject data) in
      run_vector_search w (issued s (RunVectorSearch query)) query = Failure e ->
      queryLLM rt w (ReqObject data) s
      = (Ok (Rejected 500 ("Failed to process query: " ++ e)%string),
         after w s (RunVectorSearch query))).
Proof.
  split; [|split].
  - rewrite queryLLM_unfold, query_of_request. unfold try_catch.
    destruct (pipeline rt w _ s) as [[out|e] s1] eqn:E.
    + exists out. split; [reflexivity|]. left.
      apply pipeline_returns in E. exact E.
    + eexists. split; [reflexivity|]. right. eexists. reflexivity.
  - unfold MapsLink.queryLLM. rewrite query_of_request. unfold try_catch.
    match goal with |- context [bind ?m ?k s] => destruct (bind m k s) as [[out|e] s1] eqn:E end.
    + exists out. split; [reflexivity|]. left.
      apply bind_Ok in E. destruct E as (records & sa & _ & E).
      apply bind_Ok in E. destruct E as (generated & sb & _ & E).
      apply bind_Ok in E. destruct E as (addresses & sc & _ & E).
      apply bind_Ok in E. destruct E as (link & sd & _ & E).
      injection E as <- _. eexists. reflexivity.
    + eexists. split; [reflexivity|]. right. eexists. reflexivity.
  - intros e query He. rewrite queryLLM_unfold, query_of_request.
    unfold try_catch, pipeline, runVectorSearch. unfold bind at 1.
    rewrite call_run. fold query. rewrite He. reflexivity.
Qed.

End Outcomes.

(** What X2, X23, X24 and X25 say of the response that names the three first
    clients of the examples, of which the second and the third have no
    coordinates. *)
Lemma queryLLM_geocodes_missing_witness :
  exists r s' new,
    queryLLM Demo.runtime (Demo.deployment false false) (Demo.post "visit 1 2 3") Demo.start
    = (Ok (Returned r), s') /\
    log s' = log Demo.start ++ new /\
    filter (fun entry => is_geocoding (snd entry)) new
    = [(360%N, geocoding Demo.c2); (360%N, geocoding Demo.c3)].
Proof.
  destruct (queryLLM Demo.runtime (Demo.deployment false false) (Demo.post "visit 1 2 3")
              Demo.start) as [[[r|code message]|e] s'] eqn:E;
    try (vm_compute in E; discriminate).
  destruct (queryLLM_geocodes_missing _ _ _ _ E) as (addresses & s2 & new & _ & Hlog & _).
  exists r, s', new. split; [reflexivity|]. split; [exact Hlog|].
  vm_compute in E. injection E as _ <-. cbn [log] in Hlog.
  change (log Demo.start) with (@nil (N * event)) in Hlog. cbn [app] in Hlog.
  rewrite <- Hlog. reflexivity.
Defined.

Lemma queryLLM_waypoints_witness :
  exists r s',
    queryLLM Demo.runtime (Demo.deployment false false) (Demo.post "visit 1 2 3") Demo.start
    = (Ok (Returned r), s') /\
    forallb located_waypoint (waypoints (leafletMapData r)) = true /\
    subsequence (map (fun wp => Z_toString (id wp)) (waypoints (leafletMapData r)))
      (map addressId (relevantAddresses (response r))).
Proof.
  destruct (queryLLM Demo.runtime (Demo.deployment false false) (Demo.post "visit 1 2 3")
              Demo.start) as [[[r|code message]|e] s'] eqn:E;
    try (vm_compute in E; discriminate).
  exists r, s'. split; [reflexivity|].
  destruct (queryLLM_waypoints _ _ _ _ E) as (Hlocated & Hsub & _).
  split; assumption.
Defined.

Lemma queryLLM_response_valid_witness :
  exists r s',
    queryLLM Demo.runtime (Demo.deployment false false) (Demo.post "visit 1 2 3") Demo.start
    = (Ok (Returned r), s') /\
    valid_numbers (response r).
Proof.
  destruct (queryLLM Demo.runtime (Demo.deployment false false) (Demo.post "visit 1 2 3")
              Demo.start) as [[[r|code message]|e] s'] eqn:E;
    try (vm_compute in E; discriminate).
  exists r, s'. split; [reflexivity|]. exact (queryLLM_response_valid _ _ _ _ E).
Defined.

Lemma queryLLM_routes_once_witness :
  exists r s' before,
    queryLLM Demo.runtime (Demo.deployment false false) (Demo.post "visit 1 2 3") Demo.start
    = (Ok (Returned r), s') /\
    forallb (fun e => negb (is_routing e)) (events before) = true /\
    exists t,
      log s'
      = log Demo.start ++ before
        ++ [(t, FetchOsrm (map coords_of (waypoints (leafletMapData r))))].
Proof.
  destruct (queryLLM Demo.runtime (Demo.deployment false false) (Demo.post "visit 1 2 3")
              Demo.start) as [[[r|code message]|e] s'] eqn:E;
    try (vm_compute in E; discriminate).
  destruct (queryLLM_routes_once _ _ _ _ E) as (before & Hbefore & _ & Hmany).
  exists r, s', before. split; [reflexivity|]. split; [exact Hbefore|].
  apply Hmany. vm_compute in E. injection E as <- _. cbn. lia.
Defined.

(** ** Reading the table *)

(** X28: [readAddress] makes one call, the read of the table, and hands
    back the rows as the store answers them, or rejects the request with
    status 500 and the message of the store; and the row that
    [onFindClosest] returns is one of the rows that [readAddress] returns
    for the same answer of the store. *)
Theorem readAddress_rows (rt : Runtime) (w : world) (data : option (option string))
    (s : state) :
  readAddress w (ReqObject data) s
  = (match select_addresses w (issued s SelectAddresses) with
     | Answer rows => Ok (Returned rows)
     | Failure e => Ok (Rejected 500 ("Failed to read addresses: " ++ e)%string)
     end,
     after w s SelectAddresses) /\
  (forall p s0 s1 best,
      onFindClosest rt w (ReqObject (Some (Some p))) s0 = (Ok (Returned (Some best)), s1) ->
      exists rows,
        select_addresses w (issued (after w s0 (EmbeddingsCreate p)) SelectAddresses)
        = Answer rows /\
        readAddress w (ReqObject data) (after w s0 (EmbeddingsCreate p))
        = (Ok (Returned rows), s1) /\
        In best rows).
Proof.
  split.
  - unfold readAddress, try_catch, bind. rewrite call_run.
    destruct (select_addresses w (issued s SelectAddresses)); reflexivity.
  - intros p s0 s1 best H.
    destruct (truthy_string p) eqn:Hp; [|unfold onFindClosest in H; rewrite Hp in H; discriminate].
    rewrite (@onFindClosest_run rt w p s0 Hp) in H. cbv zeta in H.
    destruct (embeddings_create w _ p) as [embedding|e]; [|discriminate].
    destruct (select_addresses w _) as [rows|e] eqn:Hsel; [|discriminate].
    remember (normalizeL2 F64 (firstn 768 embedding)) as q eqn:Eq.
    assert (Hbest : fst (scan rt q rows) = Some best) by congruence.
    assert (Hs1 : after w (after w s0 (EmbeddingsCreate p)) SelectAddresses = s1)
      by congruence.
    apply scan_best in Hbest. destruct Hbest as (Hin & _).
    exists rows. split; [reflexivity|]. split; [|exact Hin].
    unfold readAddress, try_catch, bind. rewrite call_run, Hsel, <- Hs1. reflexivity.
Qed.

(** ** Ranking in the database *)

(** X29: in the services that rank in the database the handler of
    [findClosest] never reaches the embedding model: for a prompt that is not
    empty [getEmbedding] throws on reading [this.openai], nothing is called,
    and the request is rejected with status 500, whatever the rest of the
    handler would do; without a prompt it is rejected with status 400. *)
Theorem onFindClosest_ranked_fails (w : world) (T : Type)
    (rank : list float -> M (outcome T)) (prompt : option string) (s : state) :
  onFindClosest_ranked w rank (ReqObject (Some prompt)) s
  = (Ok match prompt with
        | None => Rejected 400 "prompt is required"
        | Some p =>
            if truthy_string p
            then Rejected 500 ("Failed to find closest address: "
                               ++ reading_undefined "openai")%string
            else Rejected 400 "prompt is required"
        end, s).
Proof.
  destruct prompt as [p|]; [|reflexivity].
  unfold onFindClosest_ranked. destruct (truthy_string p); reflexivity.
Qed.

(** ** The context of the chat model *)

Local Open Scope string_scope.

Lemma join_absent_sep (c : ascii) (sep : string) (parts : list string) :
  absent c sep = true ->
  Forall (fun part => absent c part = true) parts ->
  absent c (join sep parts) = true.
Proof.
  intros Hsep. induction 1 as [|part rest Hpart Hrest IH]; [reflexivity|].
  destruct rest as [|next rest]; [exact Hpart|].
  cbn [join] in *. rewrite !absent_app, Hpart, Hsep, IH. reflexivity.
Qed.

Lemma formatRecord_single_line (r : record) :
  single_line r = true -> absent (ascii_of_nat 10) (formatRecord r) = true.
Proof.
  intros H. unfold formatRecord. rewrite !absent_app.
  rewrite join_absent_sep; [reflexivity | reflexivity |].
  apply Forall_forall. intros part Hin. apply in_map_iff in Hin.
  destruct Hin as (column & <- & Hcol).
  unfold single_line in H. rewrite forallb_forall in H. specialize (H column Hcol).
  apply andb_true_iff in H. destruct H as [Hname Hvalue].
  rewrite !absent_app, Hname. unfold column_text in Hvalue. rewrite Hvalue. reflexivity.
Qed.

(** X30: the context that the chat model is given holds one line for each
    record of the vector search, in their order, when no column holds a line
    break; without records it is empty. *)
Theorem contextOf_lines (contextRecords : list record) :
  contextOf [] = "" /\
  (contextRecords <> [] ->
   forallb single_line contextRecords = true ->
   split_on (ascii_of_nat 10) (contextOf contextRecords)
   = map formatRecord contextRecords).
Proof.
  split; [reflexivity|]. intros Hne Hall. unfold contextOf, newline.
  apply split_join.
  - destruct contextRecords; [contradiction | discriminate].
  - apply Forall_forall. intros line Hin. apply in_map_iff in Hin.
    destruct Hin as (r & <- & Hr). apply formatRecord_single_line.
    rewrite forallb_forall in Hall. apply Hall, Hr.
Qed.

(** What X30 says of the record of the examples, whose second column is
    [null]. *)
Lemma contextOf_lines_witness :
  split_on (ascii_of_nat 10)
    (contextOf [[("ID", Some "1"); ("Region", None)]; [("ID", Some "2")]])
  = ["Address Record: {ID: 1, Region: N/A}"; "Address Record: {ID: 2}"].
Proof.
  rewrite (proj2 (contextOf_lines [[("ID", Some "1"); ("Region", None)]; [("ID", Some "2")]]));
    [reflexivity | discriminate | reflexivity].
Defined.
